(** * Timeline layout and routing engine of NovelCreate (TimelineView.tsx)

    A shallow embedding of the pure core of [src/components/TimelineView.tsx]:
    the date normalizer ([normalizeDate], [getDayKey]), the layout pass
    ([laneGeometries], [eventLayouts]), the connection router ([portUsage],
    [connectionPaths]), the hover highlighter ([highlightedEvents],
    [highlightedConnectionInfo]) and the drop-target resolver
    ([getDropTarget]); then the labels ([formatDisplayDate],
    [formatDisplayDayKey]) and the handlers of the component
    ([toggleEventExpansion], [handleStorylineDrop], [handleCanvasDragOver],
    [handleCanvasDrop], [handleConnectionEnd]), [handleDeleteScript] of
    [src/App.tsx], and the date the event form writes and reads back
    ([src/components/EventFormModal.tsx]).

    Modelling conventions.
    - A JavaScript string is the list of its UTF-16 code units ([list N]).
    - A JavaScript number is a binary64 double: the rational it stands for,
      or one of the three special values [PosInf], [NegInf], [NaN]. Sums,
      products and [parseFloat] round to the nearest double, ties to even,
      and overflow to an infinity ([round64]); the sign of zero is not kept.
      Module [DoubleRounding] compares [round64] with primitive binary64
      floats.
    - A JavaScript array is a list; its length is below 2^32 ([isArray]).
    - [Map] objects that are only looked up are [gmap]s; those the code
      iterates in insertion order are association lists. *)

From Stdlib Require Import ZArith QArith Qround Qpower Lqa Lia List String Ascii
  Floats Sorting.Sorted.
From stdpp Require Import base option list gmap.
Import ListNotations.

#[local] Open Scope Z_scope.
#[local] Set Default Proof Using "Type*".
#[local] Set Warnings "-clear-no-such-hyp,-level-tolerance".

(* ====================================================================== *)
(** ** JavaScript strings *)
(* ====================================================================== *)

Abbreviation jsstring := (list N).

Module Utf16.

(** Decoder from the UTF-8 bytes of a Rocq string literal to UTF-16 code
    units, used only to write literals legibly. *)
Fixpoint decode (fuel : nat) (bs : list N) : list N :=
  match fuel with
  | O => []
  | S fuel' =>
    match bs with
    | [] => []
    | b0 :: r0 =>
      if (b0 <? 128)%N then b0 :: decode fuel' r0
      else if (b0 <? 224)%N then
        match r0 with
        | b1 :: r1 => ((b0 - 192) * 64 + (b1 - 128))%N :: decode fuel' r1
        | _ => []
        end
      else if (b0 <? 240)%N then
        match r0 with
        | b1 :: b2 :: r2 =>
          ((b0 - 224) * 4096 + (b1 - 128) * 64 + (b2 - 128))%N :: decode fuel' r2
        | _ => []
        end
      else
        match r0 with
        | b1 :: b2 :: b3 :: r3 =>
          let cp := ((b0 - 240) * 262144 + (b1 - 128) * 4096
                     + (b2 - 128) * 64 + (b3 - 128))%N in
          let v := (cp - 65536)%N in
          (55296 + v / 1024)%N :: (56320 + v mod 1024)%N :: decode fuel' r3
        | _ => []
        end
    end
  end.

Definition js (s : string) : jsstring :=
  let bs := List.map N_of_ascii (list_ascii_of_string s) in
  decode (List.length bs) bs.

End Utf16.

Abbreviation js := Utf16.js.

(** ECMAScript WhiteSpace and LineTerminator code units: what [trim] strips
    and what [\s] matches. *)
Definition isWhiteSpace (c : N) : bool :=
  ((9 <=? c) && (c <=? 13) || (c =? 32) || (c =? 160) || (c =? 5760)
   || (8192 <=? c) && (c <=? 8202) || (c =? 8232) || (c =? 8233)
   || (c =? 8239) || (c =? 8287) || (c =? 12288) || (c =? 65279))%N.

Definition isDigit (c : N) : bool := ((48 <=? c) && (c <=? 57))%N.

Definition digitVal (c : N) : Z := Z.of_N c - 48.

Fixpoint dropWhile {A} (p : A -> bool) (l : list A) : list A :=
  match l with
  | [] => []
  | x :: l' => if p x then dropWhile p l' else l
  end.

Fixpoint takeWhile {A} (p : A -> bool) (l : list A) : list A :=
  match l with
  | [] => []
  | x :: l' => if p x then x :: takeWhile p l' else []
  end.

Definition trimStart (s : jsstring) : jsstring := dropWhile isWhiteSpace s.
Definition trimEnd (s : jsstring) : jsstring :=
  rev (dropWhile isWhiteSpace (rev s)).
Definition trim (s : jsstring) : jsstring := trimEnd (trimStart s).

(** [s.startsWith(p)], returning the rest [s.substring(p.length)]. *)
Fixpoint stripPrefix (p s : jsstring) : option jsstring :=
  match p, s with
  | [], _ => Some s
  | a :: p', b :: s' => if (a =? b)%N then stripPrefix p' s' else None
  | _ :: _, [] => None
  end.

Definition startsWith (s p : jsstring) : bool :=
  match stripPrefix p s with Some _ => true | None => false end.

(** [s.split('.')] keeps every piece; the code destructures the first two. *)
Fixpoint splitOn (sep : N) (s : jsstring) : list jsstring :=
  match s with
  | [] => [[]]
  | c :: s' =>
    if (c =? sep)%N then [] :: splitOn sep s'
    else match splitOn sep s' with
         | [] => [[c]]
         | h :: t => (c :: h) :: t
         end
  end.

Definition padEnd (n : nat) (c : N) (s : jsstring) : jsstring :=
  s ++ repeat c (n - length s).

(** Decimal value of a run of digits, most significant first. *)
Definition digitsVal (ds : jsstring) : Z :=
  fold_left (fun acc c => 10 * acc + digitVal c) ds 0.

(* ====================================================================== *)
(** ** JavaScript numbers *)
(* ====================================================================== *)

Inductive number : Type :=
  | Num (q : Q)
  | PosInf
  | NegInf
  | NaN.

Definition nneg (a : number) : number :=
  match a with
  | Num x => Num (- x)
  | PosInf => NegInf
  | NegInf => PosInf
  | NaN => NaN
  end.

(** *** Rounding to binary64 *)

(** The binade of a positive rational: the [e] with 2^e <= q < 2^(e+1). *)
Definition binade (q : Q) : Z :=
  let e0 := Z.log2 (Qnum q) - Z.log2 (Zpos (Qden q)) in
  if Qle_bool (2 ^ e0) q then e0 else e0 - 1.

(** The nearest integer, the even one of two that are equally near. *)
Definition roundHalfEven (q : Q) : Z :=
  let f := Qfloor q in
  match (q - inject_Z f ?= 1 # 2)%Q with
  | Lt => f
  | Gt => f + 1
  | Eq => if Z.even f then f else f + 1
  end.

(** The exponent of the unit in the last place of the doubles of binade
    [e]: 52 binary places below the leading bit, and never below that of
    the subnormal numbers. *)
Definition ulpExponent (e : Z) : Z := Z.max (e - 52) (-1074).

(** A positive rational rounded to the nearest multiple of the unit in the
    last place of its binade. *)
Definition nearest (a : Q) : Q :=
  let s := ulpExponent (binade a) in
  (inject_Z (roundHalfEven (a / 2 ^ s)) * 2 ^ s)%Q.

Definition roundPositive (a : Q) : number :=
  let r := nearest a in
  if Qle_bool (2 ^ 1024) r then PosInf else Num (Qred r).

(** The double nearest to a rational, ties to even; +Infinity or
    -Infinity from 2^1024 on. *)
Definition round64 (q : Q) : number :=
  match (q ?= 0)%Q with
  | Eq => Num 0
  | Gt => roundPositive q
  | Lt => nneg (roundPositive (- q))
  end.

(** *** Arithmetic *)

Definition nadd (a b : number) : number :=
  match a, b with
  | NaN, _ | _, NaN => NaN
  | PosInf, NegInf | NegInf, PosInf => NaN
  | PosInf, _ | _, PosInf => PosInf
  | NegInf, _ | _, NegInf => NegInf
  | Num x, Num y => round64 (x + y)
  end.

Definition nsub (a b : number) : number := nadd a (nneg b).

Definition nmul (a b : number) : number :=
  match a, b with
  | NaN, _ | _, NaN => NaN
  | Num x, Num y => round64 (x * y)
  | Num x, i | i, Num x =>
    match (x ?= 0)%Q with Eq => NaN | Gt => i | Lt => nneg i end
  | PosInf, PosInf | NegInf, NegInf => PosInf
  | _, _ => NegInf
  end.

(** A JavaScript array holds fewer than 2^32 elements. *)
Definition isArray {A : Type} (l : list A) : Prop :=
  Z.of_nat (length l) < 2 ^ 32.

(** [a || 0] on numbers: NaN and zero are falsy. *)
Definition orZero (a : number) : number :=
  match a with
  | NaN => Num 0
  | Num x => if Qeq_bool x 0 then Num 0 else Num x
  | _ => a
  end.

(** Equality and strict order of numbers as [==] and [<] see them. *)
Definition num_eq (a b : number) : Prop :=
  match a, b with
  | Num x, Num y => (x == y)%Q
  | PosInf, PosInf | NegInf, NegInf => True
  | _, _ => False
  end.

Definition num_lt (a b : number) : Prop :=
  match a, b with
  | Num x, Num y => (x < y)%Q
  | Num _, PosInf | NegInf, Num _ | NegInf, PosInf => True
  | _, _ => False
  end.

Definition num_ltb (a b : number) : bool :=
  match a, b with
  | Num x, Num y => negb (Qle_bool y x)
  | Num _, PosInf | NegInf, Num _ | NegInf, PosInf => true
  | _, _ => false
  end.

(** *** parseFloat *)

(** [10^e] as a rational, for any integer [e]. *)
Definition pow10 (e : Z) : Q :=
  if (0 <=? e) then inject_Z (10 ^ e) else (1 # Z.to_pos (10 ^ (- e))).

Definition str_Infinity : jsstring := [73; 110; 102; 105; 110; 105; 116; 121]%N.

(** Optional exponent part [[eE][+-]?digits]; absent or malformed is 0. *)
Definition parseExponent (s : jsstring) : Z :=
  match s with
  | c :: r =>
    if ((c =? 101) || (c =? 69))%N then
      let '(sg, r') :=
        match r with
        | d :: r'' => if (d =? 43)%N then (1, r'')
                      else if (d =? 45)%N then (-1, r'') else (1, r)
        | [] => (1, r)
        end in
      match takeWhile isDigit r' with
      | [] => 0
      | ds => sg * digitsVal ds
      end
    else 0
  | [] => 0
  end.

(** The unsigned part of a StrDecimalLiteral at the head of [s]: the double
    nearest to the decimal it writes. *)
Definition parseUnsigned (s : jsstring) : number :=
  if startsWith s str_Infinity then PosInf
  else
    let ip := takeWhile isDigit s in
    let r := dropWhile isDigit s in
    match r with
    | c :: r' =>
      if (c =? 46)%N then
        let fp := takeWhile isDigit r' in
        let r'' := dropWhile isDigit r' in
        match ip, fp with
        | [], [] => NaN
        | _, _ =>
          round64 (inject_Z (digitsVal (ip ++ fp))
                   * pow10 (parseExponent r'' - Z.of_nat (length fp)))
        end
      else
        match ip with
        | [] => NaN
        | _ => round64 (inject_Z (digitsVal ip) * pow10 (parseExponent r))
        end
    | [] =>
      match ip with
      | [] => NaN
      | _ => round64 (inject_Z (digitsVal ip))
      end
    end.

Definition parseFloat (s : jsstring) : number :=
  match trimStart s with
  | c :: r =>
    if (c =? 45)%N then nneg (parseUnsigned r)
    else if (c =? 43)%N then parseUnsigned r
    else parseUnsigned (c :: r)
  | [] => NaN
  end.

(* ====================================================================== *)
(** ** Date normalizer *)
(* ====================================================================== *)

(** The literals of the source, as code units. *)
Definition str_gongyuanqian : jsstring := [20844; 20803; 21069]%N.
Definition str_anchor : jsstring := [20844; 20803; 32426; 24180]%N.
Definition str_BCdash : jsstring := [66; 67; 45]%N.
Definition str_NoDate : jsstring := [78; 111; 68; 97; 116; 101]%N.

(** [^(?:公元前|BC)] under the [i] flag: the rest of the string after it. *)
Definition stripBC (s : jsstring) : option jsstring :=
  match stripPrefix str_gongyuanqian s with
  | Some r => Some r
  | None =>
    match s with
    | b :: c :: r =>
      if (((b =? 66) || (b =? 98)) && ((c =? 67) || (c =? 99)))%N
      then Some r else None
    | _ => None
    end
  end.

(** [/^(?:公元前|BC)\s*(\d+(\.\d+)?)/i]: capture group 1. *)
Definition bcMatch (s : jsstring) : option jsstring :=
  match stripBC s with
  | None => None
  | Some r =>
    let r1 := dropWhile isWhiteSpace r in
    match takeWhile isDigit r1 with
    | [] => None
    | ip =>
      match dropWhile isDigit r1 with
      | c :: r3 =>
        if (c =? 46)%N then
          match takeWhile isDigit r3 with
          | [] => Some ip
          | fp => Some (ip ++ 46%N :: fp)
          end
        else Some ip
      | [] => Some ip
      end
    end
  end.

(** [/^(?:公元前|BC)\s*(\d+)/i]: capture group 1. *)
Definition bcDayMatch (s : jsstring) : option jsstring :=
  match stripBC s with
  | None => None
  | Some r =>
    match takeWhile isDigit (dropWhile isWhiteSpace r) with
    | [] => None
    | ip => Some ip
    end
  end.

(** Exactly [n] digits at the head of [s]: the digits and the rest. *)
Fixpoint digitsN (n : nat) (s : jsstring) : option (jsstring * jsstring) :=
  match n with
  | O => Some ([], s)
  | S n' =>
    match s with
    | c :: r =>
      if isDigit c then
        match digitsN n' r with
        | Some (ds, r') => Some (c :: ds, r')
        | None => None
        end
      else None
    | [] => None
    end
  end.

Definition expect (c : N) (s : jsstring) : option jsstring :=
  match s with
  | d :: r => if (c =? d)%N then Some r else None
  | [] => None
  end.

Record GregorianMatch : Type := mkGregorianMatch {
  g_year : jsstring; g_month : jsstring; g_day : jsstring;
  g_time : option (jsstring * jsstring * jsstring)
}.

(** [(?:\s+(\d{2}):(\d{2}):(\d{2}))?] *)
Definition timeMatch (s : jsstring) : option (jsstring * jsstring * jsstring) :=
  match s with
  | c :: _ =>
    if isWhiteSpace c then
      '(h, r1) ← digitsN 2 (dropWhile isWhiteSpace s);
      r2 ← expect 58 r1;
      '(mi, r3) ← digitsN 2 r2;
      r4 ← expect 58 r3;
      '(se, _) ← digitsN 2 r4;
      Some (h, mi, se)
    else None
  | [] => None
  end.

(** [/^(\d{4})-(\d{2})-(\d{2})(?:\s+(\d{2}):(\d{2}):(\d{2}))?/] *)
Definition gregorianMatch (s : jsstring) : option GregorianMatch :=
  '(y, r1) ← digitsN 4 s;
  r2 ← expect 45 r1;
  '(m, r3) ← digitsN 2 r2;
  r4 ← expect 45 r3;
  '(d, r5) ← digitsN 2 r4;
  Some (mkGregorianMatch y m d (timeMatch r5)).

(** [/^(\d{4}-\d{2}-\d{2})/]: capture group 1. *)
Definition gregorianDayMatch (s : jsstring) : option jsstring :=
  '(y, r1) ← digitsN 4 s;
  r2 ← expect 45 r1;
  '(m, r3) ← digitsN 2 r2;
  r4 ← expect 45 r3;
  '(d, _) ← digitsN 2 r4;
  Some (y ++ 45%N :: m ++ 45%N :: d).

(** *** Date.UTC (ECMAScript MakeDay, MakeTime, MakeDate, TimeClip) *)

Definition msPerDay : Z := 86400000.

Definition DayFromYear (y : Z) : Z :=
  365 * (y - 1970) + (y - 1969) / 4 - (y - 1901) / 100 + (y - 1601) / 400.

Definition isLeapYear (y : Z) : bool :=
  (y mod 4 =? 0) && (negb (y mod 100 =? 0) || (y mod 400 =? 0)).

(** Day within the year of the first day of month [m] (0 = January). *)
Definition monthStart (leap : bool) (m : Z) : Z :=
  let l := if leap then 1 else 0 in
  match m with
  | 0 => 0 | 1 => 31 | 2 => 59 + l | 3 => 90 + l | 4 => 120 + l
  | 5 => 151 + l | 6 => 181 + l | 7 => 212 + l | 8 => 243 + l
  | 9 => 273 + l | 10 => 304 + l | _ => 334 + l
  end.

Definition MakeDay (year month date : Z) : Z :=
  let ym := year + month / 12 in
  let mn := month mod 12 in
  DayFromYear ym + monthStart (isLeapYear ym) mn + date - 1.

Definition MakeTime (hour minute sec ms : Z) : Z :=
  hour * 3600000 + minute * 60000 + sec * 1000 + ms.

Definition MakeDate (day time : Z) : Z := day * msPerDay + time.

Definition TimeClip (t : Z) : number :=
  if Z.abs t <=? 8640000000000000 then Num (inject_Z t) else NaN.

Definition DateUTC (year month date hour minute sec : Z) : number :=
  let yr := if (0 <=? year) && (year <=? 99) then 1900 + year else year in
  TimeClip (MakeDate (MakeDay yr month date) (MakeTime hour minute sec 0)).

Definition isNaN (a : number) : bool :=
  match a with NaN => true | _ => false end.

(** *** normalizeDate *)

Definition ERA_MULTIPLIER : Z := 100000000000000.

(** [eraOrder.findIndex(era => era === x)], [None] standing for -1. *)
Fixpoint findIndex (x : jsstring) (l : list jsstring) (i : Z) : option Z :=
  match l with
  | [] => None
  | e :: l' => if decide (e = x) then Some i else findIndex x l' (i + 1)
  end.

Definition anchorIndexOf (eraOrder : list jsstring) : Z :=
  match findIndex str_anchor eraOrder 0 with
  | None => 0
  | Some i => i
  end.

(** The body of the era branch for the era at index [i]. *)
Definition eraValue (valueStr : jsstring) : number :=
  let parts := splitOn 46 valueStr in
  let year := nth 0 parts [] in
  let fraction := nth 1 parts [] in
  let paddedFraction := padEnd 10 48 fraction in
  let numericValue := parseFloat (year ++ 46%N :: paddedFraction) in
  orZero numericValue.

Definition eraKey (i anchorIndex : Z) (valueStr : jsstring) : number :=
  let eraBaseValue :=
    nmul (Num (inject_Z (i - anchorIndex))) (Num (inject_Z ERA_MULTIPLIER)) in
  nadd eraBaseValue (eraValue valueStr).

(** The [for] loop over [eraOrder], from index [i] on. *)
Fixpoint eraLoop (trimmedDate : jsstring) (eras : list jsstring)
         (anchorIndex i : Z) : number :=
  match eras with
  | [] => PosInf
  | era :: rest =>
    match stripPrefix era trimmedDate with
    | Some r => eraKey i anchorIndex (trim r)
    | None => eraLoop trimmedDate rest anchorIndex (i + 1)
    end
  end.

Definition normalizeDate (dateString : jsstring) (eraOrder : list jsstring)
  : number :=
  match dateString with
  | [] => PosInf
  | _ =>
    let trimmedDate := trim dateString in
    match bcMatch trimmedDate with
    | Some g1 => nneg (parseFloat g1)
    | None =>
      match gregorianMatch trimmedDate with
      | Some g =>
        let '(hour, minute, second) :=
          match g_time g with
          | Some t => t
          | None => ([48; 48], [48; 48], [48; 48])%N
          end in
        let date := DateUTC (digitsVal (g_year g)) (digitsVal (g_month g) - 1)
                            (digitsVal (g_day g)) (digitsVal hour)
                            (digitsVal minute) (digitsVal second) in
        if isNaN date then PosInf else date
      | None => eraLoop trimmedDate eraOrder (anchorIndexOf eraOrder) 0
      end
    end
  end.

(** *** getDayKey *)

(** [s.indexOf(' ')] split: the part before the first space and the part
    after it, when there is one. *)
Fixpoint breakAtSpace (s : jsstring) : option (jsstring * jsstring) :=
  match s with
  | [] => None
  | c :: r =>
    if (c =? 32)%N then Some ([], r)
    else match breakAtSpace r with
         | Some (a, b) => Some (c :: a, b)
         | None => None
         end
  end.

Definition getDayKey (dateString : jsstring) : jsstring :=
  match dateString with
  | [] => str_NoDate
  | _ =>
    let trimmed := trim dateString in
    match bcDayMatch trimmed with
    | Some n => str_BCdash ++ n
    | None =>
      match gregorianDayMatch trimmed with
      | Some d => d
      | None =>
        match breakAtSpace trimmed with
        | Some (eraPart, rest) =>
          match eraPart with
          | [] => trimmed
          | _ => eraPart ++ 32%N :: nth 0 (splitOn 46 rest) []
          end
        | None => trimmed
        end
      end
    end
  end.

(* ====================================================================== *)
(** ** Data model (types.ts) *)
(* ====================================================================== *)

(** Only the fields the engine reads are kept. *)
Record Storyline : Type := mkStoryline { sl_id : jsstring }.

Record EventType : Type := mkEventType { et_id : jsstring }.

Record StoryEvent : Type := mkStoryEvent {
  ev_id : jsstring;
  ev_date : jsstring;
  ev_storylineId : option jsstring;   (* string | null *)
  ev_typeId : option jsstring         (* string | null *)
}.

Record EventConnection : Type := mkEventConnection {
  conn_id : jsstring;
  fromEventId : jsstring;
  toEventId : jsstring
}.

(** Truthiness of a string and of a [string | null]. *)
Definition truthy (s : jsstring) : bool :=
  match s with [] => false | _ => true end.

Definition truthyOpt (s : option jsstring) : bool :=
  match s with Some s' => truthy s' | None => false end.

(* ====================================================================== *)
(** ** Layout engine *)
(* ====================================================================== *)

#[local] Open Scope Q_scope.

Definition EVENT_WIDTH : Q := 200.
Definition EVENT_GAP : Q := 80.
Definition PADDING_X : Q := 20.
Definition EVENT_CARD_HEIGHT : Q := 120.
Definition CAPSULE_HEIGHT : Q := 40.
Definition SAME_DAY_VERTICAL_GAP : Q := 25.
Definition SAME_DAY_CONNECTED_EVENT_GAP : Q := 40.
Definition LANE_VERTICAL_PADDING : Q := 20.
Definition MIN_LANE_HEIGHT : Q := CAPSULE_HEIGHT + 2 * LANE_VERTICAL_PADDING.
Definition INDENTATION_STEP : Q := 20.
Definition MAX_INDENTATION_LEVEL : nat := 10.

Definition Qmax (a b : Q) : Q := if Qle_bool a b then b else a.

(** *** Array.prototype.sort

    The sort is stable; a comparator result that is positive moves the
    first argument after the second, and NaN counts as 0. *)
Section Sort.
Context {A : Type} (cmp : A -> A -> number).

Fixpoint insertSorted (x : A) (l : list A) : list A :=
  match l with
  | [] => [x]
  | y :: l' =>
    if num_ltb (Num 0) (cmp x y) then y :: insertSorted x l'
    else x :: y :: l'
  end.

Fixpoint sortBy (l : list A) : list A :=
  match l with
  | [] => []
  | x :: l' => insertSorted x (sortBy l')
  end.
End Sort.

(** *** Insertion-ordered [Map<string, T[]>] *)

Abbreviation groups := (list (jsstring * list StoryEvent)).

(** [if (!m.has(k)) m.set(k, []); m.get(k).push(e)] *)
Fixpoint pushGroup (k : jsstring) (e : StoryEvent) (m : groups) : groups :=
  match m with
  | [] => [(k, [e])]
  | (k', l) :: m' =>
    if decide (k' = k) then (k', l ++ [e]) :: m'
    else (k', l) :: pushGroup k e m'
  end.

Fixpoint getGroup (k : jsstring) (m : groups) : option (list StoryEvent) :=
  match m with
  | [] => None
  | (k', l) :: m' => if decide (k' = k) then Some l else getGroup k m'
  end.

Record ColumnGeo : Type := mkColumnGeo { col_x : Q; col_width : Q }.
Record LaneGeo : Type := mkLaneGeo { lane_y : Q; lane_height : Q }.

Record EventLayout : Type := mkEventLayout {
  x : Q; y : Q; width : Q; height : Q;
  event : StoryEvent; storyline : Storyline; eventType : EventType
}.

Section Layout.
Variable events : list StoryEvent.
Variable storylines : list Storyline.
Variable eventConnections : list EventConnection.
Variable eventTypes : list EventType.
Variable eraOrder : list jsstring.
Variable expandedEvents : gset jsstring.

Definition completeEvents : list StoryEvent :=
  List.filter (fun e => truthyOpt (ev_storylineId e) && truthyOpt (ev_typeId e)
                        && truthy (ev_date e)) events.

Definition sortedEvents : list StoryEvent :=
  sortBy (fun a b => nsub (normalizeDate (ev_date a) eraOrder)
                          (normalizeDate (ev_date b) eraOrder))
         completeEvents.

Definition eventsByDay : groups :=
  fold_left (fun m e => pushGroup (getDayKey (ev_date e)) e m) sortedEvents [].

(** [eventsByDay.get(k)![0].date] *)
Definition firstEventDate (k : jsstring) : jsstring :=
  match getGroup k eventsByDay with
  | Some (e :: _) => ev_date e
  | _ => []
  end.

Definition sortedUniqueDays : list jsstring :=
  sortBy (fun a b => nsub (normalizeDate (firstEventDate a) eraOrder)
                          (normalizeDate (firstEventDate b) eraOrder))
         (List.map fst eventsByDay).

(** [sameDayEvents.forEach((event, index) => levels.set(event.id, index))] *)
Fixpoint setLevels (evs : list StoryEvent) (index : nat)
         (levels : gmap jsstring nat) : gmap jsstring nat :=
  match evs with
  | [] => levels
  | e :: r => setLevels r (S index) (<[ev_id e := index]> levels)
  end.

Definition eventIndentationLevels : gmap jsstring nat :=
  fold_left (fun levels g => setLevels (snd g) 0 levels) eventsByDay ∅.

(** [Math.min(eventIndentationLevels.get(event.id) || 0, MAX_INDENTATION_LEVEL)] *)
Definition indentationLevel (e : StoryEvent) : nat :=
  Nat.min (default 0%nat (eventIndentationLevels !! ev_id e))
          MAX_INDENTATION_LEVEL.

Definition indentOffset (e : StoryEvent) : Q :=
  inject_Z (Z.of_nat (indentationLevel e)) * INDENTATION_STEP.

Definition columnContentWidth (sameDayEvents : list StoryEvent) : Q :=
  fold_left (fun maxEventWidth e =>
               let eventTotalWidth := indentOffset e + EVENT_WIDTH in
               if Qle_bool eventTotalWidth maxEventWidth
               then maxEventWidth else eventTotalWidth)
            sameDayEvents EVENT_WIDTH.

Definition dayColumnContentWidths : gmap jsstring Q :=
  fold_left (fun m g => <[fst g := columnContentWidth (snd g)]> m)
            eventsByDay ∅.

(** The loop over [sortedUniqueDays]: the map and the final [currentX]. *)
Definition columnStep (st : gmap jsstring ColumnGeo * Q) (dayKey : jsstring)
  : gmap jsstring ColumnGeo * Q :=
  let '(geos, currentX) := st in
  let contentWidth := default EVENT_WIDTH (dayColumnContentWidths !! dayKey) in
  (<[dayKey := mkColumnGeo currentX contentWidth]> geos,
   currentX + contentWidth + EVENT_GAP).

Definition columnLoop : gmap jsstring ColumnGeo * Q :=
  fold_left columnStep sortedUniqueDays (∅, PADDING_X).

Definition dayColumnGeometries : gmap jsstring ColumnGeo := fst columnLoop.

Definition canvasWidth : Q :=
  match sortedUniqueDays with
  | [] => 2 * PADDING_X
  | _ => snd columnLoop - EVENT_GAP
  end.

(** [eventsByStorylineAndDay]: one insertion-ordered day map per storyline
    id; an event whose storyline id is not a key is dropped. *)
Definition eventsByStorylineAndDay : gmap jsstring groups :=
  fold_left
    (fun m e =>
       match ev_storylineId e with
       | Some sid =>
         match m !! sid with
         | Some storylineMap =>
           <[sid := pushGroup (getDayKey (ev_date e)) e storylineMap]> m
         | None => m
         end
       | None => m
       end)
    sortedEvents
    (fold_left (fun m s => <[sl_id s := []]> m) storylines ∅).

Definition eventHeight (e : StoryEvent) : Q :=
  if decide (ev_id e ∈ expandedEvents) then EVENT_CARD_HEIGHT
  else CAPSULE_HEIGHT.

(** [eventConnections.some(conn => ...)] for two stacked neighbours. *)
Definition isConnected (e nextEvent : StoryEvent) : bool :=
  existsb (fun conn =>
             bool_decide (fromEventId conn = ev_id e
                          ∧ toEventId conn = ev_id nextEvent)
             || bool_decide (fromEventId conn = ev_id nextEvent
                             ∧ toEventId conn = ev_id e))
          eventConnections.

Definition gapAfter (e : StoryEvent) (rest : list StoryEvent) : Q :=
  match rest with
  | nextEvent :: _ =>
    if isConnected e nextEvent then SAME_DAY_CONNECTED_EVENT_GAP
    else SAME_DAY_VERTICAL_GAP
  | [] => SAME_DAY_VERTICAL_GAP
  end.

(** The height loop shared by [laneGeometries] and [eventLayouts]: card
    heights plus a gap between consecutive cards. *)
Fixpoint stackHeightOf (sameDayEvents : list StoryEvent) : Q :=
  match sameDayEvents with
  | [] => 0
  | e :: rest =>
    eventHeight e
    + match rest with [] => 0 | _ => gapAfter e rest end
    + stackHeightOf rest
  end.

Definition maxColumnHeightOf (storylineDayMap : groups) : Q :=
  fold_left (fun maxColumnHeight g => Qmax maxColumnHeight (stackHeightOf (snd g)))
            storylineDayMap 0.

Definition laneHeightOf (s : Storyline) : Q :=
  let maxColumnHeight :=
    match eventsByStorylineAndDay !! sl_id s with
    | Some storylineDayMap => maxColumnHeightOf storylineDayMap
    | None => 0
    end in
  Qmax MIN_LANE_HEIGHT (maxColumnHeight + 2 * LANE_VERTICAL_PADDING).

Definition laneStep (st : gmap jsstring LaneGeo * Q) (s : Storyline)
  : gmap jsstring LaneGeo * Q :=
  let '(geos, currentY) := st in
  let laneHeight := laneHeightOf s in
  (<[sl_id s := mkLaneGeo currentY laneHeight]> geos, currentY + laneHeight).

Definition laneLoop : gmap jsstring LaneGeo * Q :=
  fold_left laneStep storylines (∅, 0).

Definition laneGeometries : gmap jsstring LaneGeo := fst laneLoop.

Definition totalHeight : Q :=
  let currentY := snd laneLoop in
  if Qle_bool currentY 0 then MIN_LANE_HEIGHT else currentY.

(** The innermost loop of [eventLayouts]: an event whose type is not found
    is skipped by [continue], before [currentStackY] is advanced. *)
Fixpoint layoutStack (s : Storyline) (baseX : Q)
         (sameDayEvents : list StoryEvent) (currentStackY : Q)
         (layouts : gmap jsstring EventLayout) : gmap jsstring EventLayout :=
  match sameDayEvents with
  | [] => layouts
  | e :: rest =>
    match List.find (fun et => bool_decide (Some (et_id et) = ev_typeId e))
                    eventTypes with
    | None => layoutStack s baseX rest currentStackY layouts
    | Some et =>
      let h := eventHeight e in
      layoutStack s baseX rest (currentStackY + (h + gapAfter e rest))
        (<[ev_id e := mkEventLayout (baseX + indentOffset e) currentStackY
                                    EVENT_WIDTH h e s et]> layouts)
    end
  end.

Definition layoutDay (s : Storyline) (laneGeo : LaneGeo)
           (layouts : gmap jsstring EventLayout)
           (g : jsstring * list StoryEvent) : gmap jsstring EventLayout :=
  match dayColumnGeometries !! fst g with
  | None => layouts
  | Some columnGeo =>
    let stackHeight := stackHeightOf (snd g) in
    let stackStartY :=
      lane_y laneGeo + (lane_height laneGeo - stackHeight) / 2 in
    layoutStack s (col_x columnGeo) (snd g) stackStartY layouts
  end.

Definition layoutLane (layouts : gmap jsstring EventLayout) (s : Storyline)
  : gmap jsstring EventLayout :=
  match laneGeometries !! sl_id s with
  | None => layouts
  | Some laneGeo =>
    match eventsByStorylineAndDay !! sl_id s with
    | None => layouts
    | Some storylineDayMap =>
      fold_left (layoutDay s laneGeo) storylineDayMap layouts
    end
  end.

Definition eventLayouts : gmap jsstring EventLayout :=
  fold_left layoutLane storylines ∅.

End Layout.


(* ====================================================================== *)
(** ** Connection router *)
(* ====================================================================== *)

Definition Qlt_bool (a b : Q) : bool := negb (Qle_bool b a).

Inductive Side : Type := SideTop | SideBottom | SideLeft | SideRight.

(** An entry of [portUsage]: the running count and the total per side. *)
Record PortUsage : Type := mkPortUsage {
  u_top : nat; u_bottom : nat; u_left : nat; u_right : nat;
  u_topTotal : nat; u_bottomTotal : nat; u_leftTotal : nat; u_rightTotal : nat
}.

Definition zeroUsage : PortUsage := mkPortUsage 0 0 0 0 0 0 0 0.

(** [usage[port]] and [usage[`${port}Total`]] *)
Definition used (s : Side) (u : PortUsage) : nat :=
  match s with
  | SideTop => u_top u | SideBottom => u_bottom u
  | SideLeft => u_left u | SideRight => u_right u
  end.

Definition total (s : Side) (u : PortUsage) : nat :=
  match s with
  | SideTop => u_topTotal u | SideBottom => u_bottomTotal u
  | SideLeft => u_leftTotal u | SideRight => u_rightTotal u
  end.

(** [usage[port]++] and [usage.portTotal++] *)
Definition incr (s : Side) (u : PortUsage) : PortUsage :=
  match u with
  | mkPortUsage t b l r nt nb nl nr =>
    match s with
    | SideTop => mkPortUsage (S t) b l r nt nb nl nr
    | SideBottom => mkPortUsage t (S b) l r nt nb nl nr
    | SideLeft => mkPortUsage t b (S l) r nt nb nl nr
    | SideRight => mkPortUsage t b l (S r) nt nb nl nr
    end
  end.

Definition incrTotal (s : Side) (u : PortUsage) : PortUsage :=
  match u with
  | mkPortUsage t b l r nt nb nl nr =>
    match s with
    | SideTop => mkPortUsage t b l r (S nt) nb nl nr
    | SideBottom => mkPortUsage t b l r nt (S nb) nl nr
    | SideLeft => mkPortUsage t b l r nt nb (S nl) nr
    | SideRight => mkPortUsage t b l r nt nb nl (S nr)
    end
  end.

Definition Point : Type := (Q * Q)%type.

(** An entry of [connectionPaths]. The [path] string "M p0 C c1 c2 p3" is
    kept as its four points; [startPort] and [endPort] are the local
    variables of those names ([fromPort], [toPort] in the cross-day branch). *)
Record ConnectionPath : Type := mkConnectionPath {
  path : Point * Point * Point * Point;
  cp_from : Point;
  cp_to : Point;
  startPort : Side;
  endPort : Side
}.

(** [k / (total + 1)] *)
Definition portFraction (k n : nat) : Q :=
  inject_Z (Z.of_nat k) / (inject_Z (Z.of_nat n) + 1).

Definition Qabs' (a : Q) : Q := if Qle_bool 0 a then a else - a.

Section Router.
Variable layouts : gmap jsstring EventLayout.
Variable columns : gmap jsstring ColumnGeo.

(** [if (!portUsage.has(k)) portUsage.set(k, {all zero})] *)
Definition ensureUsage (k : jsstring) (portUsage : gmap jsstring PortUsage)
  : gmap jsstring PortUsage :=
  match portUsage !! k with
  | Some _ => portUsage
  | None => <[k := zeroUsage]> portUsage
  end.

(** First pass: one iteration of the loop that counts the totals. *)
Definition countStep (portUsage : gmap jsstring PortUsage)
           (conn : EventConnection) : gmap jsstring PortUsage :=
  match layouts !! fromEventId conn, layouts !! toEventId conn with
  | Some from, Some to =>
    let fromId := ev_id (event from) in
    let toId := ev_id (event to) in
    let pu := ensureUsage toId (ensureUsage fromId portUsage) in
    let fromDayKey := getDayKey (ev_date (event from)) in
    let toDayKey := getDayKey (ev_date (event to)) in
    if decide (fromDayKey = toDayKey) then
      if Qlt_bool (y from) (y to) then
        alter (incrTotal SideTop) toId (alter (incrTotal SideBottom) fromId pu)
      else
        alter (incrTotal SideBottom) toId (alter (incrTotal SideTop) fromId pu)
    else
      match columns !! fromDayKey, columns !! toDayKey with
      | Some fromColumnGeo, Some toColumnGeo =>
        if Qlt_bool (col_x fromColumnGeo) (col_x toColumnGeo) then
          alter (incrTotal SideLeft) toId (alter (incrTotal SideRight) fromId pu)
        else
          alter (incrTotal SideRight) toId (alter (incrTotal SideLeft) fromId pu)
      | _, _ => pu
      end
  | _, _ => portUsage
  end.

Definition countPorts (conns : list EventConnection) : gmap jsstring PortUsage :=
  fold_left countStep conns ∅.

(** [usage[port]++] through the reference obtained by [portUsage.get(k)!]:
    a property access on [undefined] is a TypeError, here [None]. *)
Definition bump (s : Side) (k : jsstring) (portUsage : gmap jsstring PortUsage)
  : option (gmap jsstring PortUsage) :=
  u ← portUsage !! k; Some (<[k := incr s u]> portUsage).

(** [usage[port] / (usage[`${port}Total`] + 1)] through the same reference. *)
Definition fractionAt (s : Side) (k : jsstring)
           (portUsage : gmap jsstring PortUsage) : option Q :=
  u ← portUsage !! k; Some (portFraction (used s u) (total s u)).

Definition RouterState : Type :=
  (gmap jsstring PortUsage * list (EventConnection * ConnectionPath))%type.

(** Second pass: one iteration of the loop that assigns the ports and
    builds the paths; the entries are listed in the order of the
    [connectionPaths.set] calls. *)
Definition routeStep (st : RouterState) (conn : EventConnection)
  : option RouterState :=
  let '(portUsage, paths) := st in
  match layouts !! fromEventId conn, layouts !! toEventId conn with
  | Some from, Some to =>
    let fromId := ev_id (event from) in
    let toId := ev_id (event to) in
    let fromDayKey := getDayKey (ev_date (event from)) in
    let toDayKey := getDayKey (ev_date (event to)) in
    if decide (fromDayKey = toDayKey) then
      let isFromOnTop := Qlt_bool (y from) (y to) in
      let startPort := if isFromOnTop then SideBottom else SideTop in
      let endPort := if isFromOnTop then SideTop else SideBottom in
      pu1 ← bump startPort fromId portUsage;
      pu2 ← bump endPort toId pu1;
      f1 ← fractionAt startPort fromId pu2;
      let startX := x from + width from * f1 in
      let startY := if isFromOnTop then y from + height from else y from in
      f2 ← fractionAt endPort toId pu2;
      let endX := x to + width to * f2 in
      let endY := if isFromOnTop then y to else y to + height to in
      let verticalOffset := Qabs' (endY - startY) / 2 in
      let curveDirection := if isFromOnTop then 1 else -1 in
      let p := mkConnectionPath
                 ((startX, startY),
                  (startX, startY + verticalOffset * curveDirection),
                  (endX, endY - verticalOffset * curveDirection),
                  (endX, endY))
                 (startX, startY) (endX, endY) startPort endPort in
      Some (pu2, paths ++ [(conn, p)])
    else
      match columns !! fromDayKey, columns !! toDayKey with
      | Some fromColumnGeo, Some toColumnGeo =>
        let isForward := Qlt_bool (col_x fromColumnGeo) (col_x toColumnGeo) in
        let fromX := if isForward then x from + width from else x from in
        let fromPort := if isForward then SideRight else SideLeft in
        pu1 ← bump fromPort fromId portUsage;
        f1 ← fractionAt fromPort fromId pu1;
        let fromY := y from + height from * f1 in
        let toX := if isForward then x to else x to + width to in
        let toPort := if isForward then SideLeft else SideRight in
        pu2 ← bump toPort toId pu1;
        f2 ← fractionAt toPort toId pu2;
        let toY := y to + height to * f2 in
        let controlPointOffset := (toX - fromX) * (1 # 2) in
        let p := mkConnectionPath
                   ((fromX, fromY),
                    (fromX + controlPointOffset, fromY),
                    (toX - controlPointOffset, toY),
                    (toX, toY))
                   (fromX, fromY) (toX, toY) fromPort toPort in
        Some (pu2, paths ++ [(conn, p)])
      | _, _ => Some st
      end
  | _, _ => Some st
  end.

Fixpoint routeLoop (st : RouterState) (conns : list EventConnection)
  : option RouterState :=
  match conns with
  | [] => Some st
  | conn :: rest => st' ← routeStep st conn; routeLoop st' rest
  end.

(** Both passes; [None] is an uncaught TypeError. *)
Definition route (conns : list EventConnection)
  : option (list (EventConnection * ConnectionPath)) :=
  st ← routeLoop (countPorts conns, []) conns; Some (snd st).

(** The [Map] filled by the [connectionPaths.set(conn.id, ...)] calls. *)
Definition pathsMap (routed : list (EventConnection * ConnectionPath))
  : gmap jsstring ConnectionPath :=
  fold_left (fun m cp => <[conn_id (fst cp) := snd cp]> m) routed ∅.

Definition connectionPaths (conns : list EventConnection)
  : option (gmap jsstring ConnectionPath) :=
  pathsMap <$> route conns.

End Router.

(* ====================================================================== *)
(** ** Highlight / component colorer *)
(* ====================================================================== *)

Definition HIGHLIGHT_COLORS : list string :=
  ["#3b82f6"; "#10b981"; "#f97316"; "#8b5cf6"; "#ef4444"; "#eab308";
   "#ec4899"]%string.

Record HighlightInfo : Type := mkHighlightInfo {
  hl_color : string;
  hl_index : nat
}.

Section Highlight.
Variable eventConnections : list EventConnection.

(** The body of [for (const conn of eventConnections)] inside the BFS. *)
Definition visitStep (currentEventId : jsstring)
           (st : gset jsstring * list jsstring) (conn : EventConnection)
  : gset jsstring * list jsstring :=
  let '(visited, queue) := st in
  let neighborId : option jsstring :=
    if decide (fromEventId conn = currentEventId) then Some (toEventId conn)
    else if decide (toEventId conn = currentEventId) then Some (fromEventId conn)
    else None in
  match neighborId with
  | Some n =>
    if truthy n && negb (bool_decide (n ∈ visited))
    then ({[n]} ∪ visited, queue ++ [n])
    else st
  | None => st
  end.

(** The [while (queue.length > 0)] loop; [None] when the fuel runs out
    before the queue is empty. *)
Fixpoint bfsLoop (fuel : nat) (queue : list jsstring)
         (visited componentEvents : gset jsstring) : option (gset jsstring) :=
  match queue with
  | [] => Some componentEvents
  | currentEventId :: queue' =>
    match fuel with
    | O => None
    | S fuel' =>
      let '(visited', queue'') :=
        fold_left (visitStep currentEventId) eventConnections (visited, queue') in
      bfsLoop fuel' queue'' visited' ({[currentEventId]} ∪ componentEvents)
    end
  end.

(** Every event id enters the queue at most once, and only the hovered id
    and endpoints of connections ever do. *)
Definition bfsFuel : nat := S (2 * length eventConnections).

Definition componentOf (hoveredEventId : jsstring) : option (gset jsstring) :=
  bfsLoop bfsFuel [hoveredEventId] {[hoveredEventId]} ∅.

(** [let colorIndex = 0; while (used.has(colorIndex)) colorIndex++]. *)
Fixpoint firstFree (fuel : nat) (usedColorIndices : gset nat) (colorIndex : nat)
  : nat :=
  match fuel with
  | O => colorIndex
  | S fuel' =>
    if decide (colorIndex ∈ usedColorIndices)
    then firstFree fuel' usedColorIndices (S colorIndex)
    else colorIndex
  end.

Definition smallestFree (usedColorIndices : gset nat) : nat :=
  firstFree (size usedColorIndices) usedColorIndices 0.

Definition ColorState : Type :=
  (gmap jsstring (gset nat) * list (EventConnection * HighlightInfo))%type.

(** One iteration of [for (const conn of componentConnections)]; the
    entries are listed in the order of the [connectionsToHighlight.set]
    calls. *)
Definition colorStep (st : ColorState) (conn : EventConnection) : ColorState :=
  let '(nodeColorUsage, out) := st in
  let fromId := fromEventId conn in
  let toId := toEventId conn in
  let usedFrom := default ∅ (nodeColorUsage !! fromId) in
  let usedTo := default ∅ (nodeColorUsage !! toId) in
  let usedColorIndices := usedFrom ∪ usedTo in
  let colorIndex := smallestFree usedColorIndices in
  let finalColorIndex := (colorIndex mod length HIGHLIGHT_COLORS)%nat in
  let info := mkHighlightInfo (nth finalColorIndex HIGHLIGHT_COLORS EmptyString)
                              finalColorIndex in
  let ncu1 := <[fromId := {[finalColorIndex]} ∪ usedFrom]> nodeColorUsage in
  let ncu2 := <[toId := {[finalColorIndex]} ∪ default ∅ (ncu1 !! toId)]> ncu1 in
  (ncu2, out ++ [(conn, info)]).

Definition colorConnections (componentConnections : list EventConnection)
  : list (EventConnection * HighlightInfo) :=
  snd (fold_left colorStep componentConnections (∅, [])).

Definition infoMap (l : list (EventConnection * HighlightInfo))
  : gmap jsstring HighlightInfo :=
  fold_left (fun m ci => <[conn_id (fst ci) := snd ci]> m) l ∅.

Definition componentConnectionsOf (componentEvents : gset jsstring)
  : list EventConnection :=
  List.filter (fun conn => bool_decide (fromEventId conn ∈ componentEvents)
                           && bool_decide (toEventId conn ∈ componentEvents))
              eventConnections.

(** The [useMemo] that yields [highlightedEvents] and
    [highlightedConnectionInfo], with the assignments behind the latter. *)
Definition highlight (hoveredEventId : option jsstring)
  : option (gset jsstring * list (EventConnection * HighlightInfo)) :=
  if truthyOpt hoveredEventId then
    componentEvents ← componentOf (default [] hoveredEventId);
    Some (componentEvents,
          colorConnections (componentConnectionsOf componentEvents))
  else Some (∅, []).

Definition highlightedEvents (hoveredEventId : option jsstring)
  : option (gset jsstring) :=
  fst <$> highlight hoveredEventId.

Definition highlightedConnectionInfo (hoveredEventId : option jsstring)
  : option (gmap jsstring HighlightInfo) :=
  (fun r => infoMap (snd r)) <$> highlight hoveredEventId.

End Highlight.

(* ====================================================================== *)
(** ** Drop-target resolver *)
(* ====================================================================== *)

(** *** The Date object (ECMAScript time values, in milliseconds) *)

#[local] Open Scope Z_scope.

Definition Day (t : Z) : Z := t / msPerDay.
Definition TimeWithinDay (t : Z) : Z := t mod msPerDay.

(** YearFromTime: the largest [y] with [DayFromYear y <= d], found from an
    estimate that is off by at most one. *)
Definition YearFromDay (d : Z) : Z :=
  let e := 1970 + (d * 400) / 146097 in
  if DayFromYear (e + 1) <=? d then e + 1
  else if DayFromYear e <=? d then e
  else e - 1.

(** MonthFromTime, from the day within the year (0 = January). *)
Definition MonthFromDayInYear (leap : bool) (n : Z) : Z :=
  if n <? monthStart leap 1 then 0
  else if n <? monthStart leap 2 then 1
  else if n <? monthStart leap 3 then 2
  else if n <? monthStart leap 4 then 3
  else if n <? monthStart leap 5 then 4
  else if n <? monthStart leap 6 then 5
  else if n <? monthStart leap 7 then 6
  else if n <? monthStart leap 8 then 7
  else if n <? monthStart leap 9 then 8
  else if n <? monthStart leap 10 then 9
  else if n <? monthStart leap 11 then 10
  else 11.

(** (YearFromTime, MonthFromTime, DateFromTime) of a day number. *)
Definition civilFromDay (d : Z) : Z * Z * Z :=
  let yr := YearFromDay d in
  let n := d - DayFromYear yr in
  let m := MonthFromDayInYear (isLeapYear yr) n in
  (yr, m, n - monthStart (isLeapYear yr) m + 1).

Definition DaysInMonth (yr m : Z) : Z :=
  match m with
  | 1 => if isLeapYear yr then 29 else 28
  | 3 | 5 | 8 | 10 => 30
  | _ => 31
  end.

(** [w] decimal digits of [v], most significant first. *)
Fixpoint fixedDigits (w : nat) (v : Z) : jsstring :=
  match w with
  | O => []
  | S w' => fixedDigits w' (v / 10) ++ [Z.to_N (48 + v mod 10)]
  end.

(** The date part of [toISOString()]: years outside 0..9999 are written
    with a sign and six digits. *)
Definition isoYear (yr : Z) : jsstring :=
  if (0 <=? yr) && (yr <=? 9999) then fixedDigits 4 yr
  else (if 0 <=? yr then 43%N else 45%N) :: fixedDigits 6 (Z.abs yr).

Definition isoDate (ymd : Z * Z * Z) : jsstring :=
  let '(yr, m, d) := ymd in
  isoYear yr ++ 45%N :: fixedDigits 2 (m + 1) ++ 45%N :: fixedDigits 2 d.

(** [new Date("YYYY-MM-DD")] on the text matched by the pattern: the UTC
    midnight of a date of the calendar, and an invalid Date ([None])
    otherwise. Engines differ on a day of the month past the month's end,
    which the date-time string format excludes: some return an invalid
    Date, others roll a day up to 31 over into the next month. The strict
    reading is taken; the theorems on the drop target state a result only
    for a date of the calendar, and a throw only as what an invalid one can
    cause, so they hold on both readings. *)
Definition parseISODate (s : jsstring) : option Z :=
  let yr := digitsVal (firstn 4 s) in
  let m := digitsVal (firstn 2 (skipn 5 s)) in
  let d := digitsVal (firstn 2 (skipn 8 s)) in
  if (1 <=? m) && (m <=? 12) && (1 <=? d) && (d <=? DaysInMonth yr (m - 1))
  then Some (MakeDate (MakeDay yr (m - 1) d) 0)
  else None.

Definition str_midnight : jsstring := [32; 48; 48; 58; 48; 48; 58; 48; 48]%N.

Inductive DropResult : Type :=
  | Throws
  | Returns (target : option (jsstring * jsstring)).

Section DropTarget.
Variable storylines : list Storyline.
Variable laneGeometries : gmap jsstring LaneGeo.
Variable sortedUniqueDays : list jsstring.
Variable eventsByDay : groups.
Variable dayColumnGeometries : gmap jsstring ColumnGeo.
(** [new Date().toISOString().split('T')[0]], read from the clock. *)
Variable todayISO : jsstring.
(** LocalTZA(t, isUTC) of the host: the offset of local time from UTC in
    milliseconds, at the UTC instant [t] ([isUTC = true]) or at the local
    time value [t] ([isUTC = false]). *)
Variable localTZA : Z -> bool -> Z.

(** [lastDate.setDate(lastDate.getDate() + 1)] on a valid time value:
    both work on local time. *)
Definition addLocalDay (t : Z) : Z :=
  let local := t + localTZA t true in
  let '(yr, m, d) := civilFromDay (Day local) in
  let newDate := MakeDate (MakeDay yr m (d + 1)) (TimeWithinDay local) in
  newDate - localTZA newDate false.

(** [toISOString().split('T')[0]] of a time value in range. *)
Definition isoDateOf (t : Z) : jsstring := isoDate (civilFromDay (Day t)).

(** The loop over [sortedUniqueDays]: the date of the first column whose
    right edge plus half the gap lies beyond [xPos]. [inl tt] is a
    TypeError, [inr None] is [foundColumn = false]. *)
Fixpoint findColumn (xPos : Q) (days : list jsstring)
  : unit + option jsstring :=
  match days with
  | [] => inr None
  | dayKey :: rest =>
    match dayColumnGeometries !! dayKey with
    | None => inl tt
    | Some geo =>
      let columnEnd := (col_x geo + col_width geo + EVENT_GAP / 2)%Q in
      if Qlt_bool xPos columnEnd then
        match getGroup dayKey eventsByDay with
        | Some (e :: _) => inr (Some (ev_date e))
        | _ => inl tt
        end
      else findColumn xPos rest
    end
  end.

Definition getDropTarget (xPos yPos : Q) : DropResult :=
  if (size laneGeometries =? 0)%nat then
    match storylines with
    | s :: _ => Returns (Some (sl_id s, todayISO ++ str_midnight))
    | [] => Returns None
    end
  else
    match List.find (fun s =>
                       match laneGeometries !! sl_id s with
                       | Some geo =>
                         Qle_bool (lane_y geo) yPos
                         && Qlt_bool yPos (lane_y geo + lane_height geo)%Q
                       | None => false
                       end) storylines with
    | None => Returns None
    | Some targetStoryline =>
      match findColumn xPos sortedUniqueDays with
      | inl _ => Throws
      | inr (Some targetDate) =>
        Returns (Some (sl_id targetStoryline, targetDate))
      | inr None =>
        match last sortedUniqueDays with
        | Some lastDayKey =>
          if truthy lastDayKey then
            match getGroup lastDayKey eventsByDay with
            | Some (e :: _) =>
              let lastDateStr := ev_date e in
              match gregorianDayMatch lastDateStr with
              | Some g1 =>
                match parseISODate g1 with
                | Some t =>
                  Returns (Some (sl_id targetStoryline,
                                 isoDateOf (addLocalDay t) ++ str_midnight))
                | None => Throws
                end
              | None => Returns (Some (sl_id targetStoryline, lastDateStr))
              end
            | _ => Throws
            end
          else Returns (Some (sl_id targetStoryline, todayISO ++ str_midnight))
        | None => Returns (Some (sl_id targetStoryline, todayISO ++ str_midnight))
        end
      end
    end.

End DropTarget.


(* ====================================================================== *)
(** * Properties *)
(* ====================================================================== *)

(** ** Rational arithmetic helpers *)

#[local] Open Scope Q_scope.

Lemma Qmax_ge_l (a b : Q) : a <= Qmax a b.
Proof.
  unfold Qmax. destruct (Qle_bool a b) eqn:E.
  - by apply Qle_bool_iff.
  - apply Qle_refl.
Qed.

Lemma Qmax_ge_r (a b : Q) : b <= Qmax a b.
Proof.
  unfold Qmax. destruct (Qle_bool a b) eqn:E.
  - apply Qle_refl.
  - apply Qlt_le_weak, Qnot_le_lt. intros H. apply Qle_bool_iff in H. congruence.
Qed.

Lemma Qlt_bool_iff (a b : Q) : Qlt_bool a b = true <-> a < b.
Proof.
  unfold Qlt_bool. rewrite negb_true_iff. split.
  - intros E. apply Qnot_le_lt. intros H. apply Qle_bool_iff in H. congruence.
  - intros H. destruct (Qle_bool b a) eqn:E; [|done].
    apply Qle_bool_iff in E. lra.
Qed.

Lemma Qlt_bool_false_iff (a b : Q) : Qlt_bool a b = false <-> b <= a.
Proof.
  unfold Qlt_bool. rewrite negb_false_iff. apply Qle_bool_iff.
Qed.

(** [lra] does not read a division; [name_halves] names every [a / 2]
    and records what it is the half of. *)
Lemma Qhalf_double (a : Q) : a / 2 * 2 == a.
Proof. field. Qed.

Ltac name_halves :=
  repeat match goal with
  | H : context [(?a / 2)%Q] |- _ =>
    let h := fresh "h" in
    let E := fresh "E" in
    pose proof (Qhalf_double a) as E; set (h := (a / 2)%Q) in *; clearbody h
  | |- context [(?a / 2)%Q] =>
    let h := fresh "h" in
    let E := fresh "E" in
    pose proof (Qhalf_double a) as E; set (h := (a / 2)%Q) in *; clearbody h
  end.

(** ** Maps filled by a loop of [set] calls *)

Section FoldInsert.
Context {P V : Type} (key : P -> jsstring) (val : P -> V).

Definition setAll (ps : list P) (m0 : gmap jsstring V) : gmap jsstring V :=
  fold_left (fun m p => <[key p := val p]> m) ps m0.

Lemma setAll_app ps qs m0 : setAll (ps ++ qs) m0 = setAll qs (setAll ps m0).
Proof. unfold setAll. by rewrite fold_left_app. Qed.

(** Every entry of the final map was there at the start or was written by
    one of the calls. *)
Lemma setAll_lookup ps m0 id l :
  setAll ps m0 !! id = Some l ->
  m0 !! id = Some l \/ (exists p, p ∈ ps /\ key p = id /\ val p = l).
Proof.
  revert m0. induction ps as [|p ps IH]; intros m0 H; simpl in *.
  - by left.
  - apply IH in H as [H|(q & H1 & H2 & H3)].
    + destruct (decide (key p = id)) as [<-|Hne].
      * rewrite lookup_insert_eq in H. inversion H; subst.
        right. exists p. split; [constructor | done].
      * rewrite lookup_insert_ne in H by done. by left.
    + right. exists q. split; [by constructor | done].
Qed.

Lemma setAll_lookup_None ps m0 id :
  m0 !! id = None -> (forall p, p ∈ ps -> key p <> id) ->
  setAll ps m0 !! id = None.
Proof.
  intros H0 Hps. destruct (setAll ps m0 !! id) as [l|] eqn:E; [|done].
  apply setAll_lookup in E as [E|(p & E1 & E2 & E3)]; [congruence|].
  by apply Hps in E1.
Qed.

(** With pairwise distinct keys, every call's entry survives. *)
Lemma setAll_lookup_NoDup ps m0 p :
  NoDup (List.map key ps) -> p ∈ ps -> setAll ps m0 !! key p = Some (val p).
Proof.
  revert m0. induction ps as [|q ps IH]; intros m0 Hnd Hp; simpl in *.
  - by apply elem_of_nil in Hp.
  - apply NoDup_cons in Hnd as [Hq Hnd].
    apply elem_of_cons in Hp as [->|Hp]; [|by apply IH].
    destruct (setAll ps (<[key q := val q]> m0) !! key q) as [v|] eqn:E.
    + apply setAll_lookup in E as [E|(r & E1 & E2 & E3)].
      * by rewrite lookup_insert_eq in E.
      * exfalso. apply Hq. rewrite <- E2.
        apply list_elem_of_In, in_map, list_elem_of_In, E1.
    + exfalso. revert E. clear.
      revert m0. generalize (val q). induction ps as [|r ps IH]; intros v m0; simpl.
      * by rewrite lookup_insert_eq.
      * destruct (decide (key r = key q)) as [Heq|Hne].
        -- rewrite Heq, insert_insert_eq. apply IH.
        -- rewrite insert_insert_ne by done. apply IH.
Qed.

End FoldInsert.

(** A loop keeps what every one of its iterations keeps. *)
Lemma fold_left_invariant {A B : Type} (f : A -> B -> A) (Inv : A -> Prop)
      (l : list B) (a : A) :
  Inv a -> (forall acc b, b ∈ l -> Inv acc -> Inv (f acc b)) ->
  Inv (fold_left f l a).
Proof.
  revert a. induction l as [|b l IH]; intros a Ha Hstep; simpl; [done|].
  apply IH.
  - apply Hstep; [constructor | done].
  - intros acc c Hc. apply Hstep. by constructor.
Qed.

Lemma fold_left_flat_map {A B C : Type} (f : C -> B -> C) (g : A -> list B)
      (l : list A) (c : C) :
  fold_left (fun acc a => fold_left f (g a) acc) l c
  = fold_left f (flat_map g l) c.
Proof.
  revert c. induction l as [|a l IH]; intros c; simpl; [done|].
  by rewrite fold_left_app, IH.
Qed.

(** ** Running positions: columns and lanes

    Both [dayColumnGeometries] and [laneGeometries] are filled by a loop
    that keeps a running position and advances it past every item. *)
Section Bands.
Context {A : Type} (next : Q -> A -> Q).

Fixpoint bands (l : list A) (pos : Q) : list (A * Q) :=
  match l with
  | [] => []
  | a :: r => (a, pos) :: bands r (next pos a)
  end.

Fixpoint bandsEnd (l : list A) (pos : Q) : Q :=
  match l with
  | [] => pos
  | a :: r => bandsEnd r (next pos a)
  end.

Lemma bands_fst l pos a p : (a, p) ∈ bands l pos -> a ∈ l.
Proof.
  revert pos. induction l as [|b l IH]; intros pos H; simpl in *.
  - by apply elem_of_nil in H.
  - apply elem_of_cons in H as [H|H].
    + inversion H; subst. constructor.
    + constructor. by eapply IH.
Qed.

Lemma bands_complete l pos a : a ∈ l -> exists p, (a, p) ∈ bands l pos.
Proof.
  revert pos. induction l as [|b l IH]; intros pos H; simpl in *.
  - by apply elem_of_nil in H.
  - apply elem_of_cons in H as [->|H].
    + eexists. constructor.
    + destruct (IH (next pos b) H) as [p Hp]. exists p. by constructor.
Qed.

Context (size : A -> Q) (gap : Q).
Hypothesis size_nonneg : forall a, 0 <= size a.
Hypothesis gap_nonneg : 0 <= gap.
Hypothesis next_ge : forall pos a, pos + size a + gap <= next pos a.

Lemma bands_lower l pos a p : (a, p) ∈ bands l pos -> pos <= p.
Proof.
  revert pos. induction l as [|b l IH]; intros pos H; simpl in *.
  - by apply elem_of_nil in H.
  - apply elem_of_cons in H as [H|H].
    + inversion H; subst. apply Qle_refl.
    + apply IH in H. pose proof (next_ge pos b). pose proof (size_nonneg b). lra.
Qed.

(** Two different items occupy intervals that are [gap] apart. *)
Lemma bands_apart l pos a p b q :
  (a, p) ∈ bands l pos -> (b, q) ∈ bands l pos -> a <> b ->
  p + size a + gap <= q \/ q + size b + gap <= p.
Proof.
  revert pos. induction l as [|c l IH]; intros pos Ha Hb Hne; simpl in *.
  - by apply elem_of_nil in Ha.
  - apply elem_of_cons in Ha as [Ha|Ha]; apply elem_of_cons in Hb as [Hb|Hb].
    + congruence.
    + inversion Ha; subst. left.
      apply bands_lower in Hb. pose proof (next_ge pos c). lra.
    + inversion Hb; subst. right.
      apply bands_lower in Ha. pose proof (next_ge pos c). lra.
    + by eapply IH.
Qed.

End Bands.

(** ** Insertion-ordered groups *)

Section Groups.

Lemma pushGroup_keys k e m :
  List.map fst (pushGroup k e m) = List.map fst m
  \/ ((k ∉ List.map fst m)
      /\ List.map fst (pushGroup k e m) = List.map fst m ++ [k]).
Proof.
  induction m as [|[k' l] m IH]; simpl.
  - right. split; [apply not_elem_of_nil | done].
  - destruct (decide (k' = k)) as [->|Hne]; simpl; [by left|].
    destruct IH as [->|[Hk ->]]; [by left|].
    right. split; [|done].
    intros [?|?]%elem_of_cons; [congruence | done].
Qed.

Lemma pushGroup_NoDup k e m :
  NoDup (List.map fst m) -> NoDup (List.map fst (pushGroup k e m)).
Proof.
  intros H. destruct (pushGroup_keys k e m) as [->|[Hk ->]]; [done|].
  apply NoDup_app. split; [done|]. split; [|apply NoDup_singleton].
  intros x Hx ->%list_elem_of_singleton. done.
Qed.

(** Whatever sits in a group after a push sat there before or is the
    pushed event under its key. *)
Lemma pushGroup_elem k e m k' evs e' :
  (k', evs) ∈ pushGroup k e m -> e' ∈ evs ->
  (exists evs0, (k', evs0) ∈ m /\ e' ∈ evs0) \/ (k' = k /\ e' = e).
Proof.
  induction m as [|[k0 l] m IH]; simpl; intros H He.
  - apply list_elem_of_singleton in H. inversion H; subst.
    apply list_elem_of_singleton in He. by right.
  - destruct (decide (k0 = k)) as [->|Hne].
    + apply elem_of_cons in H as [H|H].
      * inversion H; subst.
        apply elem_of_app in He as [He|He].
        -- left. exists l. split; [constructor | done].
        -- apply list_elem_of_singleton in He. by right.
      * left. exists evs. split; [by constructor | done].
    + apply elem_of_cons in H as [H|H].
      * inversion H; subst. left. eexists. split; [constructor | done].
      * destruct (IH H He) as [(evs0 & H1 & H2)|H1]; [|by right].
        left. exists evs0. split; [by constructor | done].
Qed.

Lemma pushGroup_new k e m : exists evs, (k, evs) ∈ pushGroup k e m /\ e ∈ evs.
Proof.
  induction m as [|[k0 l] m IH]; simpl.
  - exists [e]. split; constructor.
  - destruct (decide (k0 = k)) as [->|Hne].
    + exists (l ++ [e]). split; [constructor|].
      apply elem_of_app. right. constructor.
    + destruct IH as (evs & H1 & H2). exists evs. split; [by constructor | done].
Qed.

Lemma pushGroup_mono k e m k' evs e' :
  (k', evs) ∈ m -> e' ∈ evs ->
  exists evs1, (k', evs1) ∈ pushGroup k e m /\ e' ∈ evs1.
Proof.
  induction m as [|[k0 l] m IH]; simpl; intros H He.
  - by apply elem_of_nil in H.
  - destruct (decide (k0 = k)) as [->|Hne].
    + apply elem_of_cons in H as [H|H].
      * inversion H; subst. exists (l ++ [e]). split; [constructor|].
        apply elem_of_app. by left.
      * exists evs. split; [by constructor | done].
    + apply elem_of_cons in H as [H|H].
      * inversion H; subst. eexists. split; [constructor | done].
      * destruct (IH H He) as (evs1 & H1 & H2).
        exists evs1. split; [by constructor | done].
Qed.

(** With distinct keys a key has one group. *)
Lemma groups_functional (m : groups) k evs1 evs2 :
  NoDup (List.map fst m) -> (k, evs1) ∈ m -> (k, evs2) ∈ m -> evs1 = evs2.
Proof.
  induction m as [|[k0 l] m IH]; simpl; intros Hnd H1 H2.
  - by apply elem_of_nil in H1.
  - apply NoDup_cons in Hnd as [Hk Hnd].
    assert (forall evs, (k0, evs) ∈ m -> False) as Hno.
    { intros evs H. apply Hk.
      change k0 with (fst (k0, evs)).
      apply list_elem_of_In, in_map, list_elem_of_In, H. }
    apply elem_of_cons in H1 as [H1|H1]; apply elem_of_cons in H2 as [H2|H2].
    + congruence.
    + inversion H1; subst. by apply Hno in H2.
    + inversion H2; subst. by apply Hno in H1.
    + by apply IH.
Qed.

Lemma getGroup_elem (m : groups) k evs :
  NoDup (List.map fst m) -> (k, evs) ∈ m -> getGroup k m = Some evs.
Proof.
  induction m as [|[k0 l] m IH]; simpl; intros Hnd H.
  - by apply elem_of_nil in H.
  - apply NoDup_cons in Hnd as [Hk Hnd].
    apply elem_of_cons in H as [H|H].
    + inversion H; subst. by rewrite decide_True.
    + rewrite decide_False; [by apply IH|].
      intros ->. apply Hk. change k with (fst (k, evs)).
      apply list_elem_of_In, in_map, list_elem_of_In, H.
Qed.

End Groups.

(** A day map groups events of a list [L] under their day keys. *)
Definition groups_ok (L : list StoryEvent) (m : groups) : Prop :=
  NoDup (List.map fst m)
  /\ forall k evs e, (k, evs) ∈ m -> e ∈ evs ->
                     e ∈ L /\ getDayKey (ev_date e) = k.

Lemma groups_ok_push L m e :
  groups_ok L m -> e ∈ L -> groups_ok L (pushGroup (getDayKey (ev_date e)) e m).
Proof.
  intros [Hnd Hin] He. split; [by apply pushGroup_NoDup|].
  intros k evs e' H1 H2.
  destruct (pushGroup_elem _ _ _ _ _ _ H1 H2) as [(evs0 & H3 & H4)|[-> ->]];
    [by eapply Hin | done].
Qed.

Lemma fold_left_ext_in {A B : Type} (f g : A -> B -> A) (l : list B) (a : A) :
  (forall acc b, f acc b = g acc b) -> fold_left f l a = fold_left g l a.
Proof.
  intros H. revert a. induction l as [|b l IH]; intros a; simpl; [done|].
  by rewrite H, IH.
Qed.

Lemma elem_of_flat_map {A B : Type} (f : A -> list B) (l : list A) (b : B) :
  b ∈ flat_map f l <-> exists a, a ∈ l /\ b ∈ f a.
Proof.
  rewrite list_elem_of_In, in_flat_map.
  split; intros (a & H1 & H2); exists a; by rewrite ?list_elem_of_In in *.
Qed.

(** ** Layout engine: where a rectangle comes from *)

Section LayoutFacts.
Context (events : list StoryEvent) (storylines : list Storyline)
        (eventConnections : list EventConnection)
        (eventTypes : list EventType)
        (eraOrder : list jsstring) (expandedEvents : gset jsstring).

#[local] Abbreviation SE := (sortedEvents events eraOrder).
#[local] Abbreviation EBD := (eventsByDay events eraOrder).
#[local] Abbreviation ESD := (eventsByStorylineAndDay events storylines eraOrder).
#[local] Abbreviation DCG := (dayColumnGeometries events eraOrder).
#[local] Abbreviation LG :=
  (laneGeometries events storylines eventConnections eraOrder expandedEvents).
#[local] Abbreviation LH :=
  (laneHeightOf events storylines eventConnections eraOrder expandedEvents).
#[local] Abbreviation SH := (stackHeightOf eventConnections expandedEvents).
#[local] Abbreviation EH := (eventHeight expandedEvents).
#[local] Abbreviation GA := (gapAfter eventConnections).
#[local] Abbreviation IO := (indentOffset events eraOrder).
#[local] Abbreviation CCW := (columnContentWidth events eraOrder).
#[local] Abbreviation findType e :=
  (List.find (fun et => bool_decide (Some (et_id et) = ev_typeId e)) eventTypes).

Lemma eventHeight_bounds e : 40 <= EH e /\ EH e <= 120.
Proof.
  unfold eventHeight, EVENT_CARD_HEIGHT, CAPSULE_HEIGHT.
  case_decide; lra.
Qed.

Lemma gapAfter_bounds e rest : 25 <= GA e rest /\ GA e rest <= 40.
Proof.
  unfold gapAfter, SAME_DAY_CONNECTED_EVENT_GAP, SAME_DAY_VERTICAL_GAP.
  destruct rest as [|n rest]; [lra|].
  destruct (isConnected eventConnections e n); lra.
Qed.

Lemma stackHeightOf_nonneg evs : 0 <= SH evs.
Proof.
  induction evs as [|e rest IH]; simpl; [lra|].
  pose proof (eventHeight_bounds e) as [? ?].
  pose proof (gapAfter_bounds e rest) as [? ?].
  destruct rest; lra.
Qed.

(** The rectangles written by the innermost loop, in order. *)
Fixpoint stackPlacements (s : Storyline) (baseX : Q)
         (sameDayEvents : list StoryEvent) (currentStackY : Q)
  : list EventLayout :=
  match sameDayEvents with
  | [] => []
  | e :: rest =>
    match findType e with
    | None => stackPlacements s baseX rest currentStackY
    | Some et =>
      mkEventLayout (baseX + IO e) currentStackY EVENT_WIDTH (EH e) e s et
      :: stackPlacements s baseX rest (currentStackY + (EH e + GA e rest))
    end
  end.

Definition dayPlacements (s : Storyline) (laneGeo : LaneGeo)
           (g : jsstring * list StoryEvent) : list EventLayout :=
  match DCG !! fst g with
  | None => []
  | Some columnGeo =>
    stackPlacements s (col_x columnGeo) (snd g)
      (lane_y laneGeo + (lane_height laneGeo - SH (snd g)) / 2)
  end.

Definition lanePlacements (s : Storyline) : list EventLayout :=
  match LG !! sl_id s with
  | None => []
  | Some laneGeo =>
    match ESD !! sl_id s with
    | None => []
    | Some storylineDayMap => flat_map (dayPlacements s laneGeo) storylineDayMap
    end
  end.

Definition allPlacements : list EventLayout := flat_map lanePlacements storylines.

#[local] Abbreviation writeAll := (setAll (fun l => ev_id (event l)) (fun l => l)).

Lemma layoutStack_setAll s baseX evs y0 layouts :
  layoutStack events eventConnections eventTypes eraOrder expandedEvents
              s baseX evs y0 layouts
  = writeAll (stackPlacements s baseX evs y0) layouts.
Proof.
  revert y0 layouts. induction evs as [|e rest IH]; intros y0 layouts; simpl.
  - done.
  - destruct (findType e) as [et|]; simpl; by rewrite IH.
Qed.

Lemma eventLayouts_setAll :
  eventLayouts events storylines eventConnections eventTypes eraOrder
               expandedEvents
  = writeAll allPlacements ∅.
Proof.
  unfold eventLayouts, allPlacements, setAll.
  rewrite <- fold_left_flat_map. apply fold_left_ext_in.
  intros acc s. unfold layoutLane, lanePlacements.
  destruct (LG !! sl_id s) as [laneGeo|]; [|done].
  destruct (ESD !! sl_id s) as [dm|]; [|done].
  rewrite <- fold_left_flat_map. apply fold_left_ext_in.
  intros acc' g. unfold layoutDay, dayPlacements.
  destruct (DCG !! fst g) as [c|]; [|done].
  apply layoutStack_setAll.
Qed.

(** What the innermost loop gives one rectangle. *)
Lemma stackPlacements_facts s baseX evs y0 l :
  l ∈ stackPlacements s baseX evs y0 ->
  storyline l = s /\ event l ∈ evs /\ x l = baseX + IO (event l)
  /\ width l = EVENT_WIDTH /\ height l = EH (event l)
  /\ (exists et, findType (event l) = Some et)
  /\ y0 <= y l /\ y l + height l <= y0 + SH evs.
Proof.
  revert y0. induction evs as [|e rest IH]; intros y0 H; simpl in *.
  - by apply elem_of_nil in H.
  - pose proof (eventHeight_bounds e) as [Hh1 Hh2].
    pose proof (gapAfter_bounds e rest) as [Hg1 Hg2].
    pose proof (stackHeightOf_nonneg rest) as Hs.
    destruct (findType e) as [et|] eqn:Et.
    + apply elem_of_cons in H as [->|H]; simpl.
      * repeat split; try done; [constructor | by exists et | lra |].
        destruct rest; lra.
      * apply IH in H as (H1 & H2 & H3 & H4 & H5 & H6 & H7 & H8).
        repeat split; try done; [by constructor | lra |].
        destruct rest as [|n rest']; [by apply elem_of_nil in H2|]. lra.
    + apply IH in H as (H1 & H2 & H3 & H4 & H5 & H6 & H7 & H8).
      repeat split; try done; [by constructor|].
      destruct rest as [|n rest']; [by apply elem_of_nil in H2|]. lra.
Qed.

(** Two rectangles of one stack are a gap apart. *)
Lemma stackPlacements_apart s baseX evs y0 l1 l2 :
  l1 ∈ stackPlacements s baseX evs y0 ->
  l2 ∈ stackPlacements s baseX evs y0 ->
  ev_id (event l1) <> ev_id (event l2) ->
  y l1 + height l1 + 25 <= y l2 \/ y l2 + height l2 + 25 <= y l1.
Proof.
  revert y0. induction evs as [|e rest IH]; intros y0 H1 H2 Hne; simpl in *.
  - by apply elem_of_nil in H1.
  - pose proof (gapAfter_bounds e rest) as [Hg1 Hg2].
    destruct (findType e) as [et|] eqn:Et; [|by eapply IH].
    apply elem_of_cons in H1 as [->|H1]; apply elem_of_cons in H2 as [->|H2].
    + done.
    + left. apply stackPlacements_facts in H2. simpl.
      destruct H2 as (_ & _ & _ & _ & _ & _ & Hy & _). lra.
    + right. apply stackPlacements_facts in H1. simpl.
      destruct H1 as (_ & _ & _ & _ & _ & _ & Hy & _). lra.
    + by eapply IH.
Qed.

(** *** The day maps *)

Lemma eventsByStorylineAndDay_ok sid dm :
  ESD !! sid = Some dm -> groups_ok SE dm.
Proof.
  unfold eventsByStorylineAndDay. revert sid dm.
  apply (fold_left_invariant _
           (fun m => forall sid dm, m !! sid = Some dm -> groups_ok SE dm)).
  - apply (fold_left_invariant _
             (fun m => forall sid dm, m !! sid = Some dm -> groups_ok SE dm)).
    + intros sid dm H. by rewrite lookup_empty in H.
    + intros acc s _ Hacc sid dm H.
      destruct (decide (sl_id s = sid)) as [<-|Hne].
      * rewrite lookup_insert_eq in H. inversion H; subst.
        split; [constructor|]. intros k evs e He. by apply elem_of_nil in He.
      * rewrite lookup_insert_ne in H by done. by eapply Hacc.
  - intros acc e He Hacc sid dm H.
    destruct (ev_storylineId e) as [sid'|]; [|by eapply Hacc].
    destruct (acc !! sid') as [dm'|] eqn:E; [|by eapply Hacc].
    destruct (decide (sid' = sid)) as [<-|Hne].
    + rewrite lookup_insert_eq in H. inversion H; subst.
      apply groups_ok_push; [by eapply Hacc | done].
    + rewrite lookup_insert_ne in H by done. by eapply Hacc.
Qed.

Lemma eventsByDay_ok : groups_ok SE EBD.
Proof.
  unfold eventsByDay.
  apply (fold_left_invariant _ (groups_ok SE)).
  - split; [constructor|]. intros k evs e He. by apply elem_of_nil in He.
  - intros acc e He Hacc. by apply groups_ok_push.
Qed.

(** Every sorted event sits in the group of its day key. *)
Lemma eventsByDay_covers e :
  e ∈ SE -> exists evs, (getDayKey (ev_date e), evs) ∈ EBD /\ e ∈ evs.
Proof.
  unfold eventsByDay. generalize SE as l. intros l He.
  assert (forall (l : list StoryEvent) (m0 : groups),
            e ∈ l \/ (exists evs, (getDayKey (ev_date e), evs) ∈ m0 /\ e ∈ evs) ->
            exists evs,
              (getDayKey (ev_date e), evs)
                ∈ fold_left (fun m e => pushGroup (getDayKey (ev_date e)) e m) l m0
              /\ e ∈ evs) as Hgen.
  { clear. induction l as [|b l IH]; intros m0 [H|H]; simpl.
    - by apply elem_of_nil in H.
    - done.
    - apply elem_of_cons in H as [->|H]; apply IH; [right | by left].
      apply pushGroup_new.
    - apply IH. right. destruct H as (evs & H1 & H2). by eapply pushGroup_mono. }
  apply Hgen. by left.
Qed.

(** *** Columns *)

Definition columnWidthOf (dayKey : jsstring) : Q :=
  default EVENT_WIDTH (dayColumnContentWidths events eraOrder !! dayKey).

Definition columnNext (pos : Q) (dayKey : jsstring) : Q :=
  pos + columnWidthOf dayKey + EVENT_GAP.

Lemma columnContentWidth_ge evs :
  EVENT_WIDTH <= CCW evs /\ forall e, e ∈ evs -> IO e + EVENT_WIDTH <= CCW evs.
Proof.
  unfold columnContentWidth.
  set (F := fun maxEventWidth e =>
              if Qle_bool (IO e + EVENT_WIDTH) maxEventWidth
              then maxEventWidth else IO e + EVENT_WIDTH).
  assert (forall w0, w0 <= fold_left F evs w0
                     /\ forall e, e ∈ evs -> IO e + EVENT_WIDTH <= fold_left F evs w0)
    as Hgen; [|apply Hgen].
  induction evs as [|b evs IH]; intros w0; simpl.
  - split; [lra|]. intros e He. by apply elem_of_nil in He.
  - unfold F at 2 4.
    destruct (Qle_bool (IO b + EVENT_WIDTH) w0) eqn:E.
    + apply Qle_bool_iff in E. destruct (IH w0) as [H1 H2].
      split; [done|]. intros e [->|He]%elem_of_cons; [lra | by apply H2].
    + assert (w0 < IO b + EVENT_WIDTH) as Hlt.
      { apply Qnot_le_lt. intros H. apply Qle_bool_iff in H. congruence. }
      destruct (IH (IO b + EVENT_WIDTH)) as [H1 H2].
      split; [lra|]. intros e [->|He]%elem_of_cons; [lra | by apply H2].
Qed.

Lemma dayColumnContentWidths_lookup k evs :
  (k, evs) ∈ EBD -> dayColumnContentWidths events eraOrder !! k = Some (CCW evs).
Proof.
  intros H. destruct eventsByDay_ok as [Hnd _].
  apply (setAll_lookup_NoDup fst (fun g => CCW (snd g)) EBD ∅ (k, evs) Hnd H).
Qed.

Lemma columnWidthOf_ge k : EVENT_WIDTH <= columnWidthOf k.
Proof.
  unfold columnWidthOf.
  destruct (dayColumnContentWidths events eraOrder !! k) as [w|] eqn:E; simpl;
    [|lra].
  apply (setAll_lookup fst (fun g => CCW (snd g))) in E
    as [E|(g & H1 & H2 & H3)]; [by rewrite lookup_empty in E|].
  subst w. apply columnContentWidth_ge.
Qed.

Lemma columnLoop_bands days m pos :
  fold_left (columnStep events eraOrder) days (m, pos)
  = (setAll fst (fun p => mkColumnGeo (snd p) (columnWidthOf (fst p)))
            (bands columnNext days pos) m,
     bandsEnd columnNext days pos).
Proof.
  revert m pos. induction days as [|k days IH]; intros m pos; simpl; [done|].
  by rewrite IH.
Qed.

Lemma dayColumnGeometries_lookup k c :
  DCG !! k = Some c ->
  exists pos, (k, pos) ∈ bands columnNext (sortedUniqueDays events eraOrder) PADDING_X
              /\ c = mkColumnGeo pos (columnWidthOf k).
Proof.
  unfold dayColumnGeometries, columnLoop. rewrite columnLoop_bands. simpl.
  intros [H|([k' pos] & H1 & H2 & H3)]%setAll_lookup;
    [by rewrite lookup_empty in H|].
  simpl in *. subst. by exists pos.
Qed.

(** Two different day keys have columns that are the gap apart. *)
Lemma columns_apart k1 k2 c1 c2 :
  DCG !! k1 = Some c1 -> DCG !! k2 = Some c2 -> k1 <> k2 ->
  col_x c1 + col_width c1 + EVENT_GAP <= col_x c2
  \/ col_x c2 + col_width c2 + EVENT_GAP <= col_x c1.
Proof.
  intros (p1 & H1 & ->)%dayColumnGeometries_lookup
         (p2 & H2 & ->)%dayColumnGeometries_lookup Hne. simpl.
  apply (bands_apart columnNext columnWidthOf EVENT_GAP) with
    (l := sortedUniqueDays events eraOrder) (pos := PADDING_X);
    [| | |done..].
  - intros a. pose proof (columnWidthOf_ge a). unfold EVENT_WIDTH in *. lra.
  - unfold EVENT_GAP. lra.
  - intros pos a. unfold columnNext. lra.
Qed.

(** *** Lanes *)

Definition laneNext (pos : Q) (s : Storyline) : Q := pos + LH s.

Lemma laneHeightOf_ge s : MIN_LANE_HEIGHT <= LH s.
Proof. unfold laneHeightOf. apply Qmax_ge_l. Qed.

Lemma maxColumnHeightOf_ge (dm : groups) k evs :
  (k, evs) ∈ dm -> SH evs <= maxColumnHeightOf eventConnections expandedEvents dm.
Proof.
  unfold maxColumnHeightOf. generalize 0 as h0.
  induction dm as [|g dm IH]; intros h0 H; simpl.
  - by apply elem_of_nil in H.
  - assert (forall h1, h1 <= fold_left
             (fun maxColumnHeight g => Qmax maxColumnHeight (SH (snd g))) dm h1)
      as Hmono.
    { clear. induction dm as [|g dm IH]; intros h1; simpl; [lra|].
      pose proof (IH (Qmax h1 (SH (snd g)))).
      pose proof (Qmax_ge_l h1 (SH (snd g))). lra. }
    apply elem_of_cons in H as [<-|H]; [|by apply IH].
    pose proof (Hmono (Qmax h0 (SH evs))).
    pose proof (Qmax_ge_r h0 (SH evs)). simpl. lra.
Qed.

Lemma laneHeightOf_stack s dm k evs :
  ESD !! sl_id s = Some dm -> (k, evs) ∈ dm ->
  SH evs + 2 * LANE_VERTICAL_PADDING <= LH s.
Proof.
  intros Hdm H. unfold laneHeightOf. rewrite Hdm.
  pose proof (maxColumnHeightOf_ge dm k evs H).
  pose proof (Qmax_ge_r MIN_LANE_HEIGHT
    (maxColumnHeightOf eventConnections expandedEvents dm
     + 2 * LANE_VERTICAL_PADDING)). lra.
Qed.

Lemma laneLoop_bands sls m pos :
  fold_left (laneStep events storylines eventConnections eraOrder expandedEvents)
            sls (m, pos)
  = (setAll (fun p => sl_id (fst p)) (fun p => mkLaneGeo (snd p) (LH (fst p)))
            (bands laneNext sls pos) m,
     bandsEnd laneNext sls pos).
Proof.
  revert m pos. induction sls as [|s sls IH]; intros m pos; simpl; [done|].
  by rewrite IH.
Qed.

Lemma laneGeometries_lookup sid g :
  LG !! sid = Some g ->
  exists s pos, (s, pos) ∈ bands laneNext storylines 0 /\ sl_id s = sid
                /\ g = mkLaneGeo pos (LH s).
Proof.
  unfold laneGeometries, laneLoop. rewrite laneLoop_bands. simpl.
  intros [H|([s pos] & H1 & H2 & H3)]%setAll_lookup;
    [by rewrite lookup_empty in H|].
  simpl in *. subst. by exists s, pos.
Qed.

(** Two different storyline ids have disjoint vertical bands. *)
Lemma lanes_apart sid1 sid2 g1 g2 :
  LG !! sid1 = Some g1 -> LG !! sid2 = Some g2 -> sid1 <> sid2 ->
  lane_y g1 + lane_height g1 <= lane_y g2
  \/ lane_y g2 + lane_height g2 <= lane_y g1.
Proof.
  intros (s1 & p1 & H1 & <- & ->)%laneGeometries_lookup
         (s2 & p2 & H2 & <- & ->)%laneGeometries_lookup Hne. simpl.
  destruct (bands_apart laneNext (fun s => LH s) 0) with
    (l := storylines) (pos := 0) (a := s1) (p := p1) (b := s2) (q := p2)
    as [H|H]; [| | |done|done| | |].
  - intros a. pose proof (laneHeightOf_ge a).
    unfold MIN_LANE_HEIGHT, CAPSULE_HEIGHT, LANE_VERTICAL_PADDING in *. lra.
  - lra.
  - intros pos a. unfold laneNext. lra.
  - congruence.
  - left. lra.
  - right. lra.
Qed.

(** *** Every rectangle, traced back to its lane, column and stack *)

Lemma indentOffset_nonneg e : 0 <= IO e.
Proof.
  unfold indentOffset, INDENTATION_STEP.
  assert (0 <= inject_Z (Z.of_nat (indentationLevel events eraOrder e))) as H.
  { unfold Qle. simpl. lia. }
  nra.
Qed.

Lemma placement_origin l :
  l ∈ allPlacements ->
  exists laneGeo columnGeo dm evs,
    LG !! sl_id (storyline l) = Some laneGeo
    /\ DCG !! getDayKey (ev_date (event l)) = Some columnGeo
    /\ ESD !! sl_id (storyline l) = Some dm
    /\ (getDayKey (ev_date (event l)), evs) ∈ dm
    /\ event l ∈ SE
    /\ l ∈ stackPlacements (storyline l) (col_x columnGeo) evs
             (lane_y laneGeo + (lane_height laneGeo - SH evs) / 2).
Proof.
  unfold allPlacements. intros (s & Hs & H)%elem_of_flat_map.
  unfold lanePlacements in H.
  destruct (LG !! sl_id s) as [laneGeo|] eqn:Elg; [|by apply elem_of_nil in H].
  destruct (ESD !! sl_id s) as [dm|] eqn:Edm; [|by apply elem_of_nil in H].
  apply elem_of_flat_map in H as ([k evs] & Hg & H).
  unfold dayPlacements in H. simpl in H.
  destruct (DCG !! k) as [c|] eqn:Ec; [|by apply elem_of_nil in H].
  pose proof (stackPlacements_facts _ _ _ _ _ H) as (Hst & Hev & _).
  destruct (eventsByStorylineAndDay_ok _ _ Edm) as [_ Hok].
  destruct (Hok _ _ _ Hg Hev) as [Hin Hk].
  exists laneGeo, c, dm, evs. rewrite Hst, Hk. done.
Qed.

Lemma placement_in_lane l laneGeo :
  l ∈ allPlacements -> LG !! sl_id (storyline l) = Some laneGeo ->
  lane_y laneGeo + LANE_VERTICAL_PADDING <= y l
  /\ y l + height l + LANE_VERTICAL_PADDING
     <= lane_y laneGeo + lane_height laneGeo.
Proof.
  intros (lg & c & dm & evs & Hlg & Hc & Hdm & Hg & Hin & H)%placement_origin Hlg'.
  rewrite Hlg in Hlg'. inversion Hlg'; subst lg. clear Hlg'.
  apply stackPlacements_facts in H as (_ & _ & _ & _ & _ & _ & Hy1 & Hy2).
  apply laneGeometries_lookup in Hlg as (s & pos & _ & Hs & ->).
  rewrite <- Hs in Hdm.
  pose proof (laneHeightOf_stack _ _ _ _ Hdm Hg) as Hh.
  simpl in *. unfold LANE_VERTICAL_PADDING in *. name_halves. lra.
Qed.

Lemma placement_in_column l columnGeo :
  l ∈ allPlacements -> DCG !! getDayKey (ev_date (event l)) = Some columnGeo ->
  col_x columnGeo <= x l
  /\ x l + width l <= col_x columnGeo + col_width columnGeo.
Proof.
  intros (lg & c & dm & evs & Hlg & Hc & Hdm & Hg & Hin & H)%placement_origin Hc'.
  rewrite Hc in Hc'. inversion Hc'; subst c. clear Hc'.
  apply stackPlacements_facts in H as (_ & _ & Hx & Hw & _).
  apply dayColumnGeometries_lookup in Hc as (pos & _ & ->).
  destruct (eventsByDay_covers _ Hin) as (evs0 & Hg0 & He0).
  unfold columnWidthOf in *. simpl in *.
  rewrite (dayColumnContentWidths_lookup _ _ Hg0). simpl.
  destruct (columnContentWidth_ge evs0) as [_ Hge].
  pose proof (Hge _ He0). pose proof (indentOffset_nonneg (event l)).
  rewrite Hx, Hw. lra.
Qed.

Lemma placement_same_stack l1 l2 :
  l1 ∈ allPlacements -> l2 ∈ allPlacements ->
  sl_id (storyline l1) = sl_id (storyline l2) ->
  getDayKey (ev_date (event l1)) = getDayKey (ev_date (event l2)) ->
  ev_id (event l1) <> ev_id (event l2) ->
  y l1 + height l1 + SAME_DAY_VERTICAL_GAP <= y l2
  \/ y l2 + height l2 + SAME_DAY_VERTICAL_GAP <= y l1.
Proof.
  intros (lg1 & c1 & dm1 & evs1 & Hlg1 & Hc1 & Hdm1 & Hg1 & _ & H1)%placement_origin
         (lg2 & c2 & dm2 & evs2 & Hlg2 & Hc2 & Hdm2 & Hg2 & _ & H2)%placement_origin
         Hsl Hday Hne.
  assert (storyline l1 = storyline l2) as Hs.
  { destruct (storyline l1), (storyline l2). simpl in Hsl. by subst. }
  rewrite Hs in *. rewrite Hday in *.
  rewrite Hlg1 in Hlg2. rewrite Hc1 in Hc2. rewrite Hdm1 in Hdm2.
  inversion Hlg2; inversion Hc2; inversion Hdm2; subst.
  destruct (eventsByStorylineAndDay_ok _ _ Hdm1) as [Hnd _].
  pose proof (groups_functional _ _ _ _ Hnd Hg1 Hg2). subst evs2.
  unfold SAME_DAY_VERTICAL_GAP. by eapply stackPlacements_apart.
Qed.

Lemma eventLayouts_placement id l :
  eventLayouts events storylines eventConnections eventTypes eraOrder
               expandedEvents !! id = Some l ->
  l ∈ allPlacements /\ ev_id (event l) = id.
Proof.
  rewrite eventLayouts_setAll.
  intros [H|(p & H1 & H2 & H3)]%setAll_lookup; [by rewrite lookup_empty in H|].
  by subst.
Qed.

End LayoutFacts.

(** ** Claim C1: rectangles do not overlap *)

Definition dayKeyOf (l : EventLayout) : jsstring := getDayKey (ev_date (event l)).
Definition laneOf (l : EventLayout) : jsstring := sl_id (storyline l).

Definition overlap (a b : EventLayout) : Prop :=
  x a < x b + width b /\ x b < x a + width a
  /\ y a < y b + height b /\ y b < y a + height a.

Definition stackedApart (a b : EventLayout) : Prop :=
  y a + height a < y b \/ y b + height b < y a.

Definition columnsApart (a b : EventLayout) : Prop :=
  x a + width a < x b \/ x b + width b < x a.

Definition insideLane (g : LaneGeo) (l : EventLayout) : Prop :=
  lane_y g <= y l /\ y l + height l <= lane_y g + lane_height g.

Definition lanesApart (g1 g2 : LaneGeo) : Prop :=
  lane_y g1 + lane_height g1 <= lane_y g2
  \/ lane_y g2 + lane_height g2 <= lane_y g1.

(** C1. For every input, two events with different ids that both receive a
    rectangle never overlap: same day key and same lane means stacked with
    a strictly positive vertical gap; different day keys means disjoint
    horizontal extents; every rectangle stays inside the band of its lane,
    and the bands of different lanes are disjoint. *)
Theorem layout_no_overlap
        (events : list StoryEvent) (storylines : list Storyline)
        (eventConnections : list EventConnection) (eventTypes : list EventType)
        (eraOrder : list jsstring) (expandedEvents : gset jsstring)
        (id1 id2 : jsstring) (l1 l2 : EventLayout) :
  let layouts := eventLayouts events storylines eventConnections eventTypes
                              eraOrder expandedEvents in
  let lanes := laneGeometries events storylines eventConnections eraOrder
                              expandedEvents in
  id1 <> id2 -> layouts !! id1 = Some l1 -> layouts !! id2 = Some l2 ->
  ~ overlap l1 l2
  /\ (dayKeyOf l1 = dayKeyOf l2 -> laneOf l1 = laneOf l2 -> stackedApart l1 l2)
  /\ (dayKeyOf l1 <> dayKeyOf l2 -> columnsApart l1 l2)
  /\ exists g1 g2,
       lanes !! laneOf l1 = Some g1 /\ lanes !! laneOf l2 = Some g2
       /\ insideLane g1 l1 /\ insideLane g2 l2
       /\ (laneOf l1 <> laneOf l2 -> lanesApart g1 g2).
Proof.
  intros layouts lanes Hne [Hp1 Hid1]%eventLayouts_placement
         [Hp2 Hid2]%eventLayouts_placement.
  assert (ev_id (event l1) <> ev_id (event l2)) as Hev by congruence.
  destruct (placement_origin _ _ _ _ _ _ _ Hp1)
    as (g1 & c1 & _ & _ & Hg1 & Hc1 & _).
  destruct (placement_origin _ _ _ _ _ _ _ Hp2)
    as (g2 & c2 & _ & _ & Hg2 & Hc2 & _).
  pose proof (placement_in_lane _ _ _ _ _ _ _ _ Hp1 Hg1) as [Hl1a Hl1b].
  pose proof (placement_in_lane _ _ _ _ _ _ _ _ Hp2 Hg2) as [Hl2a Hl2b].
  pose proof (placement_in_column _ _ _ _ _ _ _ _ Hp1 Hc1) as [Hx1a Hx1b].
  pose proof (placement_in_column _ _ _ _ _ _ _ _ Hp2 Hc2) as [Hx2a Hx2b].
  unfold LANE_VERTICAL_PADDING in *.
  assert (dayKeyOf l1 = dayKeyOf l2 -> laneOf l1 = laneOf l2 ->
          stackedApart l1 l2) as Hstack.
  { intros Hday Hlane.
    destruct (placement_same_stack _ _ _ _ _ _ _ _ Hp1 Hp2 Hlane Hday Hev)
      as [H|H]; unfold SAME_DAY_VERTICAL_GAP in H; [left | right]; lra. }
  assert (dayKeyOf l1 <> dayKeyOf l2 -> columnsApart l1 l2) as Hcols.
  { intros Hday.
    destruct (columns_apart _ _ _ _ _ _ Hc1 Hc2 Hday) as [H|H];
      unfold EVENT_GAP in H; [left | right]; lra. }
  assert (laneOf l1 <> laneOf l2 -> lanesApart g1 g2) as Hlanes.
  { intros Hlane. by eapply lanes_apart. }
  split; [|split; [done|split; [done|]]].
  - intros (Ho1 & Ho2 & Ho3 & Ho4).
    destruct (decide (laneOf l1 = laneOf l2)) as [Hlane|Hlane].
    + destruct (decide (dayKeyOf l1 = dayKeyOf l2)) as [Hday|Hday].
      * destruct (Hstack Hday Hlane); lra.
      * destruct (Hcols Hday); lra.
    + destruct (Hlanes Hlane); lra.
  - exists g1, g2. unfold insideLane. repeat split; try done; lra.
Qed.

Module C1Example.
Definition evA : StoryEvent :=
  mkStoryEvent (js "a") (js "2020-01-01") (Some (js "s1")) (Some (js "t1")).
Definition evB : StoryEvent :=
  mkStoryEvent (js "b") (js "2020-01-01 08:00:00") (Some (js "s1")) (Some (js "t1")).
Definition evC : StoryEvent :=
  mkStoryEvent (js "c") (js "2020-01-02") (Some (js "s2")) (Some (js "t1")).
Definition lanes : list Storyline := [mkStoryline (js "s1"); mkStoryline (js "s2")].
Definition types : list EventType := [mkEventType (js "t1")].
Definition eras : list jsstring := [str_anchor].
Definition layoutOf (e : StoryEvent) (xx yy : Q) (lane : string) : EventLayout :=
  mkEventLayout xx yy 200 40 e (mkStoryline (js lane)) (mkEventType (js "t1")).
End C1Example.

(** The scenario of the specification: "2020-01-01" and "2020-01-01
    08:00:00" share a day key and a lane and are stacked. *)
Lemma layout_no_overlap_witness :
  let l1 := C1Example.layoutOf C1Example.evA 20 (40 # 2) "s1" in
  let l2 := C1Example.layoutOf C1Example.evB 40 (170 # 2) "s1" in
  ~ overlap l1 l2 /\ stackedApart l1 l2.
Proof.
  intros l1 l2.
  destruct (layout_no_overlap
              [C1Example.evC; C1Example.evB; C1Example.evA] C1Example.lanes []
              C1Example.types C1Example.eras ∅ (js "a") (js "b") l1 l2)
    as (H1 & H2 & _).
  - discriminate.
  - vm_compute. reflexivity.
  - vm_compute. reflexivity.
  - split; [exact H1|]. apply H2; reflexivity.
Defined.

(** ** Connection router *)

#[local] Instance Side_eq_dec : EqDecision Side.
Proof. solve_decision. Defined.

Lemma used_incr s s' u :
  used s (incr s' u) = (used s u + (if decide (s = s') then 1 else 0))%nat.
Proof. destruct u, s, s'; simpl; lia. Qed.

Lemma total_incr s s' u : total s (incr s' u) = total s u.
Proof. by destruct u, s, s'. Qed.

Lemma used_incrTotal s s' u : used s (incrTotal s' u) = used s u.
Proof. by destruct u, s, s'. Qed.

Lemma total_incrTotal s s' u :
  total s (incrTotal s' u) = (total s u + (if decide (s = s') then 1 else 0))%nat.
Proof. destruct u, s, s'; simpl; lia. Qed.

(** The usage record of an event, all zero when it has none yet. *)
Definition usageOf (portUsage : gmap jsstring PortUsage) (e : jsstring)
  : PortUsage :=
  default zeroUsage (portUsage !! e).

Lemma usageOf_ensure k pu e : usageOf (ensureUsage k pu) e = usageOf pu e.
Proof.
  unfold usageOf, ensureUsage. destruct (pu !! k) eqn:E; [done|].
  destruct (decide (k = e)) as [<-|Hne].
  - by rewrite lookup_insert_eq, E.
  - by rewrite lookup_insert_ne.
Qed.

Lemma ensureUsage_is_Some k pu : is_Some (ensureUsage k pu !! k).
Proof.
  unfold ensureUsage. destruct (pu !! k) eqn:E; [by rewrite E|].
  by rewrite lookup_insert_eq.
Qed.

Lemma ensureUsage_mono k pu e : is_Some (pu !! e) -> is_Some (ensureUsage k pu !! e).
Proof.
  unfold ensureUsage. destruct (pu !! k) eqn:E; [done|].
  intros H. destruct (decide (k = e)) as [<-|Hne].
  - by rewrite lookup_insert_eq.
  - by rewrite lookup_insert_ne.
Qed.

Lemma usageOf_alter (f : PortUsage -> PortUsage) (k : jsstring)
      (pu : gmap jsstring PortUsage) (e : jsstring) :
  is_Some (pu !! k) ->
  usageOf (alter f k pu) e = if decide (e = k) then f (usageOf pu k) else usageOf pu e.
Proof.
  intros [u Hu]. unfold usageOf. destruct (decide (e = k)) as [->|Hne].
  - by rewrite lookup_alter_eq, Hu.
  - by rewrite lookup_alter_ne.
Qed.

Lemma alter_is_Some (f : PortUsage -> PortUsage) (k : jsstring)
      (pu : gmap jsstring PortUsage) (e : jsstring) :
  is_Some (alter f k pu !! e) <-> is_Some (pu !! e).
Proof.
  destruct (decide (k = e)) as [<-|Hne].
  - rewrite lookup_alter_eq. destruct (pu !! k); simpl; split; intros [? ?]; eauto; done.
  - by rewrite lookup_alter_ne.
Qed.

Section RouterFacts.
Context (layouts : gmap jsstring EventLayout) (columns : gmap jsstring ColumnGeo).

(** The two ports a connection is routed through, each with the key of its
    usage record; none when the connection is skipped. *)
Definition ports (conn : EventConnection) : list (jsstring * Side) :=
  match layouts !! fromEventId conn, layouts !! toEventId conn with
  | Some from, Some to =>
    let fromId := ev_id (event from) in
    let toId := ev_id (event to) in
    if decide (getDayKey (ev_date (event from)) = getDayKey (ev_date (event to)))
    then
      if Qlt_bool (y from) (y to)
      then [(fromId, SideBottom); (toId, SideTop)]
      else [(fromId, SideTop); (toId, SideBottom)]
    else
      match columns !! getDayKey (ev_date (event from)),
            columns !! getDayKey (ev_date (event to)) with
      | Some fromColumnGeo, Some toColumnGeo =>
        if Qlt_bool (col_x fromColumnGeo) (col_x toColumnGeo)
        then [(fromId, SideRight); (toId, SideLeft)]
        else [(fromId, SideLeft); (toId, SideRight)]
      | _, _ => []
      end
  | _, _ => []
  end.

Definition occurrences (p : jsstring * Side) (l : list (jsstring * Side)) : nat :=
  length (List.filter (fun q => bool_decide (q = p)) l).

Lemma occurrences_app p l1 l2 :
  occurrences p (l1 ++ l2) = (occurrences p l1 + occurrences p l2)%nat.
Proof. unfold occurrences. by rewrite List.filter_app, length_app. Qed.

(** A skipped connection leaves both passes where they were. *)
Lemma countStep_skip pu conn :
  layouts !! fromEventId conn = None \/ layouts !! toEventId conn = None ->
  countStep layouts columns pu conn = pu.
Proof.
  unfold countStep. intros [-> | ->]; [done|].
  by destruct (layouts !! fromEventId conn).
Qed.

Lemma routeStep_skip st conn :
  layouts !! fromEventId conn = None \/ layouts !! toEventId conn = None ->
  routeStep layouts columns st conn = Some st.
Proof.
  unfold routeStep. destruct st as [pu paths]. intros [-> | ->]; [done|].
  by destruct (layouts !! fromEventId conn).
Qed.

(** *** The first pass *)

(** Every port of every connection has a usage record after the first
    pass, and records are never removed. *)
Lemma countStep_mono pu conn e :
  is_Some (pu !! e) -> is_Some (countStep layouts columns pu conn !! e).
Proof.
  intros H. unfold countStep.
  destruct (layouts !! fromEventId conn) as [from|]; [|done].
  destruct (layouts !! toEventId conn) as [to|]; [|done].
  assert (is_Some (ensureUsage (ev_id (event to))
                     (ensureUsage (ev_id (event from)) pu) !! e)) as H'
    by by do 2 apply ensureUsage_mono.
  repeat case_match; try done; by do 2 apply alter_is_Some.
Qed.

Lemma countStep_ports pu conn e s :
  (e, s) ∈ ports conn -> is_Some (countStep layouts columns pu conn !! e).
Proof.
  unfold ports, countStep.
  destruct (layouts !! fromEventId conn) as [from|];
    [|by intros ?%elem_of_nil].
  destruct (layouts !! toEventId conn) as [to|];
    [|by intros ?%elem_of_nil].
  set (pu' := ensureUsage (ev_id (event to))
                (ensureUsage (ev_id (event from)) pu)).
  assert (is_Some (pu' !! ev_id (event from))) as Hf
    by apply ensureUsage_mono, ensureUsage_is_Some.
  assert (is_Some (pu' !! ev_id (event to))) as Ht
    by apply ensureUsage_is_Some.
  repeat case_match; try (by intros ?%elem_of_nil);
    intros [Heq|[Heq|Hnil%elem_of_nil]%elem_of_cons]%elem_of_cons; try done;
    inversion Heq; subst; by do 2 apply alter_is_Some.
Qed.

Lemma countPorts_keys conns conn e s :
  conn ∈ conns -> (e, s) ∈ ports conn ->
  is_Some (countPorts layouts columns conns !! e).
Proof.
  unfold countPorts. generalize (∅ : gmap jsstring PortUsage) as pu.
  induction conns as [|c conns IH]; intros pu Hc Hp; simpl.
  - by apply elem_of_nil in Hc.
  - apply elem_of_cons in Hc as [->|Hc]; [|by apply IH].
    assert (is_Some (countStep layouts columns pu c !! e)) as H
      by by eapply countStep_ports.
    revert H. generalize (countStep layouts columns pu c) as pu'. clear.
    induction conns as [|c' conns IH]; intros pu' H; simpl; [done|].
    by apply IH, countStep_mono.
Qed.

(** *** The second pass *)

Definition sideStart (s : Side) (l : EventLayout) : Q :=
  match s with SideTop | SideBottom => x l | SideLeft | SideRight => y l end.

Definition sideLength (s : Side) (l : EventLayout) : Q :=
  match s with
  | SideTop | SideBottom => width l
  | SideLeft | SideRight => height l
  end.

(** Where the [k]-th of [n] connections is anchored along a side. *)
Definition posOf (l : EventLayout) (s : Side) (k n : nat) : Q :=
  sideStart s l + sideLength s l * portFraction k n.

(** The coordinate of an anchor point that runs along side [s]. *)
Definition coordAlong (s : Side) (p : Point) : Q :=
  match s with SideTop | SideBottom => fst p | SideLeft | SideRight => snd p end.

(** One iteration of the second pass, for a connection that is routed and
    whose two usage records exist. *)
Lemma routeStep_ports pu paths conn :
  match ports conn with
  | [] => routeStep layouts columns (pu, paths) conn = Some (pu, paths)
  | [(a, s1); (b, s2)] =>
    exists from to,
      layouts !! fromEventId conn = Some from
      /\ layouts !! toEventId conn = Some to
      /\ a = ev_id (event from) /\ b = ev_id (event to) /\ s1 <> s2
      /\ forall u1 u2, pu !! a = Some u1 -> pu !! b = Some u2 ->
          exists p,
            routeStep layouts columns (pu, paths) conn
            = Some (<[b := incr s2 (usageOf (<[a := incr s1 u1]> pu) b)]>
                      (<[a := incr s1 u1]> pu),
                    paths ++ [(conn, p)])
            /\ startPort p = s1 /\ endPort p = s2
            /\ coordAlong s1 (cp_from p)
               = posOf from s1 (S (used s1 u1)) (total s1 u1)
            /\ coordAlong s2 (cp_to p)
               = posOf to s2 (S (used s2 u2)) (total s2 u2)
  | _ => False
  end.
Proof.
  unfold ports, routeStep.
  destruct (layouts !! fromEventId conn) as [from|]; [|done].
  destruct (layouts !! toEventId conn) as [to|]; [|done].
  set (a := ev_id (event from)). set (b := ev_id (event to)).
  assert (forall s1 s2 u1 u2, s1 <> s2 -> pu !! a = Some u1 -> pu !! b = Some u2 ->
            exists v1 v2,
              <[b := incr s2 (usageOf (<[a := incr s1 u1]> pu) b)]>
                (<[a := incr s1 u1]> pu) !! a = Some v1
              /\ <[b := incr s2 (usageOf (<[a := incr s1 u1]> pu) b)]>
                   (<[a := incr s1 u1]> pu) !! b = Some v2
              /\ used s1 v1 = S (used s1 u1) /\ total s1 v1 = total s1 u1
              /\ used s2 v2 = S (used s2 u2) /\ total s2 v2 = total s2 u2
              /\ <[a := incr s1 u1]> pu !! b
                 = Some (usageOf (<[a := incr s1 u1]> pu) b)) as Hrd.
  { intros s1 s2 u1 u2 Hs Hu1 Hu2. unfold usageOf.
    destruct (decide (a = b)) as [Hab|Hab].
    - rewrite <- Hab in *. rewrite !lookup_insert_eq. simpl.
      assert (u2 = u1) by congruence. subst u2.
      eexists _, _. repeat split; rewrite ?used_incr, ?total_incr;
        repeat case_decide; try done; try lia; congruence.
    - rewrite (lookup_insert_ne _ b a) by done.
      rewrite lookup_insert_eq, lookup_insert_eq.
      rewrite (lookup_insert_ne _ a b) by done. rewrite Hu2. simpl.
      eexists _, _. repeat split; rewrite ?used_incr, ?total_incr;
        repeat case_decide; try done; lia. }
  assert (forall s1 u1, pu !! a = Some u1 ->
            used s1 (incr s1 u1) = S (used s1 u1)
            /\ total s1 (incr s1 u1) = total s1 u1) as Hone.
  { intros s1 u1 _. rewrite used_incr, total_incr. case_decide; [lia | done]. }
  destruct (decide (getDayKey (ev_date (event from))
                    = getDayKey (ev_date (event to)))) as [Hday|Hday];
    [destruct (Qlt_bool (y from) (y to))
    |destruct (columns !! getDayKey (ev_date (event from))) as [fc|];
       [destruct (columns !! getDayKey (ev_date (event to))) as [tc|];
          [destruct (Qlt_bool (col_x fc) (col_x tc))|done]
       |done]];
    (exists from, to;
     split; [done|]; split; [done|]; split; [done|]; split; [done|];
     split; [discriminate|];
     intros u1 u2 Hu1 Hu2;
     match goal with
     | |- context [incr ?s2 (usageOf (<[a := incr ?s1 u1]> pu) b)] =>
       destruct (Hrd s1 s2 u1 u2 ltac:(done) Hu1 Hu2)
         as (v1 & v2 & Hv1 & Hv2 & E1 & E2 & E3 & E4 & Hmid);
       destruct (Hone s1 u1 Hu1) as [E5 E6]
     end;
     unfold bump, fractionAt; rewrite Hu1; simpl; rewrite ?Hmid; simpl;
     rewrite ?Hv1, ?Hv2, ?lookup_insert_eq; simpl;
     eexists; split; [reflexivity|]; simpl;
     unfold posOf, sideStart, sideLength; simpl;
     simpl in E1, E2, E3, E4, E5, E6;
     rewrite ?E1, ?E2, ?E3, ?E4, ?E5, ?E6; done).
Qed.

End RouterFacts.

(** *** Anchors in assignment order *)

(** The two anchors of a routed connection: event, side, and the
    coordinate that runs along the side. *)
Definition anchorsOf (cp : EventConnection * ConnectionPath)
  : list (jsstring * Side * Q) :=
  [(fromEventId (fst cp), startPort (snd cp),
    coordAlong (startPort (snd cp)) (cp_from (snd cp)));
   (toEventId (fst cp), endPort (snd cp),
    coordAlong (endPort (snd cp)) (cp_to (snd cp)))].

Definition onSide (e : jsstring) (s : Side) (a : jsstring * Side * Q)
  : option Q :=
  if decide (fst a = (e, s)) then Some (snd a) else None.

(** The anchors on side [s] of event [e], in the order in which the second
    pass assigned them. *)
Definition anchorsOn (e : jsstring) (s : Side)
           (routed : list (EventConnection * ConnectionPath)) : list Q :=
  omap (onSide e s) (flat_map anchorsOf routed).

Lemma anchorsOn_app e s r1 r2 :
  anchorsOn e s (r1 ++ r2) = anchorsOn e s r1 ++ anchorsOn e s r2.
Proof. unfold anchorsOn. by rewrite flat_map_app, omap_app. Qed.

Section RouterPorts.
Context (layouts : gmap jsstring EventLayout) (columns : gmap jsstring ColumnGeo).
Hypothesis keys_ok :
  forall id l, layouts !! id = Some l -> ev_id (event l) = id.

#[local] Abbreviation portsOf := (ports layouts columns).

Definition keysPresent (pu : gmap jsstring PortUsage)
           (conns : list EventConnection) : Prop :=
  forall conn e s, conn ∈ conns -> (e, s) ∈ portsOf conn -> is_Some (pu !! e).

(** The usage map after the two increments of one routed connection. *)
Lemma usage_after_step (pu : gmap jsstring PortUsage) (a b : jsstring)
      (s1 s2 : Side) (u1 u2 : PortUsage) :
  s1 <> s2 -> pu !! a = Some u1 -> pu !! b = Some u2 ->
  let pu' := <[b := incr s2 (usageOf (<[a := incr s1 u1]> pu) b)]>
               (<[a := incr s1 u1]> pu) in
  (forall e, is_Some (pu !! e) -> is_Some (pu' !! e))
  /\ forall e s,
      used s (usageOf pu' e)
      = (used s (usageOf pu e) + occurrences (e, s) [(a, s1); (b, s2)])%nat
      /\ total s (usageOf pu' e) = total s (usageOf pu e).
Proof.
  intros Hs Hu1 Hu2 pu'. split.
  - intros e He. unfold pu'.
    destruct (decide (b = e)) as [<-|Hbe]; [by rewrite lookup_insert_eq|].
    rewrite lookup_insert_ne by done.
    destruct (decide (a = e)) as [<-|Hae]; [by rewrite lookup_insert_eq|].
    by rewrite lookup_insert_ne.
  - intros e s. unfold pu', usageOf, occurrences. simpl.
    destruct (decide (b = e)) as [<-|Hbe].
    + rewrite lookup_insert_eq. simpl.
      destruct (decide (a = b)) as [->|Hab].
      * rewrite lookup_insert_eq. simpl. rewrite Hu1.
        rewrite !used_incr, !total_incr. simpl.
        repeat case_decide; repeat case_bool_decide; simpl; try lia;
          try congruence; split; try lia; try done.
      * rewrite lookup_insert_ne by done. rewrite Hu2. simpl.
        rewrite !used_incr, !total_incr.
        repeat case_decide; repeat case_bool_decide; simpl; try lia;
          try congruence; split; try lia; try done.
    + rewrite lookup_insert_ne by done.
      destruct (decide (a = e)) as [<-|Hae].
      * rewrite lookup_insert_eq, Hu1. simpl.
        rewrite !used_incr, !total_incr.
        repeat case_decide; repeat case_bool_decide; simpl; try lia;
          try congruence; split; try lia; try done.
      * rewrite lookup_insert_ne by done.
        repeat case_bool_decide; simpl; try congruence. split; [lia | done].
Qed.

(** The anchors one routed connection adds to a side continue the
    numbering of that side. *)
Lemma step_anchors (e a b : jsstring) (s s1 s2 : Side) (q1 q2 : Q)
      (f : nat -> Q) (k0 : nat) :
  s1 <> s2 ->
  ((a, s1) = (e, s) -> q1 = f k0) -> ((b, s2) = (e, s) -> q2 = f k0) ->
  omap (onSide e s) [(a, s1, q1); (b, s2, q2)]
  = List.map f (seq k0 (occurrences (e, s) [(a, s1); (b, s2)])).
Proof.
  intros Hs H1 H2. unfold occurrences, onSide. simpl.
  repeat case_decide; repeat case_bool_decide; simpl in *; try congruence.
  - by rewrite H1.
  - by rewrite H2.
Qed.

Lemma routeLoop_anchors rest :
  forall pu paths,
    keysPresent pu rest ->
    exists pu' new,
      routeLoop layouts columns (pu, paths) rest = Some (pu', paths ++ new)
      /\ (forall e s,
            used s (usageOf pu' e)
            = (used s (usageOf pu e)
               + occurrences (e, s) (flat_map portsOf rest))%nat
            /\ total s (usageOf pu' e) = total s (usageOf pu e))
      /\ forall e s l,
          layouts !! e = Some l ->
          anchorsOn e s new
          = List.map (fun k => posOf l s k (total s (usageOf pu e)))
                     (seq (S (used s (usageOf pu e)))
                          (occurrences (e, s) (flat_map portsOf rest))).
Proof.
  induction rest as [|conn rest IH]; intros pu paths Hkeys;
    cbn [routeLoop flat_map].
  - exists pu, []. rewrite app_nil_r. split; [done|]. split.
    + intros e s. unfold occurrences. simpl. split; [lia | done].
    + done.
  - pose proof (routeStep_ports layouts columns pu paths conn) as Hstep.
    destruct (portsOf conn) as [|[a s1] [|[b s2] [|]]] eqn:Ep; try done.
    + rewrite Hstep. cbn [mbind option_bind app].
      apply IH. intros c e s Hc Hp. eapply Hkeys; [by constructor | done].
    + destruct Hstep as (from & to & Hf & Ht & Ha & Hb & Hs & Hstep).
      destruct (Hkeys conn a s1) as [u1 Hu1];
        [constructor | rewrite Ep; constructor |].
      destruct (Hkeys conn b s2) as [u2 Hu2];
        [constructor | rewrite Ep; constructor; constructor |].
      destruct (Hstep u1 u2 Hu1 Hu2) as (p & -> & Hp1 & Hp2 & Hq1 & Hq2).
      cbn [mbind option_bind].
      destruct (usage_after_step pu a b s1 s2 u1 u2 Hs Hu1 Hu2) as [Hmono Hcnt].
      set (pu1 := <[b := incr s2 (usageOf (<[a := incr s1 u1]> pu) b)]>
                    (<[a := incr s1 u1]> pu)) in *.
      destruct (IH pu1 (paths ++ [(conn, p)])) as (pu' & new & -> & Hu & Hanch).
      { intros c e s Hc Hp. apply Hmono.
        eapply Hkeys; [by constructor | done]. }
      exists pu', ((conn, p) :: new). split; [by rewrite <- app_assoc|].
      split.
      * intros e s. destruct (Hu e s) as [-> ->].
        destruct (Hcnt e s) as [-> ->].
        rewrite occurrences_app. split; [lia | done].
      * intros e s l Hl.
        change ((conn, p) :: new) with ([(conn, p)] ++ new).
        rewrite anchorsOn_app, (Hanch e s l Hl).
        destruct (Hcnt e s) as [-> ->].
        rewrite occurrences_app, seq_app, map_app. f_equal.
        unfold anchorsOn, anchorsOf. simpl. rewrite Hp1, Hp2, Hq1, Hq2.
        assert (a = fromEventId conn) as Ha'
          by (rewrite Ha; by apply keys_ok).
        assert (b = toEventId conn) as Hb'
          by (rewrite Hb; by apply keys_ok).
        rewrite <- Ha', <- Hb'.
        apply (step_anchors e a b s s1 s2 _ _
                 (fun k => posOf l s k (total s (usageOf pu e)))); [done| |].
        -- intros Heq. inversion Heq; subst e s.
           assert (l = from) by congruence. subst l.
           unfold usageOf. by rewrite Hu1.
        -- intros Heq. inversion Heq; subst e s.
           assert (l = to) by congruence. subst l.
           unfold usageOf. by rewrite Hu2.
Qed.

End RouterPorts.

Section RouterCounts.
Context (layouts : gmap jsstring EventLayout) (columns : gmap jsstring ColumnGeo).

#[local] Abbreviation portsOf' := (ports layouts columns).

(** The first pass adds one to the total of each port of a connection and
    leaves the running counts at zero. *)
Lemma countStep_usage pu conn e s :
  total s (usageOf (countStep layouts columns pu conn) e)
  = (total s (usageOf pu e) + occurrences (e, s) (portsOf' conn))%nat
  /\ used s (usageOf (countStep layouts columns pu conn) e)
     = used s (usageOf pu e).
Proof.
  unfold countStep, ports.
  destruct (layouts !! fromEventId conn) as [from|];
    [|unfold occurrences; simpl; split; [lia | done]].
  destruct (layouts !! toEventId conn) as [to|];
    [|unfold occurrences; simpl; split; [lia | done]].
  assert (forall (a b : jsstring) (pu' : gmap jsstring PortUsage) s1 s2,
            is_Some (pu' !! a) -> is_Some (pu' !! b) ->
            (forall e, usageOf pu' e = usageOf pu e) ->
            total s (usageOf (alter (incrTotal s2) b
                                    (alter (incrTotal s1) a pu')) e)
            = (total s (usageOf pu e)
               + occurrences (e, s) [(a, s1); (b, s2)])%nat
            /\ used s (usageOf (alter (incrTotal s2) b
                                      (alter (incrTotal s1) a pu')) e)
               = used s (usageOf pu e)) as Hgen'.
  { intros a b pu' s1 s2 Ha Hb Hpu'.
    rewrite usageOf_alter by by apply alter_is_Some.
    rewrite !usageOf_alter by done.
    unfold occurrences. simpl.
    repeat case_decide; subst; rewrite ?total_incrTotal, ?used_incrTotal, ?Hpu';
      repeat case_decide; repeat case_bool_decide; simpl;
      try congruence; split; try lia; try done. }
  set (a := ev_id (event from)). set (b := ev_id (event to)).
  set (pu' := ensureUsage b (ensureUsage a pu)).
  assert (is_Some (pu' !! a)) as Ha
    by apply ensureUsage_mono, ensureUsage_is_Some.
  assert (is_Some (pu' !! b)) as Hb by apply ensureUsage_is_Some.
  assert (forall e, usageOf pu' e = usageOf pu e) as Hpu'
    by (intros e'; unfold pu'; by rewrite !usageOf_ensure).
  pose proof (fun s1 s2 => Hgen' a b pu' s1 s2 Ha Hb Hpu') as Hgen.
  destruct (decide (getDayKey (ev_date (event from))
                    = getDayKey (ev_date (event to)))) as [Hday|Hday];
    [destruct (Qlt_bool (y from) (y to)); apply Hgen|].
  destruct (columns !! getDayKey (ev_date (event from))) as [fc|];
    [|rewrite Hpu'; unfold occurrences; simpl; split; [lia | done]].
  destruct (columns !! getDayKey (ev_date (event to))) as [tc|];
    [|rewrite Hpu'; unfold occurrences; simpl; split; [lia | done]].
  destruct (Qlt_bool (col_x fc) (col_x tc)); apply Hgen.
Qed.

Lemma countPorts_usage conns e s :
  total s (usageOf (countPorts layouts columns conns) e)
  = occurrences (e, s) (flat_map portsOf' conns)
  /\ used s (usageOf (countPorts layouts columns conns) e) = 0%nat.
Proof.
  unfold countPorts.
  assert (forall pu,
            total s (usageOf (fold_left (countStep layouts columns) conns pu) e)
            = (total s (usageOf pu e)
               + occurrences (e, s) (flat_map portsOf' conns))%nat
            /\ used s (usageOf (fold_left (countStep layouts columns) conns pu) e)
               = used s (usageOf pu e)) as Hgen.
  { induction conns as [|c conns IH]; intros pu; simpl.
    - unfold occurrences. simpl. split; [lia | done].
    - destruct (IH (countStep layouts columns pu c)) as [-> ->].
      destruct (countStep_usage pu c e s) as [-> ->].
      rewrite occurrences_app. split; [lia | done]. }
  destruct (Hgen ∅) as [-> ->]. unfold usageOf. rewrite lookup_empty.
  by destruct s.
Qed.

(** *** Claim C8: skipped connections *)

(** Neither pass can fail: every record the second pass reads was created
    by the first. Every entry belongs to a connection both of whose
    endpoints have a rectangle. *)
Lemma routeLoop_total rest :
  forall pu paths,
    (forall conn e s, conn ∈ rest -> (e, s) ∈ portsOf' conn -> is_Some (pu !! e)) ->
    exists pu' new,
      routeLoop layouts columns (pu, paths) rest = Some (pu', paths ++ new)
      /\ forall cp, cp ∈ new ->
           fst cp ∈ rest /\ is_Some (layouts !! fromEventId (fst cp))
           /\ is_Some (layouts !! toEventId (fst cp)).
Proof.
  induction rest as [|conn rest IH]; intros pu paths Hkeys;
    cbn [routeLoop].
  { exists pu, []. rewrite app_nil_r. split; [done|].
    intros cp Hcp. by apply elem_of_nil in Hcp. }
  pose proof (routeStep_ports layouts columns pu paths conn) as Hstep.
  destruct (portsOf' conn) as [|[a s1] [|[b s2] [|]]] eqn:Ep; try done.
  - rewrite Hstep. cbn [mbind option_bind].
    destruct (IH pu paths) as (pu' & new & -> & Hnew).
    { intros c e s Hc Hp. eapply Hkeys; [by constructor | done]. }
    exists pu', new. split; [done|].
    intros cp Hcp. destruct (Hnew cp Hcp) as (H1 & H2 & H3).
    split; [by constructor | done].
  - destruct Hstep as (from & to & Hf & Ht & Ha & Hb & Hs & Hstep).
    destruct (Hkeys conn a s1) as [u1 Hu1];
      [constructor | rewrite Ep; constructor |].
    destruct (Hkeys conn b s2) as [u2 Hu2];
      [constructor | rewrite Ep; constructor; constructor |].
    destruct (Hstep u1 u2 Hu1 Hu2) as (p & -> & _).
    cbn [mbind option_bind].
    destruct (IH (<[b := incr s2 (usageOf (<[a := incr s1 u1]> pu) b)]>
                    (<[a := incr s1 u1]> pu)) (paths ++ [(conn, p)]))
      as (pu' & new & -> & Hnew).
    { intros c e s Hc Hp.
      destruct (decide (b = e)) as [<-|Hbe]; [by rewrite lookup_insert_eq|].
      rewrite lookup_insert_ne by done.
      destruct (decide (a = e)) as [<-|Hae]; [by rewrite lookup_insert_eq|].
      rewrite lookup_insert_ne by done.
      eapply Hkeys; [by constructor | done]. }
    exists pu', ((conn, p) :: new). split; [by rewrite <- app_assoc|].
    intros cp [->|Hcp]%elem_of_cons.
    + simpl. rewrite Hf, Ht. split; [constructor | by eauto].
    + destruct (Hnew cp Hcp) as (H1 & H2 & H3).
      split; [by constructor | done].
Qed.

Lemma route_entries conns :
  exists routed,
    route layouts columns conns = Some routed
    /\ forall cp, cp ∈ routed ->
         fst cp ∈ conns /\ is_Some (layouts !! fromEventId (fst cp))
         /\ is_Some (layouts !! toEventId (fst cp)).
Proof.
  unfold route.
  destruct (routeLoop_total conns (countPorts layouts columns conns) [])
    as (pu' & new & -> & Hnew).
  - intros conn e s Hc Hp. by eapply countPorts_keys.
  - exists new. done.
Qed.

Lemma countPorts_skip l1 c l2 :
  layouts !! fromEventId c = None \/ layouts !! toEventId c = None ->
  countPorts layouts columns (l1 ++ c :: l2) = countPorts layouts columns (l1 ++ l2).
Proof.
  intros Hc. unfold countPorts. rewrite !fold_left_app. simpl.
  by rewrite countStep_skip.
Qed.

Lemma routeLoop_app l1 l2 st :
  routeLoop layouts columns st (l1 ++ l2)
  = st' ← routeLoop layouts columns st l1; routeLoop layouts columns st' l2.
Proof.
  revert st. induction l1 as [|c l1 IH]; intros st; simpl; [done|].
  destruct (routeStep layouts columns st c) as [st'|]; simpl; [apply IH | done].
Qed.

End RouterCounts.

(** ** Claim C3: ports fan out *)

Lemma portFraction_lt (k k' n : nat) :
  (k < k')%nat -> portFraction k n < portFraction k' n.
Proof.
  intros H. unfold portFraction, Qdiv.
  apply Qmult_lt_compat_r.
  - apply Qinv_lt_0_compat.
    assert (0 <= inject_Z (Z.of_nat n)) by (unfold Qle; simpl; lia). lra.
  - rewrite <- Zlt_Qlt. lia.
Qed.

Lemma portFraction_zero (n : nat) : portFraction 0 n == 0.
Proof.
  unfold portFraction, Qdiv. change (inject_Z (Z.of_nat 0)) with 0.
  apply Qmult_0_l.
Qed.

Lemma portFraction_full (n : nat) : portFraction (S n) n == 1.
Proof.
  unfold portFraction.
  assert (0 <= inject_Z (Z.of_nat n)) by (unfold Qle; simpl; lia).
  rewrite Nat2Z.inj_succ. unfold Z.succ. rewrite inject_Z_plus.
  change (inject_Z 1) with 1. field. lra.
Qed.

Lemma portFraction_inside (k n : nat) :
  (1 <= k <= n)%nat -> 0 < portFraction k n /\ portFraction k n < 1.
Proof.
  intros [H1 H2]. split.
  - rewrite <- (portFraction_zero n). apply portFraction_lt. lia.
  - rewrite <- (portFraction_full n). apply portFraction_lt. lia.
Qed.

(** C3. For the computed layout and any connection list: on side [s] of an
    event that has a rectangle, if the first pass counted [N] connections,
    the anchors assigned by the second pass are, in assignment order,
    exactly the points at fractions 1/(N+1), ..., N/(N+1) of the side; so
    they are strictly increasing (hence pairwise distinct) and strictly
    inside the side. *)
Theorem ports_fan_out
        (events : list StoryEvent) (storylines : list Storyline)
        (eventConnections : list EventConnection) (eventTypes : list EventType)
        (eraOrder : list jsstring) (expandedEvents : gset jsstring)
        (e : jsstring) (s : Side) (l : EventLayout) :
  let layouts := eventLayouts events storylines eventConnections eventTypes
                              eraOrder expandedEvents in
  let columns := dayColumnGeometries events eraOrder in
  layouts !! e = Some l ->
  exists routed,
    route layouts columns eventConnections = Some routed
    /\ let N := total s (default zeroUsage
                           (countPorts layouts columns eventConnections !! e)) in
       let anchors := anchorsOn e s routed in
       anchors = List.map (fun k => posOf l s k N) (seq 1 N)
       /\ (forall i j a b, (i < j)%nat -> anchors !! i = Some a ->
                           anchors !! j = Some b -> a < b)
       /\ (forall a, a ∈ anchors ->
                     sideStart s l < a /\ a < sideStart s l + sideLength s l).
Proof.
  intros layouts columns Hl.
  assert (forall id l', layouts !! id = Some l' -> ev_id (event l') = id) as Hkeys.
  { intros id l' H. by apply eventLayouts_placement in H as [_ H]. }
  assert (0 < sideLength s l) as Hlen.
  { apply eventLayouts_placement in Hl as [Hp _].
    apply placement_origin in Hp as (? & ? & ? & ? & _ & _ & _ & _ & _ & Hst).
    apply stackPlacements_facts in Hst as (_ & _ & _ & Hw & Hh & _).
    pose proof (eventHeight_bounds expandedEvents (event l)) as [? ?].
    destruct s; simpl; rewrite ?Hw, ?Hh; unfold EVENT_WIDTH; lra. }
  destruct (routeLoop_anchors layouts columns Hkeys eventConnections
              (countPorts layouts columns eventConnections) [])
    as (pu' & new & Hloop & _ & Hanch).
  { intros conn e' s' Hc Hp. by eapply countPorts_keys. }
  exists new. unfold route. rewrite Hloop. split; [done|].
  fold (usageOf (countPorts layouts columns eventConnections) e).
  destruct (countPorts_usage layouts columns eventConnections e s) as [Htot Hused].
  specialize (Hanch e s l Hl). rewrite Hused, <- Htot in Hanch.
  set (N := total s (usageOf (countPorts layouts columns eventConnections) e))
    in *.
  cbn zeta. split; [done|].
  assert (forall i a, anchorsOn e s new !! i = Some a ->
                      (i < N)%nat /\ a = posOf l s (S i) N) as Hnth.
  { intros i a. rewrite Hanch, list_lookup_fmap.
    destruct (seq 1 N !! i) as [k|] eqn:Ek; [|done].
    apply lookup_seq in Ek as [-> Hi]. simpl. intros Ha. inversion Ha. done. }
  split.
  - intros i j a b Hij [Hi ->]%Hnth [Hj ->]%Hnth. unfold posOf.
    pose proof (portFraction_lt (S i) (S j) N ltac:(lia)). nra.
  - intros a (i & [Hi ->]%Hnth)%list_elem_of_lookup. unfold posOf.
    pose proof (portFraction_inside (S i) N ltac:(lia)) as [? ?]. nra.
Qed.

Module RouterExample.
Definition k1 : EventConnection := mkEventConnection (js "k1") (js "a") (js "c").
Definition k2 : EventConnection := mkEventConnection (js "k2") (js "a") (js "c").
(** A connection to an event that does not exist. *)
Definition k3 : EventConnection := mkEventConnection (js "k3") (js "a") (js "zz").
Definition events : list StoryEvent := [C1Example.evC; C1Example.evA].
Definition layouts : gmap jsstring EventLayout :=
  eventLayouts events C1Example.lanes [k1; k2] C1Example.types C1Example.eras ∅.
Definition columns : gmap jsstring ColumnGeo :=
  dayColumnGeometries events C1Example.eras.
End RouterExample.

(** The scenario of the specification: two events on different days
    connected twice; the two connections get distinct, increasing ports on
    the right side of the earlier event. *)
Lemma ports_fan_out_witness :
  exists routed,
    route RouterExample.layouts RouterExample.columns
          [RouterExample.k1; RouterExample.k2] = Some routed
    /\ forall i j a b, (i < j)%nat ->
         anchorsOn (js "a") SideRight routed !! i = Some a ->
         anchorsOn (js "a") SideRight routed !! j = Some b -> a < b.
Proof.
  destruct (ports_fan_out RouterExample.events C1Example.lanes
              [RouterExample.k1; RouterExample.k2] C1Example.types
              C1Example.eras ∅ (js "a") SideRight
              (C1Example.layoutOf C1Example.evA 20 (40 # 2) "s1"))
    as (routed & Hr & _ & Hlt & _).
  - vm_compute. reflexivity.
  - exists routed. split; [exact Hr | exact Hlt].
Defined.

(** ** Highlight: the hovered component *)

#[local] Close Scope Q_scope.
#[local] Close Scope Z_scope.

Section ComponentFacts.
Context (conns : list EventConnection).

(** [v] is taken as a neighbour of [u] through one of the connections
    [cs]: an empty id is never taken. *)
Definition adjIn (cs : list EventConnection) (u v : jsstring) : Prop :=
  truthy v = true
  /\ exists conn, conn ∈ cs
       /\ ((fromEventId conn = u /\ toEventId conn = v)
           \/ (toEventId conn = u /\ fromEventId conn = v)).

Definition adj : jsstring -> jsstring -> Prop := adjIn conns.

(** Undirected reachability from the hovered event. *)
Definition reach : jsstring -> jsstring -> Prop := rtc adj.

Lemma adjIn_cons c cs u v : adjIn cs u v -> adjIn (c :: cs) u v.
Proof.
  intros (Ht & conn & Hin & H). split; [done|].
  exists conn. split; [by constructor | done].
Qed.

Lemma adj_sym u v : truthy u = true -> adj u v -> adj v u.
Proof.
  intros Hu (Hv & conn & Hin & H). split; [done|].
  exists conn. split; [done|]. destruct H as [[? ?]|[? ?]]; [right | left]; done.
Qed.

Lemma reach_truthy h v : truthy h = true -> reach h v -> truthy v = true.
Proof.
  intros Hh H. induction H as [|x y z Hxy Hyz IH]; [done|].
  apply IH. by destruct Hxy.
Qed.

Lemma reach_sym h v : truthy h = true -> reach h v -> reach v h.
Proof.
  intros Hh H. induction H as [x|x y z Hxy Hyz IH]; [constructor|].
  assert (truthy y = true) as Hy by by destruct Hxy.
  eapply rtc_r; [by apply IH|]. by apply adj_sym.
Qed.

(** The inner loop over the connections: what it appends to the queue. *)
Lemma visit_fold cur cs visited queue :
  exists new,
    fold_left (visitStep cur) cs (visited, queue)
    = (list_to_set new ∪ visited, queue ++ new)
    /\ NoDup new
    /\ (forall v, v ∈ new -> v ∉ visited /\ adjIn cs cur v)
    /\ (forall v, adjIn cs cur v -> v ∈ visited \/ v ∈ new).
Proof.
  revert visited queue. induction cs as [|c cs IH]; intros visited queue;
    cbn [fold_left].
  - exists []. simpl. rewrite app_nil_r, union_empty_l_L.
    split; [done|]. split; [constructor|]. split.
    + intros v Hv. by apply elem_of_nil in Hv.
    + intros v (_ & conn & Hin & _). by apply elem_of_nil in Hin.
  - assert (forall n, (fromEventId c = cur /\ toEventId c = n)
                      \/ (toEventId c = cur /\ fromEventId c = n) ->
                      truthy n = true -> adjIn (c :: cs) cur n) as Hadj.
    { intros n Hn Ht. split; [done|]. exists c. split; [constructor | done]. }
    assert (forall (n : jsstring),
              ((fromEventId c = cur /\ toEventId c = n)
               \/ (toEventId c = cur /\ fromEventId c = n)) ->
              (forall v, adjIn [c] cur v -> v = n) ->
              exists new,
                fold_left (visitStep cur) cs
                  (if truthy n && negb (bool_decide (n ∈ visited))
                   then ({[n]} ∪ visited, queue ++ [n]) else (visited, queue))
                = (list_to_set new ∪ visited, queue ++ new)
                /\ NoDup new
                /\ (forall v, v ∈ new -> v ∉ visited /\ adjIn (c :: cs) cur v)
                /\ (forall v, adjIn (c :: cs) cur v -> v ∈ visited \/ v ∈ new))
      as Hcase.
    { intros n Hn Honly.
      destruct (truthy n) eqn:Ht; simpl;
        [destruct (bool_decide (n ∈ visited)) eqn:Hvis; simpl|].
      - apply bool_decide_eq_true in Hvis.
        destruct (IH visited queue) as (new & -> & Hnd & Hnew & Hall).
        exists new. split; [done|]. split; [done|]. split.
        + intros v Hv. destruct (Hnew v Hv). split; [done | by apply adjIn_cons].
        + intros v (Hv & conn & [->|Hin]%elem_of_cons & H).
          * left. rewrite (Honly v); [done|].
            split; [done|]. exists c. split; [constructor | done].
          * apply Hall. split; [done|]. by exists conn.
      - apply bool_decide_eq_false in Hvis.
        destruct (IH ({[n]} ∪ visited) (queue ++ [n])) as (new & -> & Hnd & Hnew & Hall).
        exists (n :: new). split; [|split; [|split]].
        + rewrite <- app_assoc. simpl. f_equal. set_solver.
        + constructor; [|done]. intros Hn'. apply Hnew in Hn' as [Hn' _]. set_solver.
        + intros v [->|Hv]%elem_of_cons.
          * split; [done | by apply Hadj].
          * destruct (Hnew v Hv) as [Hv1 Hv2].
            split; [set_solver | by apply adjIn_cons].
        + intros v (Hv & conn & [->|Hin]%elem_of_cons & H).
          * right. rewrite (Honly v); [constructor|].
            split; [done|]. exists c. split; [constructor | done].
          * destruct (Hall v) as [Hv'|Hv'];
              [split; [done|]; by exists conn | |].
            -- apply elem_of_union in Hv' as [->%elem_of_singleton|Hv'];
                 [right; constructor | by left].
            -- right. by constructor.
      - destruct (IH visited queue) as (new & -> & Hnd & Hnew & Hall).
        exists new. split; [done|]. split; [done|]. split.
        + intros v Hv. destruct (Hnew v Hv). split; [done | by apply adjIn_cons].
        + intros v (Hv & conn & [->|Hin]%elem_of_cons & H).
          * rewrite (Honly v) in Hv; [congruence|].
            split; [done|]. exists c. split; [constructor | done].
          * apply Hall. split; [done|]. by exists conn. }
    unfold visitStep at 2.
    destruct (decide (fromEventId c = cur)) as [Hf|Hf].
    + apply Hcase; [by left|].
      intros v (_ & conn & ->%list_elem_of_singleton & [[_ H]|[H1 H2]]);
        [done | congruence].
    + destruct (decide (toEventId c = cur)) as [Hto|Hto].
      * apply Hcase; [by right|].
        intros v (_ & conn & ->%list_elem_of_singleton & [[H _]|[_ H]]);
          [done | done].
      * destruct (IH visited queue) as (new & -> & Hnd & Hnew & Hall).
        exists new. split; [done|]. split; [done|]. split.
        -- intros v Hv. destruct (Hnew v Hv). split; [done | by apply adjIn_cons].
        -- intros v (Hv & conn & [->|Hin]%elem_of_cons & H).
           ++ destruct H as [[? ?]|[? ?]]; done.
           ++ apply Hall. split; [done|]. by exists conn.
Qed.

(** Every id that can ever enter the queue when [h] is hovered. *)
Definition candidates (h : jsstring) : gset jsstring :=
  {[h]} ∪ list_to_set (flat_map (fun c => [fromEventId c; toEventId c]) conns).

Lemma size_list_to_set_le (l : list jsstring) :
  size (list_to_set l : gset jsstring) <= length l.
Proof.
  induction l as [|a l IH]; simpl.
  - change (size (∅ : gset jsstring) <= 0). by rewrite size_empty.
  - rewrite size_union_alt, size_singleton.
    pose proof (subseteq_size (list_to_set l ∖ {[a]}) (list_to_set l : gset jsstring)
                  ltac:(set_solver)). lia.
Qed.

Lemma candidates_size h : size (candidates h) <= bfsFuel conns.
Proof.
  unfold candidates, bfsFuel. rewrite size_union_alt, size_singleton.
  set (L := flat_map (fun c => [fromEventId c; toEventId c]) conns).
  pose proof (subseteq_size (list_to_set L ∖ {[h]}) (list_to_set L : gset jsstring)
                ltac:(set_solver)).
  pose proof (size_list_to_set_le L).
  assert (length L = 2 * length conns)%nat as HL.
  { unfold L. clear. induction conns as [|c cs IH]; simpl; lia. }
  lia.
Qed.

Lemma adj_candidate h u v : adj u v -> v ∈ candidates h.
Proof.
  intros (_ & conn & Hin & H). unfold candidates.
  apply elem_of_union_r, elem_of_list_to_set, elem_of_flat_map.
  exists conn. split; [done|].
  destruct H as [[_ <-]|[_ <-]]; [right; left | left]; done.
Qed.

(** The state of the search between two iterations of the [while] loop. *)
Record bfsInv (h : jsstring) (queue : list jsstring)
       (visited componentEvents : gset jsstring) : Prop := mkBfsInv {
  inv_split : forall v, v ∈ visited <-> v ∈ componentEvents \/ v ∈ queue;
  inv_closed : forall u v, u ∈ componentEvents -> adj u v -> v ∈ visited;
  inv_reach : forall v, v ∈ visited -> reach h v;
  inv_start : h ∈ visited;
  inv_nodup : NoDup queue;
  inv_fresh : forall v, v ∈ queue -> v ∉ componentEvents;
  inv_cand : visited ⊆ candidates h
}.

(** With the queue empty, the component is what is reachable. *)
Lemma bfs_done h visited componentEvents :
  bfsInv h [] visited componentEvents ->
  forall v, v ∈ componentEvents <-> reach h v.
Proof.
  intros Inv v. split.
  - intros Hv. apply (inv_reach _ _ _ _ Inv), (inv_split _ _ _ _ Inv). by left.
  - revert v. apply (rtc_ind_r (fun v => v ∈ componentEvents) h).
    + destruct (proj1 (inv_split _ _ _ _ Inv h) (inv_start _ _ _ _ Inv))
        as [H|H]; [done | by apply elem_of_nil in H].
    + intros y z _ Hyz Hy.
      destruct (proj1 (inv_split _ _ _ _ Inv z)
                  (inv_closed _ _ _ _ Inv y z Hy Hyz))
        as [H|H]; [done | by apply elem_of_nil in H].
Qed.

(** The search terminates within its fuel and returns exactly the ids
    reachable from the hovered one. *)
Lemma bfsLoop_correct h fuel :
  forall queue visited componentEvents,
    bfsInv h queue visited componentEvents ->
    size (candidates h ∖ componentEvents) <= fuel ->
    exists result,
      bfsLoop conns fuel queue visited componentEvents = Some result
      /\ forall v, v ∈ result <-> reach h v.
Proof.
  induction fuel as [|fuel IH]; intros queue visited comp Inv Hfuel.
  - destruct queue as [|cur queue].
    + exists comp. split; [done | by eapply bfs_done].
    + exfalso.
      assert (cur ∈ candidates h ∖ comp) as Hcur.
      { apply elem_of_difference. split.
        - apply (inv_cand _ _ _ _ Inv), (inv_split _ _ _ _ Inv). right. constructor.
        - apply (inv_fresh _ _ _ _ Inv). constructor. }
      assert (size (candidates h ∖ comp) = 0)%nat as Hz by lia.
      apply size_empty_inv in Hz. apply Hz in Hcur.
      by apply elem_of_empty in Hcur.
  - destruct queue as [|cur queue].
    + exists comp. split; [done | by eapply bfs_done].
    + cbn [bfsLoop].
      destruct (visit_fold cur conns visited queue)
        as (new & -> & Hnd & Hnew & Hall).
      assert (cur ∈ visited) as Hcurv
        by (apply (inv_split _ _ _ _ Inv); right; constructor).
      assert (cur ∉ comp) as Hcurc
        by (apply (inv_fresh _ _ _ _ Inv); constructor).
      pose proof (inv_nodup _ _ _ _ Inv) as Hq. apply NoDup_cons in Hq as [Hcq Hq].
      apply IH.
      * constructor.
        -- intros v. rewrite elem_of_union, elem_of_list_to_set, elem_of_union,
             elem_of_singleton, elem_of_app, (inv_split _ _ _ _ Inv v),
             elem_of_cons. tauto.
        -- intros u v [->%elem_of_singleton|Hu]%elem_of_union Huv.
           ++ destruct (Hall v Huv) as [H|H]; [set_solver|].
              apply elem_of_union_l, elem_of_list_to_set, H.
           ++ apply elem_of_union_r. by eapply (inv_closed _ _ _ _ Inv).
        -- intros v [Hv%elem_of_list_to_set|Hv]%elem_of_union.
           ++ eapply rtc_r; [by apply (inv_reach _ _ _ _ Inv cur)|].
              by apply Hnew.
           ++ by apply (inv_reach _ _ _ _ Inv).
        -- apply elem_of_union_r, (inv_start _ _ _ _ Inv).
        -- apply NoDup_app. split; [done|]. split; [|done].
           intros v Hv Hv'. apply Hnew in Hv' as [Hv' _]. apply Hv'.
           apply (inv_split _ _ _ _ Inv). right. by constructor.
        -- intros v [Hv|Hv]%elem_of_app [->%elem_of_singleton|Hc]%elem_of_union.
           ++ done.
           ++ apply (inv_fresh _ _ _ _ Inv v); [by constructor | done].
           ++ apply Hnew in Hv as [Hv _]. done.
           ++ apply Hnew in Hv as [Hv _]. apply Hv.
              apply (inv_split _ _ _ _ Inv). by left.
        -- intros v [Hv%elem_of_list_to_set|Hv]%elem_of_union.
           ++ apply Hnew in Hv as [_ Hv]. by eapply adj_candidate.
           ++ by apply (inv_cand _ _ _ _ Inv).
      * assert (candidates h ∖ ({[cur]} ∪ comp)
                = (candidates h ∖ comp) ∖ {[cur]}) as -> by set_solver.
        rewrite size_difference, size_singleton.
        -- lia.
        -- apply singleton_subseteq_l, elem_of_difference. split; [|done].
           by apply (inv_cand _ _ _ _ Inv).
Qed.

(** [componentOf] returns, and returns the ids reachable from [h]. *)
Lemma componentOf_correct h :
  exists result,
    componentOf conns h = Some result /\ forall v, v ∈ result <-> reach h v.
Proof.
  unfold componentOf. apply bfsLoop_correct.
  - constructor.
    + intros v. rewrite elem_of_singleton, list_elem_of_singleton. set_solver.
    + intros u v Hu. by apply elem_of_empty in Hu.
    + intros v ->%elem_of_singleton. constructor.
    + by apply elem_of_singleton.
    + apply NoDup_singleton.
    + intros v _. apply not_elem_of_empty.
    + unfold candidates. set_solver.
  - rewrite difference_empty_L. apply candidates_size.
Qed.

End ComponentFacts.

(** What [highlightedEvents] returns for a hovered id: nothing for the
    empty string (falsy, like [null]), the reachable ids otherwise. *)
Lemma highlightedEvents_spec (conns : list EventConnection) (h : jsstring) :
  exists S,
    highlightedEvents conns (Some h) = Some S
    /\ forall v, v ∈ S <-> truthy h = true /\ reach conns h v.
Proof.
  unfold highlightedEvents, highlight. simpl.
  destruct (truthy h) eqn:Hh.
  - destruct (componentOf_correct conns h) as (S & -> & HS). simpl.
    exists S. split; [done|]. intros v. rewrite HS. tauto.
  - exists ∅. split; [done|]. intros v. split.
    + intros Hv. by apply elem_of_empty in Hv.
    + intros [? _]. done.
Qed.

(** C6. Membership in the hovered component is symmetric, and hovering an
    event (a non-empty id: the empty string is no hover) that no connection
    touches highlights exactly that event and no connection. *)
Theorem hover_component_symmetric (conns : list EventConnection)
        (A B : jsstring) :
  (exists SA SB,
     highlightedEvents conns (Some A) = Some SA
     /\ highlightedEvents conns (Some B) = Some SB
     /\ (A ∈ SB <-> B ∈ SA))
  /\ (truthy A = true ->
      (forall c, c ∈ conns -> fromEventId c <> A /\ toEventId c <> A) ->
      highlightedEvents conns (Some A) = Some {[A]}
      /\ highlightedConnectionInfo conns (Some A) = Some ∅).
Proof.
  split.
  - destruct (highlightedEvents_spec conns A) as (SA & HA & HSA).
    destruct (highlightedEvents_spec conns B) as (SB & HB & HSB).
    exists SA, SB. split; [done|]. split; [done|].
    rewrite HSA, HSB. split; intros [Ht Hr]; split;
      try (by eapply reach_truthy); by apply reach_sym.
  - intros HA Hiso.
    assert (forall v, reach conns A v -> v = A) as Honly.
    { intros v Hr. apply rtc_inv in Hr as [->|(y & (_ & c & Hc & H) & _)];
        [done|].
      destruct (Hiso c Hc) as [Hf Ht]. destruct H as [[? _]|[? _]]; done. }
    unfold highlightedEvents, highlightedConnectionInfo, highlight. simpl.
    rewrite HA.
    destruct (componentOf_correct conns A) as (S & -> & HS). simpl.
    assert (S = {[A]}) as ->.
    { apply set_eq. intros v. rewrite HS, elem_of_singleton. split.
      - apply Honly.
      - intros ->. constructor. }
    split; [done|]. f_equal.
    assert (componentConnectionsOf conns {[A]} = []) as ->; [|done].
    unfold componentConnectionsOf. clear HS Honly.
    induction conns as [|c cs IH]; simpl; [done|].
    destruct (Hiso c) as [Hf Ht]; [constructor|].
    rewrite bool_decide_eq_false_2 by (rewrite elem_of_singleton; done).
    simpl. apply IH. intros c' Hc'. apply Hiso. by constructor.
Qed.

(** ** Highlight: the greedy colouring *)

Lemma firstFree_spec (U : gset nat) (fuel i : nat) :
  (forall j, j < i -> j ∈ U) -> i + fuel = size U ->
  firstFree fuel U i ∉ U /\ firstFree fuel U i <= size U.
Proof.
  revert i. induction fuel as [|fuel IH]; intros i Hbelow Hsize; simpl.
  - split; [|lia]. intros Hi.
    assert (set_seq 0 (S i) ⊆ U) as Hsub.
    { intros j Hj%elem_of_set_seq.
      destruct (decide (j = i)) as [->|]; [done|]. apply Hbelow. lia. }
    apply subseteq_size in Hsub. rewrite size_set_seq in Hsub. lia.
  - case_decide as Hi; [|split; [done | lia]].
    apply IH; [|lia]. intros j Hj.
    destruct (decide (j = i)) as [->|]; [done|]. apply Hbelow. lia.
Qed.

Lemma smallestFree_spec (U : gset nat) :
  smallestFree U ∉ U /\ smallestFree U <= size U.
Proof. apply firstFree_spec; [lia | done]. Qed.

Section ColoringFacts.

Definition incident (v : jsstring) (c : EventConnection) : Prop :=
  fromEventId c = v \/ toEventId c = v.

(** Two connections share an endpoint event. *)
Definition share (d c : EventConnection) : Prop :=
  incident (fromEventId d) c \/ incident (toEventId d) c.

#[local] Instance incident_dec v c : Decision (incident v c).
Proof. unfold incident. apply _. Defined.

#[local] Instance share_dec d c : Decision (share d c).
Proof. unfold share. apply _. Defined.

(** How many connections of [l] share an endpoint with [d] ([d] itself
    counts when it is in [l]). *)
Definition sharing (d : EventConnection) (l : list EventConnection) : nat :=
  length (List.filter (fun c => bool_decide (share d c)) l).

(** The colour indices given so far to connections at event [v]. *)
Definition usedAt (v : jsstring) (out : list (EventConnection * HighlightInfo))
  : gset nat :=
  list_to_set
    (List.map (fun ci => hl_index (snd ci))
              (List.filter (fun ci => bool_decide (incident v (fst ci))) out)).

Definition sharedColors (c : EventConnection)
           (out : list (EventConnection * HighlightInfo)) : gset nat :=
  usedAt (fromEventId c) out ∪ usedAt (toEventId c) out.

(** The greedy rule: the smallest index not used at either endpoint,
    modulo the palette size. *)
Definition infoOf (U : gset nat) : HighlightInfo :=
  let finalColorIndex := smallestFree U mod length HIGHLIGHT_COLORS in
  mkHighlightInfo (nth finalColorIndex HIGHLIGHT_COLORS EmptyString)
                  finalColorIndex.

Lemma usedAt_snoc v out c info :
  usedAt v (out ++ [(c, info)])
  = usedAt v out ∪ (if decide (incident v c) then {[hl_index info]} else ∅).
Proof.
  unfold usedAt. rewrite List.filter_app, map_app, list_to_set_app_L. simpl.
  f_equal. case_decide as H.
  - rewrite bool_decide_eq_true_2 by done. simpl. by rewrite union_empty_r_L.
  - by rewrite bool_decide_eq_false_2.
Qed.

Lemma elem_of_usedAt v out n :
  n ∈ usedAt v out <->
  exists ci, ci ∈ out /\ incident v (fst ci) /\ hl_index (snd ci) = n.
Proof.
  unfold usedAt. rewrite elem_of_list_to_set, list_elem_of_In, in_map_iff.
  split.
  - intros (ci & <- & [Hin Hb]%filter_In). exists ci.
    apply bool_decide_eq_true in Hb. by rewrite list_elem_of_In.
  - intros (ci & Hin & Hb & <-). exists ci. split; [done|].
    apply filter_In. rewrite <- list_elem_of_In.
    split; [done | by apply bool_decide_eq_true].
Qed.

(** The per-event sets kept by the loop are the indices handed out so far
    at that event. *)
Definition usageInv (nodeColorUsage : gmap jsstring (gset nat))
           (out : list (EventConnection * HighlightInfo)) : Prop :=
  forall v, default ∅ (nodeColorUsage !! v) = usedAt v out.

Lemma colorStep_spec ncu out c :
  usageInv ncu out ->
  exists ncu',
    colorStep (ncu, out) c = (ncu', out ++ [(c, infoOf (sharedColors c out))])
    /\ usageInv ncu' (out ++ [(c, infoOf (sharedColors c out))]).
Proof.
  intros Inv. unfold colorStep.
  rewrite (Inv (fromEventId c)), (Inv (toEventId c)).
  fold (sharedColors c out). fold (infoOf (sharedColors c out)).
  set (info := infoOf (sharedColors c out)).
  change (smallestFree (sharedColors c out) mod length HIGHLIGHT_COLORS)
    with (hl_index info).
  eexists. split; [reflexivity|]. clearbody info.
  intros v. rewrite usedAt_snoc. unfold incident.
  rewrite !lookup_insert.
  repeat case_decide; simpl; rewrite ?lookup_insert; repeat case_decide;
    simpl; try tauto; try congruence;
    repeat match goal with
           | H : _ = v |- _ => subst v
           end;
    rewrite ?Inv;
    repeat match goal with
           | H : fromEventId c = toEventId c |- _ => rewrite ?H; clear H
           | H : toEventId c = fromEventId c |- _ => rewrite ?H; clear H
           end;
    set_solver.
Qed.

(** The loop, entry by entry: each connection gets the greedy colour for
    the entries before it. *)
Lemma colorLoop_spec l :
  forall ncu out,
    usageInv ncu out ->
    exists new,
      snd (fold_left colorStep l (ncu, out)) = out ++ new
      /\ List.map fst new = l
      /\ forall i ci, new !! i = Some ci ->
           snd ci = infoOf (sharedColors (fst ci) (out ++ take i new)).
Proof.
  induction l as [|c l IH]; intros ncu out Inv; cbn [fold_left].
  - exists []. simpl. rewrite app_nil_r. split; [done|]. split; [done|].
    intros i ci H. by rewrite lookup_nil in H.
  - destruct (colorStep_spec ncu out c Inv) as (ncu' & -> & Inv').
    destruct (IH ncu' _ Inv') as (new & -> & Hfst & Hnew).
    exists ((c, infoOf (sharedColors c out)) :: new).
    split; [by rewrite <- app_assoc|]. split; [simpl; by rewrite Hfst|].
    intros [|i] ci H; simpl in H.
    + inversion H; subst. simpl. by rewrite app_nil_r.
    + apply Hnew in H. rewrite H. simpl. by rewrite <- app_assoc.
Qed.

Lemma colorConnections_spec l :
  let out := colorConnections l in
  List.map fst out = l
  /\ forall i ci, out !! i = Some ci ->
       snd ci = infoOf (sharedColors (fst ci) (take i out)).
Proof.
  unfold colorConnections.
  destruct (colorLoop_spec l ∅ []) as (new & -> & H1 & H2).
  - intros v. by rewrite lookup_empty.
  - done.
Qed.

Lemma sharedColors_size c out :
  size (sharedColors c out) <= sharing c (List.map fst out).
Proof.
  unfold sharing.
  assert (sharedColors c out
          ⊆ list_to_set (List.map (fun ci => hl_index (snd ci))
               (List.filter (fun ci => bool_decide (share c (fst ci))) out)))
    as Hsub.
  { unfold sharedColors.
    intros n [H|H]%elem_of_union; apply elem_of_usedAt in H as (ci & H1 & H2 & H3);
      apply elem_of_list_to_set, list_elem_of_In, in_map_iff;
      exists ci; (split; [done|]); apply filter_In;
      rewrite <- list_elem_of_In; (split; [done|]);
      apply bool_decide_eq_true; [by left | by right]. }
  apply subseteq_size in Hsub.
  assert (forall (l : list nat), size (list_to_set l : gset nat) <= length l)
    as Hle.
  { clear. induction l as [|a l IH]; simpl.
    - change (size (∅ : gset nat) <= 0). by rewrite size_empty.
    - rewrite size_union_alt, size_singleton.
      pose proof (subseteq_size (list_to_set l ∖ {[a]}) (list_to_set l : gset nat)
                    ltac:(set_solver)). lia. }
  etrans; [exact Hsub|]. etrans; [apply Hle|].
  rewrite length_map. clear.
  induction out as [|ci out IH]; simpl; [done|].
  destruct (bool_decide (share c (fst ci))); simpl; lia.
Qed.

Lemma sharing_split d l1 c l2 :
  share d c -> sharing d l1 < sharing d (l1 ++ c :: l2).
Proof.
  intros H. unfold sharing. rewrite List.filter_app, length_app. simpl.
  rewrite bool_decide_eq_true_2 by done. simpl. lia.
Qed.

Lemma share_sym d c : share d c -> share c d.
Proof. unfold share, incident. intros [[?|?]|[?|?]]; auto. Qed.

Lemma share_refl d : share d d.
Proof. left. by left. Qed.

End ColoringFacts.

Lemma palette_distinct (i j : nat) :
  i < 7 -> j < 7 -> i <> j ->
  nth i HIGHLIGHT_COLORS EmptyString <> nth j HIGHLIGHT_COLORS EmptyString.
Proof.
  intros Hi Hj Hne H.
  do 7 (destruct i as [|i];
        [do 7 (destruct j as [|j]; [first [congruence | discriminate H]|]); lia|]).
  lia.
Qed.

Lemma infoOf_index_lt (U : gset nat) : hl_index (infoOf U) < 7.
Proof. unfold infoOf. cbn [hl_index]. apply Nat.mod_upper_bound. done. Qed.

(** A later connection never repeats the colour of an earlier one that
    shares an endpoint with it, as long as it shares endpoints with at most
    six others. *)
Lemma colorConnections_later (l : list EventConnection) (i j : nat)
      (ci cj : EventConnection * HighlightInfo) :
  let out := colorConnections l in
  sharing (fst cj) l <= 7 ->
  i < j -> out !! i = Some ci -> out !! j = Some cj ->
  share (fst cj) (fst ci) ->
  hl_index (snd ci) <> hl_index (snd cj)
  /\ hl_color (snd ci) <> hl_color (snd cj).
Proof.
  intros out Hdeg Hij Hi Hj Hsh.
  destruct (colorConnections_spec l) as [Hfst Hinfo]. fold out in Hfst, Hinfo.
  pose proof (Hinfo i ci Hi) as Ei. pose proof (Hinfo j cj Hj) as Ej.
  set (U := sharedColors (fst cj) (take j out)) in *.
  assert (hl_index (snd ci) ∈ U) as Hin.
  { assert (ci ∈ take j out) as Hci.
    { apply list_elem_of_lookup. exists i. by rewrite lookup_take_lt. }
    unfold U, sharedColors. destruct Hsh as [H|H];
      [apply elem_of_union_l | apply elem_of_union_r];
      apply elem_of_usedAt; by exists ci. }
  assert (size U < 7) as Hsize.
  { pose proof (sharedColors_size (fst cj) (take j out)) as Hs. fold U in Hs.
    assert (l = List.map fst (take j out) ++ fst cj :: List.map fst (drop (S j) out))
      as Hl.
    { rewrite <- Hfst. rewrite <- (take_drop_middle out j cj Hj) at 1.
      by rewrite map_app. }
    pose proof (sharing_split (fst cj) (List.map fst (take j out)) (fst cj)
                  (List.map fst (drop (S j) out)) (share_refl _)) as Hlt.
    rewrite <- Hl in Hlt. lia. }
  destruct (smallestFree_spec U) as [Hfree Hle].
  assert (hl_index (snd cj) = smallestFree U) as Eidx.
  { rewrite Ej. unfold infoOf. cbn [hl_index].
    apply Nat.mod_small. change (length HIGHLIGHT_COLORS) with 7. lia. }
  assert (hl_index (snd ci) <> hl_index (snd cj)) as Hne
    by (rewrite Eidx; intros E; by rewrite E in Hin).
  split; [done|].
  assert (hl_color (snd ci) = nth (hl_index (snd ci)) HIGHLIGHT_COLORS EmptyString)
    as -> by by rewrite Ei.
  assert (hl_color (snd cj) = nth (hl_index (snd cj)) HIGHLIGHT_COLORS EmptyString)
    as -> by by rewrite Ej.
  apply palette_distinct; [| |done].
  - rewrite Ei. apply infoOf_index_lt.
  - rewrite Ej. apply infoOf_index_lt.
Qed.

(** C4 (as amended). While a hover is active, the colourer assigns to the
    connections of the hovered component, in list order, the greedy colour:
    the smallest index not yet used at either endpoint, modulo 7. If every
    connection of the component shares an endpoint with at most six others,
    two distinct connections that share an endpoint get different colours.
    With pairwise distinct connection ids the map
    [highlightedConnectionInfo] records exactly these assignments. *)
Theorem greedy_coloring_proper (conns : list EventConnection) (h : jsstring) :
  truthy h = true ->
  exists comp out,
    highlight conns (Some h) = Some (comp, out)
    /\ List.map fst out = componentConnectionsOf conns comp
    /\ (forall i ci, out !! i = Some ci ->
          snd ci = infoOf (sharedColors (fst ci) (take i out)))
    /\ ((forall d, d ∈ List.map fst out -> sharing d (List.map fst out) <= 7) ->
        forall i j ci cj,
          i <> j -> out !! i = Some ci -> out !! j = Some cj ->
          share (fst ci) (fst cj) ->
          hl_index (snd ci) <> hl_index (snd cj)
          /\ hl_color (snd ci) <> hl_color (snd cj))
    /\ (NoDup (List.map (fun ci => conn_id (fst ci)) out) ->
        forall ci, ci ∈ out ->
          exists m, highlightedConnectionInfo conns (Some h) = Some m
                    /\ m !! conn_id (fst ci) = Some (snd ci)).
Proof.
  intros Hh. unfold highlightedConnectionInfo, highlight. simpl. rewrite Hh.
  destruct (componentOf_correct conns h) as (comp & -> & _). simpl.
  set (l := componentConnectionsOf conns comp).
  exists comp, (colorConnections l).
  destruct (colorConnections_spec l) as [Hfst Hinfo].
  split; [done|]. split; [done|]. split; [done|]. split.
  - rewrite Hfst. intros Hdeg i j ci cj Hij Hi Hj Hsh.
    assert (forall k ck, colorConnections l !! k = Some ck -> fst ck ∈ l) as Hmem.
    { intros k ck Hk. rewrite <- Hfst.
      apply list_elem_of_In, in_map, list_elem_of_In, list_elem_of_lookup.
      by exists k. }
    destruct (Nat.lt_ge_cases i j) as [Hlt|Hge].
    + apply (colorConnections_later l i j ci cj);
        [apply Hdeg; by eapply Hmem | done | done | done | by apply share_sym].
    + assert (j < i) as Hlt by lia.
      destruct (colorConnections_later l j i cj ci) as [H1 H2];
        [apply Hdeg; by eapply Hmem | done | done | done | done |].
      split; congruence.
  - intros Hnd ci Hci. eexists. split; [reflexivity|].
    apply (setAll_lookup_NoDup (fun ci => conn_id (fst ci)) snd
             (colorConnections l) ∅ ci Hnd Hci).
Qed.

Module ColoringExample.
Definition edge (k v : string) : EventConnection :=
  mkEventConnection (js k) (js "a") (js v).
(** A star: eight connections out of one event. *)
Definition star : list EventConnection :=
  [edge "k1" "b1"; edge "k2" "b2"; edge "k3" "b3"; edge "k4" "b4";
   edge "k5" "b5"; edge "k6" "b6"; edge "k7" "b7"; edge "k8" "b8"].
Definition pair : list EventConnection := [edge "k1" "b1"; edge "k2" "b2"].
End ColoringExample.

(** Two connections out of one event get the first two colours. *)
Lemma greedy_coloring_proper_witness :
  exists comp out,
    highlight ColoringExample.pair (Some (js "a")) = Some (comp, out)
    /\ List.map (fun ci => hl_index (snd ci)) out = [0; 1].
Proof.
  destruct (greedy_coloring_proper ColoringExample.pair (js "a"))
    as (comp & out & Hhl & _).
  - reflexivity.
  - exists comp, out. split; [exact Hhl|].
    assert (Some (comp, out) = highlight ColoringExample.pair (Some (js "a")))
      as E by (symmetry; exact Hhl).
    vm_compute in E. inversion E. reflexivity.
Defined.

(** C4 fails as stated: with eight connections out of one hovered event the
    eighth wraps around to index 0, the colour of the first, and the two
    share the hovered event. *)
Lemma greedy_coloring_counterexample :
  exists comp out c1 c8 info,
    highlight ColoringExample.star (Some (js "a")) = Some (comp, out)
    /\ out !! 0 = Some (c1, info) /\ out !! 7 = Some (c8, info)
    /\ conn_id c1 = js "k1" /\ conn_id c8 = js "k8"
    /\ fromEventId c1 = js "a" /\ fromEventId c8 = js "a"
    /\ hl_index info = 0
    /\ exists m, highlightedConnectionInfo ColoringExample.star (Some (js "a"))
                 = Some m
                 /\ m !! js "k1" = Some info /\ m !! js "k8" = Some info.
Proof.
  eexists _, _, _, _, _. split; [vm_compute; reflexivity|].
  split; [reflexivity|]. split; [reflexivity|].
  repeat (split; [reflexivity|]).
  eexists. split; [vm_compute; reflexivity|]. split; reflexivity.
Qed.

(** ** Layout engine: events with dangling references *)

#[local] Open Scope Q_scope.

Lemma insertSorted_elem {A : Type} (cmp : A -> A -> number) (x e : A) (l : list A) :
  e ∈ insertSorted cmp x l <-> e = x \/ e ∈ l.
Proof.
  induction l as [|y l IH]; cbn [insertSorted].
  - rewrite list_elem_of_singleton. split; [by left|].
    intros [H|H]; [done | by apply elem_of_nil in H].
  - destruct (num_ltb (Num 0) (cmp x y)).
    + rewrite !elem_of_cons, IH. tauto.
    + rewrite !elem_of_cons. tauto.
Qed.

(** Sorting keeps the elements. *)
Lemma sortBy_elem {A : Type} (cmp : A -> A -> number) (e : A) (l : list A) :
  e ∈ sortBy cmp l <-> e ∈ l.
Proof.
  induction l as [|x l IH]; simpl; [done|].
  rewrite insertSorted_elem, elem_of_cons, IH. tauto.
Qed.

Lemma setAll_lookup_is_Some {P V : Type} (key : P -> jsstring) (val : P -> V)
      (ps : list P) (m0 : gmap jsstring V) (p : P) :
  p ∈ ps -> is_Some (setAll key val ps m0 !! key p).
Proof.
  revert m0. induction ps as [|q ps IH]; intros m0 Hp; simpl.
  - by apply elem_of_nil in Hp.
  - apply elem_of_cons in Hp as [->|Hp]; [|by apply IH].
    clear IH. generalize (val q) as v. revert m0.
    induction ps as [|r ps IH]; intros m0 v; simpl.
    + rewrite lookup_insert_eq. by eexists.
    + destruct (decide (key r = key q)) as [Heq|Hne].
      * rewrite Heq, insert_insert_eq. apply IH.
      * rewrite insert_insert_ne by done. apply IH.
Qed.

(** The event passes the completeness filter. *)
Definition complete (e : StoryEvent) : bool :=
  truthyOpt (ev_storylineId e) && truthyOpt (ev_typeId e) && truthy (ev_date e).

Definition danglingStoryline (storylines : list Storyline) (e : StoryEvent)
  : Prop :=
  forall s, s ∈ storylines -> Some (sl_id s) <> ev_storylineId e.

Definition danglingType (eventTypes : list EventType) (e : StoryEvent) : Prop :=
  forall et, et ∈ eventTypes -> Some (et_id et) <> ev_typeId e.

Section DanglingFacts.
Context (events : list StoryEvent) (storylines : list Storyline)
        (eventConnections : list EventConnection)
        (eventTypes : list EventType)
        (eraOrder : list jsstring) (expandedEvents : gset jsstring).

#[local] Abbreviation SE' := (sortedEvents events eraOrder).
#[local] Abbreviation ESD' := (eventsByStorylineAndDay events storylines eraOrder).
#[local] Abbreviation LG' :=
  (laneGeometries events storylines eventConnections eraOrder expandedEvents).
#[local] Abbreviation LH' :=
  (laneHeightOf events storylines eventConnections eraOrder expandedEvents).
#[local] Abbreviation SH' := (stackHeightOf eventConnections expandedEvents).
#[local] Abbreviation EH' := (eventHeight expandedEvents).
#[local] Abbreviation GA' := (gapAfter eventConnections).

Lemma sortedEvents_elem e :
  e ∈ SE' <-> e ∈ events /\ complete e = true.
Proof.
  unfold sortedEvents, completeEvents. rewrite sortBy_elem.
  rewrite list_elem_of_In, filter_In, <- list_elem_of_In. done.
Qed.

(** The day map of a storyline only holds events that name it. *)
Lemma eventsByStorylineAndDay_storyline sid dm k evs e :
  ESD' !! sid = Some dm -> (k, evs) ∈ dm -> e ∈ evs ->
  ev_storylineId e = Some sid.
Proof.
  unfold eventsByStorylineAndDay. revert sid dm k evs e.
  apply (fold_left_invariant _
           (fun m => forall sid dm k evs e,
                       m !! sid = Some dm -> (k, evs) ∈ dm -> e ∈ evs ->
                       ev_storylineId e = Some sid)).
  - apply (fold_left_invariant _
           (fun m => forall sid dm k evs (e : StoryEvent),
                       m !! sid = Some dm -> (k, evs) ∈ dm -> e ∈ evs ->
                       ev_storylineId e = Some sid)).
    + intros sid dm k evs e H. by rewrite lookup_empty in H.
    + intros acc s _ Hacc sid dm k evs e H Hg He.
      destruct (decide (sl_id s = sid)) as [<-|Hne].
      * rewrite lookup_insert_eq in H. inversion H; subst.
        by apply elem_of_nil in Hg.
      * rewrite lookup_insert_ne in H by done. by eapply Hacc.
  - intros acc b Hb Hacc sid dm k evs e H Hg He.
    destruct (ev_storylineId b) as [sid'|] eqn:Eb; [|by eapply Hacc].
    destruct (acc !! sid') as [dm'|] eqn:E; [|by eapply Hacc].
    destruct (decide (sid' = sid)) as [<-|Hne].
    + rewrite lookup_insert_eq in H. inversion H; subst.
      destruct (pushGroup_elem _ _ _ _ _ _ Hg He) as [(evs0 & H1 & H2)|[_ ->]];
        [by eapply Hacc | done].
    + rewrite lookup_insert_ne in H by done. by eapply Hacc.
Qed.

(** Every sorted event that names an existing storyline sits in that
    storyline's stack for its day, whatever its type. *)
Lemma eventsByStorylineAndDay_covers e s :
  e ∈ SE' -> s ∈ storylines -> ev_storylineId e = Some (sl_id s) ->
  exists dm evs,
    ESD' !! sl_id s = Some dm /\ (getDayKey (ev_date e), evs) ∈ dm /\ e ∈ evs.
Proof.
  intros He Hs Hsid. unfold eventsByStorylineAndDay.
  set (step := fun (m : gmap jsstring groups) (e : StoryEvent) =>
                 match ev_storylineId e with
                 | Some sid =>
                   match m !! sid with
                   | Some storylineMap =>
                     <[sid := pushGroup (getDayKey (ev_date e)) e storylineMap]> m
                   | None => m
                   end
                 | None => m
                 end).
  set (init := fold_left (fun m s => <[sl_id s := []]> m) storylines ∅).
  assert (is_Some (init !! sl_id s)) as Hinit.
  { apply (setAll_lookup_is_Some sl_id (fun _ => ([] : groups)) storylines ∅ s Hs). }
  assert (forall m b, is_Some (m !! sl_id s) -> is_Some (step m b !! sl_id s))
    as Hkeep.
  { intros m b Hm. unfold step.
    destruct (ev_storylineId b) as [sid|]; [|done].
    destruct (m !! sid) eqn:E; [|done].
    destruct (decide (sid = sl_id s)) as [->|Hne].
    - by rewrite lookup_insert_eq.
    - by rewrite lookup_insert_ne. }
  assert (forall (l : list StoryEvent) m,
            is_Some (m !! sl_id s) ->
            e ∈ l \/ (exists dm evs, m !! sl_id s = Some dm
                        /\ (getDayKey (ev_date e), evs) ∈ dm /\ e ∈ evs) ->
            exists dm evs, fold_left step l m !! sl_id s = Some dm
                           /\ (getDayKey (ev_date e), evs) ∈ dm /\ e ∈ evs)
    as Hgen.
  { induction l as [|b l IH]; intros m Hm [H|H]; simpl.
    - by apply elem_of_nil in H.
    - done.
    - apply elem_of_cons in H as [<-|H]; (apply IH; [by apply Hkeep|]);
        [right | by left].
      unfold step. rewrite Hsid. destruct Hm as [dm Hdm]. rewrite Hdm.
      destruct (pushGroup_new (getDayKey (ev_date e)) e dm) as (evs & H1 & H2).
      eexists _, evs. rewrite lookup_insert_eq. done.
    - apply IH; [by apply Hkeep|]. right.
      destruct H as (dm & evs & Hdm & Hg & Hev). unfold step.
      destruct (ev_storylineId b) as [sid|]; [|by eauto].
      destruct (m !! sid) as [dm'|] eqn:E; [|by eauto].
      destruct (decide (sid = sl_id s)) as [->|Hne].
      + rewrite lookup_insert_eq. rewrite Hdm in E. inversion E; subst dm'.
        destruct (pushGroup_mono (getDayKey (ev_date b)) b dm _ _ _ Hg Hev)
          as (evs1 & H1 & H2).
        by eexists _, evs1.
      + rewrite lookup_insert_ne by done. by eauto. }
  apply Hgen; [done | by left].
Qed.

(** Taking an event out of a stack lowers the stack by at least the
    event's height. *)
Lemma stackHeightOf_contributes pre e post :
  SH' (pre ++ post) + EH' e <= SH' (pre ++ e :: post).
Proof.
  pose proof (eventHeight_bounds expandedEvents) as Hh.
  pose proof (gapAfter_bounds eventConnections) as Hg.
  pose proof (stackHeightOf_nonneg eventConnections expandedEvents) as Hs.
  pose proof (Hh e) as [? ?].
  induction pre as [|a pre IH].
  - cbn [app stackHeightOf]. pose proof (Hs post).
    destruct post as [|p post]; [lra|].
    pose proof (Hg e (p :: post)). lra.
  - pose proof (Hh a) as [? ?].
    destruct pre as [|b pre].
    + clear IH. cbn [app stackHeightOf]. pose proof (Hs post).
      destruct post as [|p post].
      * pose proof (Hg a [e]). cbn [stackHeightOf]. lra.
      * pose proof (Hg a (e :: p :: post)). pose proof (Hg e (p :: post)).
        pose proof (Hg a (p :: post)). lra.
    + change ((a :: b :: pre) ++ post) with (a :: (b :: pre) ++ post).
      change ((a :: b :: pre) ++ e :: post) with (a :: (b :: pre) ++ e :: post).
      cbn [stackHeightOf].
      change ((b :: pre) ++ post) with (b :: pre ++ post) in *.
      change ((b :: pre) ++ e :: post) with (b :: pre ++ e :: post) in *.
      cbn [gapAfter]. lra.
Qed.

Lemma laneGeometries_storyline s :
  s ∈ storylines ->
  exists g, LG' !! sl_id s = Some g /\ lane_height g = LH' s.
Proof.
  intros Hs.
  destruct (bands_complete (laneNext events storylines eventConnections
                              eraOrder expandedEvents) storylines 0 s Hs)
    as [pos Hpos].
  unfold laneGeometries, laneLoop. rewrite laneLoop_bands. simpl.
  match goal with
  | |- exists g, setAll ?k ?v ?ps ?m !! _ = _ /\ _ =>
    destruct (setAll_lookup_is_Some k v ps m (s, pos) Hpos) as [g Hg]
  end.
  simpl in Hg. exists g. split; [done|].
  apply setAll_lookup in Hg as [Hg|([s' pos'] & _ & Hk & <-)];
    [by rewrite lookup_empty in Hg|].
  simpl in *. destruct s, s'. simpl in Hk. by subst.
Qed.

End DanglingFacts.

(** C10. An event whose storyline id or type id matches no entry of the
    supplied lists is the [event] of no rectangle. Yet any event that passes
    the completeness filter and names an existing storyline, whether or not
    its type exists, sits in that storyline's stack for its day: the stack
    is taller by at least the event's height than it would be without it,
    and the lane is at least as high as the stack plus the padding. *)
Theorem dangling_reference_no_rectangle
        (events : list StoryEvent) (storylines : list Storyline)
        (eventConnections : list EventConnection) (eventTypes : list EventType)
        (eraOrder : list jsstring) (expandedEvents : gset jsstring)
        (e : StoryEvent) :
  let layouts := eventLayouts events storylines eventConnections eventTypes
                              eraOrder expandedEvents in
  danglingStoryline storylines e \/ danglingType eventTypes e ->
  (forall id l, layouts !! id = Some l -> event l <> e)
  /\ (e ∈ events -> complete e = true ->
      forall s, s ∈ storylines -> ev_storylineId e = Some (sl_id s) ->
      exists dm pre post laneGeo,
        eventsByStorylineAndDay events storylines eraOrder !! sl_id s = Some dm
        /\ (getDayKey (ev_date e), pre ++ e :: post) ∈ dm
        /\ stackHeightOf eventConnections expandedEvents (pre ++ post)
           + eventHeight expandedEvents e
           <= stackHeightOf eventConnections expandedEvents (pre ++ e :: post)
        /\ laneGeometries events storylines eventConnections eraOrder
                          expandedEvents !! sl_id s = Some laneGeo
        /\ stackHeightOf eventConnections expandedEvents (pre ++ e :: post)
           + 2 * LANE_VERTICAL_PADDING <= lane_height laneGeo).
Proof.
  intros layouts Hd. split.
  - intros id l [Hp _]%eventLayouts_placement He.
    pose proof Hp as Hp'.
    apply placement_origin in Hp'
      as (lg & c & dm & evs & Hlg & _ & Hdm & Hg & _ & Hst).
    apply stackPlacements_facts in Hst as (_ & Hev & _ & _ & _ & [et Het] & _).
    destruct Hd as [Hd|Hd].
    + unfold allPlacements in Hp. apply elem_of_flat_map in Hp as (s & Hs & Hp).
      assert (storyline l = s) as Hsl.
      { unfold lanePlacements in Hp.
        destruct (laneGeometries _ _ _ _ _ !! sl_id s); [|by apply elem_of_nil in Hp].
        destruct (eventsByStorylineAndDay _ _ _ !! sl_id s);
          [|by apply elem_of_nil in Hp].
        apply elem_of_flat_map in Hp as (g & _ & Hp). unfold dayPlacements in Hp.
        destruct (dayColumnGeometries _ _ !! fst g); [|by apply elem_of_nil in Hp].
        by apply stackPlacements_facts in Hp as (? & _). }
      apply (Hd s Hs). rewrite <- Hsl, <- He. symmetry.
      by eapply eventsByStorylineAndDay_storyline.
    + apply find_some in Het as [Hin Hb]. apply bool_decide_eq_true in Hb.
      apply (Hd et); [by apply list_elem_of_In | by rewrite <- He].
  - intros Hin Hc s Hs Hsid.
    assert (e ∈ sortedEvents events eraOrder) as Hse
      by by apply sortedEvents_elem.
    destruct (eventsByStorylineAndDay_covers _ _ _ _ _ Hse Hs Hsid)
      as (dm & evs & Hdm & Hg & Hev).
    apply list_elem_of_split in Hev as (pre & post & ->).
    destruct (laneGeometries_storyline events storylines eventConnections
                eraOrder expandedEvents s Hs) as (g & Hlg & Hh).
    exists dm, pre, post, g. split; [done|]. split; [done|].
    split; [apply stackHeightOf_contributes|]. split; [done|].
    rewrite Hh. by eapply laneHeightOf_stack.
Qed.

Module DanglingExample.
(** Same day and lane as [C1Example.evA], but a type that does not exist. *)
Definition evD : StoryEvent :=
  mkStoryEvent (js "d") (js "2020-01-01 09:00:00") (Some (js "s1")) (Some (js "tX")).
Definition events : list StoryEvent := [C1Example.evA; evD].
End DanglingExample.

Lemma dangling_reference_no_rectangle_witness :
  (forall id l,
     eventLayouts DanglingExample.events C1Example.lanes [] C1Example.types
                  C1Example.eras ∅ !! id = Some l ->
     event l <> DanglingExample.evD)
  /\ exists dm pre post laneGeo,
       eventsByStorylineAndDay DanglingExample.events C1Example.lanes
                               C1Example.eras !! js "s1" = Some dm
       /\ (js "2020-01-01", pre ++ DanglingExample.evD :: post) ∈ dm
       /\ stackHeightOf [] ∅ (pre ++ post) + 40
          <= stackHeightOf [] ∅ (pre ++ DanglingExample.evD :: post)
       /\ laneGeometries DanglingExample.events C1Example.lanes []
                         C1Example.eras ∅ !! js "s1" = Some laneGeo
       /\ stackHeightOf [] ∅ (pre ++ DanglingExample.evD :: post) + 2 * 20
          <= lane_height laneGeo.
Proof.
  destruct (dangling_reference_no_rectangle
              DanglingExample.events C1Example.lanes [] C1Example.types
              C1Example.eras ∅ DanglingExample.evD) as [H1 H2].
  - right. intros et Het. apply list_elem_of_singleton in Het. subst et.
    discriminate.
  - split; [exact H1|].
    exact (H2 ltac:(right; left) ltac:(reflexivity) (mkStoryline (js "s1"))
              ltac:(left) ltac:(reflexivity)).
Defined.

(** ** Claim C8: a connection with an endpoint that has no rectangle *)

(** *** The layout and the connections

    The layout reads [eventConnections] in one place: the gap below an
    event is 40 rather than 25 when a connection joins it to the next event
    of its stack. *)

(** [conn] joins the two events, in either direction. *)
Definition joins (conn : EventConnection) (e nextEvent : StoryEvent) : bool :=
  bool_decide (fromEventId conn = ev_id e ∧ toEventId conn = ev_id nextEvent)
  || bool_decide (fromEventId conn = ev_id nextEvent
                  ∧ toEventId conn = ev_id e).

(** The pairs of consecutive events of a stack. *)
Fixpoint neighbours (evs : list StoryEvent) : list (StoryEvent * StoryEvent) :=
  match evs with
  | [] => []
  | e :: rest =>
    match rest with
    | [] => []
    | nextEvent :: _ => (e, nextEvent) :: neighbours rest
    end
  end.

(** The stacks of the layout: for each storyline, the events of each of
    its days. *)
Definition stacks (events : list StoryEvent) (storylines : list Storyline)
           (eraOrder : list jsstring) : list (list StoryEvent) :=
  flat_map (fun s =>
              match eventsByStorylineAndDay events storylines eraOrder
                    !! sl_id s with
              | Some storylineDayMap => List.map snd storylineDayMap
              | None => []
              end)
           storylines.

(** [conn] joins two consecutive events of some stack. *)
Definition joinsNeighbours (events : list StoryEvent)
           (storylines : list Storyline) (eraOrder : list jsstring)
           (conn : EventConnection) : bool :=
  existsb (fun evs => existsb (fun p => joins conn (fst p) (snd p))
                              (neighbours evs))
          (stacks events storylines eraOrder).

Lemma isConnected_skip (l1 l2 : list EventConnection) (c : EventConnection)
      (e n : StoryEvent) :
  joins c e n = false ->
  isConnected (l1 ++ c :: l2) e n = isConnected (l1 ++ l2) e n.
Proof.
  intros H. unfold isConnected. rewrite !existsb_app. cbn [existsb].
  fold (joins c e n). by rewrite H.
Qed.

Section LayoutOfConnections.
Context (events : list StoryEvent) (storylines : list Storyline)
        (eventTypes : list EventType) (eraOrder : list jsstring)
        (expandedEvents : gset jsstring).
Context (conns conns' : list EventConnection).

(** The two connection lists agree on the neighbours of a stack. *)
Definition agreeOn (evs : list StoryEvent) : Prop :=
  forall e n, (e, n) ∈ neighbours evs ->
              isConnected conns e n = isConnected conns' e n.

Lemma agreeOn_tail (e : StoryEvent) (rest : list StoryEvent) :
  agreeOn (e :: rest) -> agreeOn rest.
Proof.
  intros H a b Hab. apply H. cbn [neighbours].
  destruct rest as [|n r]; [done|]. by right.
Qed.

Lemma gapAfter_agree (e : StoryEvent) (rest : list StoryEvent) :
  agreeOn (e :: rest) -> gapAfter conns e rest = gapAfter conns' e rest.
Proof.
  intros H. unfold gapAfter. destruct rest as [|n r]; [done|].
  rewrite (H e n); [done|]. cbn [neighbours]. by left.
Qed.

Lemma stackHeightOf_agree (evs : list StoryEvent) :
  agreeOn evs ->
  stackHeightOf conns expandedEvents evs
  = stackHeightOf conns' expandedEvents evs.
Proof.
  induction evs as [|e rest IH]; intros H; [done|]. cbn [stackHeightOf].
  by rewrite (gapAfter_agree _ _ H), (IH (agreeOn_tail _ _ H)).
Qed.

Lemma layoutStack_agree (s : Storyline) (baseX : Q) (evs : list StoryEvent)
      (y0 : Q) (layouts : gmap jsstring EventLayout) :
  agreeOn evs ->
  layoutStack events conns eventTypes eraOrder expandedEvents s baseX evs y0
              layouts
  = layoutStack events conns' eventTypes eraOrder expandedEvents s baseX evs
                y0 layouts.
Proof.
  revert y0 layouts. induction evs as [|e rest IH]; intros y0 layouts H;
    [done|].
  cbn [layoutStack]. rewrite (gapAfter_agree _ _ H).
  destruct (List.find _ eventTypes); by rewrite (IH _ _ (agreeOn_tail _ _ H)).
Qed.

Lemma fold_left_agree {A B : Type} (f g : A -> B -> A) (l : list B) (a : A) :
  (forall a b, b ∈ l -> f a b = g a b) -> fold_left f l a = fold_left g l a.
Proof.
  revert a. induction l as [|b l IH]; intros a H; [done|]. simpl.
  rewrite (H a b) by by left. apply IH. intros a' b' Hb. apply H. by right.
Qed.

Hypothesis stacks_agree :
  forall evs, evs ∈ stacks events storylines eraOrder -> agreeOn evs.

Lemma stack_of_lane (s : Storyline) (storylineDayMap : groups)
      (g : jsstring * list StoryEvent) :
  s ∈ storylines ->
  eventsByStorylineAndDay events storylines eraOrder !! sl_id s
  = Some storylineDayMap ->
  g ∈ storylineDayMap -> agreeOn (snd g).
Proof.
  intros Hs Hdm Hg. apply stacks_agree. unfold stacks.
  apply list_elem_of_In, in_flat_map. exists s.
  split; [by apply list_elem_of_In|]. rewrite Hdm.
  apply in_map. by apply list_elem_of_In.
Qed.

Lemma laneHeightOf_agree (s : Storyline) :
  s ∈ storylines ->
  laneHeightOf events storylines conns eraOrder expandedEvents s
  = laneHeightOf events storylines conns' eraOrder expandedEvents s.
Proof.
  intros Hs. unfold laneHeightOf.
  destruct (eventsByStorylineAndDay events storylines eraOrder !! sl_id s)
    as [dm|] eqn:Hdm; [|done].
  unfold maxColumnHeightOf. f_equal. f_equal.
  apply fold_left_agree. intros a g Hg.
  by rewrite (stackHeightOf_agree _ (stack_of_lane s dm g Hs Hdm Hg)).
Qed.

Lemma laneLoop_agree :
  laneLoop events storylines conns eraOrder expandedEvents
  = laneLoop events storylines conns' eraOrder expandedEvents.
Proof.
  unfold laneLoop. apply fold_left_agree. intros [geos currentY] s Hs.
  unfold laneStep. by rewrite (laneHeightOf_agree s Hs).
Qed.

(** The layout is the same for two connection lists that join the same
    neighbours. *)
Lemma eventLayouts_agree :
  eventLayouts events storylines conns eventTypes eraOrder expandedEvents
  = eventLayouts events storylines conns' eventTypes eraOrder expandedEvents.
Proof.
  unfold eventLayouts. apply fold_left_agree. intros layouts s Hs.
  unfold layoutLane, laneGeometries. rewrite laneLoop_agree.
  destruct (fst _ !! sl_id s) as [laneGeo|]; [|done].
  destruct (eventsByStorylineAndDay events storylines eraOrder !! sl_id s)
    as [dm|] eqn:Hdm; [|done].
  apply fold_left_agree. intros layouts' g Hg.
  pose proof (stack_of_lane s dm g Hs Hdm Hg) as Hag.
  unfold layoutDay. destruct (dayColumnGeometries events eraOrder !! g.1); [|done].
  by rewrite (stackHeightOf_agree _ Hag), (layoutStack_agree _ _ _ _ _ Hag).
Qed.

End LayoutOfConnections.

(** Without a connection that joins no two neighbours of a stack the layout
    is the same. *)
Lemma eventLayouts_skip
      (events : list StoryEvent) (storylines : list Storyline)
      (eventTypes : list EventType) (eraOrder : list jsstring)
      (expandedEvents : gset jsstring)
      (l1 l2 : list EventConnection) (c : EventConnection) :
  joinsNeighbours events storylines eraOrder c = false ->
  eventLayouts events storylines (l1 ++ l2) eventTypes eraOrder expandedEvents
  = eventLayouts events storylines (l1 ++ c :: l2) eventTypes eraOrder
                 expandedEvents.
Proof.
  intros H. apply eventLayouts_agree. intros evs Hevs e n Hen.
  symmetry. apply isConnected_skip.
  unfold joinsNeighbours in H.
  destruct (joins c e n) eqn:E; [|done]. exfalso.
  assert (existsb (fun evs => existsb (fun p => joins c (fst p) (snd p))
                                      (neighbours evs))
                  (stacks events storylines eraOrder) = true) as Ht;
    [|congruence].
  apply existsb_exists. exists evs. split; [by apply list_elem_of_In|].
  apply existsb_exists. exists (e, n). split; [by apply list_elem_of_In|done].
Qed.

(** Consecutive events of a stack are events of the stack. *)
Lemma neighbours_elem (evs : list StoryEvent) (e n : StoryEvent) :
  (e, n) ∈ neighbours evs -> e ∈ evs /\ n ∈ evs.
Proof.
  induction evs as [|a rest IH]; cbn [neighbours]; [by intros H%elem_of_nil|].
  destruct rest as [|b rest']; [by intros H%elem_of_nil|].
  intros [[= -> ->]|H]%elem_of_cons.
  - split; [by left | right; by left].
  - destruct (IH H) as [H1 H2]. split; by right.
Qed.

(** The events of the stacks are complete events. *)
Lemma stacks_complete (events : list StoryEvent) (storylines : list Storyline)
      (eraOrder : list jsstring) (evs : list StoryEvent) (e : StoryEvent) :
  evs ∈ stacks events storylines eraOrder -> e ∈ evs ->
  e ∈ completeEvents events.
Proof.
  unfold stacks. intros (s & _ & Hevs)%list_elem_of_In%in_flat_map He.
  destruct (eventsByStorylineAndDay events storylines eraOrder !! sl_id s)
    as [dm|] eqn:Hdm; [|done].
  apply in_map_iff in Hevs as ([k evs'] & <- & Hg%list_elem_of_In).
  destruct (eventsByStorylineAndDay_ok _ _ _ _ _ Hdm) as [_ Hok].
  destruct (Hok k evs' e Hg He) as [Hin _].
  unfold sortedEvents in Hin. by apply sortBy_elem in Hin.
Qed.

(** A connection with an endpoint that is the id of no complete event joins
    no two events of a stack. *)
Lemma joinsNeighbours_complete
      (events : list StoryEvent) (storylines : list Storyline)
      (eraOrder : list jsstring) (c : EventConnection) :
  (forall e, e ∈ completeEvents events -> ev_id e <> fromEventId c)
  \/ (forall e, e ∈ completeEvents events -> ev_id e <> toEventId c) ->
  joinsNeighbours events storylines eraOrder c = false.
Proof.
  intros Hc. unfold joinsNeighbours.
  destruct (existsb _ _) eqn:E; [|done]. exfalso.
  apply existsb_exists in E as (evs & Hevs%list_elem_of_In & E).
  apply existsb_exists in E as ([e n] & Hen%list_elem_of_In & E).
  destruct (neighbours_elem _ _ _ Hen) as [He Hn].
  pose proof (stacks_complete _ _ _ _ _ Hevs He) as Hce.
  pose proof (stacks_complete _ _ _ _ _ Hevs Hn) as Hcn.
  unfold joins in E. cbn [fst snd] in E.
  apply orb_true_iff in E as [E|E]; apply bool_decide_eq_true in E as [E1 E2];
    destruct Hc as [Hc|Hc];
    first [by eapply Hc; [exact Hce|] | by eapply Hc; [exact Hcn|]].
Qed.

(** C8 (as amended). A connection one of whose endpoints has no rectangle
    in the layout computed from the whole connection list is skipped by both
    passes of the router: routing does not fail, on these rectangles the
    output is the output for the list without that connection, no entry of
    the output belongs to it, and [connectionPaths] has nothing under its
    id unless another connection carries the same id. If moreover the
    connection does not join two consecutive events of a stack (the events
    of one storyline and one day), the layout computed without it is the
    same, and so are the routes and paths of the program: every other path
    is what it would be in its absence. That is so whenever one of its
    endpoints is the id of no complete event: the event does not exist, or
    its storyline, type or date is empty. *)
Theorem route_skips_unplaced
        (events : list StoryEvent) (storylines : list Storyline)
        (eventTypes : list EventType) (eraOrder : list jsstring)
        (expandedEvents : gset jsstring)
        (l1 l2 : list EventConnection) (c : EventConnection) :
  let layoutsFor := fun conns =>
    eventLayouts events storylines conns eventTypes eraOrder expandedEvents in
  let columns := dayColumnGeometries events eraOrder in
  let layouts := layoutsFor (l1 ++ c :: l2) in
  layouts !! fromEventId c = None \/ layouts !! toEventId c = None ->
  (exists routed,
      route layouts columns (l1 ++ c :: l2) = Some routed
      /\ route layouts columns (l1 ++ l2) = Some routed
      /\ (forall cp, cp ∈ routed -> fst cp <> c)
      /\ ((forall c', c' ∈ l1 ++ l2 -> conn_id c' <> conn_id c) ->
          pathsMap routed !! conn_id c = None))
  /\ (joinsNeighbours events storylines eraOrder c = false ->
      layoutsFor (l1 ++ l2) = layouts
      /\ route (layoutsFor (l1 ++ l2)) columns (l1 ++ l2)
         = route layouts columns (l1 ++ c :: l2)
      /\ connectionPaths (layoutsFor (l1 ++ l2)) columns (l1 ++ l2)
         = connectionPaths layouts columns (l1 ++ c :: l2))
  /\ ((forall e, e ∈ completeEvents events -> ev_id e <> fromEventId c)
      \/ (forall e, e ∈ completeEvents events -> ev_id e <> toEventId c) ->
      joinsNeighbours events storylines eraOrder c = false).
Proof.
  intros layoutsFor columns layouts Hc.
  assert (joinsNeighbours events storylines eraOrder c = false ->
          layoutsFor (l1 ++ l2) = layouts) as Hlay.
  { intros Hj. subst layoutsFor layouts. cbv beta. by apply eventLayouts_skip. }
  clearbody layouts columns.
  assert (route layouts columns (l1 ++ c :: l2) = route layouts columns (l1 ++ l2))
    as Heq.
  { unfold route. rewrite (countPorts_skip _ _ _ _ _ Hc).
    rewrite !routeLoop_app. cbn [routeLoop].
    destruct (routeLoop layouts columns
                (countPorts layouts columns (l1 ++ l2), []) l1) as [st|];
      [|done].
    cbn [mbind option_bind]. by rewrite (routeStep_skip _ _ _ _ Hc). }
  split; [|split; [|apply joinsNeighbours_complete]].
  - destruct (route_entries layouts columns (l1 ++ l2)) as (routed & Hr & Hent).
    exists routed. split; [by rewrite Heq|]. split; [done|]. split.
    + intros cp Hcp Hcp'. destruct (Hent _ Hcp) as (_ & [? Hf] & [? Ht]).
      rewrite Hcp' in Hf, Ht. destruct Hc; congruence.
    + intros Hids. apply setAll_lookup_None; [apply lookup_empty|].
      intros cp Hcp. destruct (Hent _ Hcp) as (Hin & _). by apply Hids.
  - intros Hj. rewrite (Hlay Hj).
    split; [done|]. split; [done|]. unfold connectionPaths. by rewrite Heq.
Qed.

Module SkipExample.
Definition evA : StoryEvent :=
  mkStoryEvent (js "a") (js "2020-01-01") (Some (js "s1")) (Some (js "t1")).
(** An event whose type is not among the event types: it gets no
    rectangle. *)
Definition evD : StoryEvent :=
  mkStoryEvent (js "d") (js "2020-01-01") (Some (js "s1")) (Some (js "gone")).
Definition evB : StoryEvent :=
  mkStoryEvent (js "b") (js "2020-01-01") (Some (js "s1")) (Some (js "t1")).
Definition evC : StoryEvent :=
  mkStoryEvent (js "c") (js "2020-01-02") (Some (js "s2")) (Some (js "t1")).
Definition events : list StoryEvent := [evA; evD; evB; evC].
Definition k1 : EventConnection := mkEventConnection (js "k1") (js "a") (js "d").
Definition k2 : EventConnection := mkEventConnection (js "k2") (js "b") (js "c").
Definition layoutsWith (conns : list EventConnection) : gmap jsstring EventLayout :=
  eventLayouts events C1Example.lanes conns C1Example.types C1Example.eras ∅.
Definition columns : gmap jsstring ColumnGeo :=
  dayColumnGeometries events C1Example.eras.
End SkipExample.

(** C8 fails as stated when the connection joins two neighbours of a stack.
    The events "a", "d" and "b" are stacked in one lane on one day, "d" has
    an event type that does not exist and so no rectangle, and "c" is on
    the next day in another lane. With the connections k1 = a -> d and
    k2 = b -> c, the gap below "a" is 40 and "b" is at y = 100, the path of
    k2 starting at (260, 120); without k1 the gap is 25, "b" is at y = 85
    and the path of k2 starts at (260, 105). *)
Lemma route_skips_unplaced_counterexample :
  SkipExample.layoutsWith [SkipExample.k1; SkipExample.k2] !! toEventId SkipExample.k1 = None
  /\ (exists l, SkipExample.layoutsWith [SkipExample.k1; SkipExample.k2] !! js "b" = Some l /\ y l == 100)
  /\ (exists l, SkipExample.layoutsWith [SkipExample.k2] !! js "b" = Some l /\ y l == 85)
  /\ (exists paths p,
         connectionPaths (SkipExample.layoutsWith [SkipExample.k1; SkipExample.k2]) SkipExample.columns [SkipExample.k1; SkipExample.k2] = Some paths
         /\ paths !! conn_id SkipExample.k2 = Some p
         /\ fst (cp_from p) == 260 /\ snd (cp_from p) == 120)
  /\ (exists paths p,
         connectionPaths (SkipExample.layoutsWith [SkipExample.k2]) SkipExample.columns [SkipExample.k2] = Some paths
         /\ paths !! conn_id SkipExample.k2 = Some p
         /\ fst (cp_from p) == 260 /\ snd (cp_from p) == 105).
Proof.
  split; [vm_compute; reflexivity|].
  split; [eexists; split; [vm_compute; reflexivity|vm_compute; reflexivity]|].
  split; [eexists; split; [vm_compute; reflexivity|vm_compute; reflexivity]|].
  split.
  - eexists. eexists. split; [vm_compute; reflexivity|].
    split; [vm_compute; reflexivity|]. split; vm_compute; reflexivity.
  - eexists. eexists. split; [vm_compute; reflexivity|].
    split; [vm_compute; reflexivity|]. split; vm_compute; reflexivity.
Qed.

(** The connection k3 ends at an event that does not exist. *)
Lemma route_skips_unplaced_witness :
  let layouts :=
    eventLayouts RouterExample.events C1Example.lanes
                 [RouterExample.k1; RouterExample.k3; RouterExample.k2]
                 C1Example.types C1Example.eras ∅ in
  (exists routed,
      route layouts RouterExample.columns
            [RouterExample.k1; RouterExample.k3; RouterExample.k2] = Some routed
      /\ route layouts RouterExample.columns
               [RouterExample.k1; RouterExample.k2] = Some routed
      /\ forall cp, cp ∈ routed -> fst cp <> RouterExample.k3)
  /\ eventLayouts RouterExample.events C1Example.lanes
                  [RouterExample.k1; RouterExample.k2]
                  C1Example.types C1Example.eras ∅
     = layouts
  /\ connectionPaths
       (eventLayouts RouterExample.events C1Example.lanes
                     [RouterExample.k1; RouterExample.k2]
                     C1Example.types C1Example.eras ∅)
       RouterExample.columns [RouterExample.k1; RouterExample.k2]
     = connectionPaths layouts RouterExample.columns
         [RouterExample.k1; RouterExample.k3; RouterExample.k2].
Proof.
  intros layouts.
  destruct (route_skips_unplaced RouterExample.events C1Example.lanes
              C1Example.types C1Example.eras ∅
              [RouterExample.k1] [RouterExample.k2] RouterExample.k3)
    as ((routed & H1 & H2 & H3 & _) & H4 & H5).
  - right. vm_compute. reflexivity.
  - assert (joinsNeighbours RouterExample.events C1Example.lanes
                            C1Example.eras RouterExample.k3 = false) as Hj.
    { apply H5. right. intros e He.
      apply list_elem_of_In in He. vm_compute in He.
      destruct He as [<-|[<-|[]]]; discriminate. }
    destruct (H4 Hj) as (E1 & _ & E2).
    split; [|split; [exact E1 | exact E2]].
    exists routed. split; [exact H1|]. split; [exact H2 | exact H3].
Defined.

(** ** Date normalizer *)

#[local] Close Scope Q_scope.
#[local] Open Scope Z_scope.

(** *** Strings of digits *)

Definition allDigits (s : jsstring) : Prop := Forall (fun c => isDigit c = true) s.

Lemma takeWhile_digits (ds r : jsstring) :
  allDigits ds -> takeWhile isDigit r = [] ->
  takeWhile isDigit (ds ++ r) = ds /\ dropWhile isDigit (ds ++ r) = dropWhile isDigit r.
Proof.
  intros Hds Hr. induction Hds as [|c ds Hc Hds IH]; simpl.
  - done.
  - rewrite Hc. destruct IH as [-> ->]. done.
Qed.

Lemma dropWhile_takeWhile_nil {A : Type} (p : A -> bool) (r : list A) :
  takeWhile p r = [] -> dropWhile p r = r.
Proof. destruct r as [|c r]; simpl; [done|]. by destruct (p c). Qed.

Lemma splitOn_no_sep (sep : N) (s : jsstring) :
  Forall (fun c => c <> sep) s -> splitOn sep s = [s].
Proof.
  induction 1 as [|c s Hc Hs IH]; simpl; [done|].
  rewrite (proj2 (N.eqb_neq c sep) Hc), IH. done.
Qed.

Lemma splitOn_first (sep : N) (s r : jsstring) :
  Forall (fun c => c <> sep) s ->
  splitOn sep (s ++ sep :: r) = s :: splitOn sep r.
Proof.
  induction 1 as [|c s Hc Hs IH]; simpl.
  - by rewrite N.eqb_refl.
  - rewrite (proj2 (N.eqb_neq c sep) Hc), IH. done.
Qed.

Lemma isDigit_range (c : N) : isDigit c = true <-> (48 <= c <= 57)%N.
Proof.
  unfold isDigit. rewrite andb_true_iff, !N.leb_le. done.
Qed.

Lemma allDigits_no_dot (s : jsstring) :
  allDigits s -> Forall (fun c => c <> 46%N) s.
Proof.
  intros H. eapply Forall_impl; [exact H|].
  intros c Hc%isDigit_range ->. lia.
Qed.

Lemma digit_not_space (c : N) : isDigit c = true -> isWhiteSpace c = false.
Proof.
  intros Hc%isDigit_range. unfold isWhiteSpace.
  repeat (apply orb_false_intro);
    try (apply N.eqb_neq; lia);
    apply andb_false_iff; [right | left]; apply N.leb_gt; lia.
Qed.

Lemma digitsVal_app (a b : jsstring) :
  digitsVal (a ++ b) = digitsVal a * 10 ^ Z.of_nat (length b) + digitsVal b.
Proof.
  unfold digitsVal. rewrite fold_left_app.
  generalize (fold_left (fun acc c => 10 * acc + digitVal c) a 0) as v.
  induction b as [|c b IH]; intros v; simpl fold_left.
  - simpl. lia.
  - rewrite IH, (IH (10 * 0 + digitVal c)).
    rewrite length_cons, Nat2Z.inj_succ, Z.pow_succ_r by lia. lia.
Qed.

Lemma digitsVal_bounds (ds : jsstring) :
  allDigits ds -> 0 <= digitsVal ds < 10 ^ Z.of_nat (length ds).
Proof.
  induction ds as [|c ds IH] using rev_ind; intros H.
  - simpl. unfold digitsVal. simpl. lia.
  - apply Forall_app in H as [Hds Hc]. apply Forall_inv in Hc.
    apply isDigit_range in Hc. specialize (IH Hds).
    rewrite digitsVal_app, length_app. simpl length.
    rewrite Nat2Z.inj_add, Z.pow_add_r by lia.
    change (digitsVal [c]) with (10 * 0 + digitVal c). unfold digitVal.
    change (10 ^ Z.of_nat 1) with 10. lia.
Qed.

Lemma digitsN_spec (n : nat) (s ds r : jsstring) :
  digitsN n s = Some (ds, r) -> s = ds ++ r /\ length ds = n /\ allDigits ds.
Proof.
  revert s ds r. induction n as [|n IH]; intros s ds r H; simpl in H.
  - inversion H; subst. split; [done|]. split; [done | constructor].
  - destruct s as [|c s]; [done|].
    destruct (isDigit c) eqn:Hc; [|done].
    destruct (digitsN n s) as [[ds' r']|] eqn:E; [|done].
    inversion H; subst. destruct (IH _ _ _ E) as (-> & Hlen & Hds).
    split; [done|]. split; [simpl; by rewrite Hlen | by constructor].
Qed.

(** *** The three forms, in priority order *)

(** The first era of [eras] that is a prefix of [s]: its index (counted
    from [i]) and what follows the era name. *)
Fixpoint firstMatch (s : jsstring) (eras : list jsstring) (i : Z)
  : option (Z * jsstring) :=
  match eras with
  | [] => None
  | era :: rest =>
    match stripPrefix era s with
    | Some r => Some (i, r)
    | None => firstMatch s rest (i + 1)
    end
  end.

Lemma eraLoop_firstMatch s eras a i :
  eraLoop s eras a i
  = match firstMatch s eras i with
    | Some (j, r) => eraKey j a (trim r)
    | None => PosInf
    end.
Proof.
  revert i. induction eras as [|era eras IH]; intros i; simpl; [done|].
  destruct (stripPrefix era s); [done | apply IH].
Qed.

(** A date string in custom era form: not empty, not matched by the BC or
    the Gregorian pattern, and starting with the era at index [j] as the
    first match; [valueStr] is the trimmed text after the era name. *)
Definition eraForm (d : jsstring) (eras : list jsstring) (j : Z)
           (valueStr : jsstring) : Prop :=
  d <> [] /\ bcMatch (trim d) = None /\ gregorianMatch (trim d) = None
  /\ exists r, firstMatch (trim d) eras 0 = Some (j, r) /\ valueStr = trim r.

Lemma normalizeDate_eraForm d eras j v :
  eraForm d eras j v ->
  normalizeDate d eras = eraKey j (anchorIndexOf eras) v.
Proof.
  intros (Hd & Hbc & Hg & r & Hm & ->). unfold normalizeDate.
  destruct d as [|c d]; [done|]. rewrite Hbc, Hg, eraLoop_firstMatch, Hm. done.
Qed.

(** A date string in Gregorian form, with its matched fields. *)
Definition gregorianForm (d : jsstring) (g : GregorianMatch) : Prop :=
  d <> [] /\ gregorianMatch (trim d) = Some g.

Lemma gregorianMatch_fields s g :
  gregorianMatch s = Some g ->
  allDigits (g_year g) /\ length (g_year g) = 4%nat
  /\ allDigits (g_month g) /\ length (g_month g) = 2%nat
  /\ allDigits (g_day g) /\ length (g_day g) = 2%nat
  /\ (exists c r, s = c :: r /\ isDigit c = true)
  /\ match g_time g with
     | Some (h, mi, se) =>
       allDigits h /\ length h = 2%nat /\ allDigits mi /\ length mi = 2%nat
       /\ allDigits se /\ length se = 2%nat
     | None => True
     end.
Proof.
  unfold gregorianMatch. intros H.
  destruct (digitsN 4 s) as [[yy r1]|] eqn:E1; cbv [mbind option_bind] in H; [|discriminate H].
  destruct (expect 45 r1) as [r2|]; cbv [mbind option_bind] in H; [|discriminate H].
  destruct (digitsN 2 r2) as [[mm r3]|] eqn:E2; cbv [mbind option_bind] in H; [|discriminate H].
  destruct (expect 45 r3) as [r4|]; cbv [mbind option_bind] in H; [|discriminate H].
  destruct (digitsN 2 r4) as [[dd r5]|] eqn:E3; cbv [mbind option_bind] in H; [|discriminate H].
  inversion H; subst g. cbn [g_year g_month g_day g_time].
  apply digitsN_spec in E1 as (Hs & L1 & D1).
  apply digitsN_spec in E2 as (_ & L2 & D2).
  apply digitsN_spec in E3 as (_ & L3 & D3).
  repeat (split; [done|]). split.
  - destruct yy as [|c yy]; [done|]. exists c, (yy ++ r1).
    split; [by rewrite Hs | by apply Forall_inv in D1].
  - unfold timeMatch. destruct r5 as [|c r5]; [done|].
    destruct (isWhiteSpace c); [|done].
    destruct (digitsN 2 _) as [[h q1]|] eqn:T1; cbv [mbind option_bind]; [|done].
    destruct (expect 58 q1) as [q2|]; cbv [mbind option_bind]; [|done].
    destruct (digitsN 2 q2) as [[mi q3]|] eqn:T2; cbv [mbind option_bind]; [|done].
    destruct (expect 58 q3) as [q4|]; cbv [mbind option_bind]; [|done].
    destruct (digitsN 2 q4) as [[se q5]|] eqn:T3; cbv [mbind option_bind]; [|done].
    apply digitsN_spec in T1 as (_ & ? & ?).
    apply digitsN_spec in T2 as (_ & ? & ?).
    apply digitsN_spec in T3 as (_ & ? & ?). repeat split; assumption.
Qed.

(** A string that starts with a digit is not in BC form. *)
Lemma bcMatch_digit c r : isDigit c = true -> bcMatch (c :: r) = None.
Proof.
  intros Hc%isDigit_range. unfold bcMatch, stripBC, str_gongyuanqian.
  cbn [stripPrefix].
  rewrite (proj2 (N.eqb_neq 20844 c)) by lia.
  destruct r as [|c2 r]; [done|].
  rewrite (proj2 (N.eqb_neq c 66)) by lia.
  rewrite (proj2 (N.eqb_neq c 98)) by lia. done.
Qed.

(** The fields of the [Date.UTC] call for a Gregorian match. *)
Definition gregorianFields (g : GregorianMatch) : Z * Z * Z * Z * Z * Z :=
  let '(hour, minute, second) :=
    match g_time g with
    | Some t => t
    | None => ([48; 48], [48; 48], [48; 48])%N
    end in
  (digitsVal (g_year g), digitsVal (g_month g), digitsVal (g_day g),
   digitsVal hour, digitsVal minute, digitsVal second).

Lemma normalizeDate_gregorianForm d eras g :
  gregorianForm d g ->
  let '(yr, mo, dd, hh, mi, ss) := gregorianFields g in
  normalizeDate d eras
  = (let date := DateUTC yr (mo - 1) dd hh mi ss in
     if isNaN date then PosInf else date)
  /\ 0 <= yr <= 9999 /\ 0 <= mo <= 99 /\ 0 <= dd <= 99
  /\ 0 <= hh <= 99 /\ 0 <= mi <= 99 /\ 0 <= ss <= 99.
Proof.
  intros [Hd Hg].
  pose proof (gregorianMatch_fields _ _ Hg)
    as (D1 & L1 & D2 & L2 & D3 & L3 & (c & r & Hs & Hc) & Ht).
  unfold gregorianFields, normalizeDate.
  destruct d as [|c0 d]; [done|].
  rewrite Hs, (bcMatch_digit c r Hc), <- Hs, Hg.
  pose proof (digitsVal_bounds _ D1) as B1. rewrite L1 in B1.
  pose proof (digitsVal_bounds _ D2) as B2. rewrite L2 in B2.
  pose proof (digitsVal_bounds _ D3) as B3. rewrite L3 in B3.
  change (10 ^ Z.of_nat 4) with 10000 in B1.
  change (10 ^ Z.of_nat 2) with 100 in B2, B3.
  destruct (g_time g) as [[[h mi] se]|].
  - destruct Ht as (D4 & L4 & D5 & L5 & D6 & L6).
    pose proof (digitsVal_bounds _ D4) as B4. rewrite L4 in B4.
    pose proof (digitsVal_bounds _ D5) as B5. rewrite L5 in B5.
    pose proof (digitsVal_bounds _ D6) as B6. rewrite L6 in B6.
    change (10 ^ Z.of_nat 2) with 100 in B4, B5, B6.
    split; [done|]. lia.
  - split; [done|]. change (digitsVal [48%N; 48%N]) with 0. lia.
Qed.

(** *** Date.UTC arithmetic *)

Lemma DayFromYear_succ (y : Z) :
  DayFromYear (y + 1) = DayFromYear y + (if isLeapYear y then 366 else 365).
Proof.
  unfold DayFromYear, isLeapYear.
  destruct (Z.eqb_spec (y mod 4) 0) as [H4|H4];
    destruct (Z.eqb_spec (y mod 100) 0) as [H100|H100];
    destruct (Z.eqb_spec (y mod 400) 0) as [H400|H400]; simpl;
    Z.div_mod_to_equations; lia.
Qed.

Lemma DayFromYear_mono (y1 y2 : Z) :
  y1 <= y2 -> DayFromYear y1 + 365 * (y2 - y1) <= DayFromYear y2.
Proof.
  intros H. replace y2 with (y1 + Z.of_nat (Z.to_nat (y2 - y1))) by lia.
  generalize (Z.to_nat (y2 - y1)) as n. clear. intros n.
  induction n as [|n IH].
  - replace (y1 + Z.of_nat 0) with y1 by lia. lia.
  - replace (y1 + Z.of_nat (S n)) with (y1 + Z.of_nat n + 1) by lia.
    rewrite DayFromYear_succ. destruct (isLeapYear _); lia.
Qed.

Lemma month_cases (m : Z) :
  0 <= m <= 11 ->
  m = 0 \/ m = 1 \/ m = 2 \/ m = 3 \/ m = 4 \/ m = 5 \/ m = 6 \/ m = 7
  \/ m = 8 \/ m = 9 \/ m = 10 \/ m = 11.
Proof. lia. Qed.

Ltac each_month m H :=
  destruct (month_cases m H) as [?|[?|[?|[?|[?|[?|[?|[?|[?|[?|[?|?]]]]]]]]]]];
  subst m.

Lemma monthStart_bounds (leap : bool) (m : Z) :
  0 <= m <= 11 -> 0 <= monthStart leap m <= 335.
Proof. intros H. each_month m H; destruct leap; simpl; lia. Qed.

(** The last day of a month comes before the first day of the next, and
    the last day of December before the end of the year. *)
Lemma monthStart_DaysInMonth (yr m : Z) :
  0 <= m <= 11 ->
  monthStart (isLeapYear yr) m + DaysInMonth yr m
  = if m =? 11 then (if isLeapYear yr then 366 else 365)
    else monthStart (isLeapYear yr) (m + 1).
Proof.
  intros H. unfold DaysInMonth.
  each_month m H; destruct (isLeapYear yr); simpl; lia.
Qed.

Lemma monthStart_year_end (yr m : Z) :
  0 <= m <= 11 ->
  monthStart (isLeapYear yr) m + DaysInMonth yr m
  <= if isLeapYear yr then 366 else 365.
Proof.
  intros H. unfold DaysInMonth.
  each_month m H; destruct (isLeapYear yr); simpl; lia.
Qed.

Lemma monthStart_mono (leap : bool) (m1 m2 : Z) :
  0 <= m1 -> m1 <= m2 -> m2 <= 11 -> monthStart leap m1 <= monthStart leap m2.
Proof.
  intros H0 H1 H2.
  assert (0 <= m1 <= 11) as Hm1 by lia. assert (0 <= m2 <= 11) as Hm2 by lia.
  each_month m1 Hm1; each_month m2 Hm2; destruct leap; simpl; lia.
Qed.

(** The day number of a date of the calendar. *)
Lemma MakeDay_calendar (yr m d : Z) :
  1 <= m <= 12 ->
  MakeDay yr (m - 1) d
  = DayFromYear yr + monthStart (isLeapYear yr) (m - 1) + d - 1.
Proof.
  intros H. unfold MakeDay.
  replace ((m - 1) / 12) with 0 by (Z.div_mod_to_equations; lia).
  replace ((m - 1) mod 12) with (m - 1) by (Z.div_mod_to_equations; lia).
  by rewrite Z.add_0_r.
Qed.

(** A calendar date: month and day of the month in range. *)
Definition validDate (yr m d : Z) : Prop :=
  1 <= m <= 12 /\ 1 <= d <= DaysInMonth yr (m - 1).

Definition validTime (h mi s : Z) : Prop :=
  0 <= h <= 23 /\ 0 <= mi <= 59 /\ 0 <= s <= 59.

(** Lexicographic order of (year, month, day) and of the time of day. *)
Definition dateBefore (a b : Z * Z * Z) : Prop :=
  let '(y1, m1, d1) := a in
  let '(y2, m2, d2) := b in
  y1 < y2 \/ (y1 = y2 /\ (m1 < m2 \/ (m1 = m2 /\ d1 < d2))).

Lemma MakeDay_lt (y1 m1 d1 y2 m2 d2 : Z) :
  validDate y1 m1 d1 -> validDate y2 m2 d2 ->
  dateBefore (y1, m1, d1) (y2, m2, d2) ->
  MakeDay y1 (m1 - 1) d1 < MakeDay y2 (m2 - 1) d2.
Proof.
  intros [Hm1 Hd1] [Hm2 Hd2] Hlt.
  rewrite !MakeDay_calendar by done.
  assert (0 <= m1 - 1 <= 11) as Hr1 by lia.
  assert (0 <= m2 - 1 <= 11) as Hr2 by lia.
  pose proof (monthStart_DaysInMonth y1 (m1 - 1) Hr1) as E1.
  pose proof (monthStart_bounds (isLeapYear y2) (m2 - 1) Hr2) as B2.
  destruct Hlt as [Hy|[-> [Hm|[-> Hd]]]].
  - pose proof (monthStart_year_end y1 (m1 - 1) Hr1) as Hend.
    pose proof (DayFromYear_succ y1) as Hs.
    pose proof (DayFromYear_mono (y1 + 1) y2 ltac:(lia)). lia.
  - assert (monthStart (isLeapYear y2) (m1 - 1) + DaysInMonth y2 (m1 - 1)
            <= monthStart (isLeapYear y2) (m2 - 1)) as Hend.
    { rewrite E1. destruct (Z.eqb_spec (m1 - 1) 11) as [?|Hne]; [lia|].
      apply monthStart_mono; lia. }
    lia.
  - lia.
Qed.

(** For the fields a Gregorian match can produce, [Date.UTC] is a number:
    the time value of the (possibly rolled-over) date, never before
    December 0098. *)
Lemma DateUTC_gregorian (yr mo dd hh mi ss : Z) :
  0 <= yr <= 9999 -> 0 <= mo <= 99 -> 0 <= dd <= 99 ->
  0 <= hh <= 99 -> 0 <= mi <= 99 -> 0 <= ss <= 99 ->
  let yr' := if (0 <=? yr) && (yr <=? 99) then 1900 + yr else yr in
  let t := MakeDate (MakeDay yr' (mo - 1) dd) (MakeTime hh mi ss 0) in
  DateUTC yr (mo - 1) dd hh mi ss = Num (inject_Z t)
  /\ -59100000000000 <= t.
Proof.
  intros Hy Hmo Hd Hh Hmi Hs yr' t.
  assert (100 <= yr' <= 9999) as Hy'.
  { unfold yr'. destruct (Z.leb_spec 0 yr); destruct (Z.leb_spec yr 99); simpl; lia. }
  assert (99 <= yr' + (mo - 1) / 12 <= 10007) as Hym
    by (Z.div_mod_to_equations; lia).
  assert (0 <= (mo - 1) mod 12 <= 11) as Hmn by (Z.div_mod_to_equations; lia).
  pose proof (monthStart_bounds (isLeapYear (yr' + (mo - 1) / 12)) _ Hmn) as Hms.
  pose proof (DayFromYear_mono 99 (yr' + (mo - 1) / 12) ltac:(lia)) as Hlo.
  pose proof (DayFromYear_mono (yr' + (mo - 1) / 12) 10007 ltac:(lia)) as Hhi.
  change (DayFromYear 99) with (-683368) in Hlo.
  change (DayFromYear 10007) with 2935454 in Hhi.
  assert (-683369 <= MakeDay yr' (mo - 1) dd <= 2936100) as Hday
    by (unfold MakeDay; lia).
  assert (0 <= MakeTime hh mi ss 0 <= 1000000000) as Htime
    by (unfold MakeTime; lia).
  assert (-59100000000000 <= t <= 8640000000000000) as Ht
    by (unfold t, MakeDate, msPerDay; lia).
  split; [|lia].
  unfold DateUTC, TimeClip. fold yr'. fold t.
  destruct (Z.leb_spec (Z.abs t) 8640000000000000); [done | lia].
Qed.

(** *** parseFloat on plain decimals *)

Lemma trimStart_nonspace (c : N) (r : jsstring) :
  isWhiteSpace c = false -> trimStart (c :: r) = c :: r.
Proof. intros H. unfold trimStart. simpl. by rewrite H. Qed.

Lemma stripPrefix_head (p s : jsstring) (a c : N) :
  a <> c -> stripPrefix (a :: p) (c :: s) = None.
Proof. intros H. simpl. by rewrite (proj2 (N.eqb_neq a c) H). Qed.

(* ====================================================================== *)
(** ** Rounding to binary64 *)
(* ====================================================================== *)

#[local] Open Scope Q_scope.

Lemma two_pos (e : Z) : 0 < 2 ^ e.
Proof. by apply Qpower_0_lt. Qed.

Lemma two_plus (a b : Z) : 2 ^ (a + b) == 2 ^ a * 2 ^ b.
Proof. by apply Qpower_plus. Qed.

Lemma two_succ (a : Z) : 2 ^ (a + 1) == 2 * 2 ^ a.
Proof. rewrite two_plus. change (2 ^ 1) with 2. ring. Qed.

Lemma two_le (a b : Z) : (a <= b)%Z -> 2 ^ a <= 2 ^ b.
Proof. intros H. by apply Qpower_le_compat_l. Qed.

Lemma two_lt (a b : Z) : (a < b)%Z -> 2 ^ a < 2 ^ b.
Proof. intros H. by apply Qpower_lt_compat_l. Qed.

Lemma two_Z (a : Z) : (0 <= a)%Z -> inject_Z (2 ^ a) == 2 ^ a.
Proof. intros H. by rewrite Zpower_Qpower. Qed.

Lemma binade_spec (q : Q) :
  0 < q -> 2 ^ binade q <= q /\ q < 2 ^ (binade q + 1).
Proof.
  intros Hq. destruct q as [n d].
  assert (0 < n)%Z as Hn by (unfold Qlt in Hq; simpl in Hq; lia).
  unfold binade. cbn [Qnum Qden].
  set (a := Z.log2 n). set (b := Z.log2 (Z.pos d)).
  destruct (Z.log2_spec n Hn) as [Ha1 Ha2]. fold a in Ha1, Ha2.
  destruct (Z.log2_spec (Z.pos d) eq_refl) as [Hb1 Hb2]. fold b in Hb1, Hb2.
  pose proof (Z.log2_nonneg n) as Ha0. fold a in Ha0.
  pose proof (Z.log2_nonneg (Z.pos d)) as Hb0. fold b in Hb0.
  rewrite Zle_Qle in Ha1, Hb1. rewrite Zlt_Qlt in Ha2, Hb2.
  rewrite two_Z in Ha1, Ha2, Hb1, Hb2 by lia.
  replace (Z.succ a) with (a + 1)%Z in Ha2 by lia.
  replace (Z.succ b) with (b + 1)%Z in Hb2 by lia.
  rewrite two_succ in Ha2, Hb2.
  assert ((n # d) * inject_Z (Z.pos d) == inject_Z n) as Hnd.
  { rewrite (Qmake_Qdiv n d). field. done. }
  assert (2 ^ a == 2 ^ (a - b) * 2 ^ b) as Hab.
  { rewrite <- two_plus. by replace (a - b + b)%Z with a by lia. }
  pose proof (two_pos (a - b)) as Hp. pose proof (two_pos b) as Hpb.
  revert Hnd Hab Ha1 Ha2 Hb1 Hb2 Hp Hpb Hq.
  generalize (inject_Z n) (inject_Z (Z.pos d)) (2 ^ a) (2 ^ b).
  intros N D A B Hnd Hab Ha1 Ha2 Hb1 Hb2 Hp Hpb Hq.
  destruct (Qle_bool (2 ^ (a - b)) (n # d)) eqn:E.
  - apply Qle_bool_iff in E. split; [done|]. rewrite two_succ.
    revert Hnd Hab Hp E Hq. generalize (2 ^ (a - b)) (n # d).
    intros X q Hnd Hab Hp E Hq.
    apply Qnot_le_lt. intros H.
    assert (0 < D) as HD by lra.
    assert (2 * X * D <= q * D) as H1 by (apply Qmult_le_compat_r; lra).
    assert (X * B <= X * D) as H2 by (apply Qmult_le_l; lra).
    lra.
  - assert (n # d < 2 ^ (a - b)) as E'.
    { apply Qnot_le_lt. intros H%Qle_bool_iff. congruence. }
    replace (a - b - 1 + 1)%Z with (a - b)%Z by lia. split; [|done].
    assert (2 ^ (a - b) == 2 * 2 ^ (a - b - 1)) as Hs.
    { rewrite <- two_succ. by replace (a - b - 1 + 1)%Z with (a - b)%Z by lia. }
    revert Hnd Hab Hs Hp E' Hq.
    generalize (2 ^ (a - b - 1)) (2 ^ (a - b)) (n # d).
    intros Y X q Hnd Hab Hs Hp E' Hq.
    apply Qnot_lt_le. intros H.
    assert (0 < D) as HD by lra.
    assert (q * D < Y * D) as H1 by (apply Qmult_lt_compat_r; lra).
    assert (Y * D <= Y * (2 * B)) as H2 by (apply Qmult_le_l; lra).
    assert (X * B == 2 * Y * B) as H3 by (rewrite Hs; ring).
    lra.
Qed.

Lemma binade_le (a b : Q) : 0 < a -> a <= b -> (binade a <= binade b)%Z.
Proof.
  intros Ha Hab. destruct (binade_spec a Ha) as [A1 A2].
  destruct (binade_spec b ltac:(lra)) as [B1 B2].
  destruct (Z_le_gt_dec (binade a) (binade b)) as [H|H]; [done|].
  pose proof (two_le (binade b + 1) (binade a) ltac:(lia)). lra.
Qed.

Lemma binade_unique (a : Q) (e : Z) :
  2 ^ e <= a -> a < 2 ^ (e + 1) -> binade a = e.
Proof.
  intros H1 H2. pose proof (two_pos e).
  destruct (binade_spec a ltac:(lra)) as [A1 A2].
  destruct (Z.lt_trichotomy (binade a) e) as [H'|[H'|H']]; [|done|].
  - pose proof (two_le (binade a + 1) e ltac:(lia)). lra.
  - pose proof (two_le (e + 1) (binade a) ltac:(lia)). lra.
Qed.

Lemma binade_comp (a b : Q) : 0 < a -> a == b -> binade a = binade b.
Proof.
  intros Ha Hab. destruct (binade_spec a Ha) as [A1 A2].
  symmetry. apply binade_unique; lra.
Qed.

(** *** The nearest integer *)

Lemma roundHalfEven_near (q : Q) :
  q - (1 # 2) <= inject_Z (roundHalfEven q)
  /\ inject_Z (roundHalfEven q) <= q + (1 # 2).
Proof.
  unfold roundHalfEven. pose proof (Qfloor_le q) as H1.
  pose proof (Qlt_floor q) as H2. rewrite inject_Z_plus in H2.
  change (inject_Z 1) with 1 in H2.
  destruct (q - inject_Z (Qfloor q) ?= 1 # 2) eqn:E.
  - apply Qeq_alt in E. destruct (Z.even (Qfloor q));
      rewrite ?inject_Z_plus; change (inject_Z 1) with 1; lra.
  - apply Qlt_alt in E. lra.
  - apply Qgt_alt in E. rewrite inject_Z_plus. change (inject_Z 1) with 1. lra.
Qed.

Lemma roundHalfEven_Z (z : Z) : roundHalfEven (inject_Z z) = z.
Proof.
  unfold roundHalfEven. rewrite Qfloor_Z.
  assert ((inject_Z z - inject_Z z ?= 1 # 2) = Lt) as ->; [|done].
  rewrite <- Qlt_alt. lra.
Qed.

Lemma roundHalfEven_comp (a b : Q) : a == b -> roundHalfEven a = roundHalfEven b.
Proof.
  intros H. unfold roundHalfEven. rewrite (Qfloor_comp _ _ H).
  assert (a - inject_Z (Qfloor b) == b - inject_Z (Qfloor b)) as E by (by rewrite H).
  by rewrite (Qcompare_comp _ _ E _ _ (Qeq_refl (1 # 2))).
Qed.

Lemma roundHalfEven_floor (q : Q) :
  (Qfloor q <= roundHalfEven q <= Qfloor q + 1)%Z.
Proof.
  unfold roundHalfEven. destruct (_ ?= _); [destruct (Z.even _)|..]; lia.
Qed.

Lemma roundHalfEven_mono (a b : Q) :
  a <= b -> (roundHalfEven a <= roundHalfEven b)%Z.
Proof.
  intros H. pose proof (Qfloor_resp_le _ _ H) as Hf.
  pose proof (roundHalfEven_floor a) as Ha.
  pose proof (roundHalfEven_floor b) as Hb.
  destruct (Z.eq_dec (Qfloor a) (Qfloor b)) as [E|E]; [|lia].
  unfold roundHalfEven. rewrite E.
  destruct (a - inject_Z (Qfloor b) ?= 1 # 2) eqn:Ea;
    destruct (b - inject_Z (Qfloor b) ?= 1 # 2) eqn:Eb;
    try (destruct (Z.even (Qfloor b))); try lia; exfalso;
    first [apply Qeq_alt in Ea | apply Qlt_alt in Ea | apply Qgt_alt in Ea];
    first [apply Qeq_alt in Eb | apply Qlt_alt in Eb | apply Qgt_alt in Eb]; lra.
Qed.

(** *** The nearest multiple of the unit in the last place *)

Lemma ulpExponent_le (e : Z) : (e - 52 <= ulpExponent e)%Z.
Proof. unfold ulpExponent. lia. Qed.

Lemma ulpExponent_min (e : Z) : (-1074 <= ulpExponent e)%Z.
Proof. unfold ulpExponent. lia. Qed.

Lemma scaled (a : Q) (s : Z) : a / 2 ^ s * 2 ^ s == a.
Proof. field. pose proof (two_pos s). lra. Qed.

Lemma nearest_error (a : Q) :
  let u := 2 ^ ulpExponent (binade a) in
  a - u / 2 <= nearest a /\ nearest a <= a + u / 2.
Proof.
  intros u. unfold nearest. fold u.
  destruct (roundHalfEven_near (a / u)) as [H1 H2].
  pose proof (two_pos (ulpExponent (binade a))) as Hu. fold u in Hu.
  pose proof (scaled a (ulpExponent (binade a))) as Hs. fold u in Hs.
  apply (fun H => Qmult_le_compat_r _ _ u H (Qlt_le_weak _ _ Hu)) in H1.
  apply (fun H => Qmult_le_compat_r _ _ u H (Qlt_le_weak _ _ Hu)) in H2.
  revert H1 H2 Hs. generalize (inject_Z (roundHalfEven (a / u))) (a / u).
  intros m q H1 H2 Hs.
  assert ((q - (1 # 2)) * u == q * u - u / 2) as E1
    by (unfold Qdiv; change (/ 2) with (1 # 2); ring).
  assert ((q + (1 # 2)) * u == q * u + u / 2) as E2
    by (unfold Qdiv; change (/ 2) with (1 # 2); ring).
  lra.
Qed.

Lemma nearest_comp (a b : Q) : 0 < a -> a == b -> nearest a = nearest b.
Proof.
  intros Ha H. unfold nearest. rewrite (binade_comp a b Ha H).
  f_equal. f_equal. apply roundHalfEven_comp. by rewrite H.
Qed.

(** What is rounded to an integer: at least 1 from the smallest subnormal
    on, at least 2^52 for a normal number, and below 2^53. *)
Lemma significand_bounds (a : Q) :
  0 < a ->
  let s := ulpExponent (binade a) in
  0 < a / 2 ^ s /\ a / 2 ^ s < inject_Z (2 ^ 53)
  /\ (2 ^ (-1074) <= a -> inject_Z 1 <= a / 2 ^ s)
  /\ (s = (binade a - 52)%Z -> inject_Z (2 ^ 52) <= a / 2 ^ s).
Proof.
  intros Ha s. destruct (binade_spec a Ha) as [H1 H2].
  pose proof (two_pos s) as Hs. pose proof (scaled a s) as Hsc.
  pose proof (ulpExponent_le (binade a)) as Hle. fold s in Hle.
  assert (forall x, x * 2 ^ s <= a -> x <= a / 2 ^ s) as Hdiv.
  { intros x Hx. apply Qnot_lt_le. intros Hlt.
    apply (Qmult_lt_compat_r _ _ (2 ^ s) Hs) in Hlt. lra. }
  split; [|split; [|split]].
  - apply Qnot_le_lt. intros Hle0.
    apply (fun H => Qmult_le_compat_r _ _ (2 ^ s) H (Qlt_le_weak _ _ Hs)) in Hle0.
    lra.
  - apply Qnot_le_lt. intros Hge.
    apply (fun H => Qmult_le_compat_r _ _ (2 ^ s) H (Qlt_le_weak _ _ Hs)) in Hge.
    rewrite two_Z, <- two_plus in Hge by lia.
    pose proof (two_le (binade a + 1) (53 + s) ltac:(lia)). lra.
  - intros Hmin. apply Hdiv. change (inject_Z 1) with 1. rewrite Qmult_1_l.
    unfold s, ulpExponent.
    destruct (Z.max_spec (binade a - 52) (-1074)) as [[_ ->]|[_ ->]]; [done|].
    pose proof (two_le (binade a - 52) (binade a) ltac:(lia)). lra.
  - intros E. apply Hdiv. rewrite two_Z, <- two_plus by lia.
    rewrite E. by replace (52 + (binade a - 52))%Z with (binade a) by lia.
Qed.

Lemma roundHalfEven_ge (z : Z) (q : Q) :
  inject_Z z <= q -> (z <= roundHalfEven q)%Z.
Proof.
  intros H. rewrite <- (roundHalfEven_Z z). by apply roundHalfEven_mono.
Qed.

Lemma roundHalfEven_le (z : Z) (q : Q) :
  q <= inject_Z z -> (roundHalfEven q <= z)%Z.
Proof.
  intros H. rewrite <- (roundHalfEven_Z z). by apply roundHalfEven_mono.
Qed.

Lemma nearest_nonneg (a : Q) : 0 < a -> 0 <= nearest a.
Proof.
  intros Ha. destruct (significand_bounds a Ha) as (H1 & _).
  unfold nearest. apply Qmult_le_0_compat; [|apply Qlt_le_weak, two_pos].
  change 0 with (inject_Z 0). rewrite <- Zle_Qle.
  apply roundHalfEven_ge. change (inject_Z 0) with 0. lra.
Qed.

Lemma nearest_pos (a : Q) : 2 ^ (-1074) <= a -> 0 < nearest a.
Proof.
  intros Hmin. pose proof (two_pos (-1074)) as Hp.
  destruct (significand_bounds a ltac:(lra)) as (_ & _ & H1 & _).
  unfold nearest. apply Qmult_lt_0_compat; [|apply two_pos].
  change 0 with (inject_Z 0). rewrite <- Zlt_Qlt.
  pose proof (roundHalfEven_ge 1 _ (H1 Hmin)). lia.
Qed.

Lemma nearest_upper (a : Q) :
  0 < a -> nearest a <= 2 ^ (ulpExponent (binade a) + 53).
Proof.
  intros Ha. destruct (significand_bounds a Ha) as (_ & H & _).
  unfold nearest. rewrite two_plus, (Qmult_comm (2 ^ _)).
  apply Qmult_le_compat_r; [|apply Qlt_le_weak, two_pos].
  rewrite <- (two_Z 53) by lia. rewrite <- Zle_Qle.
  apply roundHalfEven_le. lra.
Qed.

Lemma nearest_lower (a : Q) :
  0 < a -> ulpExponent (binade a) = (binade a - 52)%Z ->
  2 ^ binade a <= nearest a.
Proof.
  intros Ha E. destruct (significand_bounds a Ha) as (_ & _ & _ & H).
  specialize (H E). unfold nearest. rewrite E in *.
  replace (binade a) with (52 + (binade a - 52))%Z at 1 by lia.
  rewrite two_plus. apply Qmult_le_compat_r; [|apply Qlt_le_weak, two_pos].
  rewrite <- (two_Z 52) by lia. rewrite <- Zle_Qle.
  by apply roundHalfEven_ge.
Qed.

(** Rounding keeps the order. *)
Lemma nearest_mono (a b : Q) : 0 < a -> a <= b -> nearest a <= nearest b.
Proof.
  intros Ha Hab. assert (0 < b) as Hb by lra.
  pose proof (binade_le a b Ha Hab) as He.
  destruct (Z.eq_dec (ulpExponent (binade a)) (ulpExponent (binade b))) as [E|E].
  - unfold nearest. rewrite E.
    apply Qmult_le_compat_r; [|apply Qlt_le_weak, two_pos].
    rewrite <- Zle_Qle. apply roundHalfEven_mono.
    apply Qmult_le_compat_r; [done|].
    apply Qlt_le_weak, Qinv_lt_0_compat, two_pos.
  - assert (ulpExponent (binade b) = (binade b - 52)%Z
            /\ (ulpExponent (binade a) + 53 <= binade b)%Z) as [Eb Hs].
    { unfold ulpExponent in *. lia. }
    pose proof (nearest_upper a Ha). pose proof (nearest_lower b Hb Eb).
    pose proof (two_le _ _ Hs). lra.
Qed.

(** A number with at most 53 significant bits, above the subnormal floor,
    is its own rounding. *)
Lemma nearest_exact (m t : Z) :
  (0 < m < 2 ^ 53)%Z -> (-1074 <= t)%Z ->
  nearest (inject_Z m * 2 ^ t) == inject_Z m * 2 ^ t.
Proof.
  intros Hm Ht. set (a := inject_Z m * 2 ^ t).
  assert (0 < a) as Ha.
  { apply Qmult_lt_0_compat; [|apply two_pos].
    change 0 with (inject_Z 0). rewrite <- Zlt_Qlt. lia. }
  destruct (binade_spec a Ha) as [H1 _].
  set (s := ulpExponent (binade a)).
  assert (s <= t)%Z as Hst.
  { assert (binade a < 53 + t)%Z; [|unfold s, ulpExponent; lia].
    apply (Qpower_lt_compat_l_inv 2); [|done].
    eapply Qle_lt_trans; [exact H1|]. unfold a.
    rewrite two_plus. apply Qmult_lt_compat_r; [apply two_pos|].
    rewrite <- (two_Z 53) by lia. rewrite <- Zlt_Qlt. lia. }
  unfold nearest. fold s.
  assert (a / 2 ^ s == inject_Z (m * 2 ^ (t - s))) as E.
  { rewrite inject_Z_mult, two_Z by lia. unfold a.
    replace t with ((t - s) + s)%Z at 1 by lia. rewrite two_plus.
    field. pose proof (two_pos s). lra. }
  rewrite (roundHalfEven_comp _ _ E), roundHalfEven_Z.
  rewrite inject_Z_mult, two_Z by lia. unfold a.
  replace t with ((t - s) + s)%Z at 2 by lia. rewrite two_plus. ring.
Qed.

(** Every rounded value is a multiple of 2^-1074. *)
Definition onGrid (q : Q) : Prop :=
  exists m : Z, q == inject_Z m * 2 ^ (-1074).

Lemma onGrid_comp (a b : Q) : a == b -> onGrid a -> onGrid b.
Proof. intros E [m H]. exists m. by rewrite <- E. Qed.

Lemma onGrid_scaled (m s : Z) : (-1074 <= s)%Z -> onGrid (inject_Z m * 2 ^ s).
Proof.
  intros Hs. exists (m * 2 ^ (s + 1074))%Z.
  rewrite inject_Z_mult, two_Z by lia.
  replace s with ((s + 1074) + -1074)%Z at 1 by lia. rewrite two_plus. ring.
Qed.

Lemma onGrid_Z (z : Z) : onGrid (inject_Z z).
Proof.
  apply (onGrid_comp (inject_Z z * 2 ^ 0)); [|by apply onGrid_scaled].
  change (2 ^ 0) with 1. ring.
Qed.

Lemma onGrid_opp (a : Q) : onGrid a -> onGrid (- a).
Proof.
  intros [m H]. exists (- m)%Z. rewrite inject_Z_opp, H. ring.
Qed.

Lemma onGrid_plus (a b : Q) : onGrid a -> onGrid b -> onGrid (a + b).
Proof.
  intros [m H] [n H']. exists (m + n)%Z. rewrite inject_Z_plus, H, H'. ring.
Qed.

Lemma onGrid_pos (a : Q) : onGrid a -> 0 < a -> 2 ^ (-1074) <= a.
Proof.
  intros [m H] Ha. pose proof (two_pos (-1074)) as Hp.
  assert (1 <= m)%Z as Hm.
  { destruct (Z_lt_le_dec m 1) as [Hlt|]; [|done]. exfalso.
    assert (inject_Z m <= 0) as Hle.
    { change 0 with (inject_Z 0). rewrite <- Zle_Qle. lia. }
    apply (fun H => Qmult_le_compat_r _ _ (2 ^ (-1074)) H (Qlt_le_weak _ _ Hp))
      in Hle. lra. }
  rewrite Zle_Qle in Hm. change (inject_Z 1) with 1 in Hm.
  apply (fun H => Qmult_le_compat_r _ _ (2 ^ (-1074)) H (Qlt_le_weak _ _ Hp))
    in Hm. lra.
Qed.

Lemma nearest_onGrid (a : Q) : onGrid (nearest a).
Proof. apply onGrid_scaled, ulpExponent_min. Qed.

(** *** The double nearest to a rational *)

Lemma roundPositive_comp (a b : Q) :
  0 < a -> a == b -> roundPositive a = roundPositive b.
Proof. intros Ha H. unfold roundPositive. by rewrite (nearest_comp a b Ha H). Qed.

Lemma round64_comp (a b : Q) : a == b -> round64 a = round64 b.
Proof.
  intros H. unfold round64.
  rewrite <- (Qcompare_comp _ _ H _ _ (Qeq_refl 0)).
  destruct (a ?= 0) eqn:E; [done|..].
  - apply Qlt_alt in E. f_equal. apply roundPositive_comp; [lra|by rewrite H].
  - apply Qgt_alt in E. by apply roundPositive_comp.
Qed.

(** A positive number rounds to a number that is not negative, or to
    +Infinity. *)
Lemma roundPositive_cases (a : Q) :
  0 < a ->
  (roundPositive a = PosInf /\ 2 ^ 1024 <= nearest a)
  \/ (exists r, roundPositive a = Num r /\ r == nearest a
                /\ nearest a < 2 ^ 1024).
Proof.
  intros Ha. unfold roundPositive.
  destruct (Qle_bool (2 ^ 1024) (nearest a)) eqn:E.
  - left. split; [done|]. by apply Qle_bool_iff.
  - right. eexists. split; [done|]. split; [apply Qred_correct|].
    apply Qnot_le_lt. intros H%Qle_bool_iff. congruence.
Qed.

Lemma round64_not_NaN (q : Q) : round64 q <> NaN.
Proof.
  unfold round64, roundPositive.
  destruct (q ?= 0); [done|..]; by destruct (Qle_bool _ _).
Qed.

(** A number the comparator of the sort can take the sign of: an infinity,
    or a multiple of 2^-1074, as every double is. *)
Definition sortable (a : number) : Prop :=
  match a with
  | Num q => onGrid q
  | NaN => False
  | _ => True
  end.

Lemma sortable_not_NaN (a : number) : sortable a -> a <> NaN.
Proof. by destruct a. Qed.

Lemma sortable_nneg (a : number) : sortable a -> sortable (nneg a).
Proof. destruct a; simpl; try done. apply onGrid_opp. Qed.

Lemma roundPositive_sortable (a : Q) : sortable (roundPositive a).
Proof.
  unfold roundPositive. destruct (Qle_bool _ _); [done|]. simpl.
  apply (onGrid_comp (nearest a)); [by rewrite Qred_correct|].
  apply nearest_onGrid.
Qed.

Lemma round64_sortable (q : Q) : sortable (round64 q).
Proof.
  unfold round64. destruct (q ?= 0).
  - apply (onGrid_Z 0).
  - apply sortable_nneg, roundPositive_sortable.
  - apply roundPositive_sortable.
Qed.

Lemma nadd_sortable (a b : number) :
  nadd a b <> NaN -> sortable (nadd a b).
Proof.
  destruct a, b; simpl; try done. intros _. apply round64_sortable.
Qed.

(** The sign of a rounded number. *)
Lemma round64_positive (q : Q) :
  onGrid q -> (num_ltb (Num 0) (round64 q) = true <-> 0 < q).
Proof.
  intros Hg. unfold round64. destruct (q ?= 0) eqn:E.
  - apply Qeq_alt in E. simpl. split; [done|]. lra.
  - apply Qlt_alt in E.
    destruct (roundPositive_cases (- q) ltac:(lra)) as [[-> _]|(r & -> & Hr & _)].
    + simpl. split; [done|]. lra.
    + pose proof (nearest_nonneg (- q) ltac:(lra)) as Hn. simpl.
      rewrite negb_true_iff. split; [|lra].
      intros H. exfalso. assert (- r <= 0) as H' by lra.
      apply Qle_bool_iff in H'. congruence.
  - apply Qgt_alt in E. split; [done|]. intros _.
    destruct (roundPositive_cases q E) as [[-> _]|(r & -> & Hr & _)]; [done|].
    pose proof (nearest_pos q (onGrid_pos q Hg E)) as Hn. simpl.
    rewrite negb_true_iff. destruct (Qle_bool r 0) eqn:E'; [|done].
    apply Qle_bool_iff in E'. lra.
Qed.

(** The comparator [a - b] is positive exactly when [b < a]. *)
Lemma comparator_positive (a b : number) :
  sortable a -> sortable b ->
  num_ltb (Num 0) (nsub a b) = true <-> num_lt b a.
Proof.
  destruct a as [x| | |], b as [y| | |];
    cbn [sortable nsub nadd nneg num_lt]; try tauto; try done.
  intros Hx Hy. rewrite round64_positive by by apply onGrid_plus, onGrid_opp.
  split; intros H; lra.
Qed.

(** Numbers in order stay in order when rounded. *)
Lemma roundPositive_mono (a b : Q) :
  0 < a -> a <= b -> ~ num_lt (roundPositive b) (roundPositive a).
Proof.
  intros Ha Hab. pose proof (nearest_mono a b Ha Hab) as Hn.
  destruct (roundPositive_cases a Ha) as [[-> H1]|(r1 & -> & E1 & H1)];
    destruct (roundPositive_cases b ltac:(lra)) as [[-> H2]|(r2 & -> & E2 & H2)];
    simpl; try tauto; lra.
Qed.

Lemma round64_mono (a b : Q) :
  a <= b -> ~ num_lt (round64 b) (round64 a).
Proof.
  intros Hab. unfold round64.
  destruct (a ?= 0) eqn:Ea; destruct (b ?= 0) eqn:Eb;
    first [apply Qeq_alt in Ea | apply Qlt_alt in Ea | apply Qgt_alt in Ea];
    first [apply Qeq_alt in Eb | apply Qlt_alt in Eb | apply Qgt_alt in Eb];
    try (exfalso; lra).
  - simpl. lra.
  - destruct (roundPositive_cases b Eb) as [[-> _]|(r & -> & Hr & _)];
      [simpl; tauto|].
    pose proof (nearest_nonneg b Eb). simpl. lra.
  - destruct (roundPositive_cases (- a) ltac:(lra)) as [[-> _]|(r & -> & Hr & _)];
      [simpl; tauto|].
    pose proof (nearest_nonneg (- a) ltac:(lra)). simpl. lra.
  - pose proof (roundPositive_mono (- b) (- a) ltac:(lra) ltac:(lra)) as H.
    destruct (roundPositive (- a)), (roundPositive (- b)); simpl in *;
      try tauto. lra.
  - destruct (roundPositive_cases (- a) ltac:(lra)) as [[-> _]|(r & -> & Hr & _)];
      destruct (roundPositive_cases b Eb) as [[-> _]|(r' & -> & Hr' & _)];
      simpl; try tauto.
    pose proof (nearest_nonneg (- a) ltac:(lra)).
    pose proof (nearest_nonneg b Eb). lra.
  - by apply roundPositive_mono.
Qed.

(** A number with at most 53 significant bits, between the subnormal floor
    and the overflow threshold, is a double: rounding returns it. *)
Lemma round64_exact_below (q : Q) (m t : Z) :
  q == inject_Z m * 2 ^ t -> (Z.abs m < 2 ^ 53)%Z -> (-1074 <= t)%Z ->
  inject_Z (Z.abs m) * 2 ^ t < 2 ^ 1024 ->
  exists r, round64 q = Num r /\ r == q.
Proof.
  intros Hq Hm Ht Hov. pose proof (two_pos t) as Hp.
  assert (forall n : Z, (0 < n < 2 ^ 53)%Z -> inject_Z n * 2 ^ t < 2 ^ 1024 ->
            exists r, roundPositive (inject_Z n * 2 ^ t) = Num r
                      /\ r == inject_Z n * 2 ^ t) as Hpos.
  { intros n Hn Hlt. pose proof (nearest_exact n t Hn ltac:(lia)) as He.
    assert (0 < inject_Z n * 2 ^ t) as Ha.
    { apply Qmult_lt_0_compat; [|done].
      change 0 with (inject_Z 0). rewrite <- Zlt_Qlt. lia. }
    destruct (roundPositive_cases _ Ha) as [[_ H]|(r & -> & Hr & _)].
    - exfalso. rewrite He in H. lra.
    - exists r. split; [done|]. by rewrite Hr. }
  rewrite (round64_comp _ _ Hq). unfold round64.
  destruct (inject_Z m * 2 ^ t ?= 0) eqn:E.
  - apply Qeq_alt in E. exists 0. split; [done|]. by rewrite Hq, E.
  - apply Qlt_alt in E.
    assert (m < 0)%Z as Hneg.
    { destruct (Z_lt_le_dec m 0) as [|Hge]; [done|]. exfalso.
      rewrite Zle_Qle in Hge. change (inject_Z 0) with 0 in Hge.
      pose proof (Qmult_le_0_compat _ _ Hge (Qlt_le_weak _ _ Hp)). lra. }
    rewrite Z.abs_neq in Hov by lia.
    destruct (Hpos (- m)%Z ltac:(lia) Hov) as (r & Hr & Er).
    assert (- (inject_Z m * 2 ^ t) == inject_Z (- m) * 2 ^ t) as E'
      by (rewrite inject_Z_opp; ring).
    assert (0 < - (inject_Z m * 2 ^ t)) as Hpos' by lra.
    rewrite (roundPositive_comp _ _ Hpos' E'), Hr. simpl.
    exists (- r). split; [done|]. rewrite Er, Hq, inject_Z_opp. ring.
  - apply Qgt_alt in E.
    assert (0 < m)%Z as Hgt.
    { destruct (Z_lt_le_dec 0 m) as [|Hle]; [done|]. exfalso.
      rewrite Zle_Qle in Hle. change (inject_Z 0) with 0 in Hle.
      apply (fun H => Qmult_le_compat_r _ _ (2 ^ t) H (Qlt_le_weak _ _ Hp))
        in Hle. lra. }
    rewrite Z.abs_eq in Hov by lia.
    destruct (Hpos m ltac:(lia) Hov) as (r & Hr & Er).
    rewrite Hr. exists r. split; [done|]. by rewrite Er, Hq.
Qed.

Lemma round64_exact (q : Q) (m t : Z) :
  q == inject_Z m * 2 ^ t -> (Z.abs m < 2 ^ 53)%Z -> (-1074 <= t <= 971)%Z ->
  exists r, round64 q = Num r /\ r == q.
Proof.
  intros Hq Hm Ht. apply (round64_exact_below q m t); [done|done|lia|].
  assert (inject_Z (Z.abs m) * 2 ^ t < 2 ^ 53 * 2 ^ t) as H.
  { apply Qmult_lt_compat_r; [apply two_pos|].
    rewrite <- (two_Z 53) by lia. by rewrite <- Zlt_Qlt. }
  rewrite <- two_plus in H.
  pose proof (two_le (53 + t) 1024 ltac:(lia)). lra.
Qed.


(** What rounding returns has at most 53 significant bits. *)
Lemma roundPositive_significand (a r : Q) :
  0 < a -> roundPositive a = Num r ->
  exists m t : Z,
    r == inject_Z m * 2 ^ t /\ (0 <= m < 2 ^ 53)%Z /\ (-1074 <= t)%Z
    /\ inject_Z m * 2 ^ t < 2 ^ 1024.
Proof.
  intros Ha Hr.
  destruct (roundPositive_cases a Ha) as [[E _]|(r' & E & Er & Hlt)];
    [congruence|].
  rewrite Hr in E. injection E as <-.
  destruct (significand_bounds a Ha) as (H0 & H53 & _).
  set (s := ulpExponent (binade a)) in *.
  pose proof (ulpExponent_min (binade a)) as Hs. fold s in Hs.
  set (M := roundHalfEven (a / 2 ^ s)).
  assert (0 <= M <= 2 ^ 53)%Z as HM.
  { split; [apply roundHalfEven_ge | apply roundHalfEven_le]; [|lra].
    change (inject_Z 0) with 0. lra. }
  assert (nearest a = inject_Z M * 2 ^ s) as En by done.
  rewrite En in Er, Hlt.
  destruct (Z.eq_dec M (2 ^ 53)%Z) as [E|E].
  - exists (2 ^ 52)%Z, (s + 1)%Z.
    assert (inject_Z (2 ^ 52) * 2 ^ (s + 1) == inject_Z M * 2 ^ s) as E'.
    { rewrite E, two_succ, !two_Z by lia.
      change (2 ^ 53) with (2 ^ 52 * 2). ring. }
    rewrite E'. split; [done|]. split; [lia|]. split; [lia|done].
  - exists M, s. split; [done|]. split; [lia|]. split; [lia|done].
Qed.

Lemma round64_significand (q r : Q) :
  round64 q = Num r ->
  exists m t : Z,
    r == inject_Z m * 2 ^ t /\ (Z.abs m < 2 ^ 53)%Z /\ (-1074 <= t)%Z
    /\ inject_Z (Z.abs m) * 2 ^ t < 2 ^ 1024.
Proof.
  unfold round64. destruct (q ?= 0) eqn:E.
  - intros [= <-]. exists 0%Z, 0%Z. split; [done|]. split; [done|].
    split; [done|]. apply two_pos.
  - apply Qlt_alt in E. destruct (roundPositive (- q)) as [r0| | |] eqn:Er;
      try done.
    intros [= <-].
    destruct (roundPositive_significand (- q) r0 ltac:(lra) Er)
      as (m & t & Hr & Hm & Ht & Hlt).
    exists (- m)%Z, t. rewrite Z.abs_opp, Z.abs_eq by lia.
    split; [rewrite Hr, inject_Z_opp; ring|]. split; [lia|]. split; [lia|done].
  - apply Qgt_alt in E. intros Hr.
    destruct (roundPositive_significand q r E Hr) as (m & t & H & Hm & Ht & Hlt).
    exists m, t. rewrite Z.abs_eq by lia. split; [done|]. split; [lia|].
    split; [lia|done].
Qed.

(** What rounding returns is a fraction in lowest terms. *)
Lemma round64_canonical (q r : Q) : round64 q = Num r -> Qred r = r.
Proof.
  unfold round64, roundPositive. destruct (q ?= 0).
  - by intros [= <-].
  - destruct (Qle_bool _ _); [done|]. intros [= <-].
    rewrite Qred_opp. f_equal. apply Qred_complete, Qred_correct.
  - destruct (Qle_bool _ _); [done|]. intros [= <-].
    apply Qred_complete, Qred_correct.
Qed.

(** A double is its own rounding. *)
Lemma round64_idempotent (q r : Q) : round64 q = Num r -> round64 r = Num r.
Proof.
  intros H. destruct (round64_significand q r H) as (m & t & Hr & Hm & Ht & Hlt).
  destruct (round64_exact_below r m t Hr Hm Ht Hlt) as (r' & E & Er).
  rewrite E. f_equal.
  rewrite <- (round64_canonical _ _ E), <- (round64_canonical _ _ H).
  by apply Qred_complete.
Qed.

Lemma nadd_zero (q : Q) : nadd (round64 q) (Num 0) = round64 q.
Proof.
  destruct (round64 q) as [r| | |] eqn:E; try done. cbn [nadd].
  rewrite (round64_comp (r + 0) r) by ring. by eapply round64_idempotent.
Qed.

Lemma orZero_round64 (q : Q) : orZero (round64 q) = round64 q.
Proof.
  destruct (round64 q) as [r| | |] eqn:E; try done.
  - unfold orZero. destruct (Qeq_bool r 0) eqn:E0; [|done].
    apply Qeq_bool_iff in E0. f_equal.
    rewrite <- (round64_canonical _ _ E). symmetry.
    by apply (Qred_complete r 0).
  - by apply round64_not_NaN in E.
Qed.

(** The product of an integer of magnitude up to 1475739 and 10^14 is a
    double: 1475739 * 5^14 is below 2^53. *)
Lemma era_base_exact (k : Z) :
  (Z.abs k <= 1475739)%Z ->
  exists r, nmul (Num (inject_Z k)) (Num (inject_Z (10 ^ 14))) = Num r
            /\ r == inject_Z (k * 10 ^ 14).
Proof.
  intros Hk. cbn [nmul].
  destruct (round64_exact (inject_Z k * inject_Z (10 ^ 14)) (k * 5 ^ 14) 14)
    as (r & -> & Hr).
  - rewrite <- inject_Z_mult, <- (two_Z 14), <- inject_Z_mult by lia.
    by replace (k * 10 ^ 14)%Z with (k * 5 ^ 14 * 2 ^ 14)%Z by lia.
  - lia.
  - lia.
  - exists r. split; [done|]. by rewrite Hr, inject_Z_mult.
Qed.

(** Below 2^1023 in magnitude nothing overflows. *)
Lemma round64_finite (q : Q) :
  - 2 ^ 1023 < q -> q < 2 ^ 1023 -> exists r, round64 q = Num r.
Proof.
  assert (forall a, 0 < a -> a < 2 ^ 1023 -> exists r, roundPositive a = Num r)
    as Hpos.
  { intros a Ha Hlt.
    destruct (roundPositive_cases a Ha) as [[_ H]|(r & -> & _)]; [|by exists r].
    exfalso. destruct (binade_spec a Ha) as [H1 _].
    assert (binade a < 1023)%Z as Hb.
    { apply (Qpower_lt_compat_l_inv 2); [lra|done]. }
    pose proof (nearest_upper a Ha) as Hu.
    assert (ulpExponent (binade a) + 53 <= 1023)%Z as Hs
      by (unfold ulpExponent; lia).
    pose proof (two_le _ _ Hs). pose proof (two_lt 1023 1024 ltac:(lia)). lra. }
  intros H1 H2. unfold round64. destruct (q ?= 0) eqn:E.
  - by exists 0.
  - apply Qlt_alt in E. destruct (Hpos (- q)) as [r ->]; [lra..|].
    by exists (- r).
  - apply Qgt_alt in E. by apply Hpos.
Qed.

(** The base value of an era is finite: array indices are below 2^32. *)
Lemma era_base_finite (k : Z) :
  (Z.abs k < 2 ^ 32)%Z ->
  exists b, nmul (Num (inject_Z k)) (Num (inject_Z (10 ^ 14))) = Num b.
Proof.
  intros Hk. cbn [nmul]. apply round64_finite.
  - rewrite <- inject_Z_mult.
    assert (- 2 ^ 79 < inject_Z (k * 10 ^ 14)) as H.
    { rewrite <- (two_Z 79), <- inject_Z_opp, <- Zlt_Qlt by lia. lia. }
    pose proof (two_le 79 1023 ltac:(lia)). lra.
  - rewrite <- inject_Z_mult.
    assert (inject_Z (k * 10 ^ 14) < 2 ^ 79) as H.
    { rewrite <- (two_Z 79), <- Zlt_Qlt by lia. lia. }
    pose proof (two_le 79 1023 ltac:(lia)). lra.
Qed.

#[local] Close Scope Q_scope.

(** The decimal [ip.fp] as a rational. *)
Definition decimalValue (ip fp : jsstring) : Q :=
  (inject_Z (digitsVal (ip ++ fp)) * pow10 (- Z.of_nat (length fp)))%Q.

(** "digits.digits" is read as the double nearest to the decimal it
    writes. *)
Lemma parseFloat_decimal (year fp : jsstring) :
  allDigits year -> year <> [] -> allDigits fp ->
  parseFloat (year ++ 46%N :: fp) = round64 (decimalValue year fp).
Proof.
  intros Hy Hne Hf. destruct year as [|c year]; [done|].
  pose proof (Forall_inv Hy) as Hc. pose proof Hc as Hr. apply isDigit_range in Hr.
  unfold parseFloat. simpl app at 1.
  rewrite trimStart_nonspace by by apply digit_not_space.
  rewrite (proj2 (N.eqb_neq c 45)) by lia.
  rewrite (proj2 (N.eqb_neq c 43)) by lia.
  unfold parseUnsigned, startsWith, str_Infinity.
  rewrite stripPrefix_head by lia.
  change (c :: year ++ 46%N :: fp) with ((c :: year) ++ 46%N :: fp).
  destruct (takeWhile_digits (c :: year) (46%N :: fp) Hy eq_refl) as [-> ->].
  change (dropWhile isDigit (46%N :: fp)) with (46%N :: fp).
  cbv iota beta. rewrite N.eqb_refl.
  pose proof (takeWhile_digits fp [] Hf eq_refl) as [E1 E2].
  rewrite app_nil_r in E1, E2. rewrite E1, E2. done.
Qed.

Lemma padEnd_digits (n : nat) (s : jsstring) :
  allDigits s -> allDigits (padEnd n 48 s).
Proof.
  intros H. unfold padEnd. apply Forall_app. split; [done|].
  apply Forall_forall. intros c Hc%list_elem_of_In%repeat_spec. by subst.
Qed.

Lemma orZero_Num (q : Q) : exists q', orZero (Num q) = Num q' /\ (q' == q)%Q.
Proof.
  unfold orZero. destruct (Qeq_bool q 0) eqn:E.
  - exists 0%Q. split; [done|]. symmetry. by apply Qeq_bool_iff.
  - by exists q.
Qed.

(** ** Claim C5: the key of a custom era date *)

#[local] Open Scope Q_scope.

Lemma eraValue_decimal (year fraction suffix : jsstring) :
  allDigits year -> year <> [] -> allDigits fraction ->
  (suffix = [] /\ fraction = []) \/ suffix = 46%N :: fraction ->
  eraValue (year ++ suffix)
  = round64 (decimalValue year (padEnd 10 48 fraction)).
Proof.
  intros Hy Hne Hf Hs. unfold eraValue.
  assert (nth 0 (splitOn 46 (year ++ suffix)) [] = year
          /\ nth 1 (splitOn 46 (year ++ suffix)) [] = fraction) as [-> ->].
  { destruct Hs as [[-> ->]| ->].
    - rewrite app_nil_r, splitOn_no_sep by by apply allDigits_no_dot. done.
    - rewrite splitOn_first by by apply allDigits_no_dot.
      rewrite splitOn_no_sep by by apply allDigits_no_dot. done. }
  rewrite parseFloat_decimal by (try done; by apply padEnd_digits).
  apply orZero_round64.
Qed.

Module DateExample.
Definition legendEra : jsstring := js "传说纪元".
Definition eras : list jsstring := [legendEra; str_anchor].
Definition legendDate : jsstring := js "传说纪元 3.0100000000".
(** An era named like the BC marker. *)
Definition bcEras : list jsstring := [str_gongyuanqian; str_anchor].
Definition bcEraDate : jsstring := js "公元前 3.01".
End DateExample.

(** C5 (as amended). A date string that the BC and Gregorian patterns do
    not match and whose first prefix match in [eraOrder] is the era at
    index [j], followed by digits and an optional fraction of digits, has
    the key (j - anchorIndex) * 10^14 + value as double arithmetic computes
    it: the value is the double nearest to the number written by the digits
    with the fraction right-padded to 10 digits, the product is rounded to
    a double (it is exact for fewer than 1475740 eras), and so is the sum.
    With eraOrder = ["传说纪元", "公元纪年"] the key of
    "传说纪元 3.0100000000" is the double -99999999999996.984375 (the
    doubles next to 10^14 are 1/64 apart), below the key of every date in
    Gregorian form. *)
Theorem era_key_formula :
  (forall (d : jsstring) (eras : list jsstring) (j : Z)
          (year fraction suffix : jsstring),
      eraForm d eras j (year ++ suffix) ->
      allDigits year -> year <> [] -> allDigits fraction ->
      (suffix = [] /\ fraction = []) \/ suffix = 46%N :: fraction ->
      normalizeDate d eras
      = nadd (nmul (Num (inject_Z (j - anchorIndexOf eras)))
                   (Num (inject_Z (10 ^ 14))))
             (round64 (decimalValue year (padEnd 10 48 fraction))))
  /\ (forall k : Z,
         (Z.abs k <= 1475739)%Z ->
         exists b, nmul (Num (inject_Z k)) (Num (inject_Z (10 ^ 14))) = Num b
                   /\ b == inject_Z (k * 10 ^ 14))
  /\ exists q,
      normalizeDate DateExample.legendDate DateExample.eras = Num q
      /\ q == - (6399999999999807 # 64)
      /\ forall g gm, gregorianForm g gm ->
                      num_lt (Num q) (normalizeDate g DateExample.eras).
Proof.
  split; [|split].
  - intros d eras j year fraction suffix Hform Hy Hne Hf Hs.
    rewrite (normalizeDate_eraForm _ _ _ _ Hform). unfold eraKey.
    by rewrite (eraValue_decimal year fraction suffix Hy Hne Hf Hs).
  - intros k Hk.
    destruct (round64_exact (inject_Z k * inject_Z (10 ^ 14)) (k * 5 ^ 14) 14)
      as (r & Hr & Er).
    + rewrite <- inject_Z_mult, <- (two_Z 14), <- inject_Z_mult by lia.
      by replace (k * 10 ^ 14)%Z with (k * 5 ^ 14 * 2 ^ 14)%Z by lia.
    + lia.
    + lia.
    + exists r. split; [exact Hr|]. by rewrite Er, inject_Z_mult.
  - eexists. split; [vm_compute; reflexivity|]. split; [done|].
    intros g gm Hg.
    pose proof (normalizeDate_gregorianForm g DateExample.eras gm Hg) as H.
    destruct (gregorianFields gm) as [[[[[yr mo] dd] hh] mi] ss].
    destruct H as (-> & Hy & Hmo & Hd & Hh & Hmi & Hss).
    destruct (DateUTC_gregorian yr mo dd hh mi ss Hy Hmo Hd Hh Hmi Hss)
      as [-> Hlo].
    cbn [isNaN num_lt]. unfold Qlt. cbn [Qnum Qden inject_Z]. lia.
Qed.

(** C5 fails as stated. For an era whose name the BC pattern matches: with
    eraOrder = ["公元前", "公元纪年"] the date "公元前 3.01" starts with the
    era at index 0 (the anchor is at index 1), yet its key is the double
    nearest to -3.01, not one next to -10^14 + 3.01. And the sum is
    rounded: with eraOrder = ["传说纪元", "公元纪年"] the key of
    "传说纪元 3.0100000000" is not -10^14 + 3.01, which no double is. *)
Lemma era_key_formula_counterexample :
  firstMatch (trim DateExample.bcEraDate) DateExample.bcEras 0
  = Some (0%Z, js " 3.01")
  /\ anchorIndexOf DateExample.bcEras = 1%Z
  /\ normalizeDate DateExample.bcEraDate DateExample.bcEras
     = nneg (round64 (301 # 100))
  /\ firstMatch (trim DateExample.legendDate) DateExample.eras 0
     = Some (0%Z, js " 3.0100000000")
  /\ anchorIndexOf DateExample.eras = 1%Z
  /\ exists q, normalizeDate DateExample.legendDate DateExample.eras = Num q
               /\ ~ q == inject_Z ((0 - 1) * 10 ^ 14) + (301 # 100).
Proof.
  split; [reflexivity|]. split; [reflexivity|].
  split; [vm_compute; reflexivity|].
  split; [reflexivity|]. split; [reflexivity|].
  eexists. split; [vm_compute; reflexivity | done].
Qed.

Lemma era_key_formula_witness :
  normalizeDate DateExample.legendDate DateExample.eras
  = nadd (nmul (Num (inject_Z (0 - anchorIndexOf DateExample.eras)))
               (Num (inject_Z (10 ^ 14))))
         (round64 (decimalValue (js "3") (padEnd 10 48 (js "0100000000")))).
Proof.
  apply (proj1 era_key_formula DateExample.legendDate DateExample.eras 0%Z
           (js "3") (js "0100000000") (js ".0100000000")).
  - split; [done|]. split; [reflexivity|]. split; [reflexivity|].
    eexists. split; reflexivity.
  - repeat constructor.
  - done.
  - repeat constructor.
  - right. reflexivity.
Defined.

(** ** Claim C9: an era date whose value does not parse *)

#[local] Close Scope Q_scope.

(** Not a number, or zero: what [|| 0] turns into 0. *)
Definition zeroish (n : number) : Prop :=
  n = NaN \/ exists q, n = Num q /\ (q == 0)%Q.

Lemma orZero_zeroish n : zeroish n -> orZero n = Num 0.
Proof.
  intros [-> | (q & -> & Hq)]; [done|]. unfold orZero.
  by rewrite (proj2 (Qeq_bool_iff q 0) Hq).
Qed.

Lemma nneg_zeroish n : zeroish n -> zeroish (nneg n).
Proof.
  intros [-> | (q & -> & Hq)]; [by left|]. right. exists (- q)%Q.
  split; [done|]. rewrite Hq. done.
Qed.

(** The string [eraValue] hands to [parseFloat]. *)
Definition eraNumeral (s : jsstring) : jsstring :=
  nth 0 (splitOn 46 s) [] ++ 46%N :: padEnd 10 48 (nth 1 (splitOn 46 s) []).

Lemma splitOn_nonempty sep s : splitOn sep s <> [].
Proof.
  destruct s as [|c s]; simpl; [done|].
  destruct (c =? sep)%N; [done|]. by destruct (splitOn sep s).
Qed.

Lemma splitOn_cons sep c s :
  c <> sep ->
  splitOn sep (c :: s) = (c :: nth 0 (splitOn sep s) []) :: tail (splitOn sep s).
Proof.
  intros H. simpl. rewrite (proj2 (N.eqb_neq c sep) H).
  pose proof (splitOn_nonempty sep s). by destruct (splitOn sep s).
Qed.

Lemma eraNumeral_cons c s : c <> 46%N -> eraNumeral (c :: s) = c :: eraNumeral s.
Proof.
  intros H. unfold eraNumeral. rewrite splitOn_cons by done.
  pose proof (splitOn_nonempty 46 s). by destruct (splitOn 46 s).
Qed.

Lemma eraNumeral_dot s :
  eraNumeral (46%N :: s) = 46%N :: padEnd 10 48 (nth 0 (splitOn 46 s) []).
Proof.
  unfold eraNumeral. simpl.
  pose proof (splitOn_nonempty 46 s). by destruct (splitOn 46 s).
Qed.

Lemma splitOn_head_cons sep s d y :
  nth 0 (splitOn sep s) [] = d :: y -> exists s', s = d :: s' /\ d <> sep.
Proof.
  destruct s as [|c s]; simpl; [done|].
  destruct (c =? sep)%N eqn:E; [done|]. apply N.eqb_neq in E.
  pose proof (splitOn_nonempty sep s). destruct (splitOn sep s); [done|].
  simpl. intros [= -> _]. eauto.
Qed.

Lemma stripPrefix_eraNumeral p s :
  Forall (fun c => c <> 46%N) p ->
  stripPrefix p s = None -> stripPrefix p (eraNumeral s) = None.
Proof.
  intros Hp. revert s. induction Hp as [|a p Ha Hp IH]; intros s; [done|].
  destruct s as [|c s].
  - intros _. by apply stripPrefix_head.
  - destruct (N.eq_dec c 46%N) as [->|Hc].
    + intros _. rewrite eraNumeral_dot. by apply stripPrefix_head.
    + rewrite eraNumeral_cons by done. simpl.
      destruct (a =? c)%N; [apply IH | done].
Qed.

Lemma parseUnsigned_NaN_head c s :
  parseUnsigned (c :: s) = NaN ->
  startsWith (c :: s) str_Infinity = false /\ isDigit c = false.
Proof.
  unfold parseUnsigned. destruct (startsWith (c :: s) str_Infinity); [done|].
  intros H. split; [done|]. destruct (isDigit c) eqn:Hc; [|done].
  exfalso. revert H. cbn [takeWhile dropWhile]. rewrite Hc.
  destruct (dropWhile isDigit s) as [|c' r']; [apply round64_not_NaN|].
  destruct (c' =? 46)%N; apply round64_not_NaN.
Qed.

Lemma parseUnsigned_nondigit c s :
  startsWith (c :: s) str_Infinity = false -> isDigit c = false -> c <> 46%N ->
  parseUnsigned (c :: s) = NaN.
Proof.
  intros HI Hc Hd. unfold parseUnsigned. rewrite HI.
  cbn [takeWhile dropWhile]. rewrite Hc.
  by rewrite (proj2 (N.eqb_neq c 46) Hd).
Qed.

Lemma parseUnsigned_dot_nondigit d s :
  isDigit d = false -> parseUnsigned (46%N :: d :: s) = NaN.
Proof.
  intros Hd. unfold parseUnsigned.
  change (startsWith (46%N :: d :: s) str_Infinity) with false.
  cbv iota. change (isDigit 46) with false.
  cbn [takeWhile dropWhile]. change (isDigit 46) with false. cbv iota.
  change (46 =? 46)%N with true. cbv iota. cbn [takeWhile]. by rewrite Hd.
Qed.

Lemma startsWith_None s p : startsWith s p = false <-> stripPrefix p s = None.
Proof. unfold startsWith. by destruct (stripPrefix p s). Qed.

Lemma parseUnsigned_eraNumeral s :
  parseUnsigned s = NaN -> zeroish (parseUnsigned (eraNumeral s)).
Proof.
  destruct s as [|c s].
  - intros _. right. eexists. split; [vm_compute; reflexivity | done].
  - intros H. destruct (parseUnsigned_NaN_head _ _ H) as [HI Hc].
    destruct (N.eq_dec c 46%N) as [->|Hd].
    + rewrite eraNumeral_dot.
      destruct (nth 0 (splitOn 46 s) []) as [|d y] eqn:Ey.
      * right. eexists. split; [vm_compute; reflexivity | done].
      * left. destruct (splitOn_head_cons _ _ _ _ Ey) as (s' & -> & Hd).
        assert (isDigit d = false) as Hnd.
        { destruct (isDigit d) eqn:E; [|done]. exfalso. revert H.
          unfold parseUnsigned.
          change (startsWith (46%N :: d :: s') str_Infinity) with false.
          cbn [takeWhile dropWhile]. change (isDigit 46) with false. cbv iota.
          change (46 =? 46)%N with true. cbv iota. cbn [takeWhile]. rewrite E.
          apply round64_not_NaN. }
        unfold padEnd. cbn [app]. by apply parseUnsigned_dot_nondigit.
    + left. rewrite eraNumeral_cons by done.
      apply parseUnsigned_nondigit; [|done..].
      apply startsWith_None. rewrite <- eraNumeral_cons by done.
      apply stripPrefix_eraNumeral; [by repeat constructor|].
      by apply startsWith_None.
Qed.

Lemma eraValue_unparseable (v : jsstring) :
  parseFloat v = NaN -> eraValue v = Num 0.
Proof.
  intros H. apply orZero_zeroish. change (zeroish (parseFloat (eraNumeral v))).
  induction v as [|c v IH].
  - right. eexists. split; [vm_compute; reflexivity | done].
  - destruct (isWhiteSpace c) eqn:Hw.
    + assert (c <> 46%N) as Hd by (intros ->; done).
      rewrite eraNumeral_cons by done.
      unfold parseFloat, trimStart in *. cbn [dropWhile] in *. rewrite Hw in *.
      by apply IH.
    + unfold parseFloat in *. rewrite trimStart_nonspace in H by done.
      destruct (N.eq_dec c 46%N) as [->|Hd].
      * rewrite eraNumeral_dot, trimStart_nonspace by done.
        change (46 =? 45)%N with false. change (46 =? 43)%N with false. cbv iota.
        rewrite <- eraNumeral_dot. by apply parseUnsigned_eraNumeral.
      * rewrite eraNumeral_cons, trimStart_nonspace by done.
        destruct (c =? 45)%N.
        { apply nneg_zeroish, parseUnsigned_eraNumeral.
          by destruct (parseUnsigned v). }
        destruct (c =? 43)%N; [by apply parseUnsigned_eraNumeral|].
        rewrite <- eraNumeral_cons by done. by apply parseUnsigned_eraNumeral.
Qed.

#[local] Open Scope Q_scope.

Module UnparseableExample.
Definition date : jsstring := js "传说纪元 abc".
(** An era whose name the BC pattern matches. *)
Definition centuryEras : list jsstring := [js "公元前3世纪"].
Definition centuryDate : jsstring := js "公元前3世纪 abc".
End UnparseableExample.

(** C9 (as amended). A non-empty date string that the BC and Gregorian
    patterns do not match, whose first prefix match in [eraOrder] is the era
    at index [j], and whose remainder after the era name [parseFloat] cannot
    read, has the era's base value as key: the double nearest to
    (j - anchorIndex) * 10^14, which for [j] within 1475739 positions of
    the anchor is that product itself, a finite number and not the Infinity
    given to unsortable dates. *)
Theorem unparseable_era_value_is_base (d : jsstring) (eras : list jsstring)
        (j : Z) (v : jsstring) :
  eraForm d eras j v -> parseFloat v = NaN ->
  normalizeDate d eras
  = round64 (inject_Z ((j - anchorIndexOf eras) * 10 ^ 14))
  /\ ((Z.abs (j - anchorIndexOf eras) <= 1475739)%Z ->
      exists q, normalizeDate d eras = Num q
                /\ q == inject_Z ((j - anchorIndexOf eras) * 10 ^ 14)).
Proof.
  intros Hform Hv. rewrite (normalizeDate_eraForm _ _ _ _ Hform).
  unfold eraKey. rewrite (eraValue_unparseable _ Hv).
  assert (nmul (Num (inject_Z (j - anchorIndexOf eras)))
               (Num (inject_Z ERA_MULTIPLIER))
          = round64 (inject_Z ((j - anchorIndexOf eras) * 10 ^ 14))) as ->.
  { cbn [nmul]. apply round64_comp. by rewrite inject_Z_mult. }
  rewrite nadd_zero. split; [done|]. intros Hj.
  destruct (era_base_exact _ Hj) as (r & Hr & Er). cbn [nmul] in Hr.
  exists r. split; [|done]. rewrite <- Hr. apply round64_comp.
  by rewrite inject_Z_mult.
Qed.

Lemma unparseable_era_value_is_base_witness :
  normalizeDate UnparseableExample.date DateExample.eras
  = round64 (inject_Z ((0 - anchorIndexOf DateExample.eras) * 10 ^ 14))
  /\ exists q,
      normalizeDate UnparseableExample.date DateExample.eras = Num q
      /\ q == inject_Z ((0 - anchorIndexOf DateExample.eras) * 10 ^ 14).
Proof.
  destruct (unparseable_era_value_is_base UnparseableExample.date
              DateExample.eras 0%Z (js "abc")) as [H1 H2].
  - split; [done|]. split; [reflexivity|]. split; [reflexivity|].
    eexists. split; reflexivity.
  - reflexivity.
  - split; [exact H1|]. apply H2. by vm_compute.
Defined.

(** Beyond 1475739 positions from the anchor the product can be rounded:
    the base value of an era 1475741 positions after the anchor is
    147574099999999983616, which is 16384 below 1475741 * 10^14. *)
Lemma era_base_rounded :
  nmul (Num (inject_Z 1475741)) (Num (inject_Z ERA_MULTIPLIER))
  = Num (inject_Z (1475741 * 10 ^ 14 - 16384)).
Proof. vm_compute. reflexivity. Qed.

(** C9 fails as stated when the BC pattern matches the era's own name: with
    eraOrder = ["公元前3世纪"], the date "公元前3世纪 abc" starts with the era
    at index 0, its remainder " abc" is no number, and the base value is 0;
    the key is -3. *)
Lemma unparseable_era_value_counterexample :
  firstMatch (trim UnparseableExample.centuryDate)
             UnparseableExample.centuryEras 0
  = Some (0%Z, js " abc")
  /\ parseFloat (js " abc") = NaN
  /\ ((0 - anchorIndexOf UnparseableExample.centuryEras) * 10 ^ 14 = 0)%Z
  /\ exists q, normalizeDate UnparseableExample.centuryDate
                             UnparseableExample.centuryEras = Num q
               /\ q == - (3 # 1).
Proof.
  split; [reflexivity|]. split; [reflexivity|]. split; [reflexivity|].
  eexists. split; [vm_compute; reflexivity | done].
Qed.

#[local] Close Scope Q_scope.

(** ** Claim C2: the key follows the chronological order *)

(** The fields of a Gregorian match as a calendar date and a time of day. *)
Definition calendarDate (g : GregorianMatch) : Z * Z * Z :=
  let '(yr, mo, dd, _, _, _) := gregorianFields g in (yr, mo, dd).

Definition timeOfDay (g : GregorianMatch) : Z * Z * Z :=
  let '(_, _, _, hh, mi, ss) := gregorianFields g in (hh, mi, ss).

Definition wellFormed (g : GregorianMatch) : Prop :=
  let '(yr, mo, dd, hh, mi, ss) := gregorianFields g in
  100 <= yr /\ validDate yr mo dd /\ validTime hh mi ss.

Definition gregorianBefore (a b : GregorianMatch) : Prop :=
  dateBefore (calendarDate a) (calendarDate b)
  \/ (calendarDate a = calendarDate b
      /\ dateBefore (timeOfDay a) (timeOfDay b)).

Lemma gregorian_key_lt d1 d2 eras g1 g2 :
  gregorianForm d1 g1 -> gregorianForm d2 g2 ->
  wellFormed g1 -> wellFormed g2 -> gregorianBefore g1 g2 ->
  num_lt (normalizeDate d1 eras) (normalizeDate d2 eras).
Proof.
  intros H1 H2 W1 W2 Hlt.
  pose proof (normalizeDate_gregorianForm d1 eras g1 H1) as N1.
  pose proof (normalizeDate_gregorianForm d2 eras g2 H2) as N2.
  unfold wellFormed, gregorianBefore, calendarDate, timeOfDay in *.
  destruct (gregorianFields g1) as [[[[[y1 m1] dd1] h1] mi1] s1].
  destruct (gregorianFields g2) as [[[[[y2 m2] dd2] h2] mi2] s2].
  destruct N1 as (-> & Ry1 & Rm1 & Rd1 & Rh1 & Rmi1 & Rs1).
  destruct N2 as (-> & Ry2 & Rm2 & Rd2 & Rh2 & Rmi2 & Rs2).
  destruct W1 as (Y1 & V1 & T1). destruct W2 as (Y2 & V2 & T2).
  destruct (DateUTC_gregorian y1 m1 dd1 h1 mi1 s1) as [-> _]; [done..|].
  destruct (DateUTC_gregorian y2 m2 dd2 h2 mi2 s2) as [-> _]; [done..|].
  rewrite (proj2 (andb_false_iff _ _) (or_intror (proj2 (Z.leb_gt y1 99) ltac:(lia)))).
  rewrite (proj2 (andb_false_iff _ _) (or_intror (proj2 (Z.leb_gt y2 99) ltac:(lia)))).
  cbn [isNaN num_lt]. rewrite <- Zlt_Qlt.
  unfold validTime in *. unfold MakeDate, MakeTime, msPerDay.
  destruct Hlt as [Hd | [[= -> -> ->] Ht]].
  - pose proof (MakeDay_lt _ _ _ _ _ _ V1 V2 Hd). lia.
  - unfold dateBefore in Ht. lia.
Qed.

Module MonotonicExample.
Definition newEra : jsstring := js "新纪元".
(** The anchor first, a later era second. *)
Definition eras : list jsstring := [str_anchor; newEra].
Definition farFuture : jsstring := js "5200-01-01".
Definition newEraYear1 : jsstring := js "新纪元 1".
Definition year50 : jsstring := js "0050-01-01".
Definition year100 : jsstring := js "0100-01-01".
(** Two values of the era before the anchor, a hundredth apart. *)
Definition legend301 : jsstring := js "传说纪元 3.01".
Definition legend302 : jsstring := js "传说纪元 3.02".
End MonotonicExample.

(** C2: the keys the code gives where the order of the keys is not the
    order of the dates.
    - With eraOrder = ["公元纪年", "新纪元"] the date "5200-01-01" is in
      Gregorian form, the era of the anchor at index 0, and "新纪元 1" is
      of the era at index 1; its key 10^14 + 1 is below the key
      101928931200000 of "5200-01-01". The multiplier, "a large number to
      separate eras", is smaller than the timestamps of the years from
      5139 on.
    - "0050-01-01" is before "0100-01-01" and has the larger key:
      [Date.UTC] reads the year 50 as 1950.
    - With eraOrder = ["传说纪元", "公元纪年"] the dates "传说纪元 3.01" and
      "传说纪元 3.02" of one era have one and the same key: next to 10^14
      the doubles are 1/64 apart, and the fraction padded "to ensure
      consistent sorting" is rounded away. *)
Theorem normalizeDate_order_failures :
  (anchorIndexOf MonotonicExample.eras = 0
   /\ (exists g, gregorianForm MonotonicExample.farFuture g)
   /\ eraForm MonotonicExample.newEraYear1 MonotonicExample.eras 1 (js "1")
   /\ normalizeDate MonotonicExample.farFuture MonotonicExample.eras
      = Num (inject_Z 101928931200000)
   /\ normalizeDate MonotonicExample.newEraYear1 MonotonicExample.eras
      = Num (inject_Z (10 ^ 14 + 1))
   /\ num_lt (normalizeDate MonotonicExample.newEraYear1 MonotonicExample.eras)
             (normalizeDate MonotonicExample.farFuture MonotonicExample.eras))
  /\ (normalizeDate MonotonicExample.year50 MonotonicExample.eras
      = Num (inject_Z (-631152000000))
      /\ normalizeDate MonotonicExample.year100 MonotonicExample.eras
         = Num (inject_Z (-59011459200000))
      /\ num_lt (normalizeDate MonotonicExample.year100 MonotonicExample.eras)
                (normalizeDate MonotonicExample.year50 MonotonicExample.eras))
  /\ (eraForm MonotonicExample.legend301 DateExample.eras 0 (js "3.01")
      /\ eraForm MonotonicExample.legend302 DateExample.eras 0 (js "3.02")
      /\ num_lt (parseFloat (js "3.01")) (parseFloat (js "3.02"))
      /\ normalizeDate MonotonicExample.legend301 DateExample.eras
         = Num (- (6399999999999807 # 64))
      /\ normalizeDate MonotonicExample.legend302 DateExample.eras
         = Num (- (6399999999999807 # 64))).
Proof.
  split; [|split].
  - split; [reflexivity|]. split.
    { eexists. split; [done|]. vm_compute. reflexivity. }
    split.
    { split; [done|]. split; [reflexivity|]. split; [reflexivity|].
      eexists. split; reflexivity. }
    split; [by vm_compute|]. split; [by vm_compute|]. by vm_compute.
  - split; [by vm_compute|]. split; [by vm_compute|]. by vm_compute.
  - split.
    { split; [done|]. split; [reflexivity|]. split; [reflexivity|].
      eexists. split; reflexivity. }
    split.
    { split; [done|]. split; [reflexivity|]. split; [reflexivity|].
      eexists. split; reflexivity. }
    split; [by vm_compute|]. split; by vm_compute.
Qed.

(** *** The model and binary64 floats

    [round64] against the primitive binary64 floats of the kernel, on the
    numbers of the examples. *)
Module DoubleRounding.

(** The number a binary64 float stands for. *)
Definition ofSpecFloat (f : spec_float) : number :=
  match f with
  | S754_zero _ => Num 0
  | S754_infinity false => PosInf
  | S754_infinity true => NegInf
  | S754_nan => NaN
  | S754_finite sign m e =>
    Num (Qred ((if sign then - inject_Z (Zpos m) else inject_Z (Zpos m))
               * 2 ^ e)%Q)
  end.

Definition ofFloat (f : float) : number := ofSpecFloat (Prim2SF f).

#[local] Open Scope float_scope.

(** [eraBaseValue + (numericValue || 0)] for an era [offset] positions from
    the anchor. *)
Definition eraKeyDouble (offset value : float) : float :=
  offset * 100000000000000 + value.

Lemma round64_binary64 :
  ofFloat (301 / 100) = round64 (301 # 100)
  /\ ofFloat (302 / 100) = round64 (302 # 100)
  /\ ofFloat (1 / 3) = round64 (1 # 3)
  /\ ofFloat (9007199254740992 + 1)
     = nadd (Num (inject_Z (2 ^ 53))) (Num (inject_Z 1))
  /\ ofFloat (eraKeyDouble (-1) (301 / 100))
     = nadd (nmul (Num (inject_Z (-1))) (Num (inject_Z (10 ^ 14))))
            (round64 (301 # 100))
  /\ ofFloat (eraKeyDouble 1 (302 / 100))
     = nadd (nmul (Num (inject_Z 1)) (Num (inject_Z (10 ^ 14))))
            (round64 (302 # 100)).
Proof. repeat split; by vm_compute. Qed.

Lemma eraKeyDouble_collision :
  PrimFloat.ltb (301 / 100) (302 / 100) = true
  /\ PrimFloat.eqb (eraKeyDouble (-1) (301 / 100))
                   (eraKeyDouble (-1) (302 / 100)) = true
  /\ PrimFloat.eqb (eraKeyDouble 1 (301 / 100))
                   (eraKeyDouble 1 (302 / 100)) = true.
Proof. by vm_compute. Qed.
End DoubleRounding.

(** ** Claim C7: the drop target beyond the last column *)

(** *** From a day number back to the calendar *)

Lemma YearFromDay_estimate (d : Z) :
  let e := 1970 + d * 400 / 146097 in
  DayFromYear (e - 1) <= d < DayFromYear (e + 2).
Proof.
  intros e. unfold e, DayFromYear. Z.div_mod_to_equations. lia.
Qed.

Lemma YearFromDay_spec (d : Z) :
  DayFromYear (YearFromDay d) <= d < DayFromYear (YearFromDay d + 1).
Proof.
  pose proof (YearFromDay_estimate d) as H. cbv zeta in H.
  unfold YearFromDay.
  set (e := 1970 + d * 400 / 146097) in *. clearbody e.
  destruct (Z.leb_spec (DayFromYear (e + 1)) d) as [H1|H1].
  - replace (e + 1 + 1) with (e + 2) by lia. lia.
  - destruct (Z.leb_spec (DayFromYear e) d) as [H2|H2]; [lia|].
    replace (e - 1 + 1) with e by lia. lia.
Qed.

Lemma YearFromDay_unique (y d : Z) :
  DayFromYear y <= d < DayFromYear (y + 1) -> YearFromDay d = y.
Proof.
  intros H. pose proof (YearFromDay_spec d) as S.
  destruct (Z.lt_trichotomy (YearFromDay d) y) as [L|[E|G]]; [|done|].
  - pose proof (DayFromYear_mono (YearFromDay d + 1) y ltac:(lia)). lia.
  - pose proof (DayFromYear_mono (y + 1) (YearFromDay d) ltac:(lia)). lia.
Qed.

Lemma MonthFromDayInYear_range (leap : bool) (n : Z) :
  0 <= MonthFromDayInYear leap n <= 11.
Proof. unfold MonthFromDayInYear. repeat case_match; lia. Qed.

Lemma MonthFromDayInYear_unique (leap : bool) (m n : Z) :
  0 <= m <= 11 ->
  monthStart leap m <= n ->
  (m < 11 -> n < monthStart leap (m + 1)) ->
  MonthFromDayInYear leap n = m.
Proof.
  intros H H1 H2. unfold MonthFromDayInYear.
  each_month m H; destruct leap; simpl in *;
    repeat (match goal with
            | |- context [?a <? ?b] => destruct (Z.ltb_spec a b)
            end; try lia).
Qed.

(** The day number of a calendar date gives the date back. *)
Lemma civilFromDay_MakeDay (yr m d : Z) :
  validDate yr m d -> civilFromDay (MakeDay yr (m - 1) d) = (yr, m - 1, d).
Proof.
  intros [Hm Hd]. rewrite MakeDay_calendar by done.
  assert (0 <= m - 1 <= 11) as Hr by lia.
  pose proof (monthStart_bounds (isLeapYear yr) (m - 1) Hr) as Hb.
  pose proof (monthStart_year_end yr (m - 1) Hr) as He.
  pose proof (monthStart_DaysInMonth yr (m - 1) Hr) as Hn.
  pose proof (DayFromYear_succ yr) as Hs.
  unfold civilFromDay.
  rewrite (YearFromDay_unique yr) by lia.
  rewrite (MonthFromDayInYear_unique _ (m - 1)); [f_equal; lia|done|lia|].
  intros Hlt. rewrite (proj2 (Z.eqb_neq (m - 1) 11)) in Hn by lia. lia.
Qed.

(** A day number is the day number of its calendar date. *)
Lemma MakeDay_civilFromDay (D : Z) :
  let '(yr, m, d) := civilFromDay D in MakeDay yr m d = D.
Proof.
  unfold civilFromDay.
  pose proof (MonthFromDayInYear_range (isLeapYear (YearFromDay D))
                (D - DayFromYear (YearFromDay D))) as Hr.
  set (m := MonthFromDayInYear _ _) in *. clearbody m.
  unfold MakeDay.
  replace (m / 12) with 0 by (Z.div_mod_to_equations; lia).
  replace (m mod 12) with m by (Z.div_mod_to_equations; lia).
  rewrite Z.add_0_r. lia.
Qed.

(** The calendar date after a date (months counted from 1). *)
Definition nextDay (ymd : Z * Z * Z) : Z * Z * Z :=
  let '(yr, m, d) := ymd in
  if d <? DaysInMonth yr (m - 1) then (yr, m, d + 1)
  else if m <? 12 then (yr, m + 1, 1)
  else (yr + 1, 1, 1).

Lemma DaysInMonth_pos (yr m : Z) : 28 <= DaysInMonth yr m <= 31.
Proof. unfold DaysInMonth. repeat case_match; lia. Qed.

Lemma nextDay_valid (yr m d : Z) :
  validDate yr m d ->
  let '(yr', m', d') := nextDay (yr, m, d) in
  validDate yr' m' d' /\ MakeDay yr' (m' - 1) d' = MakeDay yr (m - 1) d + 1.
Proof.
  intros [Hm Hd]. unfold nextDay.
  assert (0 <= m - 1 <= 11) as Hr by lia.
  pose proof (monthStart_DaysInMonth yr (m - 1) Hr) as Hn.
  destruct (Z.ltb_spec d (DaysInMonth yr (m - 1))) as [H1|H1].
  - split; [split; lia|]. rewrite !MakeDay_calendar by done. lia.
  - destruct (Z.ltb_spec m 12) as [H2|H2].
    + pose proof (DaysInMonth_pos yr (m + 1 - 1)).
      split; [split; lia|]. rewrite !MakeDay_calendar by lia.
      rewrite (proj2 (Z.eqb_neq (m - 1) 11)) in Hn by lia.
      replace (m + 1 - 1) with (m - 1 + 1) by lia. lia.
    + pose proof (DaysInMonth_pos (yr + 1) (1 - 1)).
      split; [split; lia|]. rewrite !MakeDay_calendar by lia.
      assert (m - 1 = 11) as E by lia. rewrite E in *.
      change (11 =? 11) with true in Hn. cbv iota in Hn.
      rewrite DayFromYear_succ.
      change (monthStart (isLeapYear (yr + 1)) (1 - 1)) with 0. lia.
Qed.

(** [setDate(getDate() + 1)] moves the time value by one day when the
    offset of local time is the same before and after. *)
Lemma addLocalDay_constant (localTZA : Z -> bool -> Z) (t c : Z) :
  localTZA t true = c -> localTZA (t + c + msPerDay) false = c ->
  addLocalDay localTZA t = t + msPerDay.
Proof.
  intros H1 H2. unfold addLocalDay. rewrite H1.
  pose proof (MakeDay_civilFromDay (Day (t + c))) as HD.
  destruct (civilFromDay (Day (t + c))) as [[yr m] d].
  assert (MakeDate (MakeDay yr m (d + 1)) (TimeWithinDay (t + c))
          = t + c + msPerDay) as ->.
  { replace (MakeDay yr m (d + 1)) with (MakeDay yr m d + 1)
      by (unfold MakeDay; lia).
    rewrite HD. unfold MakeDate, Day, TimeWithinDay, msPerDay.
    Z.div_mod_to_equations. lia. }
  rewrite H2. lia.
Qed.

(** The calendar date written by a [YYYY-MM-DD] match. *)
Definition dayFields (g1 : jsstring) : Z * Z * Z :=
  (digitsVal (firstn 4 g1), digitsVal (firstn 2 (skipn 5 g1)),
   digitsVal (firstn 2 (skipn 8 g1))).

Definition validDay (ymd : Z * Z * Z) : Prop :=
  let '(yr, m, d) := ymd in validDate yr m d.

(** The UTC midnight of a calendar date. *)
Definition midnightUTC (ymd : Z * Z * Z) : Z :=
  let '(yr, m, d) := ymd in MakeDate (MakeDay yr (m - 1) d) 0.

(** [YYYY-MM-DD] of a calendar date. *)
Definition calendarISO (ymd : Z * Z * Z) : jsstring :=
  let '(yr, m, d) := ymd in isoDate (yr, m - 1, d).

Lemma parseISODate_valid (g1 : jsstring) :
  validDay (dayFields g1) -> parseISODate g1 = Some (midnightUTC (dayFields g1)).
Proof.
  unfold validDay, dayFields, parseISODate, midnightUTC. intros [Hm Hd].
  rewrite (proj2 (Z.leb_le 1 _) (proj1 Hm)), (proj2 (Z.leb_le _ 12) (proj2 Hm)).
  rewrite (proj2 (Z.leb_le 1 _) (proj1 Hd)), (proj2 (Z.leb_le _ _) (proj2 Hd)).
  done.
Qed.

Lemma isoDateOf_nextDay (ymd : Z * Z * Z) :
  validDay ymd ->
  isoDateOf (midnightUTC ymd + msPerDay) = calendarISO (nextDay ymd).
Proof.
  destruct ymd as [[yr m] d]. intros Hv.
  pose proof (nextDay_valid yr m d Hv) as Hn.
  unfold isoDateOf, midnightUTC, calendarISO.
  destruct (nextDay (yr, m, d)) as [[yr' m'] d']. destruct Hn as [Hv' Hd].
  replace (Day (MakeDate (MakeDay yr (m - 1) d) 0 + msPerDay))
    with (MakeDay yr' (m' - 1) d').
  - by rewrite civilFromDay_MakeDay.
  - rewrite Hd. unfold Day, MakeDate, msPerDay. Z.div_mod_to_equations. lia.
Qed.

(** *** The columns in the order of the days *)

Section BandsOrder.
Context {A : Type} (next : Q -> A -> Q).

Lemma bands_keys (l : list A) (pos : Q) : List.map fst (bands next l pos) = l.
Proof.
  revert pos. induction l as [|a l IH]; intros pos; simpl; [done|].
  by rewrite IH.
Qed.

Lemma bands_snoc (l : list A) (a : A) (pos : Q) :
  bands next (l ++ [a]) pos = bands next l pos ++ [(a, bandsEnd next l pos)].
Proof.
  revert pos. induction l as [|b l IH]; intros pos; simpl; [done|].
  by rewrite IH.
Qed.

Context (size : A -> Q) (gap : Q).
Hypothesis size_nonneg : forall a, (0 <= size a)%Q.
Hypothesis gap_nonneg : (0 <= gap)%Q.
Hypothesis next_ge : forall pos a, (pos + size a + gap <= next pos a)%Q.

Lemma bandsEnd_ge (l : list A) (pos : Q) : (pos <= bandsEnd next l pos)%Q.
Proof.
  revert pos. induction l as [|a l IH]; intros pos; simpl; [apply Qle_refl|].
  pose proof (IH (next pos a)). pose proof (next_ge pos a).
  pose proof (size_nonneg a). lra.
Qed.

Lemma bands_before_end (l : list A) (pos : Q) (a : A) (p : Q) :
  (a, p) ∈ bands next l pos -> (p + size a + gap <= bandsEnd next l pos)%Q.
Proof.
  revert pos. induction l as [|b l IH]; intros pos H; simpl in *.
  - by apply elem_of_nil in H.
  - apply elem_of_cons in H as [H|H]; [|by apply IH].
    inversion H; subst. pose proof (bandsEnd_ge l (next pos b)).
    pose proof (next_ge pos b). lra.
Qed.
End BandsOrder.

Lemma insertSorted_Permutation {A : Type} (cmp : A -> A -> number) (x : A)
      (l : list A) :
  insertSorted cmp x l ≡ₚ x :: l.
Proof.
  induction l as [|y l IH]; cbn [insertSorted]; [done|].
  destruct (num_ltb (Num 0) (cmp x y)); [|done].
  rewrite IH. apply Permutation_swap.
Qed.

Lemma sortBy_Permutation {A : Type} (cmp : A -> A -> number) (l : list A) :
  sortBy cmp l ≡ₚ l.
Proof.
  induction l as [|x l IH]; simpl; [done|].
  by rewrite insertSorted_Permutation, IH.
Qed.

Lemma pushGroup_nonempty (k : jsstring) (e : StoryEvent) (m : groups) :
  Forall (fun g => snd g <> []) m -> Forall (fun g => snd g <> []) (pushGroup k e m).
Proof.
  induction 1 as [|[k' l] m Hl Hm IH]; simpl.
  - by repeat constructor.
  - destruct (decide (k' = k)); constructor; try done.
    simpl. by destruct l.
Qed.

(** [getDropTarget] on the layout the component computes. *)
Definition dropTarget (events : list StoryEvent) (storylines : list Storyline)
           (eventConnections : list EventConnection) (eraOrder : list jsstring)
           (expandedEvents : gset jsstring) (todayISO : jsstring)
           (localTZA : Z -> bool -> Z) (xPos yPos : Q) : DropResult :=
  getDropTarget storylines
    (laneGeometries events storylines eventConnections eraOrder expandedEvents)
    (sortedUniqueDays events eraOrder) (eventsByDay events eraOrder)
    (dayColumnGeometries events eraOrder) todayISO localTZA xPos yPos.

(** The storyline whose lane lies under [yPos]. *)
Definition laneUnder (storylines : list Storyline)
           (laneGeometries : gmap jsstring LaneGeo) (yPos : Q)
  : option Storyline :=
  List.find (fun s =>
               match laneGeometries !! sl_id s with
               | Some geo =>
                 Qle_bool (lane_y geo) yPos
                 && Qlt_bool yPos (lane_y geo + lane_height geo)%Q
               | None => false
               end) storylines.

Lemma laneUnder_size (storylines : list Storyline)
      (laneGeometries : gmap jsstring LaneGeo) (yPos : Q) (s : Storyline) :
  laneUnder storylines laneGeometries yPos = Some s ->
  (size laneGeometries =? 0)%nat = false.
Proof.
  intros H. apply find_some in H as [_ H].
  destruct (laneGeometries !! sl_id s) as [geo|] eqn:E; [|done].
  apply Nat.eqb_neq. intros Hs. apply map_size_empty_iff in Hs.
  rewrite Hs, lookup_empty in E. done.
Qed.

Lemma findColumn_beyond (eventsByDay : groups)
      (dayColumnGeometries : gmap jsstring ColumnGeo) (xPos : Q)
      (days : list jsstring) :
  (forall k, k ∈ days ->
             exists g, dayColumnGeometries !! k = Some g
                       /\ (col_x g + col_width g + EVENT_GAP / 2 <= xPos)%Q) ->
  findColumn eventsByDay dayColumnGeometries xPos days = inr None.
Proof.
  induction days as [|k days IH]; intros H; simpl; [done|].
  destruct (H k) as (g & -> & Hg); [constructor|].
  destruct (Qlt_bool xPos _) eqn:E.
  - apply Qlt_bool_iff in E. lra.
  - apply IH. intros k' Hk'. apply H. by constructor.
Qed.

Section DropFacts.
Context (events : list StoryEvent) (storylines : list Storyline)
        (eventConnections : list EventConnection)
        (eraOrder : list jsstring) (expandedEvents : gset jsstring).

#[local] Abbreviation EBD := (eventsByDay events eraOrder).
#[local] Abbreviation SUD := (sortedUniqueDays events eraOrder).
#[local] Abbreviation DCG := (dayColumnGeometries events eraOrder).

Lemma sortedUniqueDays_NoDup : NoDup SUD.
Proof.
  unfold sortedUniqueDays. rewrite sortBy_Permutation.
  apply (eventsByDay_ok events eraOrder).
Qed.

Lemma eventsByDay_nonempty : Forall (fun g => snd g <> []) EBD.
Proof.
  unfold eventsByDay.
  apply (fold_left_invariant _ (Forall (fun g => snd g <> []))); [constructor|].
  intros acc e _ Hacc. by apply pushGroup_nonempty.
Qed.

(** Every day of [sortedUniqueDays] has events, the first of which gives
    the column its date. *)
Lemma firstEvent_exists (k : jsstring) :
  k ∈ SUD -> exists e rest, getGroup k EBD = Some (e :: rest).
Proof.
  unfold sortedUniqueDays. rewrite sortBy_elem.
  intros ([k' evs] & -> & Hin)%list_elem_of_fmap.
  pose proof eventsByDay_nonempty as Hne.
  rewrite Forall_forall in Hne. pose proof (Hne _ Hin) as Hevs.
  cbn [fst snd] in *.
  rewrite (getGroup_elem _ _ _ (proj1 (eventsByDay_ok events eraOrder)) Hin).
  destruct evs as [|e rest]; [done|]. by exists e, rest.
Qed.

(** No column ends to the right of the column of the last day. *)
Lemma last_column_rightmost (kl : jsstring) (gl : ColumnGeo) (k : jsstring) :
  last SUD = Some kl -> DCG !! kl = Some gl -> k ∈ SUD ->
  exists g, DCG !! k = Some g
            /\ (col_x g + col_width g <= col_x gl + col_width gl)%Q.
Proof.
  intros Hlast Hgl Hk.
  pose proof sortedUniqueDays_NoDup as Hnd.
  apply last_Some in Hlast as [l Hl].
  assert (forall p, p ∈ bands (columnNext events eraOrder) SUD PADDING_X ->
                    DCG !! fst p
                    = Some (mkColumnGeo (snd p) (columnWidthOf events eraOrder (fst p))))
    as Hlookup.
  { intros p Hp. unfold dayColumnGeometries, columnLoop.
    rewrite columnLoop_bands. cbn [fst].
    apply (setAll_lookup_NoDup fst
             (fun p => mkColumnGeo (snd p) (columnWidthOf events eraOrder (fst p))));
      [|done].
    by rewrite bands_keys. }
  rewrite Hl in Hlookup, Hk, Hnd. rewrite bands_snoc in Hlookup.
  set (E := bandsEnd (columnNext events eraOrder) l PADDING_X) in *.
  assert (gl = mkColumnGeo E (columnWidthOf events eraOrder kl)) as ->.
  { specialize (Hlookup (kl, E)). cbn [fst snd] in Hlookup.
    rewrite Hgl in Hlookup. symmetry.
    assert ((kl, E) ∈ bands (columnNext events eraOrder) l PADDING_X ++ [(kl, E)])
      as Hin by (apply elem_of_app; right; constructor).
    specialize (Hlookup Hin). congruence. }
  apply elem_of_app in Hk as [Hk|Hk%list_elem_of_singleton].
  - destruct (bands_complete (columnNext events eraOrder) l PADDING_X k Hk)
      as [p Hp].
    eexists. split.
    + apply (Hlookup (k, p)). apply elem_of_app. by left.
    + cbn [col_x col_width fst snd].
      assert (forall a, (0 <= columnWidthOf events eraOrder a)%Q) as Hsize.
      { intros a. pose proof (columnWidthOf_ge events eraOrder a).
        unfold EVENT_WIDTH in *. lra. }
      assert (0 <= EVENT_GAP)%Q as Hgap by (unfold EVENT_GAP; lra).
      assert (forall pos a,
                 (pos + columnWidthOf events eraOrder a + EVENT_GAP
                  <= columnNext events eraOrder pos a)%Q) as Hnext.
      { intros pos a. unfold columnNext. lra. }
      pose proof (bands_before_end (columnNext events eraOrder)
                    (columnWidthOf events eraOrder) EVENT_GAP
                    Hsize Hgap Hnext l PADDING_X k p Hp) as Hb.
      fold E in Hb. pose proof (Hsize kl). lra.
  - subst k. eexists. split; [exact Hgl|]. apply Qle_refl.
Qed.

End DropFacts.

(** C7 (as amended). Let the pointer be over the lane of storyline [s].
    - Without day columns the target is today at midnight in [s].
    - At or past the right edge of the last day's column plus half the gap,
      with a non-empty last day key: if the date of the last column does not
      start with [YYYY-MM-DD] the target is that date verbatim in [s]; if it
      does, with a date of the calendar, and the host's offset of local time
      is the same that midnight and a day later, the target is the midnight
      of the next calendar day in [s]. *)
Theorem drop_beyond_last_column
        (events : list StoryEvent) (storylines : list Storyline)
        (eventConnections : list EventConnection) (eraOrder : list jsstring)
        (expandedEvents : gset jsstring) (todayISO : jsstring)
        (localTZA : Z -> bool -> Z) (xPos yPos : Q) (s : Storyline) :
  laneUnder storylines
            (laneGeometries events storylines eventConnections eraOrder
                            expandedEvents) yPos = Some s ->
  (sortedUniqueDays events eraOrder = [] ->
   dropTarget events storylines eventConnections eraOrder expandedEvents
              todayISO localTZA xPos yPos
   = Returns (Some (sl_id s, todayISO ++ str_midnight)))
  /\ (forall (k : jsstring) (geo : ColumnGeo),
         last (sortedUniqueDays events eraOrder) = Some k ->
         truthy k = true ->
         dayColumnGeometries events eraOrder !! k = Some geo ->
         (col_x geo + col_width geo + EVENT_GAP / 2 <= xPos)%Q ->
         let date := firstEventDate events eraOrder k in
         (gregorianDayMatch date = None ->
          dropTarget events storylines eventConnections eraOrder expandedEvents
                     todayISO localTZA xPos yPos
          = Returns (Some (sl_id s, date)))
         /\ (forall (g1 : jsstring) (c : Z),
                gregorianDayMatch date = Some g1 ->
                validDay (dayFields g1) ->
                localTZA (midnightUTC (dayFields g1)) true = c ->
                localTZA (midnightUTC (dayFields g1) + c + msPerDay) false = c ->
                dropTarget events storylines eventConnections eraOrder
                           expandedEvents todayISO localTZA xPos yPos
                = Returns (Some (sl_id s,
                                 calendarISO (nextDay (dayFields g1))
                                 ++ str_midnight)))).
Proof.
  intros Hlane. pose proof (laneUnder_size _ _ _ _ Hlane) as Hsize.
  unfold dropTarget, getDropTarget. rewrite Hsize.
  unfold laneUnder in Hlane. rewrite Hlane. split.
  - intros ->. done.
  - intros k geo Hlast Hk Hgeo Hx.
    set (date := firstEventDate events eraOrder k).
    assert (k ∈ sortedUniqueDays events eraOrder) as Hin.
    { apply last_Some in Hlast as [l ->]. apply elem_of_app. right. constructor. }
    rewrite findColumn_beyond, Hlast, Hk.
    2:{ intros k' Hk'.
        destruct (last_column_rightmost events eraOrder k geo k' Hlast Hgeo Hk')
          as (g & Hg & Hle).
        exists g. split; [done|]. lra. }
    destruct (firstEvent_exists events eraOrder k Hin) as (e & rest & He).
    assert (date = ev_date e) as Hdate
      by (unfold date, firstEventDate; by rewrite He).
    rewrite He, <- Hdate. split.
    + by intros ->.
    + intros g1 c -> Hv Hc1 Hc2.
      rewrite (parseISODate_valid g1 Hv).
      rewrite (addLocalDay_constant localTZA _ c Hc1 Hc2).
      by rewrite isoDateOf_nextDay.
Qed.

Module DropExample.
Definition evA : StoryEvent :=
  mkStoryEvent (js "a") (js "2024-02-28 09:00:00") (Some (js "s1")) (Some (js "t1")).
Definition evB : StoryEvent :=
  mkStoryEvent (js "b") (js "2024-02-29 10:00:00") (Some (js "s2")) (Some (js "t1")).
Definition evD : StoryEvent :=
  mkStoryEvent (js "d") (js "2024-03-31 10:00:00") (Some (js "s1")) (Some (js "t1")).
Definition s1 : Storyline := mkStoryline (js "s1").
Definition s2 : Storyline := mkStoryline (js "s2").
Definition lanes : list Storyline := [s1; s2].
Definition eras : list jsstring := [str_anchor].
Definition today : jsstring := js "2026-01-15".
(** A host one hour ahead of UTC all year. *)
Definition utcPlus1 (t : Z) (isUTC : bool) : Z := 3600000.
(** A host that moves from one to two hours ahead of UTC on 2024-03-31 at
    01:00 UTC. *)
Definition springForward : Z := MakeDate (MakeDay 2024 2 31) (MakeTime 1 0 0 0).
Definition centralEurope (t : Z) (isUTC : bool) : Z :=
  if t <? springForward + (if isUTC then 0 else 3600000)
  then 3600000 else 7200000.
End DropExample.

Lemma drop_beyond_last_column_witness :
  dropTarget [DropExample.evA; DropExample.evB] DropExample.lanes []
             DropExample.eras ∅ DropExample.today DropExample.utcPlus1
             1000%Q 10%Q
  = Returns (Some (js "s1", js "2024-03-01 00:00:00")).
Proof.
  refine (proj2 (proj2 (drop_beyond_last_column
                          [DropExample.evA; DropExample.evB] DropExample.lanes []
                          DropExample.eras ∅ DropExample.today
                          DropExample.utcPlus1 1000%Q 10%Q DropExample.s1 _)
                       (js "2024-02-29") (mkColumnGeo 300 200) _ _ _ _)
                (js "2024-02-29") 3600000 _ _ _ _).
  - vm_compute. reflexivity.
  - vm_compute. reflexivity.
  - reflexivity.
  - vm_compute. reflexivity.
  - vm_compute. discriminate.
  - vm_compute. reflexivity.
  - vm_compute. repeat split; discriminate.
  - reflexivity.
  - reflexivity.
Defined.

(** C7 fails as stated. With two storylines and no events there is no day
    column, and a pointer over the second lane targets the second storyline,
    not the first. And on a host that puts its clocks forward on 2024-03-31,
    a drop beyond a last column dated 2024-03-31 targets 2024-03-31 again,
    not the day after. *)
Lemma drop_beyond_last_column_counterexample :
  sortedUniqueDays [] DropExample.eras = []
  /\ last (sortedUniqueDays [DropExample.evA; DropExample.evD] DropExample.eras)
     = Some (js "2024-03-31")
  /\ dropTarget [] DropExample.lanes [] DropExample.eras ∅ DropExample.today
                DropExample.utcPlus1 0%Q 100%Q
     = Returns (Some (js "s2", js "2026-01-15 00:00:00"))
  /\ dropTarget [DropExample.evA; DropExample.evD] DropExample.lanes []
                DropExample.eras ∅ DropExample.today DropExample.centralEurope
                1000%Q 10%Q
     = Returns (Some (js "s1", js "2024-03-31 00:00:00")).
Proof. split; [reflexivity|]. repeat split; vm_compute; reflexivity. Qed.

(* ====================================================================== *)
(** * Further properties of the date functions *)
(* ====================================================================== *)

Lemma takeWhile_allDigits (s : jsstring) : allDigits (takeWhile isDigit s).
Proof.
  induction s as [|c s IH]; simpl; [constructor|].
  destruct (isDigit c) eqn:E; by constructor.
Qed.

(** A run of digits is read as the double nearest to the integer it
    writes. *)
Lemma parseFloat_digits (ds : jsstring) :
  allDigits ds -> ds <> [] -> parseFloat ds = round64 (inject_Z (digitsVal ds)).
Proof.
  intros Hd Hne. destruct ds as [|c ds]; [done|].
  pose proof (Forall_inv Hd) as Hc. pose proof Hc as Hr.
  apply isDigit_range in Hr.
  unfold parseFloat. rewrite trimStart_nonspace by by apply digit_not_space.
  rewrite (proj2 (N.eqb_neq c 45)) by lia.
  rewrite (proj2 (N.eqb_neq c 43)) by lia.
  unfold parseUnsigned, startsWith, str_Infinity.
  rewrite stripPrefix_head by lia.
  destruct (takeWhile_digits (c :: ds) [] Hd eq_refl) as [E1 E2].
  rewrite app_nil_r in E1, E2. rewrite E1, E2. done.
Qed.

(** What the BC pattern captures is read as the double nearest to a
    rational. *)
Lemma bcMatch_value (s g : jsstring) :
  bcMatch s = Some g -> exists v : Q, parseFloat g = round64 v.
Proof.
  unfold bcMatch. destruct (stripBC s) as [r|]; [|done].
  set (r1 := dropWhile isWhiteSpace r).
  pose proof (takeWhile_allDigits r1) as Hip.
  destruct (takeWhile isDigit r1) as [|c ip] eqn:Eip; [done|].
  assert (exists v : Q, parseFloat (c :: ip) = round64 v) as Hint.
  { rewrite parseFloat_digits by done. by eexists. }
  destruct (dropWhile isDigit r1) as [|d r3]; [by intros [= <-]|].
  destruct (d =? 46)%N; [|by intros [= <-]].
  pose proof (takeWhile_allDigits r3) as Hfp.
  destruct (takeWhile isDigit r3) as [|f fp]; [by intros [= <-]|].
  intros [= <-].
  pose proof (parseFloat_decimal (c :: ip) (f :: fp) Hip ltac:(done) Hfp) as Hpf.
  cbn [app] in Hpf |- *. rewrite Hpf. by eexists.
Qed.

Lemma eraValue_not_NaN (v : jsstring) : eraValue v <> NaN.
Proof.
  unfold eraValue, orZero. destruct (parseFloat _) as [q| | |]; try done.
  by destruct (Qeq_bool q 0).
Qed.

(** The index of the first match lies inside the array. *)
Lemma firstMatch_index (s : jsstring) (eras : list jsstring) (i j : Z)
      (r : jsstring) :
  firstMatch s eras i = Some (j, r) -> i <= j < i + Z.of_nat (length eras).
Proof.
  revert i. induction eras as [|era eras IH]; intros i; simpl; [done|].
  destruct (stripPrefix era s).
  - intros [= <- _]. lia.
  - intros H%IH. lia.
Qed.

Lemma findIndex_range (x : jsstring) (l : list jsstring) (i k : Z) :
  findIndex x l i = Some k -> i <= k < i + Z.of_nat (length l).
Proof.
  revert i. induction l as [|e l IH]; intros i; simpl; [done|].
  destruct (decide (e = x)).
  - intros [= <-]. lia.
  - intros H%IH. lia.
Qed.

Lemma anchorIndexOf_range (eras : list jsstring) :
  0 <= anchorIndexOf eras <= Z.of_nat (length eras).
Proof.
  unfold anchorIndexOf. destruct (findIndex str_anchor eras 0) as [k|] eqn:E.
  - apply findIndex_range in E. lia.
  - lia.
Qed.

(** The key of a custom era date in an array of eras: the sum of a finite
    base and a value that is not NaN. *)
Lemma eraKey_sortable (eras : list jsstring) (s r : jsstring) (j : Z) :
  isArray eras -> firstMatch s eras 0 = Some (j, r) ->
  sortable (eraKey j (anchorIndexOf eras) (trim r)).
Proof.
  intros Harr Hm. apply firstMatch_index in Hm.
  pose proof (anchorIndexOf_range eras) as Ha. unfold isArray in Harr.
  destruct (era_base_finite (j - anchorIndexOf eras) ltac:(lia)) as [b Hb].
  unfold eraKey. change (inject_Z ERA_MULTIPLIER) with (inject_Z (10 ^ 14)).
  rewrite Hb. apply nadd_sortable.
  pose proof (eraValue_not_NaN (trim r)).
  destruct (eraValue (trim r)); [apply round64_not_NaN|done..].
Qed.

(** The key of a date can be compared with any other: the comparator of
    the sort takes the right sign. *)
Lemma normalizeDate_sortable (d : jsstring) (eraOrder : list jsstring) :
  isArray eraOrder -> sortable (normalizeDate d eraOrder).
Proof.
  intros Harr. unfold normalizeDate. destruct d as [|c d]; [done|].
  destruct (bcMatch (trim (c :: d))) as [g|] eqn:Ebc.
  - destruct (bcMatch_value _ _ Ebc) as (v & ->).
    apply sortable_nneg, round64_sortable.
  - destruct (gregorianMatch (trim (c :: d))) as [g|].
    + destruct (g_time g) as [[[h mi] se]|];
        match goal with
        | |- context [DateUTC ?a ?b ?c ?d ?e ?f] =>
          unfold DateUTC, TimeClip;
          destruct (Z.abs _ <=? _); cbn [isNaN]; try done; apply onGrid_Z
        end.
    + rewrite eraLoop_firstMatch.
      destruct (firstMatch _ _ _) as [[j r]|] eqn:Hm; [|done].
      by eapply eraKey_sortable.
Qed.

Lemma normalizeDate_number (d : jsstring) (eraOrder : list jsstring) :
  isArray eraOrder -> normalizeDate d eraOrder <> NaN.
Proof. intros H. by apply sortable_not_NaN, normalizeDate_sortable. Qed.

(** X1. The key of a date is a number or an infinity, never NaN, whatever
    the text and the eras of the array: [isNaN] of it is false. (The
    comparator [normalizeDate(a) - normalizeDate(b)] can then be NaN only
    for two infinite keys.) An array holds fewer than 2^32 eras, so that
    the base value of an era is finite. *)
Theorem normalizeDate_not_NaN (d : jsstring) (eraOrder : list jsstring) :
  isArray eraOrder -> isNaN (normalizeDate d eraOrder) = false.
Proof.
  intros Harr. unfold normalizeDate. destruct d as [|c d]; [done|].
  destruct (bcMatch (trim (c :: d))) as [g|] eqn:Ebc.
  - destruct (bcMatch_value _ _ Ebc) as (v & ->).
    pose proof (round64_not_NaN v). by destruct (round64 v).
  - destruct (gregorianMatch (trim (c :: d))) as [g|].
    + destruct (g_time g) as [[[h mi] se]|];
        match goal with
        | |- context [DateUTC ?a ?b ?c ?d ?e ?f] =>
          destruct (DateUTC a b c d e f)
        end; done.
    + rewrite eraLoop_firstMatch.
      destruct (firstMatch _ _ _) as [[j r]|] eqn:Hm; [|done].
      apply firstMatch_index in Hm.
      pose proof (anchorIndexOf_range eraOrder) as Ha. unfold isArray in Harr.
      destruct (era_base_finite (j - anchorIndexOf eraOrder) ltac:(lia))
        as [b Hb].
      unfold eraKey. change (inject_Z ERA_MULTIPLIER) with (inject_Z (10 ^ 14)).
      rewrite Hb. pose proof (eraValue_not_NaN (trim r)) as Hv.
      destruct (eraValue (trim r)) as [q| | |]; try done.
      cbn [nadd]. pose proof (round64_not_NaN (b + q)).
      by destruct (round64 (b + q)).
Qed.

(** ** Keys within one era *)

Lemma nneg_antitone (a b : number) :
  ~ num_lt b a -> ~ num_lt (nneg a) (nneg b).
Proof. destruct a, b; simpl; try tauto. lra. Qed.

Lemma nadd_mono (c a b : number) :
  ~ num_lt b a -> ~ num_lt (nadd c b) (nadd c a).
Proof.
  destruct c as [z| | |], a as [x| | |], b as [y| | |]; cbn [nadd num_lt];
    try tauto;
    try (intros _; match goal with
                   | |- context [round64 ?q] =>
                     pose proof (round64_not_NaN q); destruct (round64 q)
                   end; simpl; tauto).
  intros H. apply round64_mono. lra.
Qed.

(** A number written in digits, with or without a fraction. *)
Definition writtenAs (text year fraction : jsstring) : Prop :=
  allDigits year /\ year <> [] /\ allDigits fraction
  /\ (text = year /\ fraction = [] \/ text = year ++ 46%N :: fraction).

Lemma decimalValue_integer (year : jsstring) :
  (decimalValue year [] == inject_Z (digitsVal year))%Q.
Proof.
  unfold decimalValue. rewrite app_nil_r. change (pow10 _) with 1%Q. ring.
Qed.

Lemma parseFloat_written (text year fraction : jsstring) :
  writtenAs text year fraction ->
  parseFloat text = round64 (decimalValue year fraction).
Proof.
  intros (Hy & Hne & Hf & [[-> ->]| ->]).
  - rewrite parseFloat_digits by done. apply round64_comp.
    symmetry. apply decimalValue_integer.
  - by apply parseFloat_decimal.
Qed.

(** X28. Inside one era the keys never invert the order of the dates, and
    dates that differ by less than the doubles can tell have one key.
    - BC dates: the date with the larger number written has a key that is
      not larger.
    - Dates of one custom era: the date with the smaller number written,
      the fraction right-padded to 10 digits, has a key that is not larger.
    - Dates in Gregorian form with a year from 0100 on that are dates of
      the calendar with a time of day: the earlier date and time has the
      smaller key. *)
Theorem keys_keep_order :
  (forall (A B : jsstring) (eras : list jsstring)
          (ga ya fa gb yb fb : jsstring),
      A <> [] -> B <> [] ->
      bcMatch (trim A) = Some ga -> bcMatch (trim B) = Some gb ->
      writtenAs ga ya fa -> writtenAs gb yb fb ->
      (decimalValue yb fb <= decimalValue ya fa)%Q ->
      ~ num_lt (normalizeDate B eras) (normalizeDate A eras))
  /\ (forall (A B : jsstring) (eras : list jsstring) (j : Z)
            (va ya fa vb yb fb : jsstring),
         eraForm A eras j va -> eraForm B eras j vb ->
         writtenAs va ya fa -> writtenAs vb yb fb ->
         (decimalValue ya (padEnd 10 48 fa)
          <= decimalValue yb (padEnd 10 48 fb))%Q ->
         ~ num_lt (normalizeDate B eras) (normalizeDate A eras))
  /\ (forall (A B : jsstring) (eras : list jsstring) (ga gb : GregorianMatch),
         gregorianForm A ga -> gregorianForm B gb ->
         wellFormed ga -> wellFormed gb -> gregorianBefore ga gb ->
         num_lt (normalizeDate A eras) (normalizeDate B eras)).
Proof.
  split; [|split].
  - intros A B eras ga ya fa gb yb fb HA HB Ma Mb Wa Wb Hle.
    unfold normalizeDate. destruct A as [|a A]; [done|].
    destruct B as [|b B]; [done|].
    rewrite Ma, Mb, (parseFloat_written _ _ _ Wa), (parseFloat_written _ _ _ Wb).
    by apply nneg_antitone, round64_mono.
  - intros A B eras j va ya fa vb yb fb HA HB Wa Wb Hle.
    rewrite (normalizeDate_eraForm _ _ _ _ HA), (normalizeDate_eraForm _ _ _ _ HB).
    unfold eraKey. apply nadd_mono.
    destruct Wa as (Hya & Hna & Hfa & Hta). destruct Wb as (Hyb & Hnb & Hfb & Htb).
    assert (eraValue va = round64 (decimalValue ya (padEnd 10 48 fa))) as ->.
    { destruct Hta as [[-> ->]| ->].
      - rewrite <- (app_nil_r ya) at 1. apply eraValue_decimal; tauto.
      - apply eraValue_decimal; tauto. }
    assert (eraValue vb = round64 (decimalValue yb (padEnd 10 48 fb))) as ->.
    { destruct Htb as [[-> ->]| ->].
      - rewrite <- (app_nil_r yb) at 1. apply eraValue_decimal; tauto.
      - apply eraValue_decimal; tauto. }
    by apply round64_mono.
  - intros A B eras ga gb. apply gregorian_key_lt.
Qed.

(** ** Sorting by key *)

(** Equal keys, as a test. *)
Definition num_eqb (a b : number) : bool :=
  match a, b with
  | Num x, Num y => Qeq_bool x y
  | PosInf, PosInf | NegInf, NegInf => true
  | _, _ => false
  end.

Lemma num_lt_irrefl (a : number) : ~ num_lt a a.
Proof. destruct a; simpl; try tauto. apply Qlt_irrefl. Qed.

Lemma num_lt_trans (a b c : number) : num_lt a b -> num_lt b c -> num_lt a c.
Proof. destruct a, b, c; simpl; try tauto. apply Qlt_trans. Qed.

Lemma num_le_trans (a b c : number) :
  a <> NaN -> b <> NaN -> c <> NaN ->
  ~ num_lt b a -> ~ num_lt c b -> ~ num_lt c a.
Proof. destruct a, b, c; simpl; try tauto. intros _ _ _. lra. Qed.

Lemma num_lt_total (a b : number) :
  a <> NaN -> b <> NaN -> num_lt a b \/ num_lt b a \/ num_eqb a b = true.
Proof.
  destruct a as [x| | |], b as [y| | |]; simpl; try tauto.
  intros _ _. destruct (Q_dec x y) as [[H|H]|H]; [tauto..|].
  right. right. by apply Qeq_bool_iff.
Qed.

Lemma num_eqb_not_lt (a b : number) : num_eqb a b = true -> ~ num_lt a b.
Proof.
  destruct a, b; simpl; try done; try tauto. intros H%Qeq_bool_iff. lra.
Qed.

Lemma num_eqb_sym (a b : number) : num_eqb a b = num_eqb b a.
Proof.
  destruct a as [x| | |], b as [y| | |]; simpl; try done.
  destruct (Qeq_bool x y) eqn:E1, (Qeq_bool y x) eqn:E2; try done.
  - apply Qeq_bool_iff in E1. symmetry in E1. apply Qeq_bool_iff in E1. congruence.
  - apply Qeq_bool_iff in E2. symmetry in E2. apply Qeq_bool_iff in E2. congruence.
Qed.

Lemma num_eqb_trans (a b c : number) :
  num_eqb a b = true -> num_eqb b c = true -> num_eqb a c = true.
Proof.
  destruct a, b, c; simpl; try done.
  intros H1%Qeq_bool_iff H2%Qeq_bool_iff. apply Qeq_bool_iff. by rewrite H1.
Qed.

Section SortedBy.
Context {A : Type} (key : A -> number).
Hypothesis key_sortable : forall a, sortable (key a).

(** [a] does not come after [b]. *)
Definition notAfter (a b : A) : Prop := ~ num_lt (key b) (key a).

#[local] Abbreviation byKey := (fun a b => nsub (key a) (key b)).

Lemma insertSorted_sorted (x : A) (l : list A) :
  StronglySorted notAfter l -> StronglySorted notAfter (insertSorted byKey x l).
Proof.
  induction 1 as [|y l Hl IH Hy]; cbn [insertSorted].
  - repeat constructor.
  - destruct (num_ltb (Num 0) (nsub (key x) (key y))) eqn:E.
    + apply comparator_positive in E; [|done..].
      constructor; [done|].
      apply Forall_forall. intros z Hz.
      apply insertSorted_elem in Hz as [->|Hz].
      * intros H. by eapply num_lt_irrefl, num_lt_trans.
      * rewrite Forall_forall in Hy. by apply Hy.
    + assert (notAfter x y) as Hxy.
      { intros H. apply comparator_positive in H; [congruence|done..]. }
      constructor; [by constructor|].
      constructor; [done|].
      eapply Forall_impl; [exact Hy|]. intros z Hz.
      apply (num_le_trans (key x) (key y) (key z)); try done;
        by apply sortable_not_NaN.
Qed.

Lemma sortBy_sorted (l : list A) : StronglySorted notAfter (sortBy byKey l).
Proof.
  induction l as [|x l IH]; simpl; [constructor|]. by apply insertSorted_sorted.
Qed.

(** Elements of one key keep their order. *)
Lemma insertSorted_stable (k : number) (x : A) (l : list A) :
  StronglySorted notAfter l ->
  List.filter (fun a => num_eqb (key a) k) (insertSorted byKey x l)
  = List.filter (fun a => num_eqb (key a) k) (x :: l).
Proof.
  induction 1 as [|y l Hl IH Hy]; cbn [insertSorted]; [done|].
  destruct (num_ltb (Num 0) (nsub (key x) (key y))) eqn:E; [|done].
  apply comparator_positive in E; [|done..].
  cbn [List.filter] in *. rewrite IH.
  destruct (num_eqb (key x) k) eqn:Ex; [|done].
  destruct (num_eqb (key y) k) eqn:Ey; [|done].
  exfalso. rewrite num_eqb_sym in Ex.
  pose proof (num_eqb_trans _ _ _ Ey Ex) as Hyx.
  by apply num_eqb_not_lt in Hyx.
Qed.

Lemma sortBy_stable (k : number) (l : list A) :
  List.filter (fun a => num_eqb (key a) k) (sortBy byKey l)
  = List.filter (fun a => num_eqb (key a) k) l.
Proof.
  induction l as [|x l IH]; [done|]. cbn [sortBy].
  rewrite insertSorted_stable by apply sortBy_sorted.
  cbn [List.filter]. by rewrite IH.
Qed.

End SortedBy.

(** The sort key of an event. *)
Definition dateKey (eraOrder : list jsstring) (e : StoryEvent) : number :=
  normalizeDate (ev_date e) eraOrder.

(** X2. [sortedEvents] holds the complete events, ordered by key, events of
    equal key in their order in [events]: what a stable sort with the
    comparator [normalizeDate(a.date) - normalizeDate(b.date)] returns. The
    keys are the doubles of the code: two dates whose keys round to one
    double are of equal key. *)
Theorem sortedEvents_sorted (events : list StoryEvent) (eraOrder : list jsstring) :
  isArray eraOrder ->
  sortedEvents events eraOrder ≡ₚ completeEvents events
  /\ StronglySorted (fun a b => ~ num_lt (dateKey eraOrder b) (dateKey eraOrder a))
                    (sortedEvents events eraOrder)
  /\ forall k : number,
      List.filter (fun e => num_eqb (dateKey eraOrder e) k)
                  (sortedEvents events eraOrder)
      = List.filter (fun e => num_eqb (dateKey eraOrder e) k)
                    (completeEvents events).
Proof.
  intros Harr.
  assert (forall e, sortable (dateKey eraOrder e)) as Hkey
    by (intros e; by apply normalizeDate_sortable).
  unfold sortedEvents. split; [apply sortBy_Permutation|]. split.
  - apply (sortBy_sorted (dateKey eraOrder) Hkey).
  - intros k. apply (sortBy_stable (dateKey eraOrder) Hkey).
Qed.

(** ** Day columns from left to right *)

Lemma StronglySorted_before {A : Type} (R : A -> A -> Prop)
      (l1 l2 l3 : list A) (a b : A) :
  StronglySorted R (l1 ++ a :: l2 ++ b :: l3) -> R a b.
Proof.
  induction l1 as [|c l1 IH]; simpl; intros H.
  - apply StronglySorted_inv in H as [_ H]. rewrite Forall_forall in H.
    apply H. apply elem_of_app. right. constructor.
  - apply StronglySorted_inv in H as [H _]. by apply IH.
Qed.

(** Of two different members of a list one comes first. *)
Lemma elem_of_order {A : Type} (l : list A) (a b : A) :
  a ∈ l -> b ∈ l -> a <> b ->
  (exists l1 l2 l3, l = l1 ++ a :: l2 ++ b :: l3)
  \/ (exists l1 l2 l3, l = l1 ++ b :: l2 ++ a :: l3).
Proof.
  intros Ha Hb Hne. apply list_elem_of_split in Ha as (l1 & l2 & ->).
  apply elem_of_app in Hb as [Hb|Hb].
  - right. apply list_elem_of_split in Hb as (l1' & l2' & ->).
    exists l1', l2', l2. by rewrite <- app_assoc.
  - apply elem_of_cons in Hb as [->|Hb]; [done|].
    left. apply list_elem_of_split in Hb as (l1' & l2' & ->).
    by exists l1, l1', l2'.
Qed.

Section BandsSequence.
Context {A : Type} (next : Q -> A -> Q) (size : A -> Q) (gap : Q).
Hypothesis size_nonneg : forall a, (0 <= size a)%Q.
Hypothesis gap_nonneg : (0 <= gap)%Q.
Hypothesis next_ge : forall pos a, (pos + size a + gap <= next pos a)%Q.

(** An item that comes first in the list ends before the later one starts. *)
Lemma bands_in_order (l1 l2 l3 : list A) (pos : Q) (a b : A) (p q : Q) :
  NoDup (l1 ++ a :: l2 ++ b :: l3) ->
  (a, p) ∈ bands next (l1 ++ a :: l2 ++ b :: l3) pos ->
  (b, q) ∈ bands next (l1 ++ a :: l2 ++ b :: l3) pos ->
  (p + size a + gap <= q)%Q.
Proof.
  revert pos. induction l1 as [|c l1 IH]; intros pos Hnd Ha Hb; simpl in *.
  - apply NoDup_cons in Hnd as [Hn _].
    apply elem_of_cons in Ha as [Ha|Ha]; [|by apply bands_fst in Ha].
    inversion Ha; subst p.
    apply elem_of_cons in Hb as [Hb|Hb].
    + inversion Hb; subst. exfalso. apply Hn. apply elem_of_app. right. constructor.
    + apply (bands_lower next size gap size_nonneg gap_nonneg next_ge) in Hb.
      pose proof (next_ge pos a). lra.
  - apply NoDup_cons in Hnd as [Hn Hnd].
    apply elem_of_cons in Ha as [Ha|Ha].
    { inversion Ha; subst. exfalso. apply Hn. apply elem_of_app. right. constructor. }
    apply elem_of_cons in Hb as [Hb|Hb].
    { inversion Hb; subst. exfalso. apply Hn. apply elem_of_app. right.
      constructor. apply elem_of_app. right. constructor. }
    by eapply IH.
Qed.
End BandsSequence.

(** X3. The column of a day whose first event has the smaller key lies to the
    left, a gap apart. The keys are the doubles of the code: of two days
    whose first events have keys that round to one double, neither has the
    smaller key. *)
Theorem columns_in_date_order
        (events : list StoryEvent) (eraOrder : list jsstring)
        (k1 k2 : jsstring) (c1 c2 : ColumnGeo) :
  isArray eraOrder ->
  dayColumnGeometries events eraOrder !! k1 = Some c1 ->
  dayColumnGeometries events eraOrder !! k2 = Some c2 ->
  num_lt (normalizeDate (firstEventDate events eraOrder k1) eraOrder)
         (normalizeDate (firstEventDate events eraOrder k2) eraOrder) ->
  (col_x c1 + col_width c1 + EVENT_GAP <= col_x c2)%Q.
Proof.
  intros Harr (p1 & H1 & ->)%dayColumnGeometries_lookup
         (p2 & H2 & ->)%dayColumnGeometries_lookup Hlt.
  cbn [col_x col_width].
  set (key := fun k => normalizeDate (firstEventDate events eraOrder k) eraOrder).
  assert (forall k, sortable (key k)) as Hkey
    by (intros k; by apply normalizeDate_sortable).
  assert (StronglySorted (notAfter key) (sortedUniqueDays events eraOrder))
    as Hsorted by apply (sortBy_sorted key Hkey).
  pose proof (sortedUniqueDays_NoDup events eraOrder) as Hnd.
  pose proof (bands_fst _ _ _ _ _ H1) as Hin1.
  pose proof (bands_fst _ _ _ _ _ H2) as Hin2.
  assert (k1 <> k2) as Hne.
  { intros ->. by apply num_lt_irrefl in Hlt. }
  assert (forall a, (0 <= columnWidthOf events eraOrder a)%Q) as Hsize.
  { intros a. pose proof (columnWidthOf_ge events eraOrder a).
    unfold EVENT_WIDTH in *. lra. }
  assert (0 <= EVENT_GAP)%Q as Hgap by (unfold EVENT_GAP; lra).
  assert (forall pos a,
             (pos + columnWidthOf events eraOrder a + EVENT_GAP
              <= columnNext events eraOrder pos a)%Q) as Hnext.
  { intros pos a. unfold columnNext. lra. }
  destruct (elem_of_order _ _ _ Hin1 Hin2 Hne)
    as [(l1 & l2 & l3 & E)|(l1 & l2 & l3 & E)]; rewrite E in *.
  - by apply (bands_in_order (columnNext events eraOrder)
                (columnWidthOf events eraOrder) EVENT_GAP Hsize Hgap Hnext
                l1 l2 l3 PADDING_X k1 k2 p1 p2).
  - exfalso. by apply (StronglySorted_before _ _ _ _ _ _ Hsorted).
Qed.
#[local] Open Scope Q_scope.

(** ** The canvas *)

Section CanvasFacts.
Context (events : list StoryEvent) (storylines : list Storyline)
        (eventConnections : list EventConnection)
        (eventTypes : list EventType)
        (eraOrder : list jsstring) (expandedEvents : gset jsstring).

#[local] Abbreviation LGc :=
  (laneGeometries events storylines eventConnections eraOrder expandedEvents).
#[local] Abbreviation LHc :=
  (laneHeightOf events storylines eventConnections eraOrder expandedEvents).
#[local] Abbreviation laneNextc :=
  (laneNext events storylines eventConnections eraOrder expandedEvents).
#[local] Abbreviation DCGc := (dayColumnGeometries events eraOrder).

Lemma column_in_canvas (k : jsstring) (c : ColumnGeo) :
  DCGc !! k = Some c ->
  PADDING_X <= col_x c /\ col_x c + col_width c <= canvasWidth events eraOrder.
Proof.
  intros (pos & Hpos & ->)%dayColumnGeometries_lookup. cbn [col_x col_width].
  assert (forall a, 0 <= columnWidthOf events eraOrder a) as Hsize.
  { intros a. pose proof (columnWidthOf_ge events eraOrder a).
    unfold EVENT_WIDTH in *. lra. }
  assert (0 <= EVENT_GAP) as Hgap by (unfold EVENT_GAP; lra).
  assert (forall pos a,
             pos + columnWidthOf events eraOrder a + EVENT_GAP
             <= columnNext events eraOrder pos a) as Hnext.
  { intros p a. unfold columnNext. lra. }
  split.
  - by apply (bands_lower _ _ _ Hsize Hgap Hnext) in Hpos.
  - pose proof (bands_before_end _ _ _ Hsize Hgap Hnext _ _ _ _ Hpos) as He.
    unfold canvasWidth, columnLoop. rewrite columnLoop_bands. cbn [snd].
    apply bands_fst in Hpos.
    destruct (sortedUniqueDays events eraOrder); [by apply elem_of_nil in Hpos|].
    lra.
Qed.

Lemma lane_in_canvas (sid : jsstring) (g : LaneGeo) :
  LGc !! sid = Some g ->
  0 <= lane_y g
  /\ lane_y g + lane_height g
     <= totalHeight events storylines eventConnections eraOrder expandedEvents.
Proof.
  intros (s & pos & Hpos & _ & ->)%laneGeometries_lookup.
  cbn [lane_y lane_height].
  assert (forall a, 0 <= LHc a) as Hsize.
  { intros a. pose proof (laneHeightOf_ge events storylines eventConnections
                            eraOrder expandedEvents a).
    unfold MIN_LANE_HEIGHT, CAPSULE_HEIGHT, LANE_VERTICAL_PADDING in *. lra. }
  assert (0 <= 0) as Hgap by lra.
  assert (forall pos a, pos + LHc a + 0 <= laneNextc pos a) as Hnext.
  { intros p a. unfold laneNext. lra. }
  pose proof (bands_lower _ _ _ Hsize Hgap Hnext _ _ _ _ Hpos) as Hlo.
  pose proof (bands_before_end _ _ _ Hsize Hgap Hnext _ _ _ _ Hpos) as He.
  pose proof (laneHeightOf_ge events storylines eventConnections
                eraOrder expandedEvents s) as Hmin.
  split; [done|].
  unfold totalHeight, laneLoop. rewrite laneLoop_bands. cbn [snd].
  unfold MIN_LANE_HEIGHT, CAPSULE_HEIGHT, LANE_VERTICAL_PADDING in *.
  destruct (Qle_bool _ 0) eqn:E; [|lra].
  apply Qle_bool_iff in E. lra.
Qed.

End CanvasFacts.

(** X4. Every rectangle lies on the canvas: between the left padding and
    [canvasWidth], and, with the lane padding above and below, between 0 and
    [totalHeight]. It is 200 wide and 40 or 120 high. *)
Theorem layout_inside_canvas
        (events : list StoryEvent) (storylines : list Storyline)
        (eventConnections : list EventConnection) (eventTypes : list EventType)
        (eraOrder : list jsstring) (expandedEvents : gset jsstring)
        (id : jsstring) (l : EventLayout) :
  eventLayouts events storylines eventConnections eventTypes eraOrder
               expandedEvents !! id = Some l ->
  PADDING_X <= x l
  /\ x l + width l <= canvasWidth events eraOrder
  /\ LANE_VERTICAL_PADDING <= y l
  /\ y l + height l + LANE_VERTICAL_PADDING
     <= totalHeight events storylines eventConnections eraOrder expandedEvents
  /\ width l = EVENT_WIDTH
  /\ height l = (if decide (id ∈ expandedEvents) then EVENT_CARD_HEIGHT
                 else CAPSULE_HEIGHT).
Proof.
  intros [Hp Hid]%eventLayouts_placement.
  destruct (placement_origin _ _ _ _ _ _ _ Hp)
    as (lg & c & dm & evs & Hlg & Hc & _ & _ & _ & Hst).
  pose proof (placement_in_lane _ _ _ _ _ _ _ _ Hp Hlg) as [Hy1 Hy2].
  pose proof (placement_in_column _ _ _ _ _ _ _ _ Hp Hc) as [Hx1 Hx2].
  pose proof (column_in_canvas events eraOrder _ _ Hc) as [Hc1 Hc2].
  pose proof (lane_in_canvas events storylines eventConnections eraOrder
                expandedEvents _ _ Hlg) as [Hl1 Hl2].
  apply stackPlacements_facts in Hst as (_ & _ & _ & Hw & Hh & _).
  repeat split; try lra; [done|].
  rewrite Hh. unfold eventHeight. by rewrite Hid.
Qed.

(** X27. Every rectangle lies inside the lane of its storyline, 20 below
    its top and 20 above its bottom, and inside the column of the day of
    its event. *)
Theorem event_inside_lane_and_column
        (events : list StoryEvent) (storylines : list Storyline)
        (eventConnections : list EventConnection) (eventTypes : list EventType)
        (eraOrder : list jsstring) (expandedEvents : gset jsstring)
        (id : jsstring) (l : EventLayout) :
  eventLayouts events storylines eventConnections eventTypes eraOrder
               expandedEvents !! id = Some l ->
  exists lane column,
    laneGeometries events storylines eventConnections eraOrder expandedEvents
      !! sl_id (storyline l) = Some lane
    /\ dayColumnGeometries events eraOrder !! getDayKey (ev_date (event l))
       = Some column
    /\ ev_id (event l) = id
    /\ ev_storylineId (event l) = Some (sl_id (storyline l))
    /\ lane_y lane + LANE_VERTICAL_PADDING <= y l
    /\ y l + height l + LANE_VERTICAL_PADDING <= lane_y lane + lane_height lane
    /\ col_x column <= x l
    /\ x l + width l <= col_x column + col_width column.
Proof.
  intros [Hp Hid]%eventLayouts_placement.
  destruct (placement_origin _ _ _ _ _ _ _ Hp)
    as (lane & column & dm & evs & Hlane & Hcolumn & Hdm & Hg & _ & Hst).
  pose proof (placement_in_lane _ _ _ _ _ _ _ _ Hp Hlane) as [Hy1 Hy2].
  pose proof (placement_in_column _ _ _ _ _ _ _ _ Hp Hcolumn) as [Hx1 Hx2].
  apply stackPlacements_facts in Hst as (_ & Hin & _).
  pose proof (eventsByStorylineAndDay_storyline _ _ _ _ _ _ _ _ Hdm Hg Hin)
    as Hsl.
  exists lane, column. repeat split; done.
Qed.

(** ** Every complete event is drawn *)

Section PlacedFacts.
Context (events : list StoryEvent) (storylines : list Storyline)
        (eventConnections : list EventConnection)
        (eventTypes : list EventType)
        (eraOrder : list jsstring) (expandedEvents : gset jsstring).

#[local] Abbreviation typeOf e :=
  (List.find (fun et => bool_decide (Some (et_id et) = ev_typeId e)) eventTypes).
#[local] Abbreviation stackOf :=
  (stackPlacements events eventConnections eventTypes eraOrder expandedEvents).

Lemma stackPlacements_type s baseX evs y0 l :
  l ∈ stackOf s baseX evs y0 -> typeOf (event l) = Some (eventType l).
Proof.
  revert y0. induction evs as [|e rest IH]; intros y0 H; simpl in *.
  - by apply elem_of_nil in H.
  - destruct (typeOf e) as [et|] eqn:Et; [|by eapply IH].
    apply elem_of_cons in H as [->|H]; [done | by eapply IH].
Qed.

Lemma stackPlacements_complete s baseX evs y0 e et :
  e ∈ evs -> typeOf e = Some et ->
  exists l, l ∈ stackOf s baseX evs y0 /\ event l = e.
Proof.
  revert y0. induction evs as [|e' rest IH]; intros y0 He Het; simpl.
  - by apply elem_of_nil in He.
  - apply elem_of_cons in He as [<-|He].
    + rewrite Het. eexists. split; [constructor | done].
    + destruct (typeOf e') as [et'|].
      * destruct (IH (y0 + (eventHeight expandedEvents e'
                            + gapAfter eventConnections e' rest)) He Het)
          as (l & Hl & Hev).
        exists l. split; [by constructor | done].
      * by apply IH.
Qed.

Lemma find_is_Some {A : Type} (p : A -> bool) (l : list A) (a : A) :
  a ∈ l -> p a = true -> is_Some (List.find p l).
Proof.
  intros Ha Hp. destruct (List.find p l) eqn:E; [done|].
  apply list_elem_of_In in Ha. pose proof (find_none _ _ E _ Ha). congruence.
Qed.

Lemma NoDup_fmap_eq {A B : Type} (f : A -> B) (l : list A) (a b : A) :
  NoDup (List.map f l) -> a ∈ l -> b ∈ l -> f a = f b -> a = b.
Proof.
  induction l as [|c l IH]; simpl; intros Hnd Ha Hb Hf.
  - by apply elem_of_nil in Ha.
  - apply NoDup_cons in Hnd as [Hc Hnd].
    apply elem_of_cons in Ha as [->|Ha]; apply elem_of_cons in Hb as [->|Hb];
      [done| | |by apply IH].
    + exfalso. apply Hc. rewrite Hf. apply list_elem_of_fmap. by exists b.
    + exfalso. apply Hc. rewrite <- Hf. apply list_elem_of_fmap. by exists a.
Qed.

End PlacedFacts.

(** X5. A complete event whose storyline and type exist has a rectangle under
    its id; when the ids of the events are distinct it is the rectangle of
    that event, in its storyline and with its type. *)
Theorem complete_event_is_placed
        (events : list StoryEvent) (storylines : list Storyline)
        (eventConnections : list EventConnection) (eventTypes : list EventType)
        (eraOrder : list jsstring) (expandedEvents : gset jsstring)
        (e : StoryEvent) (s : Storyline) (et : EventType) :
  let layouts := eventLayouts events storylines eventConnections eventTypes
                              eraOrder expandedEvents in
  e ∈ events -> complete e = true ->
  s ∈ storylines -> ev_storylineId e = Some (sl_id s) ->
  et ∈ eventTypes -> ev_typeId e = Some (et_id et) ->
  is_Some (layouts !! ev_id e)
  /\ (NoDup (List.map ev_id events) ->
      exists l, layouts !! ev_id e = Some l /\ event l = e
                /\ sl_id (storyline l) = sl_id s
                /\ et_id (eventType l) = et_id et).
Proof.
  intros layouts He Hc Hs Hsid Het Htid.
  assert (e ∈ sortedEvents events eraOrder) as Hse
    by by apply sortedEvents_elem.
  destruct (eventsByStorylineAndDay_covers _ _ _ _ _ Hse Hs Hsid)
    as (dm & evs & Hdm & Hg & Hin).
  destruct (laneGeometries_storyline events storylines eventConnections
              eraOrder expandedEvents s Hs) as (lg & Hlg & _).
  destruct (eventsByDay_covers _ _ _ Hse) as (evs0 & Hg0 & _).
  assert (is_Some (dayColumnGeometries events eraOrder !! getDayKey (ev_date e)))
    as [c Hcol].
  { assert (getDayKey (ev_date e) ∈ sortedUniqueDays events eraOrder) as Hk.
    { unfold sortedUniqueDays. apply sortBy_elem.
      apply list_elem_of_fmap. by exists (getDayKey (ev_date e), evs0). }
    destruct (bands_complete (columnNext events eraOrder) _ PADDING_X _ Hk)
      as [pos Hpos].
    unfold dayColumnGeometries, columnLoop. rewrite columnLoop_bands.
    apply (setAll_lookup_is_Some fst _ _ _ (getDayKey (ev_date e), pos) Hpos). }
  destruct (find_is_Some
              (fun et0 => bool_decide (Some (et_id et0) = ev_typeId e))
              eventTypes et Het) as [et' Het'].
  { apply bool_decide_eq_true. by rewrite Htid. }
  destruct (stackPlacements_complete events eventConnections eventTypes
              eraOrder expandedEvents s (col_x c) evs
              (lane_y lg + (lane_height lg
                            - stackHeightOf eventConnections expandedEvents evs) / 2)
              e et' Hin Het') as (l0 & Hl0 & Hev0).
  assert (l0 ∈ allPlacements events storylines eventConnections eventTypes
                             eraOrder expandedEvents) as Hall.
  { unfold allPlacements. apply elem_of_flat_map. exists s. split; [done|].
    unfold lanePlacements. rewrite Hlg, Hdm.
    apply elem_of_flat_map. exists (getDayKey (ev_date e), evs). split; [done|].
    unfold dayPlacements. cbn [fst snd]. by rewrite Hcol. }
  assert (is_Some (layouts !! ev_id e)) as Hsome.
  { unfold layouts. rewrite eventLayouts_setAll, <- Hev0.
    by apply (setAll_lookup_is_Some (fun l => ev_id (event l)) (fun l => l)). }
  split; [done|]. intros Hnd. destruct Hsome as [l Hl]. exists l.
  split; [done|].
  apply eventLayouts_placement in Hl as [Hp Hid].
  destruct (placement_origin _ _ _ _ _ _ _ Hp)
    as (lg' & c' & dm' & evs' & _ & _ & Hdm' & Hg' & Hse' & Hst).
  assert (event l = e) as Hev.
  { apply (NoDup_fmap_eq ev_id events); [done| |done..].
    by apply sortedEvents_elem in Hse' as [? _]. }
  split; [done|].
  pose proof (stackPlacements_type _ _ _ _ _ _ _ _ _ _ Hst) as Hty.
  apply stackPlacements_facts in Hst as (_ & Hin' & _).
  pose proof (eventsByStorylineAndDay_storyline _ _ _ _ _ _ _ _ Hdm' Hg' Hin')
    as Hsl.
  rewrite Hev, Hsid in Hsl. split; [congruence|].
  apply find_some in Hty as [_ Hty]. apply bool_decide_eq_true in Hty.
  rewrite Hev, Htid in Hty. congruence.
Qed.

(** ** The lanes under the pointer *)

Section BandsCover.
Context {A : Type} (size : A -> Q).

(** Bands laid end to end leave no hole. *)
Lemma bands_cover (l : list A) (pos y : Q) :
  pos <= y -> y < bandsEnd (fun p a => p + size a) l pos ->
  exists a p, (a, p) ∈ bands (fun p a => p + size a) l pos
              /\ p <= y /\ y < p + size a.
Proof.
  revert pos. induction l as [|a l IH]; intros pos Hlo Hhi; simpl in *.
  - lra.
  - destruct (Qlt_le_dec y (pos + size a)) as [H|H].
    + exists a, pos. split; [constructor | lra].
    + destruct (IH _ H Hhi) as (b & p & Hin & Hp).
      exists b, p. split; [by constructor | done].
Qed.
End BandsCover.

Lemma find_None_forall {A : Type} (p : A -> bool) (l : list A) :
  (forall a, a ∈ l -> p a = false) -> List.find p l = None.
Proof.
  induction l as [|a l IH]; intros H; simpl; [done|].
  rewrite (H a) by constructor. apply IH. intros b Hb. apply H. by constructor.
Qed.

Section LaneFacts.
Context (events : list StoryEvent) (storylines : list Storyline)
        (eventConnections : list EventConnection)
        (eraOrder : list jsstring) (expandedEvents : gset jsstring).

#[local] Abbreviation LGl :=
  (laneGeometries events storylines eventConnections eraOrder expandedEvents).
#[local] Abbreviation LHl :=
  (laneHeightOf events storylines eventConnections eraOrder expandedEvents).
#[local] Abbreviation TH :=
  (totalHeight events storylines eventConnections eraOrder expandedEvents).

Lemma laneGeometries_empty : (size LGl =? 0)%nat = true -> storylines = [].
Proof.
  intros H%Nat.eqb_eq%map_size_empty_iff.
  destruct storylines as [|s r] eqn:E; [done|]. exfalso.
  destruct (laneGeometries_storyline events storylines eventConnections
              eraOrder expandedEvents s) as (g & Hg & _).
  { rewrite E. constructor. }
  rewrite E in Hg. rewrite H, lookup_empty in Hg. done.
Qed.

Lemma laneUnder_outside (yPos : Q) :
  yPos < 0 \/ TH <= yPos -> laneUnder storylines LGl yPos = None.
Proof.
  intros Hy. apply find_None_forall. intros s _.
  destruct (LGl !! sl_id s) as [g|] eqn:E; [|done].
  destruct (lane_in_canvas events storylines eventConnections eraOrder
              expandedEvents _ _ E) as [H1 H2].
  destruct (Qle_bool (lane_y g) yPos) eqn:E1; [|done].
  destruct (Qlt_bool yPos (lane_y g + lane_height g)) eqn:E2; [|done].
  apply Qle_bool_iff in E1. apply Qlt_bool_iff in E2. lra.
Qed.

Lemma laneUnder_inside (yPos : Q) :
  NoDup (List.map sl_id storylines) -> storylines <> [] ->
  0 <= yPos -> yPos < TH ->
  exists s g, laneUnder storylines LGl yPos = Some s /\ s ∈ storylines
              /\ LGl !! sl_id s = Some g
              /\ lane_y g <= yPos /\ yPos < lane_y g + lane_height g.
Proof.
  intros Hnd Hne Hlo Hhi.
  assert (forall p, p ∈ bands (fun pos s => pos + LHl s) storylines 0 ->
                    LGl !! sl_id (fst p) = Some (mkLaneGeo (snd p) (LHl (fst p))))
    as Hlookup.
  { intros p Hp. unfold laneGeometries, laneLoop. rewrite laneLoop_bands.
    cbn [fst].
    apply (setAll_lookup_NoDup (fun p => sl_id (fst p))
             (fun p => mkLaneGeo (snd p) (LHl (fst p)))); [|done].
    rewrite <- (bands_keys (fun pos s => pos + LHl s) storylines 0) in Hnd.
    by rewrite List.map_map in Hnd. }
  assert (TH = bandsEnd (fun pos s => pos + LHl s) storylines 0) as Hth.
  { unfold totalHeight, laneLoop. rewrite laneLoop_bands. cbn [snd].
    unfold laneNext.
    destruct (Qle_bool _ 0) eqn:E; [|done]. exfalso.
    apply Qle_bool_iff in E.
    assert (forall l pos, pos <= bandsEnd (fun pos s => pos + LHl s) l pos
                          /\ (l <> [] -> pos + 80
                                         <= bandsEnd (fun pos s => pos + LHl s) l pos))
      as Hge.
    { induction l as [|a l IH]; intros pos; cbn [bandsEnd]; [split; [lra|done]|].
      destruct (IH (pos + LHl a)) as [IH1 _].
      pose proof (laneHeightOf_ge events storylines eventConnections
                    eraOrder expandedEvents a).
      unfold MIN_LANE_HEIGHT, CAPSULE_HEIGHT, LANE_VERTICAL_PADDING in *.
      split; [lra | intros _; lra]. }
    destruct (Hge storylines 0) as [_ Hpos]. specialize (Hpos Hne). lra. }
  rewrite Hth in Hhi.
  destruct (bands_cover LHl storylines 0 yPos Hlo Hhi) as (s0 & p0 & Hin & Hp1 & Hp2).
  pose proof (Hlookup _ Hin) as Hl0. cbn [fst snd] in Hl0.
  destruct (laneUnder storylines LGl yPos) as [s|] eqn:E.
  - apply find_some in E as [Hs Hpred]. apply list_elem_of_In in Hs.
    destruct (LGl !! sl_id s) as [g|] eqn:Eg; [|done].
    apply andb_true_iff in Hpred as [E1 E2].
    apply Qle_bool_iff in E1. apply Qlt_bool_iff in E2.
    by exists s, g.
  - exfalso. unfold laneUnder in E.
    pose proof (find_none _ _ E s0) as Hnone. cbv beta in Hnone.
    rewrite Hl0 in Hnone. cbn [lane_y lane_height] in Hnone.
    apply bands_fst, list_elem_of_In in Hin. specialize (Hnone Hin).
    apply andb_false_iff in Hnone as [Hn|Hn].
    + apply (proj2 (Qle_bool_iff _ _)) in Hp1. congruence.
    + apply (proj2 (Qlt_bool_iff _ _)) in Hp2. congruence.
Qed.

End LaneFacts.

(** ** Drop targets *)

Section DropMore.
Context (events : list StoryEvent) (storylines : list Storyline)
        (eventConnections : list EventConnection)
        (eraOrder : list jsstring) (expandedEvents : gset jsstring)
        (todayISO : jsstring) (localTZA : Z -> bool -> Z).

#[local] Abbreviation LGd :=
  (laneGeometries events storylines eventConnections eraOrder expandedEvents).
#[local] Abbreviation SUDd := (sortedUniqueDays events eraOrder).
#[local] Abbreviation EBDd := (eventsByDay events eraOrder).
#[local] Abbreviation DCGd := (dayColumnGeometries events eraOrder).
#[local] Abbreviation target :=
  (dropTarget events storylines eventConnections eraOrder expandedEvents
              todayISO localTZA).

Lemma dayColumnGeometries_band (p : jsstring * Q) :
  p ∈ bands (columnNext events eraOrder) SUDd PADDING_X ->
  DCGd !! fst p = Some (mkColumnGeo (snd p) (columnWidthOf events eraOrder (fst p))).
Proof.
  intros Hp. unfold dayColumnGeometries, columnLoop.
  rewrite columnLoop_bands. cbn [fst].
  apply (setAll_lookup_NoDup fst
           (fun p => mkColumnGeo (snd p) (columnWidthOf events eraOrder (fst p))));
    [|done].
  rewrite bands_keys. apply sortedUniqueDays_NoDup.
Qed.

(** The columns of the days before [k] end a gap before the column of [k]. *)
Lemma columns_before (l1 l2 : list jsstring) (k k' : jsstring) (g : ColumnGeo) :
  SUDd = l1 ++ k :: l2 -> DCGd !! k = Some g -> k' ∈ l1 ->
  exists g', DCGd !! k' = Some g'
             /\ col_x g' + col_width g' + EVENT_GAP <= col_x g.
Proof.
  intros E Hg Hk'.
  pose proof (sortedUniqueDays_NoDup events eraOrder) as Hnd.
  apply list_elem_of_split in Hk' as (a & b & ->).
  rewrite <- app_assoc in E. cbn [app] in E.
  assert (k' ∈ SUDd) as Hin'
    by (rewrite E; apply elem_of_app; right; constructor).
  assert (k ∈ SUDd) as Hin.
  { rewrite E. apply elem_of_app. right. constructor.
    apply elem_of_app. right. constructor. }
  destruct (bands_complete (columnNext events eraOrder) _ PADDING_X _ Hin')
    as [p' Hp'].
  destruct (bands_complete (columnNext events eraOrder) _ PADDING_X _ Hin)
    as [p Hp].
  pose proof (dayColumnGeometries_band _ Hp') as Hl'.
  pose proof (dayColumnGeometries_band _ Hp) as Hl.
  cbn [fst snd] in Hl, Hl'. rewrite Hg in Hl. inversion Hl; subst g.
  eexists. split; [exact Hl'|]. cbn [col_x col_width].
  assert (forall a, 0 <= columnWidthOf events eraOrder a) as Hsize.
  { intros c. pose proof (columnWidthOf_ge events eraOrder c).
    unfold EVENT_WIDTH in *. lra. }
  assert (0 <= EVENT_GAP) as Hgap by (unfold EVENT_GAP; lra).
  assert (forall pos a,
             pos + columnWidthOf events eraOrder a + EVENT_GAP
             <= columnNext events eraOrder pos a) as Hnext.
  { intros pos c. unfold columnNext. lra. }
  rewrite E in Hnd, Hp, Hp'.
  by apply (bands_in_order (columnNext events eraOrder)
              (columnWidthOf events eraOrder) EVENT_GAP Hsize Hgap Hnext
              a b l2 PADDING_X k' k p' p).
Qed.

Lemma findColumn_skip (xPos : Q) (l1 rest : list jsstring) :
  (forall k, k ∈ l1 ->
             exists g, DCGd !! k = Some g
                       /\ col_x g + col_width g + EVENT_GAP / 2 <= xPos) ->
  findColumn EBDd DCGd xPos (l1 ++ rest) = findColumn EBDd DCGd xPos rest.
Proof.
  induction l1 as [|k l1 IH]; intros H; simpl; [done|].
  destruct (H k) as (g & -> & Hg); [constructor|].
  destruct (Qlt_bool xPos _) eqn:E.
  - apply Qlt_bool_iff in E. lra.
  - apply IH. intros k' Hk'. apply H. by constructor.
Qed.

Lemma firstEventDate_dayKey (k : jsstring) :
  k ∈ SUDd -> getDayKey (firstEventDate events eraOrder k) = k.
Proof.
  intros Hk. destruct (firstEvent_exists events eraOrder k Hk) as (e & rest & He).
  unfold firstEventDate. rewrite He.
  unfold sortedUniqueDays in Hk. rewrite sortBy_elem in Hk.
  apply list_elem_of_fmap in Hk as ([k' evs] & -> & Hin). cbn [fst] in *.
  destruct (eventsByDay_ok events eraOrder) as [Hnd Hok].
  rewrite (getGroup_elem _ _ _ Hnd Hin) in He. inversion He; subst evs.
  apply (Hok k' (e :: rest) e Hin). constructor.
Qed.

(** The loop over the columns never meets a missing column or an empty
    day. *)
Lemma findColumn_safe (xPos : Q) (days : list jsstring) :
  (forall k, k ∈ days -> k ∈ SUDd) ->
  findColumn EBDd DCGd xPos days <> inl tt.
Proof.
  induction days as [|k days IH]; intros H; simpl; [done|].
  assert (k ∈ SUDd) as Hk by (apply H; constructor).
  destruct (bands_complete (columnNext events eraOrder) _ PADDING_X _ Hk)
    as [p Hp].
  pose proof (dayColumnGeometries_band _ Hp) as Hg. cbn [fst snd] in Hg.
  rewrite Hg.
  destruct (Qlt_bool xPos _).
  - destruct (firstEvent_exists events eraOrder k Hk) as (e & rest & ->). done.
  - apply IH. intros k' Hk'. apply H. by constructor.
Qed.

(** The loop stops at the column within half a gap of which the pointer
    lies. *)
Lemma findColumn_inside (xPos : Q) (k : jsstring) (g : ColumnGeo) :
  DCGd !! k = Some g ->
  col_x g - EVENT_GAP / 2 <= xPos ->
  xPos < col_x g + col_width g + EVENT_GAP / 2 ->
  findColumn EBDd DCGd xPos SUDd
  = inr (Some (firstEventDate events eraOrder k)).
Proof.
  intros Hg Hx1 Hx2.
  assert (k ∈ SUDd) as Hk.
  { apply dayColumnGeometries_lookup in Hg as (pos & Hpos & _).
    by apply bands_fst in Hpos. }
  pose proof Hk as Hsplit. apply list_elem_of_split in Hsplit as (l1 & l2 & E).
  rewrite E at 1. rewrite findColumn_skip.
  - cbn [findColumn]. rewrite Hg.
    rewrite (proj2 (Qlt_bool_iff _ _) Hx2).
    destruct (firstEvent_exists events eraOrder k Hk) as (e & rest & He).
    unfold firstEventDate. by rewrite He.
  - intros k' Hk'.
    destruct (columns_before l1 l2 k k' g E Hg Hk') as (g' & Hg' & Hle).
    exists g'. split; [done|]. unfold EVENT_GAP in *. name_halves. lra.
Qed.

End DropMore.

Lemma parseISODate_None (g1 : jsstring) :
  parseISODate g1 = None -> ~ validDay (dayFields g1).
Proof.
  intros H Hv. by rewrite (parseISODate_valid g1 Hv) in H.
Qed.

(** X6. A pointer above the first lane or at or below the end of the last one
    gives no target; with distinct storyline ids every height in between
    lies in the lane of the storyline that is targeted. *)
Theorem drop_target_lane
        (events : list StoryEvent) (storylines : list Storyline)
        (eventConnections : list EventConnection) (eraOrder : list jsstring)
        (expandedEvents : gset jsstring) (todayISO : jsstring)
        (localTZA : Z -> bool -> Z) (xPos yPos : Q) :
  let lanes := laneGeometries events storylines eventConnections eraOrder
                              expandedEvents in
  let total := totalHeight events storylines eventConnections eraOrder
                           expandedEvents in
  let result := dropTarget events storylines eventConnections eraOrder
                           expandedEvents todayISO localTZA xPos yPos in
  (storylines = [] \/ yPos < 0 \/ total <= yPos -> result = Returns None)
  /\ (NoDup (List.map sl_id storylines) -> storylines <> [] ->
      0 <= yPos -> yPos < total ->
      exists s g,
        s ∈ storylines /\ lanes !! sl_id s = Some g
        /\ lane_y g <= yPos /\ yPos < lane_y g + lane_height g
        /\ (result = Throws
            \/ exists date, result = Returns (Some (sl_id s, date)))).
Proof.
  intros lanes total result. split.
  - intros H. unfold result, dropTarget, getDropTarget.
    destruct (size _ =? 0)%nat eqn:Es.
    + apply laneGeometries_empty in Es. by rewrite Es.
    + destruct H as [->|H]; [done|].
      pose proof (laneUnder_outside events storylines eventConnections eraOrder
                    expandedEvents yPos H) as Hnone.
      unfold laneUnder in Hnone. by rewrite Hnone.
  - intros Hnd Hne Hlo Hhi.
    destruct (laneUnder_inside events storylines eventConnections eraOrder
                expandedEvents yPos Hnd Hne Hlo Hhi)
      as (s & g & Hlane & Hs & Hg & Hy1 & Hy2).
    exists s, g. repeat split; try done.
    unfold result, dropTarget, getDropTarget.
    rewrite (laneUnder_size _ _ _ _ Hlane).
    unfold laneUnder in Hlane. rewrite Hlane.
    destruct (findColumn _ _ _ _) as [[]|[d|]]; [by left | right; by eexists |].
    destruct (last _) as [k|]; [|right; by eexists].
    destruct (truthy k); [|right; by eexists].
    destruct (getGroup _ _) as [[|e r]|]; [by left| |by left].
    destruct (gregorianDayMatch _) as [g1|]; [|right; by eexists].
    destruct (parseISODate g1); [right; by eexists | by left].
Qed.

(** X7. A pointer within half a gap of the column of day [k], over a lane,
    targets the storyline of that lane and the date of the first event of
    day [k], which is a date of day [k]. *)
Theorem drop_inside_column
        (events : list StoryEvent) (storylines : list Storyline)
        (eventConnections : list EventConnection) (eraOrder : list jsstring)
        (expandedEvents : gset jsstring) (todayISO : jsstring)
        (localTZA : Z -> bool -> Z) (xPos yPos : Q)
        (s : Storyline) (k : jsstring) (g : ColumnGeo) :
  laneUnder storylines
            (laneGeometries events storylines eventConnections eraOrder
                            expandedEvents) yPos = Some s ->
  dayColumnGeometries events eraOrder !! k = Some g ->
  col_x g - EVENT_GAP / 2 <= xPos ->
  xPos < col_x g + col_width g + EVENT_GAP / 2 ->
  dropTarget events storylines eventConnections eraOrder expandedEvents
             todayISO localTZA xPos yPos
  = Returns (Some (sl_id s, firstEventDate events eraOrder k))
  /\ getDayKey (firstEventDate events eraOrder k) = k.
Proof.
  intros Hlane Hg Hx1 Hx2. split.
  - unfold dropTarget, getDropTarget. rewrite (laneUnder_size _ _ _ _ Hlane).
    unfold laneUnder in Hlane. rewrite Hlane.
    by rewrite (findColumn_inside events eraOrder xPos k g Hg Hx1 Hx2).
  - apply firstEventDate_dayKey.
    apply dayColumnGeometries_lookup in Hg as (pos & Hpos & _).
    by apply bands_fst in Hpos.
Qed.

(** The loop runs past every column only when the pointer is at or beyond
    the right edge of each, half a gap included. *)
Lemma findColumn_past (eventsByDay : groups)
      (dayColumnGeometries : gmap jsstring ColumnGeo) (xPos : Q)
      (days : list jsstring) :
  findColumn eventsByDay dayColumnGeometries xPos days = inr None ->
  forall k g, k ∈ days -> dayColumnGeometries !! k = Some g ->
              col_x g + col_width g + EVENT_GAP / 2 <= xPos.
Proof.
  induction days as [|d days IH]; intros H k g Hk Hg.
  - by apply elem_of_nil in Hk.
  - cbn [findColumn] in H.
    destruct (dayColumnGeometries !! d) as [geo|] eqn:Ed; [|done].
    destruct (Qlt_bool xPos (col_x geo + col_width geo + EVENT_GAP / 2))
      eqn:E.
    + by destruct (getGroup d eventsByDay) as [[|e r]|].
    + apply elem_of_cons in Hk as [->|Hk]; [|by eapply IH].
      rewrite Ed in Hg. injection Hg as <-.
      unfold Qlt_bool in E. apply negb_false_iff in E.
      by apply Qle_bool_iff in E.
Qed.

(** X8. On the layout the component computes, the resolver fails only by
    [toISOString] on an invalid Date, and only for a drop beyond the last
    column: the pointer is in the lane of a storyline, at or to the right
    of the right edge of every day column by half a gap or more, and the
    date of the last column starts with [YYYY-MM-DD] and that is no date of
    the calendar. *)
Theorem drop_target_throws
        (events : list StoryEvent) (storylines : list Storyline)
        (eventConnections : list EventConnection) (eraOrder : list jsstring)
        (expandedEvents : gset jsstring) (todayISO : jsstring)
        (localTZA : Z -> bool -> Z) (xPos yPos : Q) :
  dropTarget events storylines eventConnections eraOrder expandedEvents
             todayISO localTZA xPos yPos = Throws ->
  (exists s,
      laneUnder storylines
        (laneGeometries events storylines eventConnections eraOrder
                        expandedEvents) yPos = Some s)
  /\ (forall k g, dayColumnGeometries events eraOrder !! k = Some g ->
                  col_x g + col_width g + EVENT_GAP / 2 <= xPos)
  /\ exists k g1,
      last (sortedUniqueDays events eraOrder) = Some k
      /\ gregorianDayMatch (firstEventDate events eraOrder k) = Some g1
      /\ ~ validDay (dayFields g1).
Proof.
  unfold dropTarget, getDropTarget.
  destruct (size _ =? 0)%nat; [by destruct storylines|].
  fold (laneUnder storylines
          (laneGeometries events storylines eventConnections eraOrder
                          expandedEvents) yPos).
  destruct (laneUnder _ _ _) as [s|]; [|done].
  pose proof (findColumn_safe events eraOrder xPos
                (sortedUniqueDays events eraOrder) ltac:(done)) as Hsafe.
  pose proof (findColumn_past (eventsByDay events eraOrder)
                (dayColumnGeometries events eraOrder) xPos
                (sortedUniqueDays events eraOrder)) as Hpast.
  destruct (findColumn _ _ _ _) as [[]|[d|]]; [by destruct Hsafe | done |].
  destruct (last _) as [k|] eqn:Hlast; [|done].
  destruct (truthy k); [|done].
  assert (k ∈ sortedUniqueDays events eraOrder) as Hk.
  { apply last_Some in Hlast as [l ->]. apply elem_of_app. right. constructor. }
  destruct (firstEvent_exists events eraOrder k Hk) as (e & rest & He).
  unfold firstEventDate. rewrite He.
  destruct (gregorianDayMatch (ev_date e)) as [g1|] eqn:Eg; [|done].
  destruct (parseISODate g1) eqn:Ep; [done|].
  intros _. split; [by exists s|]. split.
  - intros k' g Hg. apply (Hpast eq_refl k' g); [|done].
    apply dayColumnGeometries_lookup in Hg as (pos & Hpos & _).
    by apply bands_fst in Hpos.
  - exists k, g1. split; [done|]. rewrite He. split; [done|].
    by apply parseISODate_None.
Qed.
#[local] Close Scope Q_scope.

(* ====================================================================== *)
(** * Labels *)
(* ====================================================================== *)

(** ** formatDisplayDate and formatDisplayDayKey *)

Definition str_noDateLabel : jsstring := [26080; 26085; 26399]%N.
Definition ch_year : N := 24180.
Definition ch_month : N := 26376.
Definition ch_day : N := 26085.

(** [s.substring(a, b)] for [a <= b]. *)
Definition substring (a b : nat) (s : jsstring) : jsstring :=
  firstn (b - a) (skipn a s).

(** [`${year}年${month}月${day}日`] *)
Definition dateLabel (year month day : jsstring) : jsstring :=
  year ++ ch_year :: month ++ ch_month :: day ++ [ch_day].

(** [` ${hour}:${minute}:${second}`] *)
Definition timeLabel (hour minute second : jsstring) : jsstring :=
  32%N :: hour ++ 58%N :: minute ++ 58%N :: second.

Definition str_00 : jsstring := [48; 48]%N.

(** The [for] loop of [formatDisplayDate] over [eraOrder]. *)
Fixpoint displayEraLoop (dateString trimmedDate : jsstring)
         (eras : list jsstring) : jsstring :=
  match eras with
  | [] => dateString
  | era :: rest =>
    match stripPrefix era trimmedDate with
    | Some r =>
      let valueStr := trim r in
      let parts := splitOn 46 valueStr in
      let year := nth 0 parts [] in
      let fraction := nth 1 parts [] in
      if truthy fraction then
        let paddedFraction := padEnd 10 48 fraction in
        let month := substring 0 2 paddedFraction in
        let day := substring 2 4 paddedFraction in
        let hour := substring 4 6 paddedFraction in
        let minute := substring 6 8 paddedFraction in
        let second := substring 8 10 paddedFraction in
        let formatted := era ++ 32%N :: dateLabel year month day in
        if negb (bool_decide (hour = str_00))
           || negb (bool_decide (minute = str_00))
           || negb (bool_decide (second = str_00))
        then formatted ++ timeLabel hour minute second
        else formatted
      else era ++ 32%N :: year ++ [ch_year]
    | None => displayEraLoop dateString trimmedDate rest
    end
  end.

Definition formatDisplayDate (dateString : jsstring) (eraOrder : list jsstring)
  : jsstring :=
  match dateString with
  | [] => str_noDateLabel
  | _ =>
    let trimmedDate := trim dateString in
    match gregorianMatch trimmedDate with
    | Some g =>
      let formatted := dateLabel (g_year g) (g_month g) (g_day g) in
      match g_time g with
      | Some (hour, minute, second) => formatted ++ timeLabel hour minute second
      | None => formatted
      end
    | None => displayEraLoop dateString trimmedDate eraOrder
    end
  end.

(** [/^(\d{4})-(\d{2})-(\d{2})/]: the three groups. *)
Definition gregorianDateMatch (s : jsstring)
  : option (jsstring * jsstring * jsstring) :=
  '(y, r1) ← digitsN 4 s;
  r2 ← expect 45 r1;
  '(m, r3) ← digitsN 2 r2;
  r4 ← expect 45 r3;
  '(d, _) ← digitsN 2 r4;
  Some (y, m, d).

(** [parts.join(sep)] *)
Definition joinWith (sep : N) (parts : list jsstring) : jsstring :=
  match parts with
  | [] => []
  | p :: r => p ++ flat_map (fun q => sep :: q) r
  end.

Definition formatDisplayDayKey (dayKey : jsstring) : jsstring :=
  match stripPrefix str_BCdash dayKey with
  | Some r => str_gongyuanqian ++ 32%N :: r
  | None =>
    match gregorianDateMatch dayKey with
    | Some (y, m, d) => dateLabel y m d
    | None =>
      let parts := splitOn 32 dayKey in
      if (1 <? length parts)%nat
      then joinWith 32 (removelast parts)
           ++ 32%N :: List.last parts [] ++ [ch_year]
      else dayKey
    end
  end.

(** ** Properties *)

Lemma dropWhile_snoc {A : Type} (p : A -> bool) (l : list A) (c : A) :
  p c = false -> dropWhile p (l ++ [c]) = dropWhile p l ++ [c].
Proof.
  intros Hc. induction l as [|a l IH]; simpl; [by rewrite Hc|].
  by destruct (p a).
Qed.

Lemma dropWhile_all {A : Type} (p : A -> bool) (l : list A) :
  dropWhile p l = [] \/ exists c r, dropWhile p l = c :: r /\ p c = false.
Proof.
  induction l as [|a l IH]; simpl; [by left|].
  destruct (p a) eqn:E; [done|]. right. by exists a, l.
Qed.

Lemma dropWhile_head {A : Type} (p : A -> bool) (c : A) (r : list A) :
  p c = false -> dropWhile p (c :: r) = c :: r.
Proof. intros H. simpl. by rewrite H. Qed.

(** A trimmed string starts and ends with something that is no white
    space. *)
Lemma trim_shape (s : jsstring) :
  trim s = []
  \/ exists c m, trim s = c :: m /\ isWhiteSpace c = false
                 /\ exists m' c', trim s = m' ++ [c'] /\ isWhiteSpace c' = false.
Proof.
  unfold trim, trimEnd, trimStart.
  destruct (dropWhile_all isWhiteSpace s) as [->|(c & r & -> & Hc)]; [by left|].
  right.
  destruct (dropWhile_all isWhiteSpace (rev (c :: r))) as [E|(c' & r' & E & Hc')].
  - exfalso. cbn [rev] in E. rewrite dropWhile_snoc in E by done.
    by destruct (dropWhile isWhiteSpace (rev r)).
  - rewrite E. cbn [rev].
    assert (exists m, rev r' ++ [c'] = c :: m) as [m Hm].
    { cbn [rev] in E. rewrite dropWhile_snoc in E by done.
      destruct (dropWhile isWhiteSpace (rev r)) as [|a t] eqn:Et; simpl in E.
      - inversion E; subst. by exists [].
      - inversion E; subst. rewrite rev_app_distr. simpl. eauto. }
    exists c, m. split; [done|]. split; [done|]. by exists (rev r'), c'.
Qed.

Lemma trim_idemp (s : jsstring) : trim (trim s) = trim s.
Proof.
  destruct (trim_shape s) as [->|(c & m & E & Hc & m' & c' & E' & Hc')]; [done|].
  unfold trim at 1, trimStart, trimEnd. rewrite E at 1.
  rewrite dropWhile_head by done. rewrite <- E, E'.
  rewrite rev_app_distr. cbn [rev app].
  rewrite dropWhile_head by done. cbn [rev]. by rewrite rev_involutive.
Qed.

(** X9. White space around a date that is not blank changes neither its
    key nor its day key. *)
Theorem date_functions_ignore_padding (d : jsstring) (eraOrder : list jsstring) :
  trim d <> [] ->
  normalizeDate d eraOrder = normalizeDate (trim d) eraOrder
  /\ getDayKey d = getDayKey (trim d).
Proof.
  intros Hne. unfold normalizeDate, getDayKey.
  destruct d as [|c d]; [done|].
  destruct (trim (c :: d)) as [|c' d'] eqn:E; [done|].
  rewrite <- E, trim_idemp. done.
Qed.

Lemma digitsN_app (n : nat) (ds r : jsstring) :
  allDigits ds -> length ds = n -> digitsN n (ds ++ r) = Some (ds, r).
Proof.
  intros Hd. revert n. induction Hd as [|c ds Hc Hd IH]; intros n Hn.
  - by subst n.
  - subst n. cbn [length app digitsN]. rewrite Hc. by rewrite (IH _ eq_refl).
Qed.

Lemma stripBC_digit (c : N) (r : jsstring) :
  isDigit c = true -> stripBC (c :: r) = None.
Proof.
  intros Hc%isDigit_range. unfold stripBC, str_gongyuanqian.
  cbn [stripPrefix]. rewrite (proj2 (N.eqb_neq 20844 c)) by lia.
  destruct r as [|c2 r]; [done|].
  rewrite (proj2 (N.eqb_neq c 66)) by lia.
  rewrite (proj2 (N.eqb_neq c 98)) by lia. done.
Qed.

Lemma gregorianMatch_day (s : jsstring) (g : GregorianMatch) :
  gregorianMatch s = Some g ->
  gregorianDayMatch s = Some (g_year g ++ 45%N :: g_month g ++ 45%N :: g_day g).
Proof.
  unfold gregorianMatch, gregorianDayMatch. intros H.
  destruct (digitsN 4 s) as [[yy r1]|]; cbv [mbind option_bind] in *; [|done].
  destruct (expect 45 r1) as [r2|]; cbv [mbind option_bind] in *; [|done].
  destruct (digitsN 2 r2) as [[mm r3]|]; cbv [mbind option_bind] in *; [|done].
  destruct (expect 45 r3) as [r4|]; cbv [mbind option_bind] in *; [|done].
  destruct (digitsN 2 r4) as [[dd r5]|]; cbv [mbind option_bind] in *; [|done].
  by inversion H.
Qed.

Lemma gregorianDateMatch_key (y m d : jsstring) :
  allDigits y -> length y = 4%nat -> allDigits m -> length m = 2%nat ->
  allDigits d -> length d = 2%nat ->
  gregorianDateMatch (y ++ 45%N :: m ++ 45%N :: d) = Some (y, m, d).
Proof.
  intros Dy Ly Dm Lm Dd Ld. unfold gregorianDateMatch.
  rewrite (digitsN_app 4 y _ Dy Ly). cbv [mbind option_bind]. cbn [expect].
  rewrite N.eqb_refl, (digitsN_app 2 m _ Dm Lm). cbn [expect].
  rewrite N.eqb_refl.
  rewrite <- (app_nil_r d), (digitsN_app 2 d [] Dd Ld). by rewrite app_nil_r.
Qed.

Lemma getDayKey_gregorianForm (d : jsstring) (g : GregorianMatch) :
  gregorianForm d g ->
  getDayKey d = g_year g ++ 45%N :: g_month g ++ 45%N :: g_day g.
Proof.
  intros [Hne Hg].
  pose proof (gregorianMatch_fields _ _ Hg)
    as (_ & _ & _ & _ & _ & _ & (c & r & Hs & Hc) & _).
  unfold getDayKey. destruct d as [|c0 d]; [done|].
  unfold bcDayMatch. rewrite Hs, (stripBC_digit c r Hc), <- Hs.
  by rewrite (gregorianMatch_day _ _ Hg).
Qed.

(** X10. A date in Gregorian form: its day key is its [YYYY-MM-DD], the
    label of that day is [YYYY年MM月DD日], and the label of the date is the
    label of the day followed by the time, if one is written. *)
Theorem gregorian_labels (d : jsstring) (g : GregorianMatch)
        (eraOrder : list jsstring) :
  gregorianForm d g ->
  getDayKey d = g_year g ++ 45%N :: g_month g ++ 45%N :: g_day g
  /\ formatDisplayDayKey (getDayKey d)
     = dateLabel (g_year g) (g_month g) (g_day g)
  /\ formatDisplayDate d eraOrder
     = formatDisplayDayKey (getDayKey d)
       ++ match g_time g with
          | Some (hour, minute, second) => timeLabel hour minute second
          | None => []
          end.
Proof.
  intros [Hne Hg].
  pose proof (gregorianMatch_fields _ _ Hg)
    as (Dy & Ly & Dm & Lm & Dd & Ld & (c & r & Hs & Hc) & _).
  pose proof (getDayKey_gregorianForm d g (conj Hne Hg)) as Hkey.
  assert (formatDisplayDayKey (getDayKey d)
          = dateLabel (g_year g) (g_month g) (g_day g)) as Hlabel.
  { rewrite Hkey. unfold formatDisplayDayKey.
    destruct (g_year g) as [|y0 yr] eqn:Ey; [done|].
    pose proof (Forall_inv Dy) as Hy0. apply isDigit_range in Hy0.
    unfold str_BCdash. cbn [app]. rewrite stripPrefix_head by lia.
    change (y0 :: yr ++ 45%N :: g_month g ++ 45%N :: g_day g)
      with ((y0 :: yr) ++ 45%N :: g_month g ++ 45%N :: g_day g).
    by rewrite gregorianDateMatch_key. }
  split; [done|]. split; [done|].
  rewrite Hlabel. unfold formatDisplayDate. destruct d as [|c0 d]; [done|].
  rewrite Hg. destruct (g_time g) as [[[h mi] se]|]; [done|].
  by rewrite app_nil_r.
Qed.

(** *** Splitting and joining *)

Lemma flat_map_join (sep : N) (l : list jsstring) :
  l <> [] -> flat_map (fun q => sep :: q) l = sep :: joinWith sep l.
Proof. by destruct l. Qed.

Lemma joinWith_splitOn (sep : N) (s : jsstring) :
  joinWith sep (splitOn sep s) = s.
Proof.
  induction s as [|c s IH]; [done|]. cbn [splitOn].
  pose proof (splitOn_nonempty sep s) as Hne.
  destruct (c =? sep)%N eqn:E.
  - apply N.eqb_eq in E. subst c. cbn [joinWith app].
    by rewrite flat_map_join, IH.
  - destruct (splitOn sep s) as [|h t]; [done|].
    cbn [joinWith app] in *. by rewrite IH.
Qed.

Lemma joinWith_removelast (sep : N) (l : list jsstring) :
  (1 < length l)%nat ->
  joinWith sep (removelast l) ++ sep :: List.last l [] = joinWith sep l.
Proof.
  destruct l as [|p [|q r]]; simpl length; [lia..|]. intros _.
  change (removelast (p :: q :: r)) with (p :: removelast (q :: r)).
  change (List.last (p :: q :: r) []) with (List.last (q :: r) []).
  cbn [joinWith]. rewrite <- app_assoc. f_equal.
  rewrite (app_removelast_last [] (l := q :: r)) at 3 by done.
  rewrite flat_map_app. cbn [flat_map]. by rewrite app_nil_r.
Qed.

Lemma splitOn_length (sep : N) (s : jsstring) :
  (1 < length (splitOn sep s))%nat <-> sep ∈ s.
Proof.
  induction s as [|c s IH]; cbn [splitOn].
  - simpl. split; [lia|]. by intros ?%elem_of_nil.
  - pose proof (splitOn_nonempty sep s) as Hne.
    destruct (c =? sep)%N eqn:E.
    + apply N.eqb_eq in E. subst c. split; [constructor|]. intros _.
      destruct (splitOn sep s); [done|]. simpl. lia.
    + apply N.eqb_neq in E. rewrite elem_of_cons.
      destruct (splitOn sep s) as [|h t]; [done|]. simpl length in *.
      rewrite IH. split; [tauto|]. by intros [?|?].
Qed.

Lemma stripPrefix_app (p s : jsstring) : stripPrefix p (p ++ s) = Some s.
Proof. induction p as [|a p IH]; [done|]. simpl. by rewrite N.eqb_refl. Qed.



(** X11. The label of a day key: [BC-n] reads [公元前 n]; a key that is
    neither of that form nor a Gregorian day is followed by [年] when it
    holds a space and is left as it is when it holds none. *)
Theorem day_key_label :
  (forall n : jsstring,
      formatDisplayDayKey (str_BCdash ++ n) = str_gongyuanqian ++ 32%N :: n)
  /\ (forall k : jsstring,
         stripPrefix str_BCdash k = None -> gregorianDateMatch k = None ->
         formatDisplayDayKey k
         = if bool_decide (32%N ∈ k) then k ++ [ch_year] else k).
Proof.
  split.
  - intros n. unfold formatDisplayDayKey. by rewrite stripPrefix_app.
  - intros k Hbc Hg. unfold formatDisplayDayKey. rewrite Hbc, Hg.
    destruct (1 <? length (splitOn 32 k))%nat eqn:E.
    + apply Nat.ltb_lt in E. pose proof E as Hin. apply splitOn_length in Hin.
      rewrite bool_decide_true by done.
      rewrite app_comm_cons, app_assoc, joinWith_removelast by done.
      by rewrite joinWith_splitOn.
    + apply Nat.ltb_ge in E. rewrite bool_decide_false; [done|].
      intros Hin%splitOn_length. lia.
Qed.

(** *** BC dates *)





(** *** Dates of a custom era *)










(** A two-digit field. *)
Definition twoDigits (s : jsstring) : Prop := allDigits s /\ length s = 2%nat.


Lemma trim_clean (c c' : N) (m m' : jsstring) :
  c :: m = m' ++ [c'] -> isWhiteSpace c = false -> isWhiteSpace c' = false ->
  trim (c :: m) = c :: m.
Proof.
  intros E Hc Hc'. unfold trim, trimStart, trimEnd.
  rewrite dropWhile_head by done. rewrite E, rev_app_distr. cbn [rev app].
  rewrite dropWhile_head by done. cbn [rev]. by rewrite rev_involutive.
Qed.

Lemma trim_space_clean (c c' : N) (m m' : jsstring) :
  c :: m = m' ++ [c'] -> isWhiteSpace c = false -> isWhiteSpace c' = false ->
  trim (32%N :: c :: m) = c :: m.
Proof.
  intros E Hc Hc'. unfold trim, trimStart. cbn [dropWhile].
  change (isWhiteSpace 32) with true. cbv iota. rewrite Hc.
  unfold trimEnd. rewrite E, rev_app_distr. cbn [rev app].
  rewrite dropWhile_head by done. cbn [rev]. by rewrite rev_involutive.
Qed.


(* ====================================================================== *)
(** * Interaction handlers *)
(* ====================================================================== *)

(** ** toggleEventExpansion *)

(** The updater passed to [setExpandedEvents]. *)
Definition toggleEventExpansion (eventId : jsstring) (prev : gset jsstring)
  : gset jsstring :=
  if decide (eventId ∈ prev) then prev ∖ {[eventId]} else prev ∪ {[eventId]}.

(** X14. Toggling an event twice restores the set; one toggle switches the
    height of the events of that id between 40 and 120 and leaves that of
    every other event. *)
Theorem toggle_expansion (eventId : jsstring) (prev : gset jsstring) :
  toggleEventExpansion eventId (toggleEventExpansion eventId prev) = prev
  /\ forall e : StoryEvent,
      if decide (ev_id e = eventId)
      then (eventHeight (toggleEventExpansion eventId prev) e
            + eventHeight prev e == EVENT_CARD_HEIGHT + CAPSULE_HEIGHT)%Q
      else eventHeight (toggleEventExpansion eventId prev) e
           = eventHeight prev e.
Proof.
  split.
  - unfold toggleEventExpansion.
    destruct (decide (eventId ∈ prev)) as [H|H].
    + rewrite decide_False by set_solver.
      apply set_eq. intros x. destruct (decide (x = eventId)); set_solver.
    + rewrite decide_True by set_solver. set_solver.
  - intros e. unfold eventHeight, toggleEventExpansion.
    destruct (decide (ev_id e = eventId)) as [->|Hne];
      destruct (decide (eventId ∈ prev)) as [H|H].
    + rewrite decide_False by set_solver. ring.
    + rewrite decide_True by set_solver. ring.
    + destruct (decide (ev_id e ∈ prev)) as [H'|H'].
      * by rewrite decide_True by set_solver.
      * by rewrite decide_False by set_solver.
    + destruct (decide (ev_id e ∈ prev)) as [H'|H'].
      * by rewrite decide_True by set_solver.
      * by rewrite decide_False by set_solver.
Qed.

(** ** handleStorylineDrop *)

(** [arr.splice(i, 0, item)]: a start past the end is the end. *)
Definition spliceIn {A : Type} (i : nat) (item : A) (arr : list A) : list A :=
  take i arr ++ item :: drop i arr.

(** The updater passed to [setStorylines]. *)
Definition reorderStorylines (draggedId : jsstring) (dropIndex : nat)
           (currentStorylines : list Storyline) : list Storyline :=
  match list_find (fun s => sl_id s = draggedId) currentStorylines with
  | None => currentStorylines
  | Some (draggedItemIndex, draggedItem) =>
    if decide (draggedItemIndex = dropIndex) then currentStorylines
    else spliceIn dropIndex draggedItem (delete draggedItemIndex currentStorylines)
  end.

Definition handleStorylineDrop (draggedId : jsstring) (dropIndex : nat)
           (storylines : list Storyline) : list Storyline :=
  if truthy draggedId then reorderStorylines draggedId dropIndex storylines
  else storylines.

(** X15. Dropping a storyline keeps the storylines, moves the dragged one to the
    row it was dropped on, and leaves the others in their order; an id that
    names no storyline changes nothing. *)
Theorem storyline_drop (draggedId : jsstring) (dropIndex : nat)
        (storylines : list Storyline) :
  let result := handleStorylineDrop draggedId dropIndex storylines in
  result ≡ₚ storylines
  /\ List.filter (fun s => negb (bool_decide (sl_id s = draggedId))) result
     = List.filter (fun s => negb (bool_decide (sl_id s = draggedId))) storylines
  /\ ((forall s, s ∈ storylines -> sl_id s <> draggedId) -> result = storylines)
  /\ (truthy draggedId = true -> (dropIndex < length storylines)%nat ->
      forall i s, list_find (fun s => sl_id s = draggedId) storylines = Some (i, s) ->
                  result !! dropIndex = Some s).
Proof.
  intros result. unfold result, handleStorylineDrop, reorderStorylines.
  destruct (truthy draggedId) eqn:Et.
  2:{ repeat split; try done. }
  destruct (list_find _ storylines) as [[i s]|] eqn:Ef.
  2:{ repeat split; try done. }
  apply list_find_Some in Ef as (Hi & Hs & Hfirst).
  destruct (decide (i = dropIndex)) as [->|Hne].
  { repeat split; try done. intros _ _ i' s' [= <- <-]. done. }
  assert (storylines = take i storylines ++ s :: drop (S i) storylines) as Hsplit
    by (symmetry; by apply take_drop_middle).
  assert (delete i storylines = take i storylines ++ drop (S i) storylines)
    as Hdel by apply delete_take_drop.
  repeat split.
  - unfold spliceIn. rewrite <- Permutation_middle.
    rewrite take_drop. rewrite Hdel. rewrite Hsplit at 3.
    by rewrite <- Permutation_middle.
  - unfold spliceIn. rewrite List.filter_app. cbn [List.filter].
    rewrite (bool_decide_true _ Hs). cbn [negb].
    rewrite <- List.filter_app, take_drop, Hdel. rewrite Hsplit at 3.
    rewrite !List.filter_app. cbn [List.filter].
    by rewrite (bool_decide_true _ Hs).
  - intros Hnone. exfalso. apply (Hnone s); [|done].
    by eapply list_elem_of_lookup_2.
  - intros _ Hlt i' s' [= <- <-]. unfold spliceIn.
    assert (length (delete i storylines) = pred (length storylines)) as Hlen.
    { rewrite Hdel, length_app, length_take, length_drop.
      apply lookup_lt_Some in Hi. lia. }
    rewrite lookup_app_r; rewrite length_take, Hlen; [|lia].
    replace (dropIndex - dropIndex `min` pred (length storylines))%nat
      with 0%nat by lia.
    done.
Qed.

(** ** Dragging an event over the canvas *)

Record DropIndicator : Type := mkDropIndicator {
  di_x : Q; di_y : Q; di_height : Q;
  di_storylineId : jsstring; di_date : jsstring
}.

Section DragOver.
Variable laneGeometries : gmap jsstring LaneGeo.
Variable sortedUniqueDays : list jsstring.
Variable dayColumnGeometries : gmap jsstring ColumnGeo.
(** [getDropTarget], a callback of the same render. *)
Variable getDropTarget : Q -> Q -> DropResult.

(** [indicatorX]; [None] is the TypeError of reading [.x] of a column that
    the non-null assertion let through. *)
Definition indicatorX (dayKey : jsstring) : option Q :=
  match dayColumnGeometries !! dayKey with
  | Some columnGeo => Some (col_x columnGeo)
  | None =>
    match last sortedUniqueDays with
    | Some lastDayKey =>
      lastGeo ← dayColumnGeometries !! lastDayKey;
      Some (col_x lastGeo + col_width lastGeo + EVENT_GAP)%Q
    | None => Some PADDING_X
    end
  end.

(** The new [dropIndicator] state; [None] is an uncaught exception.
    [point] is what [getTransformedSvgPoint] returned. *)
Definition handleCanvasDragOver (draggingEventId : option jsstring)
           (point : option (Q * Q)) (dropIndicator : option DropIndicator)
  : option (option DropIndicator) :=
  if truthyOpt draggingEventId then
    match point with
    | None => Some dropIndicator
    | Some (px, py) =>
      match getDropTarget px py with
      | Throws => None
      | Returns None => Some dropIndicator
      | Returns (Some (storylineId, date)) =>
        let laneGeo := laneGeometries !! storylineId in
        let dayKey := getDayKey date in
        ix ← indicatorX dayKey;
        match laneGeo with
        | Some lg =>
          Some (Some (mkDropIndicator (ix - EVENT_GAP / 2)%Q (lane_y lg)
                                      (lane_height lg - 20)%Q storylineId date))
        | None => Some dropIndicator
        end
      end
    end
  else Some dropIndicator.

End DragOver.

(** The updater that [handleCanvasDrop] passes to [setEvents]. *)
Definition handleCanvasDrop (eventId : jsstring)
           (dropIndicator : option DropIndicator) (prev : list StoryEvent)
  : list StoryEvent :=
  if truthy eventId then
    match dropIndicator with
    | Some ind =>
      List.map (fun event =>
                  if decide (ev_id event = eventId)
                  then mkStoryEvent (ev_id event) (di_date ind)
                                    (Some (di_storylineId ind)) (ev_typeId event)
                  else event) prev
    | None => prev
    end
  else prev.

(** [handleCanvasDragOver] on the layout of the render. *)
Definition dragOver (events : list StoryEvent) (storylines : list Storyline)
           (eventConnections : list EventConnection) (eraOrder : list jsstring)
           (expandedEvents : gset jsstring) (todayISO : jsstring)
           (localTZA : Z -> bool -> Z)
  : option jsstring -> option (Q * Q) -> option DropIndicator
    -> option (option DropIndicator) :=
  handleCanvasDragOver
    (laneGeometries events storylines eventConnections eraOrder expandedEvents)
    (sortedUniqueDays events eraOrder) (dayColumnGeometries events eraOrder)
    (dropTarget events storylines eventConnections eraOrder expandedEvents
                todayISO localTZA).

(** X16. Dragging an event over the column of day [k] in the lane of storyline
    [s] shows the indicator half a gap left of that column, over the height
    of the lane less 20; dropping it there moves the events of that id, and
    only them, to [s] and to a date of day [k]. *)
Theorem drag_and_drop_into_column
        (events : list StoryEvent) (storylines : list Storyline)
        (eventConnections : list EventConnection) (eraOrder : list jsstring)
        (expandedEvents : gset jsstring) (todayISO : jsstring)
        (localTZA : Z -> bool -> Z) (xPos yPos : Q)
        (eventId : jsstring) (before : option DropIndicator)
        (s : Storyline) (k : jsstring) (g : ColumnGeo) :
  truthy eventId = true ->
  laneUnder storylines
            (laneGeometries events storylines eventConnections eraOrder
                            expandedEvents) yPos = Some s ->
  dayColumnGeometries events eraOrder !! k = Some g ->
  (col_x g - EVENT_GAP / 2 <= xPos)%Q ->
  (xPos < col_x g + col_width g + EVENT_GAP / 2)%Q ->
  exists (lg : LaneGeo) (ind : DropIndicator),
    laneGeometries events storylines eventConnections eraOrder expandedEvents
      !! sl_id s = Some lg
    /\ dragOver events storylines eventConnections eraOrder expandedEvents
                todayISO localTZA (Some eventId) (Some (xPos, yPos)) before
       = Some (Some ind)
    /\ (di_x ind == col_x g - EVENT_GAP / 2)%Q
    /\ di_y ind = lane_y lg
    /\ (di_height ind == lane_height lg - 20)%Q /\ (60 <= di_height ind)%Q
    /\ let after := handleCanvasDrop eventId (Some ind) events in
       List.map ev_id after = List.map ev_id events
       /\ forall i e, events !! i = Some e ->
            exists e', after !! i = Some e'
                       /\ ev_typeId e' = ev_typeId e
                       /\ if decide (ev_id e = eventId)
                          then ev_storylineId e' = Some (sl_id s)
                               /\ getDayKey (ev_date e') = k
                          else e' = e.
Proof.
  intros Hid Hlane Hg Hx1 Hx2.
  assert (getDayKey (firstEventDate events eraOrder k) = k) as Hkey.
  { apply firstEventDate_dayKey.
    pose proof Hg as (pos & Hpos & _)%dayColumnGeometries_lookup.
    by apply bands_fst in Hpos. }
  assert (dropTarget events storylines eventConnections eraOrder expandedEvents
                     todayISO localTZA xPos yPos
          = Returns (Some (sl_id s, firstEventDate events eraOrder k)))
    as Htarget.
  { unfold dropTarget, getDropTarget. rewrite (laneUnder_size _ _ _ _ Hlane).
    pose proof Hlane as Hfound. unfold laneUnder in Hfound. rewrite Hfound.
    by rewrite (findColumn_inside events eraOrder xPos k g Hg Hx1 Hx2). }
  pose proof Hlane as Hfind. apply find_some in Hfind as [_ Hpred].
  destruct (laneGeometries events storylines eventConnections eraOrder
              expandedEvents !! sl_id s) as [lg|] eqn:Elg; [|done].
  exists lg, (mkDropIndicator (col_x g - EVENT_GAP / 2)%Q (lane_y lg)
                              (lane_height lg - 20)%Q (sl_id s)
                              (firstEventDate events eraOrder k)).
  split; [done|]. split.
  - unfold dragOver, handleCanvasDragOver. cbn [truthyOpt]. rewrite Hid, Htarget.
    unfold indicatorX. rewrite Hkey, Hg. cbn [mbind option_bind]. by rewrite Elg.
  - cbn [di_x di_y di_height di_storylineId di_date].
    split; [done|]. split; [done|]. split; [done|]. split.
    { destruct (laneGeometries_lookup _ _ _ _ _ _ _ Elg) as (s' & pos & _ & _ & ->).
      cbn [lane_height].
      pose proof (laneHeightOf_ge events storylines eventConnections eraOrder
                    expandedEvents s').
      unfold MIN_LANE_HEIGHT, CAPSULE_HEIGHT, LANE_VERTICAL_PADDING in *. lra. }
    unfold handleCanvasDrop. rewrite Hid. split.
    + rewrite List.map_map. apply List.map_ext. intros e.
      by destruct (decide (ev_id e = eventId)).
    + intros i e He. eexists. split.
      * apply list_lookup_fmap_Some. exists e. split; [reflexivity | done].
      * destruct (decide (ev_id e = eventId)); [|done].
        cbn [ev_typeId ev_storylineId ev_date di_date di_storylineId]. done.
Qed.
#[local] Close Scope Z_scope.

(* ====================================================================== *)
(** * The highlighted chain *)
(* ====================================================================== *)

Lemma infoMap_setAll (l : list (EventConnection * HighlightInfo)) :
  infoMap l = setAll (fun ci => conn_id (fst ci)) snd l ∅.
Proof. done. Qed.

(** X17. With an event hovered: it is highlighted itself; a connection between
    two events with ids has both its ends highlighted or none; the
    connections with an entry in [highlightedConnectionInfo] are those with
    both ends highlighted, and an entry holds an index below 7 and the
    palette colour at that index. *)
Theorem highlight_chain (conns : list EventConnection) (h : jsstring) :
  truthy h = true ->
  exists (S : gset jsstring) (info : gmap jsstring HighlightInfo),
    highlightedEvents conns (Some h) = Some S
    /\ highlightedConnectionInfo conns (Some h) = Some info
    /\ h ∈ S
    /\ (forall c, c ∈ conns -> truthy (fromEventId c) = true ->
                  truthy (toEventId c) = true ->
                  (fromEventId c ∈ S <-> toEventId c ∈ S))
    /\ (forall c, c ∈ conns -> fromEventId c ∈ S -> toEventId c ∈ S ->
                  is_Some (info !! conn_id c))
    /\ (forall id i, info !! id = Some i ->
          (hl_index i < 7)%nat
          /\ hl_color i = nth (hl_index i) HIGHLIGHT_COLORS EmptyString
          /\ exists c, c ∈ conns /\ conn_id c = id
                       /\ fromEventId c ∈ S /\ toEventId c ∈ S).
Proof.
  intros Hh.
  destruct (componentOf_correct conns h) as (S & HS & Hmem).
  set (l := componentConnectionsOf conns S).
  exists S, (infoMap (colorConnections l)).
  unfold highlightedEvents, highlightedConnectionInfo, highlight.
  cbn [truthyOpt]. change (default [] (Some h)) with h. rewrite Hh, HS. cbn [mbind option_bind fmap option_fmap option_map fst snd].
  split; [done|]. split; [done|].
  destruct (colorConnections_spec l) as [Hfst Hinfo]. cbv zeta in Hfst, Hinfo.
  assert (forall c, c ∈ l <-> c ∈ conns /\ fromEventId c ∈ S /\ toEventId c ∈ S)
    as Hl.
  { intros c. unfold l, componentConnectionsOf.
    rewrite list_elem_of_In, filter_In, <- list_elem_of_In.
    rewrite andb_true_iff, !bool_decide_eq_true. tauto. }
  split; [apply Hmem; constructor|]. split; [|split].
  - intros c Hc Hf Ht. rewrite !Hmem. split; intros Hr.
    + eapply rtc_r; [exact Hr|]. split; [done|]. exists c. split; [done|].
      by left.
    + eapply rtc_r; [exact Hr|]. split; [done|]. exists c. split; [done|].
      by right.
  - intros c Hc Hf Ht.
    assert (c ∈ List.map fst (colorConnections l)) as Hin
      by (rewrite Hfst; by apply Hl).
    apply list_elem_of_fmap in Hin as (ci & -> & Hci).
    rewrite infoMap_setAll.
    by apply (setAll_lookup_is_Some (fun ci => conn_id (fst ci)) snd).
  - intros id i Hi. rewrite infoMap_setAll in Hi.
    apply setAll_lookup in Hi as [Hi|(ci & Hci & Hid & Hval)];
      [by rewrite lookup_empty in Hi|].
    apply list_elem_of_lookup in Hci as [j Hj].
    pose proof (Hinfo j ci Hj) as Hc. subst i.
    split; [rewrite Hc; apply infoOf_index_lt|]. split; [by rewrite Hc|].
    exists (fst ci). split; [|split; [done|]].
    + apply Hl. rewrite <- Hfst. apply list_elem_of_fmap. exists ci.
      split; [done|]. by eapply list_elem_of_lookup_2.
    + apply Hl. rewrite <- Hfst. apply list_elem_of_fmap. exists ci.
      split; [done|]. by eapply list_elem_of_lookup_2.
Qed.
#[local] Open Scope Q_scope.

(* ====================================================================== *)
(** * The routed connections *)
(* ====================================================================== *)

(** The coordinate of the line that carries side [s] of a rectangle, and
    the coordinate of a point across that line. *)
Definition sideLine (s : Side) (l : EventLayout) : Q :=
  match s with
  | SideTop => y l
  | SideBottom => y l + height l
  | SideLeft => x l
  | SideRight => x l + width l
  end.

Definition coordAcross (s : Side) (p : Point) : Q :=
  match s with SideTop | SideBottom => snd p | SideLeft | SideRight => fst p end.

Section RouteSequence.
Context (layouts : gmap jsstring EventLayout) (columns : gmap jsstring ColumnGeo).

(** The second pass draws this connection. *)
Definition routable (conn : EventConnection) : bool :=
  match ports layouts columns conn with [] => false | _ => true end.

(** What one drawn connection looks like. *)
Definition wellAnchored (cp : EventConnection * ConnectionPath) : Prop :=
  exists from to,
    layouts !! fromEventId (fst cp) = Some from
    /\ layouts !! toEventId (fst cp) = Some to
    /\ ports layouts columns (fst cp)
       = [(ev_id (event from), startPort (snd cp));
          (ev_id (event to), endPort (snd cp))]
    /\ coordAcross (startPort (snd cp)) (cp_from (snd cp))
       = sideLine (startPort (snd cp)) from
    /\ coordAcross (endPort (snd cp)) (cp_to (snd cp))
       = sideLine (endPort (snd cp)) to.

Lemma routeStep_anchored (st st' : RouterState) (conn : EventConnection) :
  routeStep layouts columns st conn = Some st' ->
  (routable conn = false /\ st' = st)
  \/ (routable conn = true
      /\ exists p, snd st' = snd st ++ [(conn, p)] /\ wellAnchored (conn, p)).
Proof.
  destruct st as [pu paths]. unfold routeStep, routable, wellAnchored, ports.
  cbn [fst snd].
  destruct (layouts !! fromEventId conn) as [from|]; [|intros [= <-]; by left].
  destruct (layouts !! toEventId conn) as [to|]; [|intros [= <-]; by left].
  destruct (decide (getDayKey (ev_date (event from))
                    = getDayKey (ev_date (event to)))) as [Hday|Hday].
  - destruct (Qlt_bool (y from) (y to));
      unfold bump, fractionAt;
      destruct (pu !! ev_id (event from)) as [u1|]; cbn [mbind option_bind];
        try done;
      match goal with
      | |- context [<[?k := ?v]> pu !! ev_id (event to)] =>
        destruct (<[k := v]> pu !! ev_id (event to)) as [u2|];
          cbn [mbind option_bind]; try done
      end;
      rewrite lookup_insert_eq; cbn [mbind option_bind];
      match goal with
      | |- context [<[?k2 := ?v2]> (<[?k := ?v]> pu) !! ev_id (event from)] =>
        destruct (<[k2 := v2]> (<[k := v]> pu) !! ev_id (event from)) as [u3|];
          cbn [mbind option_bind]; try done
      end;
      intros [= <-]; right; (split; [done|]); eexists; (split; [reflexivity|]);
      exists from, to; done.
  - destruct (columns !! getDayKey (ev_date (event from))) as [fc|];
      [|intros [= <-]; by left].
    destruct (columns !! getDayKey (ev_date (event to))) as [tc|];
      [|intros [= <-]; by left].
    destruct (Qlt_bool (col_x fc) (col_x tc));
      unfold bump, fractionAt;
      destruct (pu !! ev_id (event from)) as [u1|]; cbn [mbind option_bind];
        try done;
      rewrite lookup_insert_eq; cbn [mbind option_bind];
      match goal with
      | |- context [<[?k := ?v]> pu !! ev_id (event to)] =>
        destruct (<[k := v]> pu !! ev_id (event to)) as [u2|];
          cbn [mbind option_bind]; try done
      end;
      rewrite lookup_insert_eq; cbn [mbind option_bind];
      intros [= <-]; right; (split; [done|]); eexists; (split; [reflexivity|]);
      exists from, to; done.
Qed.

Lemma routeLoop_anchored (rest : list EventConnection) (st st' : RouterState) :
  routeLoop layouts columns st rest = Some st' ->
  exists new, snd st' = snd st ++ new
              /\ List.map fst new = List.filter routable rest
              /\ Forall wellAnchored new.
Proof.
  revert st. induction rest as [|conn rest IH]; intros st; cbn [routeLoop].
  - intros [= <-]. exists []. by rewrite app_nil_r.
  - destruct (routeStep layouts columns st conn) as [st1|] eqn:E1;
      cbn [mbind option_bind]; [|done].
    intros Hloop. destruct (IH _ Hloop) as (new & Hs & Hm & Hw).
    cbn [List.filter].
    destruct (routeStep_anchored _ _ _ E1) as [[-> ->]|(-> & p & Hp & Ha)].
    + by exists new.
    + exists ((conn, p) :: new). rewrite Hs, Hp, <- app_assoc.
      split; [done|]. split; [by rewrite <- Hm | by constructor].
Qed.

End RouteSequence.

Section RoutedFacts.
Context (events : list StoryEvent) (storylines : list Storyline)
        (eventConnections : list EventConnection)
        (eventTypes : list EventType)
        (eraOrder : list jsstring) (expandedEvents : gset jsstring).

#[local] Abbreviation layoutsR :=
  (eventLayouts events storylines eventConnections eventTypes eraOrder
                expandedEvents).
#[local] Abbreviation columnsR := (dayColumnGeometries events eraOrder).
#[local] Abbreviation placedR :=
  (allPlacements events storylines eventConnections eventTypes eraOrder
                 expandedEvents).

(** Both ends of the connection have a rectangle. *)
Definition bothDrawn (conn : EventConnection) : bool :=
  bool_decide (is_Some (layoutsR !! fromEventId conn))
  && bool_decide (is_Some (layoutsR !! toEventId conn)).

Lemma routable_bothDrawn (conn : EventConnection) :
  routable layoutsR columnsR conn = bothDrawn conn.
Proof.
  unfold routable, bothDrawn, ports.
  destruct (layoutsR !! fromEventId conn) as [from|] eqn:Ef.
  2:{ rewrite bool_decide_false; [done|]. by intros [? ?]. }
  destruct (layoutsR !! toEventId conn) as [to|] eqn:Et.
  2:{ rewrite andb_comm, bool_decide_false; [done|]. by intros [? ?]. }
  rewrite !bool_decide_true by done.
  apply eventLayouts_placement in Ef as [Hf _].
  apply eventLayouts_placement in Et as [Ht _].
  destruct (placement_origin _ _ _ _ _ _ _ Hf) as (? & fc & ? & ? & _ & -> & _).
  destruct (placement_origin _ _ _ _ _ _ _ Ht) as (? & tc & ? & ? & _ & -> & _).
  destruct (decide _); [by destruct (Qlt_bool _ _)|].
  by destruct (Qlt_bool _ _).
Qed.

(** Two rectangles of one day, of different events: the upper one ends
    25 above the lower one. *)
Lemma same_day_apart (l1 l2 : EventLayout) :
  l1 ∈ placedR -> l2 ∈ placedR ->
  getDayKey (ev_date (event l1)) = getDayKey (ev_date (event l2)) ->
  ev_id (event l1) <> ev_id (event l2) ->
  y l1 + height l1 + 25 <= y l2 \/ y l2 + height l2 + 25 <= y l1.
Proof.
  intros H1 H2 Hday Hne.
  destruct (decide (sl_id (storyline l1) = sl_id (storyline l2))) as [Hs|Hs].
  - pose proof (placement_same_stack _ _ _ _ _ _ _ _ H1 H2 Hs Hday Hne) as H.
    unfold SAME_DAY_VERTICAL_GAP in H. done.
  - destruct (placement_origin _ _ _ _ _ _ _ H1) as (g1 & _ & _ & _ & Hg1 & _).
    destruct (placement_origin _ _ _ _ _ _ _ H2) as (g2 & _ & _ & _ & Hg2 & _).
    pose proof (placement_in_lane _ _ _ _ _ _ _ _ H1 Hg1) as [A1 B1].
    pose proof (placement_in_lane _ _ _ _ _ _ _ _ H2 Hg2) as [A2 B2].
    pose proof (lanes_apart _ _ _ _ _ _ _ _ _ Hg1 Hg2 Hs) as Hl.
    unfold LANE_VERTICAL_PADDING in *. destruct Hl; [left | right]; lra.
Qed.

End RoutedFacts.

(** X18. The router draws, in their order, the connections both ends of which
    have a rectangle. Each starts on the line of the side it leaves and
    ends on the line of the side it enters; between two different events
    these are facing sides, the end at least 80 beyond the start between
    two columns and at least 25 beyond it inside one. *)
Theorem routed_connections
        (events : list StoryEvent) (storylines : list Storyline)
        (eventConnections : list EventConnection) (eventTypes : list EventType)
        (eraOrder : list jsstring) (expandedEvents : gset jsstring) :
  let layouts := eventLayouts events storylines eventConnections eventTypes
                              eraOrder expandedEvents in
  let columns := dayColumnGeometries events eraOrder in
  exists routed,
    route layouts columns eventConnections = Some routed
    /\ List.map fst routed
       = List.filter (bothDrawn events storylines eventConnections eventTypes
                                eraOrder expandedEvents) eventConnections
    /\ forall c p, (c, p) ∈ routed ->
         exists from to,
           layouts !! fromEventId c = Some from
           /\ layouts !! toEventId c = Some to
           /\ coordAcross (startPort p) (cp_from p) = sideLine (startPort p) from
           /\ coordAcross (endPort p) (cp_to p) = sideLine (endPort p) to
           /\ (fromEventId c <> toEventId c ->
               match startPort p with
               | SideRight =>
                 endPort p = SideLeft /\ fst (cp_from p) + 80 <= fst (cp_to p)
               | SideLeft =>
                 endPort p = SideRight /\ fst (cp_to p) + 80 <= fst (cp_from p)
               | SideBottom =>
                 endPort p = SideTop /\ snd (cp_from p) + 25 <= snd (cp_to p)
               | SideTop =>
                 endPort p = SideBottom /\ snd (cp_to p) + 25 <= snd (cp_from p)
               end).
Proof.
  intros layouts columns.
  destruct (route_entries layouts columns eventConnections) as (routed & Hr & _).
  exists routed. split; [done|].
  unfold route in Hr.
  destruct (routeLoop layouts columns
              (countPorts layouts columns eventConnections, []) eventConnections)
    as [st|] eqn:Hloop; cbn [mbind option_bind] in Hr; [|done].
  inversion Hr; subst routed. clear Hr.
  destruct (routeLoop_anchored _ _ _ _ _ Hloop) as (new & Hs & Hm & Hw).
  cbn [snd app] in Hs. rewrite Hs. split.
  - rewrite Hm. apply List.filter_ext. intros c. apply routable_bothDrawn.
  - intros c p Hin. rewrite Forall_forall in Hw.
    destruct (Hw _ Hin) as (from & to & Hf & Ht & Hports & Hc1 & Hc2).
    cbn [fst snd] in *. exists from, to. repeat (split; [done|]).
    intros Hne.
    pose proof Hf as Hf'. pose proof Ht as Ht'.
    apply eventLayouts_placement in Hf' as [Pf If].
    apply eventLayouts_placement in Ht' as [Pt It].
    assert (ev_id (event from) <> ev_id (event to)) as Hid by congruence.
    unfold ports in Hports. fold layouts in Hports. rewrite Hf, Ht in Hports.
    destruct (decide (getDayKey (ev_date (event from))
                      = getDayKey (ev_date (event to)))) as [Hday|Hday].
    + pose proof (same_day_apart _ _ _ _ _ _ _ _ Pf Pt Hday Hid) as Hap.
      destruct (Qlt_bool (y from) (y to)) eqn:Ey;
        inversion Hports as [[Hs1 Hs2]]; rewrite <- Hs1, <- Hs2 in *;
        cbn [coordAcross sideLine] in Hc1, Hc2; rewrite Hc1, Hc2;
        (split; [done|]).
      * apply Qlt_bool_iff in Ey.
        destruct (placement_origin _ _ _ _ _ _ _ Pt)
          as (? & ? & ? & ? & _ & _ & _ & _ & _ & Hst).
        apply stackPlacements_facts in Hst as (_ & _ & _ & _ & Hh & _).
        pose proof (eventHeight_bounds expandedEvents (event to)) as [? ?].
        rewrite Hh in Hap. destruct Hap; lra.
      * apply Qlt_bool_false_iff in Ey.
        destruct (placement_origin _ _ _ _ _ _ _ Pf)
          as (? & ? & ? & ? & _ & _ & _ & _ & _ & Hst).
        apply stackPlacements_facts in Hst as (_ & _ & _ & _ & Hh & _).
        pose proof (eventHeight_bounds expandedEvents (event from)) as [? ?].
        rewrite Hh in Hap. destruct Hap; lra.
    + destruct (placement_origin _ _ _ _ _ _ _ Pf)
        as (? & fc & ? & ? & _ & Hfc & _).
      destruct (placement_origin _ _ _ _ _ _ _ Pt)
        as (? & tc & ? & ? & _ & Htc & _).
      fold columns in Hfc, Htc. rewrite Hfc, Htc in Hports.
      pose proof (placement_in_column _ _ _ _ _ _ _ _ Pf Hfc) as [Xf1 Xf2].
      pose proof (placement_in_column _ _ _ _ _ _ _ _ Pt Htc) as [Xt1 Xt2].
      pose proof (columns_apart _ _ _ _ _ _ Hfc Htc Hday) as Hap.
      unfold EVENT_GAP in Hap.
      destruct (dayColumnGeometries_lookup _ _ _ _ Hfc) as (? & _ & Ef).
      destruct (dayColumnGeometries_lookup _ _ _ _ Htc) as (? & _ & Et).
      pose proof (columnWidthOf_ge events eraOrder
                    (getDayKey (ev_date (event from)))) as Wf.
      pose proof (columnWidthOf_ge events eraOrder
                    (getDayKey (ev_date (event to)))) as Wt.
      assert (0 <= col_width fc) as Wf'
        by (rewrite Ef; cbn [col_width]; unfold EVENT_WIDTH in *; lra).
      assert (0 <= col_width tc) as Wt'
        by (rewrite Et; cbn [col_width]; unfold EVENT_WIDTH in *; lra).
      destruct (Qlt_bool (col_x fc) (col_x tc)) eqn:Ex;
        inversion Hports as [[Hs1 Hs2]]; rewrite <- Hs1, <- Hs2 in *;
        cbn [coordAcross sideLine] in Hc1, Hc2; rewrite Hc1, Hc2;
        (split; [done|]).
      * apply Qlt_bool_iff in Ex. destruct Hap; lra.
      * apply Qlt_bool_false_iff in Ex. destruct Hap; lra.
Qed.
#[local] Close Scope Q_scope.
#[local] Open Scope Z_scope.

(* ====================================================================== *)
(** * Ending a connection drag *)
(* ====================================================================== *)

#[local] Open Scope Q_scope.

(** ** The entries of a Map *)

(** [map.set(k, v)] on the entries of a Map, which are kept in the order in
    which their keys were first set: a key that is there keeps its place
    and takes the new value. *)
Fixpoint mapSet {V : Type} (k : jsstring) (v : V)
         (entries : list (jsstring * V)) : list (jsstring * V) :=
  match entries with
  | [] => [(k, v)]
  | (k', v') :: rest =>
    if decide (k' = k) then (k, v) :: rest else (k', v') :: mapSet k v rest
  end.

(** [map.entries()] after the [set] calls [ps] on an empty Map. *)
Definition entriesAfter {P V : Type} (key : P -> jsstring) (val : P -> V)
           (ps : list P) : list (jsstring * V) :=
  fold_left (fun acc p => mapSet (key p) (val p) acc) ps [].

(** [eventLayouts.entries()] *)
Definition layoutEntries (events : list StoryEvent) (storylines : list Storyline)
           (eventConnections : list EventConnection)
           (eventTypes : list EventType) (eraOrder : list jsstring)
           (expandedEvents : gset jsstring) : list (jsstring * EventLayout) :=
  entriesAfter (fun l => ev_id (event l)) (fun l => l)
               (allPlacements events storylines eventConnections eventTypes
                              eraOrder expandedEvents).

(** ** handleConnectionEnd *)

(** The test of the loop over the entries: the point lies in the rectangle,
    its border included. *)
Definition hit (px py : Q) (layout : EventLayout) : bool :=
  Qle_bool (x layout) px && Qle_bool px (x layout + width layout)
  && Qle_bool (y layout) py && Qle_bool py (y layout + height layout).

(** What the handler does besides resetting the drag state. *)
Inductive ConnectionEnd : Type :=
  | AddConnection (newConnection : EventConnection)
  | AddEventRequest (storylineId date connectFrom : jsstring)
  | NoChange
  | Uncaught.

Section ConnectionDrag.
Variable entries : list (jsstring * EventLayout).
(** [getDropTarget], a callback of the same render. *)
Variable getDropTarget : Q -> Q -> DropResult.
(** [`conn-${Date.now()}`], read from the clock. *)
Variable newId : jsstring.

Definition droppedOnEventId (px py : Q) : option jsstring :=
  fst <$> List.find (fun entry => hit px py (snd entry)) entries.

(** [eventId] is the event the drag started on, [point] what
    [getTransformedSvgPoint] returned. *)
Definition handleConnectionEnd (eventId : jsstring) (point : option (Q * Q))
  : ConnectionEnd :=
  match point with
  | None => NoChange
  | Some (px, py) =>
    if truthyOpt (droppedOnEventId px py) then
      let dropped := default [] (droppedOnEventId px py) in
      if truthy eventId && negb (bool_decide (eventId = dropped))
      then AddConnection (mkEventConnection newId eventId dropped)
      else NoChange
    else
      match getDropTarget px py with
      | Throws => Uncaught
      | Returns None => NoChange
      | Returns (Some (storylineId, date)) =>
        AddEventRequest storylineId date eventId
      end
  end.
End ConnectionDrag.

(** [handleConnectionEnd] on the layout of the render. *)
Definition connectionEnd (events : list StoryEvent) (storylines : list Storyline)
           (eventConnections : list EventConnection)
           (eventTypes : list EventType) (eraOrder : list jsstring)
           (expandedEvents : gset jsstring) (todayISO : jsstring)
           (localTZA : Z -> bool -> Z) (newId : jsstring)
  : jsstring -> option (Q * Q) -> ConnectionEnd :=
  handleConnectionEnd
    (layoutEntries events storylines eventConnections eventTypes eraOrder
                   expandedEvents)
    (dropTarget events storylines eventConnections eraOrder expandedEvents
                todayISO localTZA)
    newId.

(** ** Properties *)

Lemma mapSet_keys {V : Type} (k : jsstring) (v : V) (entries : list (jsstring * V)) :
  NoDup (List.map fst entries) -> NoDup (List.map fst (mapSet k v entries)).
Proof.
  induction entries as [|[k' v'] rest IH]; cbn [mapSet List.map fst].
  - intros _. apply NoDup_singleton.
  - intros [Hn Hnd]%NoDup_cons. destruct (decide (k' = k)) as [->|Hne].
    + by apply NoDup_cons.
    + cbn [List.map fst]. apply NoDup_cons. split; [|by apply IH].
      intros Hin. apply Hn. clear -Hin Hne.
      induction rest as [|[k2 v2] rest IH]; cbn [mapSet List.map fst] in *.
      * apply list_elem_of_singleton in Hin. congruence.
      * destruct (decide (k2 = k)) as [->|Hne2]; cbn [List.map fst] in Hin.
        -- apply elem_of_cons in Hin as [Hin|Hin]; [congruence|].
           by apply elem_of_cons; right.
        -- apply elem_of_cons in Hin as [Hin|Hin]; [subst; by left|].
           apply elem_of_cons; right. by apply IH.
Qed.

Lemma mapSet_elem {V : Type} (k : jsstring) (v : V)
      (entries : list (jsstring * V)) (k0 : jsstring) (v0 : V) :
  NoDup (List.map fst entries) ->
  (k0, v0) ∈ mapSet k v entries
  <-> (k0 = k /\ v0 = v) \/ (k0 <> k /\ (k0, v0) ∈ entries).
Proof.
  induction entries as [|[k' v'] rest IH]; cbn [mapSet List.map fst].
  - intros _. rewrite list_elem_of_singleton. split.
    + intros [= -> ->]. by left.
    + intros [[-> ->]|[_ H]]; [done|]. by apply elem_of_nil in H.
  - intros [Hn Hnd]%NoDup_cons. destruct (decide (k' = k)) as [->|Hne].
    + rewrite !elem_of_cons. split.
      * intros [[= -> ->]|H]; [by left|]. right. split; [|by right].
        intros ->. apply Hn. apply list_elem_of_fmap. by exists (k, v0).
      * intros [[-> ->]|[Hk [[= ? ?]|H]]]; [by left|done|by right].
    + rewrite !elem_of_cons, (IH Hnd). split.
      * intros [[= -> ->]|[H|[H1 H2]]]; [|by left|].
        -- right. split; [done|]. by left.
        -- right. split; [done|]. by right.
      * intros [H|[H1 [[= -> ->]|H2]]]; [right; by left|by left|].
        right. right. done.
Qed.

Section EntriesFacts.
Context {P V : Type} (key : P -> jsstring) (val : P -> V).

Lemma entries_fold (ps : list P) (acc : list (jsstring * V))
      (m : gmap jsstring V) :
  NoDup (List.map fst acc) ->
  (forall k v, (k, v) ∈ acc <-> m !! k = Some v) ->
  let result := fold_left (fun acc p => mapSet (key p) (val p) acc) ps acc in
  NoDup (List.map fst result)
  /\ forall k v, (k, v) ∈ result <-> setAll key val ps m !! k = Some v.
Proof.
  revert acc m. induction ps as [|p ps IH]; intros acc m Hnd Hacc; [done|].
  cbn [fold_left]. apply IH; [by apply mapSet_keys|].
  intros k v. rewrite mapSet_elem by done. rewrite Hacc.
  destruct (decide (k = key p)) as [->|Hne].
  - rewrite lookup_insert_eq. split.
    + intros [[_ ->]|[H _]]; done.
    + intros [= ->]. by left.
  - rewrite lookup_insert_ne by done. split.
    + intros [[H _]|[_ H]]; done.
    + intros H. by right.
Qed.

(** The entries are those of the map, each key once. *)
Lemma entriesAfter_spec (ps : list P) :
  NoDup (List.map fst (entriesAfter key val ps))
  /\ forall k v, (k, v) ∈ entriesAfter key val ps
                 <-> setAll key val ps ∅ !! k = Some v.
Proof.
  apply (entries_fold ps [] ∅); [constructor|].
  intros k v. rewrite lookup_empty. split; [by intros H%elem_of_nil | done].
Qed.
End EntriesFacts.

Section HitFacts.
Context (events : list StoryEvent) (storylines : list Storyline)
        (eventConnections : list EventConnection)
        (eventTypes : list EventType)
        (eraOrder : list jsstring) (expandedEvents : gset jsstring).

#[local] Abbreviation layoutsH :=
  (eventLayouts events storylines eventConnections eventTypes eraOrder
                expandedEvents).
#[local] Abbreviation entriesH :=
  (layoutEntries events storylines eventConnections eventTypes eraOrder
                 expandedEvents).

Lemma layoutEntries_lookup (id : jsstring) (l : EventLayout) :
  (id, l) ∈ entriesH <-> layoutsH !! id = Some l.
Proof.
  unfold layoutEntries. rewrite eventLayouts_setAll.
  apply (entriesAfter_spec (fun l => ev_id (event l)) (fun l => l)).
Qed.

(** No point lies in the rectangles of two ids. *)
Lemma hit_unique (px py : Q) (id1 id2 : jsstring) (l1 l2 : EventLayout) :
  layoutsH !! id1 = Some l1 -> layoutsH !! id2 = Some l2 ->
  hit px py l1 = true -> hit px py l2 = true -> id1 = id2.
Proof.
  intros [Hp1 Hid1]%eventLayouts_placement [Hp2 Hid2]%eventLayouts_placement.
  unfold hit. rewrite !andb_true_iff, !Qle_bool_iff.
  intros [[[A1 B1] C1] D1] [[[A2 B2] C2] D2].
  destruct (decide (id1 = id2)) as [|Hne]; [done|]. exfalso.
  assert (ev_id (event l1) <> ev_id (event l2)) as Hev by congruence.
  destruct (decide (getDayKey (ev_date (event l1))
                    = getDayKey (ev_date (event l2)))) as [Hday|Hday].
  - destruct (same_day_apart events storylines eventConnections eventTypes
                eraOrder expandedEvents l1 l2 Hp1 Hp2 Hday Hev); lra.
  - destruct (placement_origin _ _ _ _ _ _ _ Hp1) as (_ & c1 & _ & _ & _ & Hc1 & _).
    destruct (placement_origin _ _ _ _ _ _ _ Hp2) as (_ & c2 & _ & _ & _ & Hc2 & _).
    pose proof (placement_in_column _ _ _ _ _ _ _ _ Hp1 Hc1) as [X1 Y1].
    pose proof (placement_in_column _ _ _ _ _ _ _ _ Hp2 Hc2) as [X2 Y2].
    destruct (columns_apart _ _ _ _ _ _ Hc1 Hc2 Hday) as [H|H];
      unfold EVENT_GAP in H; lra.
Qed.

Lemma droppedOn_hit (px py : Q) (id : jsstring) (l : EventLayout) :
  layoutsH !! id = Some l -> hit px py l = true ->
  droppedOnEventId entriesH px py = Some id.
Proof.
  intros Hl Hhit. unfold droppedOnEventId.
  destruct (List.find _ entriesH) as [[id' l']|] eqn:E.
  - apply find_some in E as [Hin Hh]. cbn [snd] in Hh.
    apply list_elem_of_In, layoutEntries_lookup in Hin.
    cbn [fmap option_fmap option_map fst]. f_equal.
    by apply (hit_unique px py id' id l' l).
  - exfalso. apply layoutEntries_lookup, list_elem_of_In in Hl.
    pose proof (find_none _ _ E _ Hl) as Hn. cbn [snd] in Hn. congruence.
Qed.

Lemma droppedOn_Some (px py : Q) (id : jsstring) :
  droppedOnEventId entriesH px py = Some id ->
  exists l, layoutsH !! id = Some l /\ hit px py l = true.
Proof.
  unfold droppedOnEventId.
  destruct (List.find _ entriesH) as [[id' l']|] eqn:E; [|done].
  intros [= <-]. apply find_some in E as [Hin Hh].
  apply list_elem_of_In, layoutEntries_lookup in Hin. by exists l'.
Qed.

Lemma droppedOn_miss (px py : Q) :
  (forall id l, layoutsH !! id = Some l -> hit px py l = false) ->
  droppedOnEventId entriesH px py = None.
Proof.
  intros Hmiss. destruct (droppedOnEventId entriesH px py) as [id|] eqn:E; [|done].
  apply droppedOn_Some in E as (l & Hl & Hh). rewrite (Hmiss _ _ Hl) in Hh. done.
Qed.

End HitFacts.

(** X19. Releasing a connection drag at a point of the canvas. On the
    rectangle of an event with a non-empty id [d], border included, the
    handler adds the connection from the source to [d] when the source is
    another event, and changes nothing when it is [d] itself. On no
    rectangle, it asks for a new event at the drop target of the point,
    connected from the source. A connection that is added never joins an
    event to itself, and ends at the event under the point. *)
Theorem connection_end
        (events : list StoryEvent) (storylines : list Storyline)
        (eventConnections : list EventConnection) (eventTypes : list EventType)
        (eraOrder : list jsstring) (expandedEvents : gset jsstring)
        (todayISO : jsstring) (localTZA : Z -> bool -> Z) (newId : jsstring)
        (eventId : jsstring) (px py : Q) :
  let layouts := eventLayouts events storylines eventConnections eventTypes
                              eraOrder expandedEvents in
  let result := connectionEnd events storylines eventConnections eventTypes
                              eraOrder expandedEvents todayISO localTZA newId
                              eventId (Some (px, py)) in
  (forall d l, layouts !! d = Some l -> hit px py l = true -> truthy d = true ->
     result = if truthy eventId && negb (bool_decide (eventId = d))
              then AddConnection (mkEventConnection newId eventId d)
              else NoChange)
  /\ ((forall d l, layouts !! d = Some l -> hit px py l = false) ->
      result = match dropTarget events storylines eventConnections eraOrder
                                expandedEvents todayISO localTZA px py with
               | Throws => Uncaught
               | Returns None => NoChange
               | Returns (Some (storylineId, date)) =>
                 AddEventRequest storylineId date eventId
               end)
  /\ (forall c, result = AddConnection c ->
        conn_id c = newId /\ fromEventId c = eventId
        /\ fromEventId c <> toEventId c
        /\ exists l, layouts !! toEventId c = Some l /\ hit px py l = true).
Proof.
  intros layouts result. unfold result, connectionEnd, handleConnectionEnd.
  split; [|split].
  - intros d l Hl Hh Ht.
    rewrite (droppedOn_hit _ _ _ _ _ _ px py d l Hl Hh).
    cbn [truthyOpt default]. by rewrite Ht.
  - intros Hmiss. by rewrite (droppedOn_miss _ _ _ _ _ _ px py Hmiss).
  - intros c.
    destruct (droppedOnEventId _ px py) as [d|] eqn:E; cbn [truthyOpt].
    + change (default [] (Some d)) with d. destruct (truthy d).
      * destruct (truthy eventId); cbn [andb]; [|done].
        destruct (bool_decide (eventId = d)) eqn:Eb; cbn [negb]; [done|].
        intros [= <-]. cbn [conn_id fromEventId toEventId].
        apply bool_decide_eq_false in Eb.
        repeat split; try done. by apply droppedOn_Some in E.
      * destruct (dropTarget _ _ _ _ _ _ _ _ _) as [|[[? ?]|]]; done.
    + destruct (dropTarget _ _ _ _ _ _ _ _ _) as [|[[? ?]|]]; done.
Qed.
#[local] Close Scope Q_scope.

(* ====================================================================== *)
(** * The order of lanes and of stacked events *)
(* ====================================================================== *)

#[local] Open Scope Q_scope.

(** ** Lanes follow the storylines *)

Lemma bands_app {A : Type} (next : Q -> A -> Q) (l1 l2 : list A) (pos : Q) :
  bands next (l1 ++ l2) pos
  = bands next l1 pos ++ bands next l2 (bandsEnd next l1 pos).
Proof.
  revert pos. induction l1 as [|a l1 IH]; intros pos; simpl; [done|].
  by rewrite IH.
Qed.

Lemma bandsEnd_app {A : Type} (next : Q -> A -> Q) (l1 l2 : list A) (pos : Q) :
  bandsEnd next (l1 ++ l2) pos = bandsEnd next l2 (bandsEnd next l1 pos).
Proof.
  revert pos. induction l1 as [|a l1 IH]; intros pos; simpl; [done|].
  by rewrite IH.
Qed.

Section LaneOrder.
Context (events : list StoryEvent) (storylines : list Storyline)
        (eventConnections : list EventConnection)
        (eraOrder : list jsstring) (expandedEvents : gset jsstring).

#[local] Abbreviation LGo :=
  (laneGeometries events storylines eventConnections eraOrder expandedEvents).
#[local] Abbreviation LHo :=
  (laneHeightOf events storylines eventConnections eraOrder expandedEvents).
#[local] Abbreviation nextLane :=
  (laneNext events storylines eventConnections eraOrder expandedEvents).

Lemma lane_of_band (s : Storyline) (pos : Q) :
  NoDup (List.map sl_id storylines) ->
  (s, pos) ∈ bands nextLane storylines 0 ->
  LGo !! sl_id s = Some (mkLaneGeo pos (LHo s)).
Proof.
  intros Hnd Hp. unfold laneGeometries, laneLoop. rewrite laneLoop_bands.
  cbn [fst].
  apply (setAll_lookup_NoDup (fun p => sl_id (fst p))
           (fun p => mkLaneGeo (snd p) (LHo (fst p))) _ _ (s, pos)); [|done].
  rewrite <- (bands_keys nextLane storylines 0) in Hnd.
  by rewrite List.map_map in Hnd.
Qed.

Lemma bandsEnd_lanes (l : list Storyline) (pos : Q) :
  pos <= bandsEnd nextLane l pos
  /\ (l <> [] -> pos + 80 <= bandsEnd nextLane l pos).
Proof.
  revert pos. induction l as [|a l IH]; intros pos; cbn [bandsEnd];
    [split; [lra|done]|].
  destruct (IH (nextLane pos a)) as [IH1 _].
  pose proof (laneHeightOf_ge events storylines eventConnections
                eraOrder expandedEvents a).
  unfold laneNext in *.
  unfold MIN_LANE_HEIGHT, CAPSULE_HEIGHT, LANE_VERTICAL_PADDING in *.
  split; [lra | intros _; lra].
Qed.

Lemma totalHeight_end :
  storylines <> [] ->
  totalHeight events storylines eventConnections eraOrder expandedEvents
  = bandsEnd nextLane storylines 0.
Proof.
  intros Hne. unfold totalHeight, laneLoop. rewrite laneLoop_bands. cbn [snd].
  destruct (Qle_bool _ 0) eqn:E; [|done]. exfalso.
  apply Qle_bool_iff in E.
  destruct (bandsEnd_lanes storylines 0) as [_ Hpos]. specialize (Hpos Hne). lra.
Qed.

End LaneOrder.

(** X20. With distinct storyline ids the lanes follow the list of
    storylines from the top of the canvas to its bottom without a hole:
    the first lane starts at 0, each further lane starts where the one
    before it ends, the last one ends at [totalHeight], and every lane is
    at least 80 high. *)
Theorem lanes_in_storyline_order
        (events : list StoryEvent) (storylines : list Storyline)
        (eventConnections : list EventConnection) (eraOrder : list jsstring)
        (expandedEvents : gset jsstring) :
  let lanes := laneGeometries events storylines eventConnections eraOrder
                              expandedEvents in
  let total := totalHeight events storylines eventConnections eraOrder
                           expandedEvents in
  NoDup (List.map sl_id storylines) ->
  (forall a rest, storylines = a :: rest ->
     exists g, lanes !! sl_id a = Some g /\ lane_y g = 0)
  /\ (forall l1 a b l2, storylines = l1 ++ a :: b :: l2 ->
        exists ga gb, lanes !! sl_id a = Some ga /\ lanes !! sl_id b = Some gb
                      /\ lane_y gb = lane_y ga + lane_height ga)
  /\ (forall l1 a, storylines = l1 ++ [a] ->
        exists g, lanes !! sl_id a = Some g
                  /\ lane_y g + lane_height g = total)
  /\ (forall s g, lanes !! sl_id s = Some g -> MIN_LANE_HEIGHT <= lane_height g).
Proof.
  intros lanes total Hnd.
  pose proof (lane_of_band events storylines eventConnections eraOrder
                expandedEvents) as Hband.
  split; [|split; [|split]].
  - intros a rest E. eexists. split.
    + apply Hband; [done|]. rewrite E. cbn [bands]. constructor.
    + done.
  - intros l1 a b l2 E. eexists. eexists. split; [|split].
    + apply Hband; [done|]. rewrite E at 2. rewrite bands_app. cbn [bands].
      apply elem_of_app. right. constructor.
    + apply Hband; [done|]. rewrite E at 2. rewrite bands_app. cbn [bands].
      apply elem_of_app. right. apply elem_of_cons. right. constructor.
    + done.
  - intros l1 a E. eexists. split.
    + apply Hband; [done|]. rewrite E at 2. rewrite bands_app. cbn [bands].
      apply elem_of_app. right. constructor.
    + cbn [lane_y lane_height]. unfold total.
      rewrite totalHeight_end by (rewrite E; by destruct l1).
      transitivity (bandsEnd (laneNext events storylines eventConnections
                                       eraOrder expandedEvents) (l1 ++ [a]) 0);
        [by rewrite bandsEnd_app | by rewrite <- E].
  - intros s g (s' & pos & _ & _ & ->)%laneGeometries_lookup.
    cbn [lane_height]. apply laneHeightOf_ge.
Qed.

(** ** Stacks read in date order *)



Section StackOrder.
Context (events : list StoryEvent) (storylines : list Storyline)
        (eventConnections : list EventConnection)
        (eventTypes : list EventType)
        (eraOrder : list jsstring) (expandedEvents : gset jsstring).

#[local] Abbreviation placedS :=
  (allPlacements events storylines eventConnections eventTypes eraOrder
                 expandedEvents).
#[local] Abbreviation before :=
  (fun a b : StoryEvent => ~ num_lt (dateKey eraOrder b) (dateKey eraOrder a)).





End StackOrder.

#[local] Close Scope Q_scope.

(* ====================================================================== *)
(** * The key of a Gregorian date, read back *)
(* ====================================================================== *)

(** Digits written with their own width are read back. *)
Lemma fixedDigits_digitsVal (ds : jsstring) :
  allDigits ds -> fixedDigits (length ds) (digitsVal ds) = ds.
Proof.
  induction ds as [|c ds IH] using rev_ind; intros H; [done|].
  apply Forall_app in H as [Hds Hc]. apply Forall_inv in Hc.
  apply isDigit_range in Hc.
  rewrite length_app, Nat.add_1_r. cbn [length fixedDigits].
  rewrite digitsVal_app. cbn [length].
  change (10 ^ Z.of_nat 1) with 10.
  change (digitsVal [c]) with (10 * 0 + digitVal c). unfold digitVal.
  replace ((digitsVal ds * 10 + (10 * 0 + (Z.of_N c - 48))) / 10)
    with (digitsVal ds) by (Z.div_mod_to_equations; lia).
  replace ((digitsVal ds * 10 + (10 * 0 + (Z.of_N c - 48))) mod 10)
    with (Z.of_N c - 48) by (Z.div_mod_to_equations; lia).
  rewrite (IH Hds). f_equal. f_equal. lia.
Qed.

(** X22. The key of a Gregorian date with a year from 100 on, a date of
    the calendar and a time of the clock is an instant of that very day:
    the date part of its [toISOString()] is the day key of the date, and
    its time within the day is the written time. *)
Theorem gregorian_key_round_trip (d : jsstring) (g : GregorianMatch)
        (eraOrder : list jsstring) :
  gregorianForm d g -> wellFormed g ->
  exists t : Z,
    normalizeDate d eraOrder = Num (inject_Z t)
    /\ isoDateOf t = getDayKey d
    /\ let '(hh, mi, ss) := timeOfDay g in
       TimeWithinDay t = MakeTime hh mi ss 0.
Proof.
  intros Hform Hwf.
  pose proof (normalizeDate_gregorianForm d eraOrder g Hform) as Hn.
  pose proof (getDayKey_gregorianForm d g Hform) as Hkey.
  destruct Hform as [Hne Hg].
  pose proof (gregorianMatch_fields _ _ Hg)
    as (Dy & Ly & Dm & Lm & Dd & Ld & _ & _).
  unfold wellFormed, timeOfDay in *. unfold gregorianFields in *.
  set (tm := match g_time g with
             | Some t => t
             | None => ([48; 48], [48; 48], [48; 48])%N
             end) in *.
  destruct tm as [[hour minute] second].
  destruct Hn as (Hn & Ry & Rm & Rd & Rh & Rmi & Rs).
  destruct Hwf as (Hy & Hv & Ht).
  destruct (DateUTC_gregorian _ _ _ _ _ _ Ry Rm Rd Rh Rmi Rs) as [Hutc _].
  rewrite (proj2 (andb_false_iff _ _)
             (or_intror (proj2 (Z.leb_gt (digitsVal (g_year g)) 99) ltac:(lia))))
    in Hutc.
  rewrite Hutc in Hn. cbn [isNaN] in Hn.
  eexists. split; [exact Hn|].
  set (D := MakeDay (digitsVal (g_year g)) (digitsVal (g_month g) - 1)
                    (digitsVal (g_day g))).
  set (T := MakeTime (digitsVal hour) (digitsVal minute) (digitsVal second) 0).
  assert (0 <= T < msPerDay) as HT.
  { unfold T, MakeTime, msPerDay. unfold validTime in Ht. lia. }
  assert (Day (MakeDate D T) = D) as HD.
  { unfold Day, MakeDate, msPerDay in *. Z.div_mod_to_equations. lia. }
  split.
  - unfold isoDateOf. rewrite HD. unfold D.
    rewrite (civilFromDay_MakeDay _ _ _ Hv). rewrite Hkey.
    unfold isoDate, isoYear.
    rewrite (proj2 (Z.leb_le 0 _) (proj1 Ry)), (proj2 (Z.leb_le _ 9999) (proj2 Ry)).
    cbn [andb]. replace (digitsVal (g_month g) - 1 + 1) with (digitsVal (g_month g))
      by lia.
    rewrite <- Ly at 1. rewrite <- Lm at 1. rewrite <- Ld at 1.
    by rewrite !fixedDigits_digitsVal.
  - unfold TimeWithinDay, MakeDate, msPerDay in *. Z.div_mod_to_equations. lia.
Qed.

(* ====================================================================== *)
(** * The scripts of the application *)
(* ====================================================================== *)

(** ** handleDeleteScript (App.tsx) *)

Section Scripts.
(** The data of a script: its storylines, events and the rest. *)
Context {ScriptData : Type}.

Record Script : Type := mkScript {
  script_id : jsstring; script_name : jsstring; script_data : ScriptData
}.

(** The state after the handler: [scripts] and [activeScriptId]. [None] is
    the TypeError of reading [.id] of a missing element. *)
Definition handleDeleteScript (idToDelete : jsstring) (scripts : list Script)
           (activeScriptId : option jsstring)
  : option (list Script * option jsstring) :=
  match list_find (fun s => script_id s = idToDelete) scripts with
  | None => Some (scripts, activeScriptId)
  | Some (scriptIndex, _) =>
    let newScripts :=
      List.filter (fun s => negb (bool_decide (script_id s = idToDelete)))
                  scripts in
    if decide (activeScriptId = Some idToDelete) then
      if (0 <? length newScripts)%nat then
        let newActiveIndex := Nat.min scriptIndex (length newScripts - 1) in
        match newScripts !! newActiveIndex with
        | Some s => Some (newScripts, Some (script_id s))
        | None => None
        end
      else Some (newScripts, None)
    else Some (newScripts, activeScriptId)
  end.

Lemma filter_other_id (idToDelete : jsstring) (l : list Script) :
  (forall s, s ∈ l -> script_id s <> idToDelete) ->
  List.filter (fun s => negb (bool_decide (script_id s = idToDelete))) l = l.
Proof.
  induction l as [|a l IH]; intros H; cbn [List.filter]; [done|].
  rewrite bool_decide_false by (apply H; constructor). cbn [negb].
  f_equal. apply IH. intros s Hs. apply H. by constructor.
Qed.

(** With distinct ids, filtering an id out removes one element. *)
Lemma filter_delete (idToDelete : jsstring) (l : list Script) (i : nat)
      (s : Script) :
  NoDup (List.map script_id l) -> l !! i = Some s -> script_id s = idToDelete ->
  List.filter (fun s => negb (bool_decide (script_id s = idToDelete))) l
  = take i l ++ drop (S i) l.
Proof.
  intros Hnd Hi Hs.
  rewrite <- (take_drop_middle l i s Hi) at 1.
  rewrite <- (take_drop_middle l i s Hi) in Hnd.
  rewrite List.map_app in Hnd. cbn [List.map] in Hnd.
  apply NoDup_app in Hnd as (_ & Hdisj & Hrest).
  apply NoDup_cons in Hrest as [Hnot _].
  rewrite List.filter_app. cbn [List.filter].
  rewrite bool_decide_true by done. cbn [negb].
  rewrite !filter_other_id; [done| |].
  - intros s' Hs' E. apply Hnot. rewrite Hs, <- E.
    apply list_elem_of_fmap. by exists s'.
  - intros s' Hs' E. apply (Hdisj (script_id s')).
    + apply list_elem_of_fmap. by exists s'.
    + rewrite E, <- Hs. constructor.
Qed.

(** X23. Deleting a script never fails. The scripts of other ids stay, in
    their order, and no script of the deleted id is left; another active id
    is kept. When the deleted script was the active one, the new active id
    names a script that is left, and is null only when none is left: with
    distinct ids it is the script that followed the deleted one, or the
    one before it when it was the last. *)
Theorem delete_script (idToDelete : jsstring) (scripts : list Script)
        (activeScriptId : option jsstring) :
  exists newActive,
    handleDeleteScript idToDelete scripts activeScriptId
    = Some (List.filter (fun s => negb (bool_decide (script_id s = idToDelete)))
                        scripts, newActive)
    /\ (activeScriptId <> Some idToDelete -> newActive = activeScriptId)
    /\ (activeScriptId = Some idToDelete ->
        idToDelete ∈ List.map script_id scripts ->
        match newActive with
        | Some a => a <> idToDelete /\ a ∈ List.map script_id scripts
        | None => forall s, s ∈ scripts -> script_id s = idToDelete
        end)
    /\ (activeScriptId = Some idToDelete ->
        NoDup (List.map script_id scripts) ->
        forall i s, scripts !! i = Some s -> script_id s = idToDelete ->
          newActive
          = script_id <$> (if decide (S i < length scripts)%nat
                           then scripts !! S i
                           else match i with
                                | O => None
                                | S j => scripts !! j
                                end)).
Proof.
  set (keep := fun s : Script => negb (bool_decide (script_id s = idToDelete))).
  unfold handleDeleteScript. fold keep.
  assert (forall s, s ∈ List.filter keep scripts
                    <-> s ∈ scripts /\ script_id s <> idToDelete) as Hkeep.
  { intros s. rewrite !list_elem_of_In, List.filter_In. unfold keep.
    rewrite negb_true_iff, bool_decide_eq_false. done. }
  destruct (list_find _ scripts) as [[idx s0]|] eqn:Ef.
  2:{ pose proof Ef as Hnone. apply list_find_None in Hnone.
      rewrite Forall_forall in Hnone.
      exists activeScriptId. unfold keep.
      rewrite (filter_other_id idToDelete scripts Hnone).
      split; [done|]. split; [done|]. split.
      - intros _ (s & Hs & Hin)%list_elem_of_fmap. exfalso.
        by apply (Hnone s Hin).
      - intros _ _ i s Hi Hs. exfalso. apply (Hnone s); [|done].
        by eapply list_elem_of_lookup_2. }
  apply list_find_Some in Ef as (Hidx & Hs0 & Hfirst).
  destruct (decide (activeScriptId = Some idToDelete)) as [Hact|Hact].
  2:{ exists activeScriptId. repeat split; done. }
  destruct (0 <? length (List.filter keep scripts))%nat eqn:Elen.
  - apply Nat.ltb_lt in Elen.
    destruct (List.filter keep scripts
                !! (idx `min` (length (List.filter keep scripts) - 1))%nat)
      as [s1|] eqn:E1.
    2:{ apply lookup_ge_None in E1. lia. }
    exists (Some (script_id s1)). split; [done|]. split; [done|].
    pose proof (list_elem_of_lookup_2 _ _ _ E1) as Hin1.
    apply Hkeep in Hin1 as [Hin1 Hne1]. split.
    + intros _ _. split; [done|]. apply list_elem_of_fmap. by exists s1.
    + intros _ Hnd i s Hi Hs.
      assert (i = idx) as ->.
      { apply (NoDup_lookup (List.map script_id scripts) i idx idToDelete Hnd).
        - by rewrite list_lookup_fmap, Hi, <- Hs.
        - by rewrite list_lookup_fmap, Hidx, <- Hs0. }
      unfold keep in E1, Elen.
      rewrite (filter_delete idToDelete scripts idx s Hnd Hi Hs) in E1, Elen.
      pose proof (lookup_lt_Some _ _ _ Hi) as Hlt.
      rewrite length_app, length_take, length_drop in E1, Elen.
      destruct (decide (S idx < length scripts)%nat) as [Hnext|Hlast].
      * replace (idx `min` (idx `min` length scripts
                            + (length scripts - S idx) - 1))%nat
          with idx in E1 by lia.
        rewrite lookup_app_r in E1 by (rewrite length_take; lia).
        rewrite length_take, lookup_drop in E1.
        replace (S idx + (idx - idx `min` length scripts))%nat with (S idx)
          in E1 by lia.
        by rewrite E1.
      * destruct idx as [|j]; [lia|].
        replace (S j `min` (S j `min` length scripts
                            + (length scripts - S (S j)) - 1))%nat
          with j in E1 by lia.
        rewrite lookup_app_l in E1 by (rewrite length_take; lia).
        rewrite lookup_take_lt in E1 by lia. by rewrite E1.
  - apply Nat.ltb_ge in Elen.
    assert (List.filter keep scripts = []) as Hnil
      by (destruct (List.filter keep scripts); [done | cbn in Elen; lia]).
    exists None. rewrite Hnil. split; [done|]. split; [done|]. split.
    + intros _ _ s Hs. destruct (decide (script_id s = idToDelete)); [done|].
      assert (s ∈ List.filter keep scripts) as Hin by by apply Hkeep.
      rewrite Hnil in Hin. by apply elem_of_nil in Hin.
    + intros _ Hnd i s Hi Hs.
      assert (forall j s', scripts !! j = Some s' -> j = i) as Honly.
      { intros j s' Hj.
        destruct (decide (script_id s' = idToDelete)) as [E|E].
        - apply (NoDup_lookup (List.map script_id scripts) j i idToDelete Hnd).
          + by rewrite list_lookup_fmap, Hj, <- E.
          + by rewrite list_lookup_fmap, Hi, <- Hs.
        - assert (s' ∈ List.filter keep scripts) as Hin.
          { apply Hkeep. split; [by eapply list_elem_of_lookup_2 | done]. }
          rewrite Hnil in Hin. by apply elem_of_nil in Hin. }
      destruct (decide (S i < length scripts)%nat) as [Hnext|Hlast].
      * destruct (lookup_lt_is_Some_2 scripts (S i) Hnext) as [s' Hs'].
        pose proof (Honly _ _ Hs'). lia.
      * destruct i as [|j]; [done|].
        pose proof (lookup_lt_Some _ _ _ Hi) as Hlt.
        destruct (lookup_lt_is_Some_2 scripts j ltac:(lia)) as [s' Hs'].
        pose proof (Honly _ _ Hs'). lia.
Qed.

End Scripts.

(* ====================================================================== *)
(** * Dates written by the event form *)
(* ====================================================================== *)

(** The form (EventFormModal.tsx) writes the [date] of an event from the
    parts typed into it, and reads the parts back from the [date] of the
    event it edits. *)
Module EventForm.

Record DateParts : Type := mkDateParts {
  dp_year : jsstring; dp_month : jsstring; dp_day : jsstring;
  dp_hour : jsstring; dp_minute : jsstring; dp_second : jsstring
}.

(** The date state of the form. *)
Record DateState : Type := mkDateState {
  selectedEra : jsstring; dateParts : DateParts; showTime : bool
}.

(** [s.padStart(n, c)] for a one-unit [c]. *)
Definition padStart (n : nat) (c : N) (s : jsstring) : jsstring :=
  repeat c (n - length s) ++ s.

(** [p] of [handleSubmit]: [(str || '').padStart(len, '0')]. *)
Definition p (len : nat) (str : jsstring) : jsstring := padStart len 48 str.

Definition str_000000 : jsstring := [48; 48; 48; 48; 48; 48]%N.

(** [finalDate.trim()] of [handleSubmit]. *)
Definition finalDate (selectedEra : jsstring) (dateParts : DateParts)
           (showTime : bool) : jsstring :=
  trim
    (if decide (selectedEra = str_anchor) then
       p 4 (dp_year dateParts) ++ 45%N :: p 2 (dp_month dateParts)
         ++ 45%N :: p 2 (dp_day dateParts)
         ++ (if showTime && (truthy (dp_hour dateParts)
                             || truthy (dp_minute dateParts)
                             || truthy (dp_second dateParts))
             then 32%N :: p 2 (dp_hour dateParts)
                    ++ 58%N :: p 2 (dp_minute dateParts)
                    ++ 58%N :: p 2 (dp_second dateParts)
             else [])
     else
       let year := if truthy (dp_year dateParts) then dp_year dateParts
                   else [48%N] in
       let fraction :=
         p 2 (dp_month dateParts) ++ p 2 (dp_day dateParts)
           ++ (if showTime then p 2 (dp_hour dateParts) else str_00)
           ++ (if showTime then p 2 (dp_minute dateParts) else str_00)
           ++ (if showTime then p 2 (dp_second dateParts) else str_00) in
       selectedEra ++ 32%N :: year ++ 46%N :: fraction).

(** The loop over [data.eraOrder] of the effect that fills the form. *)
Fixpoint readEra (dateStr : jsstring) (eras : list jsstring)
  : option DateState :=
  match eras with
  | [] => None
  | era :: rest =>
    match stripPrefix era dateStr with
    | Some r =>
      let valueStr := trim r in
      let parts := splitOn 46 valueStr in
      let year := nth 0 parts [] in
      let fraction := nth 1 parts [] in
      let paddedFraction := padEnd 10 48 fraction in
      Some (mkDateState era
              (mkDateParts year
                           (substring 0 2 paddedFraction)
                           (substring 2 4 paddedFraction)
                           (substring 4 6 paddedFraction)
                           (substring 6 8 paddedFraction)
                           (substring 8 10 paddedFraction))
              (negb (bool_decide (skipn 4 paddedFraction = str_000000))))
    | None => readEra dateStr rest
    end
  end.

(** The effect that fills the form from [eventToEdit?.date] (the empty
    string when there is none). [today] holds the year, month and day read
    from the clock, [state] the state before the effect. *)
Definition readDate (date : jsstring) (eraOrder : list jsstring)
           (today : DateParts) (state : DateState) : DateState :=
  if truthy date then
    match readEra date eraOrder with
    | Some found => found
    | None =>
      match gregorianMatch date with
      | Some g =>
        match g_time g with
        | Some (hour, minute, second) =>
          mkDateState str_anchor
            (mkDateParts (g_year g) (g_month g) (g_day g) hour minute second)
            true
        | None =>
          mkDateState str_anchor
            (mkDateParts (g_year g) (g_month g) (g_day g) str_00 str_00 str_00)
            false
        end
      | None => state
      end
    end
  else mkDateState str_anchor
         (mkDateParts (dp_year today) (dp_month today) (dp_day today) [] [] [])
         false.

(** *** The connections of the edited event *)

Inductive ConnectionType : Type := predecessor | successor.

Record FormConnection : Type := mkFormConnection {
  fc_key : jsstring;
  fc_type : ConnectionType;
  otherEventId : jsstring;
  originalId : option jsstring
}.

(** The effect that fills [formConnections] when the event [editedId] is
    edited. *)
Definition relatedConnections (eventConnections : list EventConnection)
           (editedId : jsstring) : list FormConnection :=
  List.map
    (fun c =>
       let isSuccessor := bool_decide (fromEventId c = editedId) in
       mkFormConnection (conn_id c)
                        (if isSuccessor then successor else predecessor)
                        (if isSuccessor then toEventId c else fromEventId c)
                        (Some (conn_id c)))
    (List.filter (fun c => bool_decide (fromEventId c = editedId)
                           || bool_decide (toEventId c = editedId))
                 eventConnections).

(** [connectionsToSave.map(fc => ...)]; [fresh i] is the id made from the
    clock and [Math.random()] for the entry at index [i]. *)
Fixpoint newConns (eventId : jsstring) (fresh : nat -> jsstring) (i : nat)
         (connectionsToSave : list FormConnection) : list EventConnection :=
  match connectionsToSave with
  | [] => []
  | fc :: rest =>
    let fromEventId :=
      match fc_type fc with successor => eventId | predecessor => otherEventId fc end in
    let toEventId :=
      match fc_type fc with successor => otherEventId fc | predecessor => eventId end in
    mkEventConnection
      (if truthyOpt (originalId fc) then default [] (originalId fc) else fresh i)
      fromEventId toEventId
    :: newConns eventId fresh (S i) rest
  end.

(** The updater that [handleSubmit] passes to [setEventConnections].
    [connectFrom] is [eventToEdit?.__connectFrom]; [precedingEvent] is the id
    of the event that [data.events.find] returns for the title of the
    suggested connection, when there is a suggestion and such an event;
    [tempKey] is the key made from the clock for the entry that is added. *)
Definition syncConnections (isEditing : bool) (eventId : jsstring)
           (formConnections : list FormConnection)
           (connectFrom precedingEvent : option jsstring)
           (tempKey : jsstring) (fresh : nat -> jsstring)
           (prevConns : list EventConnection) : list EventConnection :=
  let connectionsToSave :=
    formConnections
      ++ (if negb isEditing && truthyOpt connectFrom
          then [mkFormConnection tempKey predecessor (default [] connectFrom)
                                 None]
          else if negb isEditing
          then match precedingEvent with
               | Some id => [mkFormConnection tempKey predecessor id None]
               | None => []
               end
          else []) in
  let unrelatedConns :=
    List.filter (fun c => negb (bool_decide (fromEventId c = eventId))
                          && negb (bool_decide (toEventId c = eventId)))
                prevConns in
  unrelatedConns ++ newConns eventId fresh 0 connectionsToSave.

(** ** Properties *)

(** Digits, at most [n] of them. *)
Definition digitsUpTo (n : nat) (s : jsstring) : Prop :=
  allDigits s /\ (length s <= n)%nat.

Lemma p_digits (n : nat) (s : jsstring) : allDigits s -> allDigits (p n s).
Proof.
  intros H. unfold p, padStart. apply Forall_app. split; [|done].
  apply Forall_forall. intros c Hc. apply list_elem_of_In, repeat_spec in Hc.
  by subst.
Qed.

Lemma p_length (n : nat) (s : jsstring) :
  (length s <= n)%nat -> length (p n s) = n.
Proof. intros H. unfold p, padStart. rewrite length_app, repeat_length. lia. Qed.

Lemma digitsVal_zeros (k : nat) : digitsVal (repeat 48%N k) = 0.
Proof.
  induction k as [|k IH]; [done|].
  change (repeat 48%N (S k)) with ([48%N] ++ repeat 48%N k).
  rewrite digitsVal_app, IH. done.
Qed.

Lemma p_value (n : nat) (s : jsstring) : digitsVal (p n s) = digitsVal s.
Proof. unfold p, padStart. rewrite digitsVal_app, digitsVal_zeros. lia. Qed.

Lemma p_twoDigits (s : jsstring) : digitsUpTo 2 s -> twoDigits (p 2 s).
Proof. intros [H1 H2]. split; [by apply p_digits | by apply p_length]. Qed.

Lemma twoDigits_shape (s : jsstring) :
  twoDigits s -> exists a b, s = [a; b] /\ isDigit a = true /\ isDigit b = true.
Proof.
  intros [Hd Hl]. destruct s as [|a [|b [|c s]]]; try done.
  exists a, b. split; [done|].
  apply Forall_cons in Hd as [Ha Hd]. apply Forall_cons in Hd as [Hb _]. done.
Qed.

Lemma timeMatch_written (hh mi ss : jsstring) :
  twoDigits hh -> twoDigits mi -> twoDigits ss ->
  timeMatch (32%N :: hh ++ 58%N :: mi ++ 58%N :: ss) = Some (hh, mi, ss).
Proof.
  intros Hh [Dm Lm] [Ds Ls].
  destruct (twoDigits_shape hh Hh) as (a & b & -> & Ha & Hb).
  unfold timeMatch. change (isWhiteSpace 32) with true. cbv iota.
  cbn [dropWhile app]. change (isWhiteSpace 32) with true. cbv iota.
  rewrite (digit_not_space a Ha).
  change (a :: b :: 58%N :: mi ++ 58%N :: ss)
    with ([a; b] ++ 58%N :: mi ++ 58%N :: ss).
  rewrite (digitsN_app 2 [a; b]); [|by repeat constructor|done].
  cbv [mbind option_bind]. cbn [expect]. rewrite N.eqb_refl.
  rewrite (digitsN_app 2 mi _ Dm Lm). cbn [expect]. rewrite N.eqb_refl.
  rewrite <- (app_nil_r ss), (digitsN_app 2 ss [] Ds Ls). by rewrite app_nil_r.
Qed.

Lemma gregorianMatch_written (y m d rest : jsstring) :
  allDigits y -> length y = 4%nat -> twoDigits m -> twoDigits d ->
  gregorianMatch (y ++ 45%N :: m ++ 45%N :: d ++ rest)
  = Some (mkGregorianMatch y m d (timeMatch rest)).
Proof.
  intros Dy Ly [Dm Lm] [Dd Ld]. unfold gregorianMatch.
  rewrite (digitsN_app 4 y _ Dy Ly). cbv [mbind option_bind]. cbn [expect].
  rewrite N.eqb_refl, (digitsN_app 2 m _ Dm Lm). cbn [expect].
  rewrite N.eqb_refl. by rewrite (digitsN_app 2 d _ Dd Ld).
Qed.

Lemma readEra_None (d : jsstring) (eras : list jsstring) :
  Forall (fun era => stripPrefix era d = None) eras -> readEra d eras = None.
Proof.
  induction 1 as [|era eras H _ IH]; cbn [readEra]; [done|]. by rewrite H.
Qed.

Lemma readEra_skip (d : jsstring) (pre eras : list jsstring) :
  Forall (fun era => stripPrefix era d = None) pre ->
  readEra d (pre ++ eras) = readEra d eras.
Proof.
  induction 1 as [|era pre H _ IH]; cbn [readEra app]; [done|]. by rewrite H.
Qed.

(** A text that ends with two digits. *)
Lemma ends_with_digit (pre s : jsstring) :
  twoDigits s ->
  exists m' c', pre ++ s = m' ++ [c'] /\ isWhiteSpace c' = false.
Proof.
  intros (a & b & -> & Ha & Hb)%twoDigits_shape.
  exists (pre ++ [a]), b. split; [by rewrite <- app_assoc|].
  by apply digit_not_space.
Qed.

End EventForm.

(** X24. A Gregorian date written by the form from parts that are digits,
    at most four for the year and two for the others, while no era name
    starts with a digit: the form reads back the parts it wrote, padded
    with zeros, and the era 公元纪年; the day key is the padded
    [YYYY-MM-DD]; and the key is [Date.UTC] of the numbers typed, the time
    being 00:00:00 unless one was written. *)
Theorem form_gregorian_date
        (parts : EventForm.DateParts) (showTime : bool)
        (eraOrder : list jsstring) (today : EventForm.DateParts)
        (state : EventForm.DateState) :
  let d := EventForm.finalDate str_anchor parts showTime in
  let written :=
    showTime && (truthy (EventForm.dp_hour parts)
                 || truthy (EventForm.dp_minute parts)
                 || truthy (EventForm.dp_second parts)) in
  let shown part := if written then EventForm.p 2 part else str_00 in
  let value part := if written then digitsVal part else 0 in
  EventForm.digitsUpTo 4 (EventForm.dp_year parts) ->
  EventForm.digitsUpTo 2 (EventForm.dp_month parts) ->
  EventForm.digitsUpTo 2 (EventForm.dp_day parts) ->
  EventForm.digitsUpTo 2 (EventForm.dp_hour parts) ->
  EventForm.digitsUpTo 2 (EventForm.dp_minute parts) ->
  EventForm.digitsUpTo 2 (EventForm.dp_second parts) ->
  Forall (fun era => exists c r, era = c :: r /\ isDigit c = false) eraOrder ->
  EventForm.readDate d eraOrder today state
  = EventForm.mkDateState str_anchor
      (EventForm.mkDateParts
         (EventForm.p 4 (EventForm.dp_year parts))
         (EventForm.p 2 (EventForm.dp_month parts))
         (EventForm.p 2 (EventForm.dp_day parts))
         (shown (EventForm.dp_hour parts))
         (shown (EventForm.dp_minute parts))
         (shown (EventForm.dp_second parts)))
      written
  /\ getDayKey d
     = EventForm.p 4 (EventForm.dp_year parts)
       ++ 45%N :: EventForm.p 2 (EventForm.dp_month parts)
       ++ 45%N :: EventForm.p 2 (EventForm.dp_day parts)
  /\ normalizeDate d eraOrder
     = DateUTC (digitsVal (EventForm.dp_year parts))
               (digitsVal (EventForm.dp_month parts) - 1)
               (digitsVal (EventForm.dp_day parts))
               (value (EventForm.dp_hour parts))
               (value (EventForm.dp_minute parts))
               (value (EventForm.dp_second parts)).
Proof.
  intros d written shown value [Dy Ly] Hm Hd Hh Hmi Hs Heras.
  pose proof (EventForm.p_digits 4 _ Dy) as Dy4.
  pose proof (EventForm.p_length 4 _ Ly) as Ly4.
  apply EventForm.p_twoDigits in Hm, Hd, Hh, Hmi, Hs.
  set (y4 := EventForm.p 4 (EventForm.dp_year parts)) in *.
  set (m2 := EventForm.p 2 (EventForm.dp_month parts)) in *.
  set (d2 := EventForm.p 2 (EventForm.dp_day parts)) in *.
  set (h2 := EventForm.p 2 (EventForm.dp_hour parts)) in *.
  set (mi2 := EventForm.p 2 (EventForm.dp_minute parts)) in *.
  set (s2 := EventForm.p 2 (EventForm.dp_second parts)) in *.
  set (rest := if written then 32%N :: h2 ++ 58%N :: mi2 ++ 58%N :: s2
               else []).
  assert (exists c r, y4 = c :: r /\ isDigit c = true) as (c & r & Ey & Hc).
  { destruct y4 as [|c r]; [done|]. exists c, r. split; [done|].
    by apply Forall_inv in Dy4. }
  assert (trim d = d) as Htrim by apply trim_idemp.
  assert (d = y4 ++ 45%N :: m2 ++ 45%N :: d2 ++ rest) as Ed.
  { unfold d, EventForm.finalDate. rewrite decide_True by done.
    fold y4 m2 d2 h2 mi2 s2 written rest. rewrite Ey. cbn [app].
    assert (exists m' c', c :: r ++ 45%N :: m2 ++ 45%N :: d2 ++ rest
                          = m' ++ [c'] /\ isWhiteSpace c' = false)
      as (m' & c' & E & Hc').
    { unfold rest. destruct written.
      - destruct (EventForm.ends_with_digit
                    (c :: r ++ 45%N :: m2 ++ 45%N :: d2 ++ 32%N :: h2
                       ++ 58%N :: mi2 ++ [58%N]) s2 Hs) as (m' & c' & E & Hc').
        exists m', c'. split; [|done]. rewrite <- E.
        by repeat first [rewrite <- app_assoc | progress cbn [app]].
      - destruct (EventForm.ends_with_digit
                    (c :: r ++ 45%N :: m2 ++ [45%N]) d2 Hd)
          as (m' & c' & E & Hc').
        exists m', c'. split; [|done]. rewrite <- E, app_nil_r.
        by repeat first [rewrite <- app_assoc | progress cbn [app]]. }
    by apply (trim_clean c c' _ m' E); [apply digit_not_space|]. }
  assert (gregorianMatch d = Some (mkGregorianMatch y4 m2 d2 (timeMatch rest)))
    as Hg.
  { rewrite Ed. by apply EventForm.gregorianMatch_written. }
  assert (timeMatch rest = if written then Some (h2, mi2, s2) else None) as Ht.
  { unfold rest. destruct written; [|done].
    by apply EventForm.timeMatch_written. }
  rewrite Ht in Hg.
  assert (d <> []) as Hne by (rewrite Ed, Ey; done).
  assert (gregorianForm d (mkGregorianMatch y4 m2 d2
                             (if written then Some (h2, mi2, s2) else None)))
    as Hform by (split; [done | by rewrite Htrim]).
  split; [|split].
  - unfold EventForm.readDate.
    assert (truthy d = true) as -> by (rewrite Ed, Ey; done).
    rewrite EventForm.readEra_None.
    + rewrite Hg. cbn [g_time g_year g_month g_day]. unfold shown.
      by destruct written.
    + eapply Forall_impl; [exact Heras|]. intros era (c0 & r0 & -> & Hc0).
      rewrite Ed, Ey. cbn [app]. apply stripPrefix_head. congruence.
  - by rewrite (getDayKey_gregorianForm d _ Hform).
  - pose proof (normalizeDate_gregorianForm d eraOrder _ Hform) as Hn.
    unfold gregorianFields in Hn. cbn [g_time g_year g_month g_day] in Hn.
    unfold value.
    destruct written; destruct Hn as (-> & Ry & Rm & Rd & Rh & Rmi & Rs);
      destruct (DateUTC_gregorian _ _ _ _ _ _ Ry Rm Rd Rh Rmi Rs) as [Hutc _];
      rewrite Hutc; cbn [isNaN]; rewrite <- Hutc;
      unfold y4, m2, d2, h2, mi2, s2; by rewrite ?EventForm.p_value.
Qed.

(** X25. A date of a custom era written by the form, while the parts are
    digits (at most two for the month, the day and the time parts), the
    era name starts with no white space and no earlier era name starts the
    date: the date is [era year.MMDDhhmmss], with year 0 for an empty year
    and 000000 for a hidden time, and the form reads back that era, that
    year and those parts; the time is shown again unless it is 000000. *)
Theorem form_era_date
        (era : jsstring) (parts : EventForm.DateParts) (showTime : bool)
        (pre post : list jsstring) (today : EventForm.DateParts)
        (state : EventForm.DateState) :
  let d := EventForm.finalDate era parts showTime in
  let year := if truthy (EventForm.dp_year parts) then EventForm.dp_year parts
              else [48%N] in
  let month := EventForm.p 2 (EventForm.dp_month parts) in
  let day := EventForm.p 2 (EventForm.dp_day parts) in
  let time part := if showTime then EventForm.p 2 part else str_00 in
  let hour := time (EventForm.dp_hour parts) in
  let minute := time (EventForm.dp_minute parts) in
  let second := time (EventForm.dp_second parts) in
  era <> str_anchor ->
  (exists c r, era = c :: r /\ isWhiteSpace c = false) ->
  allDigits (EventForm.dp_year parts) ->
  EventForm.digitsUpTo 2 (EventForm.dp_month parts) ->
  EventForm.digitsUpTo 2 (EventForm.dp_day parts) ->
  EventForm.digitsUpTo 2 (EventForm.dp_hour parts) ->
  EventForm.digitsUpTo 2 (EventForm.dp_minute parts) ->
  EventForm.digitsUpTo 2 (EventForm.dp_second parts) ->
  Forall (fun e => stripPrefix e d = None) pre ->
  d = era ++ 32%N :: year ++ 46%N :: month ++ day ++ hour ++ minute ++ second
  /\ EventForm.readDate d (pre ++ era :: post) today state
     = EventForm.mkDateState era
         (EventForm.mkDateParts year month day hour minute second)
         (negb (bool_decide (hour ++ minute ++ second = EventForm.str_000000))).
Proof.
  intros d year month day time hour minute second
         Hera (c & r & Ec & Hc) Dy Hm Hd Hh Hmi Hs Hpre.
  apply EventForm.p_twoDigits in Hm, Hd, Hh, Hmi, Hs.
  assert (twoDigits str_00) as H00 by (split; [repeat constructor | done]).
  assert (twoDigits hour) as Hh' by (unfold hour, time; by destruct showTime).
  assert (twoDigits minute) as Hmi' by (unfold minute, time; by destruct showTime).
  assert (twoDigits second) as Hs' by (unfold second, time; by destruct showTime).
  assert (allDigits year) as Dy'.
  { unfold year. destruct (truthy _); [done | repeat constructor]. }
  assert (exists cy ry, year = cy :: ry /\ isDigit cy = true)
    as (cy & ry & Ey & Hcy).
  { unfold year in *. destruct (EventForm.dp_year parts) as [|cy ry]; cbn [truthy] in *.
    - exists 48%N, []. done.
    - exists cy, ry. split; [done|]. by apply Forall_inv in Dy'. }
  set (fraction := month ++ day ++ hour ++ minute ++ second).
  assert (exists m' c', ry ++ 46%N :: fraction = m' ++ [c']
                        /\ isWhiteSpace c' = false) as (my & cy' & Efy & Hcy').
  { destruct (EventForm.ends_with_digit
                (ry ++ 46%N :: month ++ day ++ hour ++ minute) second Hs')
      as (m' & c' & E & Hc').
    exists m', c'. split; [|done]. rewrite <- E. unfold fraction.
    by repeat first [rewrite <- app_assoc | progress cbn [app]]. }
  assert (d = era ++ 32%N :: year ++ 46%N :: fraction) as Ed.
  { unfold d, EventForm.finalDate. rewrite decide_False by done.
    fold year. fold month day. fold (time (EventForm.dp_hour parts)).
    fold (time (EventForm.dp_minute parts)).
    fold (time (EventForm.dp_second parts)). fold hour minute second fraction.
    rewrite Ec. cbn [app].
    apply (trim_clean c cy' _ (c :: r ++ 32%N :: cy :: my)); [|done..].
    rewrite Ey. repeat first [rewrite <- app_assoc | progress cbn [app]].
    by rewrite <- Efy. }
  split; [exact Ed|].
  unfold EventForm.readDate.
  assert (truthy d = true) as -> by (rewrite Ed, Ec; done).
  rewrite (EventForm.readEra_skip d pre _ Hpre). cbn [EventForm.readEra].
  rewrite Ed at 1. rewrite stripPrefix_app.
  assert (trim (32%N :: year ++ 46%N :: fraction) = year ++ 46%N :: fraction)
    as ->.
  { rewrite Ey. cbn [app].
    apply (trim_space_clean cy cy' _ (cy :: my)); [|by apply digit_not_space|done].
    cbn [app]. by rewrite <- Efy. }
  assert (allDigits fraction) as Df.
  { unfold fraction.
    apply Forall_app; split; [apply Hm|].
    apply Forall_app; split; [apply Hd|].
    apply Forall_app; split; [apply Hh'|].
    apply Forall_app; split; [apply Hmi' | apply Hs']. }
  rewrite splitOn_first by by apply allDigits_no_dot.
  rewrite splitOn_no_sep by by apply allDigits_no_dot.
  cbn [nth].
  destruct (EventForm.twoDigits_shape _ Hm) as (a1 & b1 & E1 & _).
  destruct (EventForm.twoDigits_shape _ Hd) as (a2 & b2 & E2 & _).
  destruct (EventForm.twoDigits_shape _ Hh') as (a3 & b3 & E3 & _).
  destruct (EventForm.twoDigits_shape _ Hmi') as (a4 & b4 & E4 & _).
  destruct (EventForm.twoDigits_shape _ Hs') as (a5 & b5 & E5 & _).
  unfold fraction, month, day. rewrite E1, E2, E3, E4, E5. reflexivity.
Qed.

(** Rebuilding the connections of the edited event from what the form read
    gives them back. *)
Lemma newConns_related (eventId : jsstring) (fresh : nat -> jsstring)
      (i : nat) (l : list EventConnection) :
  (forall c, c ∈ l ->
             bool_decide (fromEventId c = eventId)
             || bool_decide (toEventId c = eventId) = true ->
             truthy (conn_id c) = true) ->
  EventForm.newConns eventId fresh i (EventForm.relatedConnections l eventId)
  = List.filter (fun c => bool_decide (fromEventId c = eventId)
                          || bool_decide (toEventId c = eventId)) l.
Proof.
  revert i. induction l as [|c l IH]; intros i Hid; [done|].
  unfold EventForm.relatedConnections in *. cbn [List.filter].
  assert (forall c', c' ∈ l ->
                     bool_decide (fromEventId c' = eventId)
                     || bool_decide (toEventId c' = eventId) = true ->
                     truthy (conn_id c') = true) as Hid'
    by (intros c' Hc'; apply Hid; by constructor).
  destruct (bool_decide (fromEventId c = eventId)
            || bool_decide (toEventId c = eventId)) eqn:Erel; [|by apply IH].
  cbn [List.map EventForm.newConns]. rewrite (IH (S i) Hid'). f_equal.
  pose proof (Hid c ltac:(constructor) Erel) as Htruthy.
  cbn [EventForm.originalId EventForm.fc_type EventForm.otherEventId truthyOpt].
  rewrite Htruthy. change (default [] (Some (conn_id c))) with (conn_id c).
  destruct c as [cid cfrom cto]. cbn [conn_id fromEventId toEventId] in *.
  destruct (bool_decide (cfrom = eventId)) eqn:Efrom.
  - apply bool_decide_eq_true in Efrom. by subst.
  - cbn [orb] in Erel. apply bool_decide_eq_true in Erel. by subst.
Qed.

Lemma filter_split_Permutation {A : Type} (keep : A -> bool) (l : list A) :
  List.filter (fun a => negb (keep a)) l ++ List.filter keep l ≡ₚ l.
Proof.
  induction l as [|a l IH]; [done|]. cbn [List.filter].
  destruct (keep a); cbn [negb app].
  - rewrite <- Permutation_middle. by constructor.
  - by constructor.
Qed.

(** X26. Saving an edited event whose connections the form read and left
    alone keeps every connection, with its id and its ends: those of other
    events stay in their order and those of the edited event follow them,
    in their order. Saving a new event that was requested by a connection
    drag from [source] keeps the connections of other events and adds one
    connection, from [source] to the new event. *)
Theorem form_connections
        (eventId : jsstring) (eventConnections : list EventConnection)
        (connectFrom precedingEvent : option jsstring)
        (tempKey : jsstring) (fresh : nat -> jsstring) :
  let related c := bool_decide (fromEventId c = eventId)
                   || bool_decide (toEventId c = eventId) in
  ((forall c, c ∈ eventConnections -> related c = true ->
              truthy (conn_id c) = true) ->
   let saved :=
     EventForm.syncConnections
       true eventId (EventForm.relatedConnections eventConnections eventId)
       connectFrom precedingEvent tempKey fresh eventConnections in
   saved = List.filter (fun c => negb (related c)) eventConnections
           ++ List.filter related eventConnections
   /\ saved ≡ₚ eventConnections)
  /\ (forall source, truthy source = true ->
        EventForm.syncConnections false eventId [] (Some source)
                                  precedingEvent tempKey fresh eventConnections
        = List.filter (fun c => negb (related c)) eventConnections
          ++ [mkEventConnection (fresh 0%nat) source eventId]).
Proof.
  intros related.
  assert (forall l : list EventConnection,
             List.filter (fun c => negb (bool_decide (fromEventId c = eventId))
                                   && negb (bool_decide (toEventId c = eventId))) l
             = List.filter (fun c => negb (related c)) l) as Hunrelated.
  { intros l. apply List.filter_ext. intros c. unfold related.
    by rewrite negb_orb. }
  split.
  - intros Hid saved.
    assert (saved = List.filter (fun c => negb (related c)) eventConnections
                    ++ List.filter related eventConnections) as Hsaved.
    { unfold saved, EventForm.syncConnections. cbn [negb andb].
      rewrite app_nil_r, Hunrelated. f_equal.
      by apply newConns_related. }
    split; [done|]. rewrite Hsaved. apply filter_split_Permutation.
  - intros source Hsource. unfold EventForm.syncConnections.
    cbn [negb andb truthyOpt]. rewrite Hsource, Hunrelated. done.
Qed.

(* ====================================================================== *)
(** * Worked examples *)
(* ====================================================================== *)

Module MoreExamples.
(** Two events on consecutive days, one per lane. *)
Definition twoDays : list StoryEvent := [DropExample.evA; DropExample.evB].
(** Three events, two of them on one day in one lane. *)
Definition stacked : list StoryEvent :=
  [C1Example.evC; C1Example.evB; C1Example.evA].
(** An event dated in a thirteenth month. *)
Definition evX : StoryEvent :=
  mkStoryEvent (js "x") (js "2024-13-45 10:00:00") (Some (js "s1")) (Some (js "t1")).
Definition nineOClock : GregorianMatch :=
  mkGregorianMatch (js "2024") (js "02") (js "28")
                   (Some (js "09", js "00", js "00")).
Definition laterEra : jsstring := js "新纪元".
Definition twoEras : list jsstring := [str_anchor; laterEra].
(** Two events of the era before the anchor whose keys are one double. *)
Definition evP : StoryEvent :=
  mkStoryEvent (js "p") (js "传说纪元 3.02") (Some (js "s1")) (Some (js "t1")).
Definition evQ : StoryEvent :=
  mkStoryEvent (js "q") (js "传说纪元 3.01") (Some (js "s1")) (Some (js "t1")).
End MoreExamples.

(** A value that is minus infinity: the key is -Infinity, not NaN. *)
Lemma normalizeDate_not_NaN_witness :
  normalizeDate (js "传说纪元 -Infinity") DateExample.eras = NegInf
  /\ isNaN (normalizeDate (js "传说纪元 -Infinity") DateExample.eras) = false.
Proof.
  split; [vm_compute; reflexivity|].
  apply (normalizeDate_not_NaN (js "传说纪元 -Infinity") DateExample.eras).
  vm_compute. reflexivity.
Defined.

(** The events dated 3.02 and 3.01 of one era have one key and keep their
    order. *)
Lemma sortedEvents_sorted_witness :
  sortedEvents [MoreExamples.evP; MoreExamples.evQ] DateExample.eras
  = [MoreExamples.evP; MoreExamples.evQ]
  /\ StronglySorted
       (fun a b => ~ num_lt (dateKey DateExample.eras b)
                            (dateKey DateExample.eras a))
       (sortedEvents [MoreExamples.evP; MoreExamples.evQ] DateExample.eras).
Proof.
  split; [vm_compute; reflexivity|].
  destruct (sortedEvents_sorted [MoreExamples.evP; MoreExamples.evQ]
              DateExample.eras) as (_ & H & _).
  - vm_compute. reflexivity.
  - exact H.
Defined.

(** A BC date with a fraction, two dates of one era a hundredth apart, and
    the last second of February before the first of March. *)
Lemma keys_keep_order_witness :
  ~ num_lt (normalizeDate (js "公元前 50") DateExample.eras)
           (normalizeDate (js "公元前 100.5") DateExample.eras)
  /\ ~ num_lt (normalizeDate MonotonicExample.legend302 DateExample.eras)
              (normalizeDate MonotonicExample.legend301 DateExample.eras)
  /\ num_lt (normalizeDate (js "2024-02-29 23:59:59") DateExample.eras)
            (normalizeDate (js "2024-03-01") DateExample.eras).
Proof.
  destruct keys_keep_order as (Hbc & Hera & Hgreg).
  split; [|split].
  - apply (Hbc (js "公元前 100.5") (js "公元前 50") DateExample.eras
               (js "100.5") (js "100") (js "5") (js "50") (js "50") []).
    + discriminate.
    + discriminate.
    + vm_compute. reflexivity.
    + vm_compute. reflexivity.
    + split; [repeat constructor|]. split; [discriminate|].
      split; [repeat constructor|]. right. reflexivity.
    + split; [repeat constructor|]. split; [discriminate|].
      split; [constructor|]. left. split; reflexivity.
    + vm_compute. discriminate.
  - apply (Hera MonotonicExample.legend301 MonotonicExample.legend302
                DateExample.eras 0 (js "3.01") (js "3") (js "01")
                (js "3.02") (js "3") (js "02")).
    + split; [discriminate|]. split; [reflexivity|]. split; [reflexivity|].
      eexists. split; reflexivity.
    + split; [discriminate|]. split; [reflexivity|]. split; [reflexivity|].
      eexists. split; reflexivity.
    + split; [repeat constructor|]. split; [discriminate|].
      split; [repeat constructor|]. right. reflexivity.
    + split; [repeat constructor|]. split; [discriminate|].
      split; [repeat constructor|]. right. reflexivity.
    + vm_compute. discriminate.
  - eapply Hgreg.
    + split; [discriminate|]. vm_compute. reflexivity.
    + split; [discriminate|]. vm_compute. reflexivity.
    + by vm_compute.
    + by vm_compute.
    + left. vm_compute. right. split; [done|]. by left.
Defined.

(** The columns of 2024-02-28 and 2024-02-29 start at 20 and at 300. *)
Lemma columns_in_date_order_witness :
  dayColumnGeometries MoreExamples.twoDays DropExample.eras !! js "2024-02-28"
  = Some (mkColumnGeo 20 200)
  /\ dayColumnGeometries MoreExamples.twoDays DropExample.eras !! js "2024-02-29"
     = Some (mkColumnGeo 300 200)
  /\ (20 + 200 + EVENT_GAP <= 300)%Q.
Proof.
  split; [vm_compute; reflexivity|]. split; [vm_compute; reflexivity|].
  apply (columns_in_date_order MoreExamples.twoDays DropExample.eras
           (js "2024-02-28") (js "2024-02-29")
           (mkColumnGeo 20 200) (mkColumnGeo 300 200));
    vm_compute; reflexivity.
Defined.

Lemma layout_inside_canvas_witness :
  let l := C1Example.layoutOf C1Example.evA 20 (40 # 2) "s1" in
  (PADDING_X <= x l)%Q
  /\ (x l + width l <= canvasWidth MoreExamples.stacked C1Example.eras)%Q
  /\ (LANE_VERTICAL_PADDING <= y l)%Q
  /\ (y l + height l + LANE_VERTICAL_PADDING
      <= totalHeight MoreExamples.stacked C1Example.lanes [] C1Example.eras ∅)%Q.
Proof.
  intros l.
  destruct (layout_inside_canvas MoreExamples.stacked C1Example.lanes []
              C1Example.types C1Example.eras ∅ (js "a") l)
    as (H1 & H2 & H3 & H4 & _).
  - vm_compute. reflexivity.
  - repeat split; assumption.
Defined.

Lemma complete_event_is_placed_witness :
  is_Some (eventLayouts MoreExamples.stacked C1Example.lanes [] C1Example.types
                        C1Example.eras ∅ !! js "a").
Proof.
  refine (proj1 (complete_event_is_placed
                   MoreExamples.stacked C1Example.lanes [] C1Example.types
                   C1Example.eras ∅ C1Example.evA (mkStoryline (js "s1"))
                   (mkEventType (js "t1")) _ _ _ _ _ _)).
  - right. right. left.
  - reflexivity.
  - left.
  - reflexivity.
  - left.
  - reflexivity.
Defined.

(** A pointer at (100, 10) is over the first lane and the first column. *)
Lemma drop_inside_column_witness :
  dropTarget MoreExamples.twoDays DropExample.lanes [] DropExample.eras ∅
             DropExample.today DropExample.utcPlus1 100%Q 10%Q
  = Returns (Some (js "s1", js "2024-02-28 09:00:00")).
Proof.
  refine (eq_trans
            (proj1 (drop_inside_column
                      MoreExamples.twoDays DropExample.lanes []
                      DropExample.eras ∅ DropExample.today DropExample.utcPlus1
                      100%Q 10%Q DropExample.s1 (js "2024-02-28")
                      (mkColumnGeo 20 200) _ _ _ _)) _).
  - vm_compute. reflexivity.
  - vm_compute. reflexivity.
  - vm_compute. discriminate.
  - vm_compute. reflexivity.
  - vm_compute. reflexivity.
Defined.

(** The only column is dated 2024-13-45: a drop beyond it fails. *)
Lemma drop_target_throws_witness :
  dropTarget [MoreExamples.evX] DropExample.lanes [] DropExample.eras ∅
             DropExample.today DropExample.utcPlus1 1000%Q 10%Q = Throws
  /\ (forall k g,
         dayColumnGeometries [MoreExamples.evX] DropExample.eras !! k = Some g ->
         (col_x g + col_width g + EVENT_GAP / 2 <= 1000)%Q)
  /\ exists k g1,
       last (sortedUniqueDays [MoreExamples.evX] DropExample.eras) = Some k
       /\ gregorianDayMatch (firstEventDate [MoreExamples.evX] DropExample.eras k)
          = Some g1
       /\ ~ validDay (dayFields g1).
Proof.
  split; [vm_compute; reflexivity|].
  destruct (drop_target_throws [MoreExamples.evX] DropExample.lanes []
              DropExample.eras ∅ DropExample.today DropExample.utcPlus1
              1000%Q 10%Q) as (_ & H1 & H2).
  - vm_compute. reflexivity.
  - split; [exact H1 | exact H2].
Defined.

Lemma date_functions_ignore_padding_witness :
  normalizeDate (js "  2024-02-28 09:00:00 ") DropExample.eras
  = normalizeDate (trim (js "  2024-02-28 09:00:00 ")) DropExample.eras
  /\ getDayKey (js "  2024-02-28 09:00:00 ")
     = getDayKey (trim (js "  2024-02-28 09:00:00 ")).
Proof.
  apply (date_functions_ignore_padding (js "  2024-02-28 09:00:00 ")
           DropExample.eras).
  vm_compute. discriminate.
Defined.

Lemma gregorian_labels_witness :
  getDayKey (js "2024-02-28 09:00:00") = js "2024-02-28"
  /\ formatDisplayDate (js "2024-02-28 09:00:00") DropExample.eras
     = js "2024年02月28日 09:00:00".
Proof.
  destruct (gregorian_labels (js "2024-02-28 09:00:00") MoreExamples.nineOClock
                             DropExample.eras) as (H1 & H2 & H3).
  - split; [discriminate | vm_compute; reflexivity].
  - split; [rewrite H1; vm_compute; reflexivity|].
    rewrite H3, H2. vm_compute. reflexivity.
Defined.



(** Event [b] is dragged over the first column of the first lane. *)
Lemma drag_and_drop_into_column_witness :
  exists ind,
    dragOver MoreExamples.twoDays DropExample.lanes [] DropExample.eras ∅
             DropExample.today DropExample.utcPlus1
             (Some (js "b")) (Some (100%Q, 10%Q)) None
    = Some (Some ind)
    /\ List.map ev_id (handleCanvasDrop (js "b") (Some ind) MoreExamples.twoDays)
       = [js "a"; js "b"].
Proof.
  destruct (drag_and_drop_into_column
              MoreExamples.twoDays DropExample.lanes [] DropExample.eras ∅
              DropExample.today DropExample.utcPlus1 100%Q 10%Q (js "b") None
              DropExample.s1 (js "2024-02-28") (mkColumnGeo 20 200))
    as (lg & ind & _ & H2 & _ & _ & _ & _ & H7 & _).
  - reflexivity.
  - vm_compute. reflexivity.
  - vm_compute. reflexivity.
  - vm_compute. discriminate.
  - vm_compute. reflexivity.
  - exists ind. split; [exact H2|]. rewrite H7. reflexivity.
Defined.

Lemma highlight_chain_witness :
  exists S0 : gset jsstring,
    highlightedEvents ColoringExample.star (Some (js "a")) = Some S0
    /\ js "a" ∈ S0.
Proof.
  destruct (highlight_chain ColoringExample.star (js "a"))
    as (S0 & info & H1 & _ & H3 & _).
  - reflexivity.
  - exists S0. split; [exact H1 | exact H3].
Defined.

(** The second lane starts where the first one ends. *)
Lemma lanes_in_storyline_order_witness :
  exists ga gb,
    laneGeometries MoreExamples.twoDays DropExample.lanes [] DropExample.eras ∅
      !! js "s1" = Some ga
    /\ laneGeometries MoreExamples.twoDays DropExample.lanes [] DropExample.eras ∅
         !! js "s2" = Some gb
    /\ lane_y gb = (lane_y ga + lane_height ga)%Q.
Proof.
  destruct (lanes_in_storyline_order MoreExamples.twoDays DropExample.lanes []
              DropExample.eras ∅) as (_ & H & _).
  - apply (bool_decide_unpack (NoDup (List.map sl_id DropExample.lanes))).
    vm_compute. exact I.
  - exact (H [] DropExample.s1 DropExample.s2 [] eq_refl).
Defined.


(** The key of 2024-02-28 09:00:00 is 1709110800000, nine hours into
    2024-02-28. *)
Lemma gregorian_key_round_trip_witness :
  exists t : Z,
    normalizeDate (js "2024-02-28 09:00:00") DropExample.eras = Num (inject_Z t)
    /\ isoDateOf t = js "2024-02-28"
    /\ TimeWithinDay t = 32400000.
Proof.
  destruct (gregorian_key_round_trip (js "2024-02-28 09:00:00")
              MoreExamples.nineOClock DropExample.eras) as (t & H1 & H2 & H3).
  - split; [discriminate | vm_compute; reflexivity].
  - vm_compute. repeat split; discriminate.
  - exists t. split; [exact H1|]. split; [rewrite H2; vm_compute; reflexivity|].
    exact H3.
Defined.

Module FormExample.
(** 2024, 3, 7 and 9 typed into the year, month, day and hour fields. *)
Definition typed : EventForm.DateParts :=
  EventForm.mkDateParts (js "2024") (js "3") (js "7") (js "9") [] [].
Definition initial : EventForm.DateState :=
  EventForm.mkDateState str_anchor
    (EventForm.mkDateParts [] [] [] [] [] []) false.
End FormExample.

Lemma form_gregorian_date_witness :
  EventForm.finalDate str_anchor FormExample.typed true
  = js "2024-03-07 09:00:00"
  /\ getDayKey (EventForm.finalDate str_anchor FormExample.typed true)
     = js "2024-03-07"
  /\ normalizeDate (EventForm.finalDate str_anchor FormExample.typed true)
                   MoreExamples.twoEras
     = DateUTC 2024 2 7 9 0 0.
Proof.
  split; [vm_compute; reflexivity|].
  destruct (form_gregorian_date FormExample.typed true MoreExamples.twoEras
              FormExample.typed FormExample.initial) as (_ & H1 & H2).
  - split; [repeat constructor | vm_compute; lia].
  - split; [repeat constructor | vm_compute; lia].
  - split; [repeat constructor | vm_compute; lia].
  - split; [repeat constructor | vm_compute; lia].
  - split; [repeat constructor | vm_compute; lia].
  - split; [repeat constructor | vm_compute; lia].
  - constructor; [by exists 20844%N, [20803; 32426; 24180]%N|].
    constructor; [by exists 26032%N, [32426; 20803]%N | constructor].
  - split; [rewrite H1; vm_compute; reflexivity|].
    rewrite H2. vm_compute. reflexivity.
Defined.

Lemma form_era_date_witness :
  EventForm.finalDate MoreExamples.laterEra FormExample.typed true
  = js "新纪元 2024.0307090000".
Proof.
  destruct (form_era_date MoreExamples.laterEra FormExample.typed true
              [str_anchor] [] FormExample.typed FormExample.initial)
    as [H _].
  - vm_compute. discriminate.
  - by exists 26032%N, [32426; 20803]%N.
  - repeat constructor.
  - split; [repeat constructor | vm_compute; lia].
  - split; [repeat constructor | vm_compute; lia].
  - split; [repeat constructor | vm_compute; lia].
  - split; [repeat constructor | vm_compute; lia].
  - split; [repeat constructor | vm_compute; lia].
  - constructor; [vm_compute; reflexivity | constructor].
  - rewrite H. vm_compute. reflexivity.
Defined.

Lemma event_inside_lane_and_column_witness :
  let l := C1Example.layoutOf C1Example.evB 40 (170 # 2) "s1" in
  exists lane column,
    laneGeometries MoreExamples.stacked C1Example.lanes [] C1Example.eras ∅
      !! js "s1" = Some lane
    /\ dayColumnGeometries MoreExamples.stacked C1Example.eras !! js "2020-01-01"
       = Some column
    /\ (lane_y lane + LANE_VERTICAL_PADDING <= y l)%Q
    /\ (x l + width l <= col_x column + col_width column)%Q.
Proof.
  intros l.
  destruct (event_inside_lane_and_column
              MoreExamples.stacked C1Example.lanes [] C1Example.types
              C1Example.eras ∅ (js "b") l)
    as (lane & column & H1 & H2 & _ & _ & H5 & _ & _ & H8).
  - vm_compute. reflexivity.
  - exists lane, column. repeat split; assumption.
Defined.
